(** * Turn classification at road intersections

    A shallow embedding of [TurnHandler] (extractor/guidance/turn_handler.cpp)
    and of the parts of [ConnectedRoad] / [Intersection]
    (extractor/guidance/intersection.cpp) it relies on.

    Conventions of the embedding
    - An [Intersection] (a [std::vector<ConnectedRoad>]) is a [list]; positions
      and iterators are [nat] indices; [v[i]] is the total lookup [v !!! i] and
      a store through [v[i]] is [alter]/[insert] at [i].
    - Angles and bearings are [double] in the source, and the source is
      translated twice.  [Module Double] is the source with the numbers as
      they are in the program: [float], the binary64 numbers of the kernel,
      with the subtraction, the division and the comparisons of the processor.
      The translation at the top level is the same text over exact rationals
      ([Qc], canonical fractions, so that equal numbers are equal terms),
      where [360 - angle] and the quotient are exact and a division by zero
      has its IEEE-754 outcome ([fdiv]): it is what the handler computes where
      no operation rounds.  [classify_on_whole_degrees] shows that the two
      agree on angles and constants that are whole numbers of degrees.  What
      depends only on positions and on the order of the angles is stated on
      the rationals; what depends on the arithmetic is stated on [double].
    - The base class [IntersectionHandler], the graph, the name tables and the
      constants of [constants.hpp] are not part of the translated files; they
      are the members of the classes [IntersectionHandler] and [Constants]. *)

From Stdlib Require Import QArith Qcanon Qcabs Qabs Lqa Lia.
From Stdlib Require Import Floats.
From stdpp Require Import base list numbers.

Local Open Scope Qc_scope.

(** ** Numbers *)

(** A whole number of degrees. *)
Definition deg (z : Z) : Qc := Qc_of_Z z.

(** [std::numeric_limits<double>::epsilon()], that is 2^-52. *)
Definition epsilon : Qc := Q2Qc (1 # 4503599627370496).

Definition Qcltb (x y : Qc) : bool := bool_decide (x < y).
Definition Qcleb (x y : Qc) : bool := bool_decide (x ≤ y).
Definition Qceqb (x y : Qc) : bool := bool_decide (x = y).
Infix "<?" := Qcltb : Qc_scope.
Infix "<=?" := Qcleb : Qc_scope.
Infix "=?" := Qceqb : Qc_scope.
Notation "x >? y" := (Qcltb y x) (only parsing) : Qc_scope.
Notation "x >=? y" := (Qcleb y x) (only parsing) : Qc_scope.

(** [std::min]: the first argument unless the second is smaller. *)
Definition Qcmin (x y : Qc) : Qc := if decide (y < x) then y else x.

(** Modelled from the spec: [util::angularDeviation] (util/bearing.hpp is not
    among the translated files) "returns the smaller of |a−b| and 360−|a−b|". *)
Definition angularDeviation (angle from : Qc) : Qc :=
  let deviation := Qcabs (angle - from) in
  Qcmin (deg 360 - deviation) deviation.

(** The value of a division on the rationals: the exact quotient when the
    divisor is not zero, an infinity or a NaN when it is (IEEE-754).  The
    rounded division of the program is [Double]'s. *)
Inductive quotient : Type :=
  | Finite (q : Qc)
  | PosInf
  | NegInf
  | NaN.

Definition fdiv (x y : Qc) : quotient :=
  if decide (y = 0) then
    if decide (x = 0) then NaN else if decide (0 < x) then PosInf else NegInf
  else Finite (x / y).

(** [q > c] for a quotient [q]: every comparison with a NaN is false. *)
Definition quotient_gt (q : quotient) (c : Qc) : bool :=
  match q with
  | Finite v => v >? c
  | PosInf => true
  | NegInf => false
  | NaN => false
  end.

(** ** Turn instructions *)

Module DirectionModifier.

(** Modelled from the spec: the enumeration of guidance/turn_instruction.hpp,
    in the order the spec lists it (the order indexes [mirrored_modifiers]). *)
Inductive Enum : Set :=
  | UTurn
  | SharpRight
  | Right
  | SlightRight
  | Straight
  | SlightLeft
  | Left
  | SharpLeft.

Definition to_nat (m : Enum) : nat :=
  match m with
  | UTurn => 0
  | SharpRight => 1
  | Right => 2
  | SlightRight => 3
  | Straight => 4
  | SlightLeft => 5
  | Left => 6
  | SharpLeft => 7
  end.

Definition MaxDirectionModifier : nat := 8.

Definition eqb (a b : Enum) : bool := Nat.eqb (to_nat a) (to_nat b).

End DirectionModifier.

Module TurnType.

(** Modelled from the spec: the turn types the spec names, and [Invalid], the
    type of the instruction a road carries before it is classified. *)
Inductive Enum : Set :=
  | Invalid
  | NewName
  | Continue
  | Turn
  | Fork
  | EndOfRoad
  | Notification
  | OnRamp.

Definition eqb (a b : Enum) : bool :=
  match a, b with
  | Invalid, Invalid | NewName, NewName | Continue, Continue | Turn, Turn
  | Fork, Fork | EndOfRoad, EndOfRoad | Notification, Notification
  | OnRamp, OnRamp => true
  | _, _ => false
  end.

End TurnType.

Record TurnInstruction : Set := mkTurnInstruction {
  type : TurnType.Enum;
  direction_modifier : DirectionModifier.Enum
}.

(** The instruction of a road that no handler has looked at. *)
Definition default_instruction : TurnInstruction :=
  mkTurnInstruction TurnType.Invalid DirectionModifier.UTurn.

(** ** Connected roads and intersections *)

Definition EdgeID := nat.
Definition NameID := nat.
Definition LaneDataID := nat.

Record ConnectedRoad : Type := mkConnectedRoad {
  eid : EdgeID;
  angle : Qc;
  bearing : Qc;
  entry_allowed : bool;
  instruction : TurnInstruction;
  lane_data_id : LaneDataID
}.

(** [road.instruction = t] *)
Definition with_instruction (t : TurnInstruction) (r : ConnectedRoad) : ConnectedRoad :=
  mkConnectedRoad (eid r) (angle r) (bearing r) (entry_allowed r) t (lane_data_id r).

Definition compareByAngle (r other : ConnectedRoad) : bool := angle r <? angle other.

Definition mirrored_modifiers : list DirectionModifier.Enum :=
  [ DirectionModifier.UTurn;
    DirectionModifier.SharpLeft;
    DirectionModifier.Left;
    DirectionModifier.SlightLeft;
    DirectionModifier.Straight;
    DirectionModifier.SlightRight;
    DirectionModifier.Right;
    DirectionModifier.SharpRight ].

(** [ConnectedRoad::mirror], with [360 - angle] exact.  The rounded
    subtraction of the program is [Double.mirror]'s. *)
Definition mirror (r : ConnectedRoad) : ConnectedRoad :=
  if angularDeviation (angle r) 0 >? epsilon then
    mkConnectedRoad (eid r) (deg 360 - angle r) (bearing r) (entry_allowed r)
      (mkTurnInstruction (type (instruction r))
         (nth (DirectionModifier.to_nat (direction_modifier (instruction r)))
              mirrored_modifiers DirectionModifier.UTurn))
      (lane_data_id r)
  else r.

(** [ConnectedRoad::getMirroredCopy] *)
Definition getMirroredCopy (r : ConnectedRoad) : ConnectedRoad := mirror r.

(** [Intersection]: a [std::vector<ConnectedRoad>]. *)
Abbreviation Intersection := (list ConnectedRoad).

Global Instance ConnectedRoad_inhabited : Inhabited ConnectedRoad :=
  populate (mkConnectedRoad 0%nat 0 0 false default_instruction 0%nat).

(** [std::is_sorted] with the comparison [cmp]: no element is smaller than
    its predecessor. *)
Fixpoint is_sorted {A} (cmp : A → A → bool) (l : list A) : bool :=
  match l with
  | x :: rest =>
      match rest with
      | y :: _ => negb (cmp y x) && is_sorted cmp rest
      | [] => true
      end
  | [] => true
  end.

(** [Intersection::valid] *)
Definition valid (intersection : Intersection) : bool :=
  negb (bool_decide (intersection = [])) &&
  is_sorted compareByAngle intersection &&
  (angle (intersection !!! 0%nat) <? epsilon).

(** [Intersection::hasValidEntries]: the roads [first .. last], both ends
    included, all allow entry. *)
Definition hasValidEntries (intersection : Intersection) (first last : nat) : bool :=
  forallb (λ i, entry_allowed (intersection !!! i)) (seq first (S last - first)).

(** [intersection[i].instruction = t] *)
Definition set_instruction (intersection : Intersection) (i : nat) (t : TurnInstruction)
  : Intersection :=
  alter (with_instruction t) i intersection.

(** ** What the handler is given *)

Record RoadClassification : Set := mkRoadClassification {
  GetPriority : nat;
  IsLinkClass : bool
}.

Record EdgeData : Set := mkEdgeData {
  road_classification : RoadClassification;
  name_id : NameID
}.

(** The constants of extractor/guidance/constants.hpp whose values the
    translated files do not show. *)
Class Constants : Type := mkConstants {
  NARROW_TURN_ANGLE : Qc;
  GROUP_ANGLE : Qc;
  FUZZY_ANGLE_DIFFERENCE : Qc;
  MAXIMAL_ALLOWED_NO_TURN_DEVIATION : Qc
}.

(** Modelled from the spec: [STRAIGHT_ANGLE = 180] and
    [INCREASES_BY_FOURTY_PERCENT = 1.4] (constants.hpp). *)
Definition STRAIGHT_ANGLE : Qc := deg 180.
Definition INCREASES_BY_FOURTY_PERCENT : Qc := Q2Qc (14 # 10).

(** Modelled from the spec: a [Fork] instruction across two or three roads is
    what [assignFork] computes; it stores into the [instruction] members of the
    roads it is given, so its result is one instruction per road, from the left
    road to the right one. *)
Definition ForkOfTwo : Type := TurnInstruction * TurnInstruction.
Definition ForkOfThree : Type := TurnInstruction * TurnInstruction * TurnInstruction.

(** The members of the base class [IntersectionHandler] and the free functions
    of the guidance toolkit that [TurnHandler] calls: the graph's edge data,
    the name tables behind [requiresNameAnnounced], and the basic turn
    utilities. *)
Class IntersectionHandler : Type := mkIntersectionHandler {
  GetEdgeData : EdgeID → EdgeData;
  EMPTY_NAMEID : NameID;
  requiresNameAnnounced : NameID → NameID → bool;
  obviousByRoadClass : RoadClassification → RoadClassification → RoadClassification → bool;
  canBeSeenAsFork : RoadClassification → RoadClassification → bool;
  getTurnDirection : Qc → DirectionModifier.Enum;
  findBasicTurnType : EdgeID → ConnectedRoad → TurnType.Enum;
  findObviousTurn : EdgeID → Intersection → nat;
  getInstructionForObvious : nat → EdgeID → bool → ConnectedRoad → TurnInstruction;
  isThroughStreet : nat → Intersection → bool;
  assignFork : EdgeID → ConnectedRoad → ConnectedRoad → ForkOfTwo;
  assignFork3 : EdgeID → ConnectedRoad → ConnectedRoad → ConnectedRoad → ForkOfThree
}.

Module Fork.

(** [TurnHandler::Fork]: the positions of the rightmost and of the leftmost
    road of a fork, and the number of roads from one to the other. *)
Record t : Set := mk {
  right : nat;
  left : nat;
  size : nat
}.

(** [Fork::Fork(right, left)] *)
Definition make (right left : nat) : t := mk right left (left - right + 1).

End Fork.

Record StraightestTurnAtIntersection : Type := mkStraightestTurnAtIntersection {
  id : nat;
  deviation_from_straight : Qc
}.

(** [std::adjacent_find]: the offset of the first element that, with its
    successor, satisfies [p]. *)
Fixpoint adjacent_find {A} (p : A → A → bool) (l : list A) : option nat :=
  match l with
  | x :: rest =>
      match rest with
      | y :: _ => if p x y then Some 0%nat else S <$> adjacent_find p rest
      | [] => None
      end
  | [] => None
  end.

Section TurnHandler.
Context `{K : Constants} `{B : IntersectionHandler}.

Definition isOutermostForkCandidate (road1 road2 : ConnectedRoad) : bool :=
  let angle_between_next_road_and_straight := angularDeviation (angle road2) STRAIGHT_ANGLE in
  let angle_between_prev_road_and_next := angularDeviation (angle road1) (angle road2) in
  let angle_between_prev_road_and_straight := angularDeviation (angle road1) STRAIGHT_ANGLE in
  if angle_between_next_road_and_straight >? NARROW_TURN_ANGLE then
    if (angle_between_prev_road_and_next >? NARROW_TURN_ANGLE) ||
       (angle_between_prev_road_and_straight >? GROUP_ANGLE)
    then true
    else false
  else false.

Definition isEndOfRoad (_ possible_right_turn possible_left_turn : ConnectedRoad) : bool :=
  (angularDeviation (angle possible_right_turn) (deg 90) <? NARROW_TURN_ANGLE) &&
  (angularDeviation (angle possible_left_turn) (deg 270) <? NARROW_TURN_ANGLE) &&
  (angularDeviation (angle possible_right_turn) (angle possible_left_turn) >?
     2 * NARROW_TURN_ANGLE).

(** [findOutermostForkCandidate(start, end)] on the range [range]: the offset
    from [start] of the outermost candidate, the last road of the range when
    every road is part of the fork. *)
Definition findOutermostForkCandidate (range : list ConnectedRoad) : nat :=
  match adjacent_find isOutermostForkCandidate range with
  | Some outermost => outermost
  | None => length range - 1
  end.

Definition findClosestToStraight (intersection : Intersection)
  : StraightestTurnAtIntersection :=
  fold_left
    (λ (st : StraightestTurnAtIntersection) (i : nat),
       let deviation := angularDeviation (angle (intersection !!! i)) STRAIGHT_ANGLE in
       if entry_allowed (intersection !!! i) && (deviation <? deviation_from_straight st)
       then mkStraightestTurnAtIntersection i deviation
       else st)
    (seq 1 (length intersection - 1))
    (mkStraightestTurnAtIntersection 0 (deg 180)).

(** [TurnHandler::handleOneWayTurn] *)
Definition handleOneWayTurn (intersection : Intersection) : Intersection := intersection.

(** [TurnHandler::handleTwoWayTurn] *)
Definition handleTwoWayTurn (via_edge : EdgeID) (intersection : Intersection)
  : Intersection :=
  set_instruction intersection 1
    (getInstructionForObvious (length intersection) via_edge false (intersection !!! 1%nat)).

(** [TurnHandler::isObviousOfTwo] *)
Definition isObviousOfTwo (via_edge : EdgeID) (road other : ConnectedRoad) : bool :=
  let via_data := GetEdgeData via_edge in
  let road_data := GetEdgeData (eid road) in
  let other_data := GetEdgeData (eid other) in
  let via_classification := road_classification via_data in
  let road_classification' := road_classification road_data in
  let other_classification := road_classification other_data in
  if obviousByRoadClass via_classification road_classification' other_classification then true
  else if obviousByRoadClass via_classification other_classification road_classification'
  then false
  else
    let turn_is_perfectly_straight :=
      angularDeviation (angle road) STRAIGHT_ANGLE <? epsilon in
    let same_name := negb (requiresNameAnnounced (name_id via_data) (name_id road_data)) in
    if turn_is_perfectly_straight &&
       negb (Nat.eqb (name_id via_data) EMPTY_NAMEID) && same_name
    then true
    else
      let is_much_narrower_than_other :=
        quotient_gt
          (fdiv (angularDeviation (angle other) STRAIGHT_ANGLE)
                (angularDeviation (angle road) STRAIGHT_ANGLE))
          INCREASES_BY_FOURTY_PERCENT &&
        (angularDeviation (angularDeviation (angle other) STRAIGHT_ANGLE)
                          (angularDeviation (angle road) STRAIGHT_ANGLE) >?
           FUZZY_ANGLE_DIFFERENCE) in
      is_much_narrower_than_other.

(** [TurnHandler::hasObvious] *)
Definition hasObvious (via_edge : EdgeID) (intersection : Intersection) (fork : Fork.t)
  : bool :=
  existsb
    (λ road,
       isObviousOfTwo via_edge (intersection !!! road) (intersection !!! S road) ||
       isObviousOfTwo via_edge (intersection !!! S road) (intersection !!! road))
    (seq (Fork.right fork) (Fork.left fork - Fork.right fork)).

(** [TurnHandler::findLeftAndRightmostForkCandidates].  The reverse range
    [rend() - id - 1 .. rend()] holds the roads [id], [id - 1], ..., [0]. *)
Definition findLeftAndRightmostForkCandidates (intersection : Intersection)
  : option Fork.t :=
  if bool_decide (3 ≤ length intersection)%nat then
    let straightest := findClosestToStraight intersection in
    if deviation_from_straight straightest <=? NARROW_TURN_ANGLE then
      let right :=
        findOutermostForkCandidate (reverse (take (S (id straightest)) intersection)) in
      let right_index := (id straightest - right)%nat in
      let forward_right := right_index in
      let left :=
        (id straightest + findOutermostForkCandidate (drop (id straightest) intersection))%nat in
      if bool_decide (forward_right < left)%nat &&
         bool_decide (left - forward_right + 1 ≤ 3)%nat
      then Some (Fork.make forward_right left)
      else None
    else None
  else None.

(** [TurnHandler::isCompatibleByRoadClass] *)
Definition isCompatibleByRoadClass (intersection : Intersection) (fork : Fork.t) : bool :=
  let class_of (road : ConnectedRoad) := road_classification (GetEdgeData (eid road)) in
  let via_class := class_of (intersection !!! 0%nat) in
  let is_right_link_class := IsLinkClass (class_of (intersection !!! Fork.right fork)) in
  if negb (forallb
             (λ road, Bool.eqb is_right_link_class
                        (IsLinkClass (class_of (intersection !!! road))))
             (seq (S (Fork.right fork)) (Fork.left fork - Fork.right fork)))
  then false
  else
    forallb
      (λ base,
         let base_class := class_of (intersection !!! base) in
         forallb
           (λ compare,
              let compare_class := class_of (intersection !!! compare) in
              negb (obviousByRoadClass via_class base_class compare_class) ||
              Nat.eqb (eid (intersection !!! compare)) (eid (intersection !!! base)))
           (seq (Fork.right fork) (S (Fork.left fork) - Fork.right fork)))
      (seq (Fork.right fork) (S (Fork.left fork) - Fork.right fork)).

(** [TurnHandler::findFork].  [fork->right - 1] is read at the position before
    [right]; for [right = 0] the source has no such road (the lemma
    [findFork_candidates_bounds] excludes the case for the intersections the
    handler is meant for). *)
Definition findFork (via_edge : EdgeID) (intersection : Intersection) : option Fork.t :=
  match findLeftAndRightmostForkCandidates intersection with
  | Some fork =>
      let next :=
        if Nat.eqb (S (Fork.left fork)) (length intersection) then 0%nat
        else S (Fork.left fork) in
      let separated_at_left_side :=
        angularDeviation (angle (intersection !!! Fork.left fork))
                         (angle (intersection !!! next)) >=? GROUP_ANGLE in
      let separated_at_right_side :=
        angularDeviation (angle (intersection !!! Fork.right fork))
                         (angle (intersection !!! (Fork.right fork - 1)%nat)) >=? GROUP_ANGLE in
      let has_obvious := hasObvious via_edge intersection fork in
      let has_compatible_classes := isCompatibleByRoadClass intersection fork in
      let only_valid_entries :=
        hasValidEntries intersection (Fork.right fork) (Fork.left fork) in
      if separated_at_left_side && separated_at_right_side && negb has_obvious &&
         has_compatible_classes && only_valid_entries
      then Some fork
      else None
  | None => None
  end.

(** Modelled from the spec: [assignTrivialTurns(via, i, from, to)] of the
    base class (not among the translated files): "every road gets
    {findBasicTurnType, getTurnDirection(angle)}", for the roads [from .. to),
    the end excluded. *)
Definition assignTrivialTurns (via_edge : EdgeID) (intersection : Intersection)
    (begin end_ : nat) : Intersection :=
  fold_left
    (λ (intersection : Intersection) (index : nat),
       set_instruction intersection index
         (mkTurnInstruction (findBasicTurnType via_edge (intersection !!! index))
                            (getTurnDirection (angle (intersection !!! index)))))
    (seq begin (end_ - begin))
    intersection.

(** [TurnHandler::handleDistinctConflict] takes the two roads by reference and
    stores into their [instruction]; it is modelled as the function from the
    two roads to the two roads it leaves.  Its body has three parts, in this
    order: the roads of which one is invalid or whose angles are equal, *)
Definition conflict_of_invalid_or_identical (via_edge : EdgeID) (left right : ConnectedRoad)
  : ConnectedRoad * ConnectedRoad :=
  let left :=
    if entry_allowed left
    then with_instruction
           (mkTurnInstruction (findBasicTurnType via_edge left)
                              (getTurnDirection (angle left))) left
    else left in
  let right :=
    if entry_allowed right
    then with_instruction
           (mkTurnInstruction (findBasicTurnType via_edge right)
                              (getTurnDirection (angle right))) right
    else right in
  (left, right).

(** the block guarded by "left is straight or slightly left, or right is
    slightly right" (a fork, or the road of the higher class wins), which has
    no [return], *)
Definition conflict_by_road_class (via_edge : EdgeID) (left right : ConnectedRoad)
  : ConnectedRoad * ConnectedRoad :=
  if DirectionModifier.eqb (getTurnDirection (angle left)) DirectionModifier.Straight ||
     DirectionModifier.eqb (getTurnDirection (angle left)) DirectionModifier.SlightLeft ||
     DirectionModifier.eqb (getTurnDirection (angle right)) DirectionModifier.SlightRight
  then
    let left_classification := road_classification (GetEdgeData (eid left)) in
    let right_classification := road_classification (GetEdgeData (eid right)) in
    if canBeSeenAsFork left_classification right_classification then
      let '(left_instruction, right_instruction) := assignFork via_edge left right in
      (with_instruction left_instruction left, with_instruction right_instruction right)
    else if Nat.ltb (GetPriority right_classification) (GetPriority left_classification)
    then
      let right := with_instruction (getInstructionForObvious 4 via_edge false right) right in
      let left :=
        with_instruction
          (mkTurnInstruction (findBasicTurnType via_edge left) DirectionModifier.SlightLeft)
          left in
      (left, right)
    else
      let left := with_instruction (getInstructionForObvious 4 via_edge false left) left in
      let right :=
        with_instruction
          (mkTurnInstruction (findBasicTurnType via_edge right) DirectionModifier.SlightRight)
          right in
      (left, right)
  else (left, right).

(** and the chain of tests on the angles, every one of which stores into both
    roads. *)
Definition conflict_by_angle (via_edge : EdgeID) (left right : ConnectedRoad)
  : ConnectedRoad * ConnectedRoad :=
  let left_type := findBasicTurnType via_edge left in
  let right_type := findBasicTurnType via_edge right in
  let assign (left_modifier right_modifier : DirectionModifier.Enum) :=
    (with_instruction (mkTurnInstruction left_type left_modifier) left,
     with_instruction (mkTurnInstruction right_type right_modifier) right) in
  if angularDeviation (angle left) (deg 90) <? MAXIMAL_ALLOWED_NO_TURN_DEVIATION then
    assign DirectionModifier.Right DirectionModifier.SharpRight
  else if angularDeviation (angle right) (deg 90) <? MAXIMAL_ALLOWED_NO_TURN_DEVIATION then
    assign DirectionModifier.SlightRight DirectionModifier.Right
  else if angularDeviation (angle left) (deg 270) <? MAXIMAL_ALLOWED_NO_TURN_DEVIATION then
    assign DirectionModifier.Left DirectionModifier.SlightLeft
  else if angularDeviation (angle right) (deg 270) <? MAXIMAL_ALLOWED_NO_TURN_DEVIATION then
    assign DirectionModifier.SharpLeft DirectionModifier.Left
  else if DirectionModifier.eqb (getTurnDirection (angle left)) DirectionModifier.SharpLeft then
    assign DirectionModifier.SharpLeft DirectionModifier.Left
  else if DirectionModifier.eqb (getTurnDirection (angle right)) DirectionModifier.SharpRight then
    assign DirectionModifier.Right DirectionModifier.SharpRight
  else if DirectionModifier.eqb (getTurnDirection (angle left)) DirectionModifier.Right then
    if angularDeviation (angle left) (deg 85) >=? angularDeviation (angle right) (deg 85)
    then assign DirectionModifier.Right DirectionModifier.SharpRight
    else assign DirectionModifier.SlightRight DirectionModifier.Right
  else
    if angularDeviation (angle left) (deg 265) >=? angularDeviation (angle right) (deg 265)
    then assign DirectionModifier.SharpLeft DirectionModifier.Left
    else assign DirectionModifier.Left DirectionModifier.SlightLeft.

Definition handleDistinctConflict (via_edge : EdgeID) (left right : ConnectedRoad)
  : ConnectedRoad * ConnectedRoad :=
  if negb (entry_allowed left) || negb (entry_allowed right) || (angle left =? angle right)
  then conflict_of_invalid_or_identical via_edge left right
  else
    let '(left', right') := conflict_by_road_class via_edge left right in
    conflict_by_angle via_edge left' right'.

(** [handleDistinctConflict(via_edge, intersection[left], intersection[right])]:
    the call on two roads of the intersection, and the stores it makes. *)
Definition handleDistinctConflictAt (via_edge : EdgeID) (intersection : Intersection)
    (left right : nat) : Intersection :=
  let '(left_road, right_road) :=
    handleDistinctConflict via_edge (intersection !!! left) (intersection !!! right) in
  <[right := right_road]> (<[left := left_road]> intersection).

(** [TurnHandler::assignRightTurns] *)
Definition assignRightTurns (via_edge : EdgeID) (intersection : Intersection) (up_to : nat)
  : Intersection :=
  let count_valid :=
    length (filter (λ i, entry_allowed (intersection !!! i) = true) (seq 1 (up_to - 1))) in
  let basic (i : nat) (modifier : DirectionModifier.Enum) (intersection : Intersection) :=
    set_instruction intersection i
      (mkTurnInstruction (findBasicTurnType via_edge (intersection !!! i)) modifier) in
  if bool_decide (up_to ≤ 1)%nat || Nat.eqb count_valid 0 then intersection
  else if Nat.eqb up_to 2 then assignTrivialTurns via_edge intersection 1 up_to
  else if Nat.eqb up_to 3 then
    let first_direction := getTurnDirection (angle (intersection !!! 1%nat)) in
    let second_direction := getTurnDirection (angle (intersection !!! 2%nat)) in
    if DirectionModifier.eqb first_direction second_direction
    then handleDistinctConflictAt via_edge intersection 2 1
    else assignTrivialTurns via_edge intersection 1 up_to
  else if Nat.eqb up_to 4 then
    let first_direction := getTurnDirection (angle (intersection !!! 1%nat)) in
    let second_direction := getTurnDirection (angle (intersection !!! 2%nat)) in
    let third_direction := getTurnDirection (angle (intersection !!! 3%nat)) in
    if negb (DirectionModifier.eqb first_direction second_direction) &&
       negb (DirectionModifier.eqb second_direction third_direction)
    then assignTrivialTurns via_edge intersection 1 up_to
    else if bool_decide
              (Nat.b2n (entry_allowed (intersection !!! 1%nat)) +
               Nat.b2n (entry_allowed (intersection !!! 2%nat)) +
               Nat.b2n (entry_allowed (intersection !!! 3%nat)) ≤ 2)%nat
    then
      if negb (entry_allowed (intersection !!! 3%nat))
      then handleDistinctConflictAt via_edge intersection 2 1
      else if negb (entry_allowed (intersection !!! 1%nat))
      then handleDistinctConflictAt via_edge intersection 3 2
      else handleDistinctConflictAt via_edge intersection 3 1
    else if (angularDeviation (angle (intersection !!! 1%nat)) (angle (intersection !!! 2%nat))
               >=? NARROW_TURN_ANGLE) &&
            (angularDeviation (angle (intersection !!! 2%nat)) (angle (intersection !!! 3%nat))
               >=? NARROW_TURN_ANGLE)
    then
      basic 3%nat DirectionModifier.SlightRight
        (basic 2%nat DirectionModifier.Right
           (basic 1%nat DirectionModifier.SharpRight intersection))
    else if (DirectionModifier.eqb first_direction second_direction &&
             DirectionModifier.eqb second_direction third_direction) ||
            (DirectionModifier.eqb first_direction second_direction &&
             (angularDeviation (angle (intersection !!! 2%nat))
                               (angle (intersection !!! 3%nat)) <? GROUP_ANGLE)) ||
            (DirectionModifier.eqb second_direction third_direction &&
             (angularDeviation (angle (intersection !!! 1%nat))
                               (angle (intersection !!! 2%nat)) <? GROUP_ANGLE))
    then assignTrivialTurns via_edge intersection 1 up_to
    else if (DirectionModifier.eqb first_direction second_direction &&
             (angularDeviation (angle (intersection !!! 2%nat))
                               (angle (intersection !!! 3%nat)) >=? GROUP_ANGLE)) ||
            (DirectionModifier.eqb second_direction third_direction &&
             (angularDeviation (angle (intersection !!! 1%nat))
                               (angle (intersection !!! 2%nat)) >=? GROUP_ANGLE))
    then
      if angularDeviation (angle (intersection !!! 2%nat)) (angle (intersection !!! 3%nat))
           >=? GROUP_ANGLE
      then
        basic 3%nat third_direction (handleDistinctConflictAt via_edge intersection 2 1)
      else
        handleDistinctConflictAt via_edge (basic 1%nat first_direction intersection) 3 2
    else assignTrivialTurns via_edge intersection 1 up_to
  else assignTrivialTurns via_edge intersection 1 up_to.

(** The lambda [switch_left_and_right] of [assignLeftTurns]: every road is
    mirrored, then the roads behind the first one are reversed. *)
Definition switch_left_and_right (intersection : Intersection) : Intersection :=
  let mirrored := mirror <$> intersection in
  take 1 mirrored ++ reverse (drop 1 mirrored).

(** [TurnHandler::assignLeftTurns].  [count] is [size() - starting_at + 1] on
    [std::size_t]. *)
Definition assignLeftTurns (via_edge : EdgeID) (intersection : Intersection)
    (starting_at : nat) : Intersection :=
  let intersection := switch_left_and_right intersection in
  let count := (length intersection + 1 - starting_at)%nat in
  let intersection := assignRightTurns via_edge intersection count in
  switch_left_and_right intersection.

(** [assignFork(via_edge, intersection[left], intersection[right])] and the
    stores it makes. *)
Definition assignForkAt (via_edge : EdgeID) (intersection : Intersection) (left right : nat)
  : Intersection :=
  let '(left_instruction, right_instruction) :=
    assignFork via_edge (intersection !!! left) (intersection !!! right) in
  set_instruction (set_instruction intersection left left_instruction) right right_instruction.

(** The same for the fork of three roads. *)
Definition assignFork3At (via_edge : EdgeID) (intersection : Intersection)
    (left center right : nat) : Intersection :=
  let '(left_instruction, center_instruction, right_instruction) :=
    assignFork3 via_edge (intersection !!! left) (intersection !!! center)
                (intersection !!! right) in
  set_instruction
    (set_instruction (set_instruction intersection left left_instruction)
       center center_instruction)
    right right_instruction.

(** [TurnHandler::handleThreeWayTurn] *)
Definition handleThreeWayTurn (via_edge : EdgeID) (intersection : Intersection)
  : Intersection :=
  let obvious_index := findObviousTurn via_edge intersection in
  let fork := findFork via_edge intersection in
  let end_of_road (i : nat) (modifier : DirectionModifier.Enum) (intersection : Intersection) :=
    if entry_allowed (intersection !!! i) then
      if negb (TurnType.eqb TurnType.OnRamp (findBasicTurnType via_edge (intersection !!! i)))
      then set_instruction intersection i (mkTurnInstruction TurnType.EndOfRoad modifier)
      else set_instruction intersection i (mkTurnInstruction TurnType.OnRamp modifier)
    else intersection in
  let basic (i : nat) (modifier : DirectionModifier.Enum) (intersection : Intersection) :=
    set_instruction intersection i
      (mkTurnInstruction (findBasicTurnType via_edge (intersection !!! i)) modifier) in
  match fork, Nat.eqb obvious_index 0 with
  | Some fork, true => assignForkAt via_edge intersection (Fork.left fork) (Fork.right fork)
  | _, _ =>
      if isEndOfRoad (intersection !!! 0%nat) (intersection !!! 1%nat) (intersection !!! 2%nat)
         && Nat.eqb obvious_index 0
      then
        end_of_road 2%nat DirectionModifier.Left
          (end_of_road 1%nat DirectionModifier.Right intersection)
      else if negb (Nat.eqb obvious_index 0) then
        let direction_at_one := getTurnDirection (angle (intersection !!! 1%nat)) in
        let direction_at_two := getTurnDirection (angle (intersection !!! 2%nat)) in
        if Nat.eqb obvious_index 1 then
          let intersection :=
            set_instruction intersection 1
              (getInstructionForObvious 3 via_edge (isThroughStreet 1 intersection)
                 (intersection !!! 1%nat)) in
          let second_direction :=
            if DirectionModifier.eqb direction_at_one direction_at_two &&
               DirectionModifier.eqb direction_at_two DirectionModifier.Straight
            then DirectionModifier.SlightLeft
            else direction_at_two in
          basic 2%nat second_direction intersection
        else
          let intersection :=
            set_instruction intersection 2
              (getInstructionForObvious 3 via_edge (isThroughStreet 2 intersection)
                 (intersection !!! 2%nat)) in
          let first_direction :=
            if DirectionModifier.eqb direction_at_one direction_at_two &&
               DirectionModifier.eqb direction_at_one DirectionModifier.Straight
            then DirectionModifier.SlightRight
            else direction_at_one in
          basic 1%nat first_direction intersection
      else
        basic 2%nat (getTurnDirection (angle (intersection !!! 2%nat)))
          (basic 1%nat (getTurnDirection (angle (intersection !!! 1%nat))) intersection)
  end.

(** [TurnHandler::handleComplexTurn] *)
Definition handleComplexTurn (via_edge : EdgeID) (intersection : Intersection)
  : Intersection :=
  let obvious_index := findObviousTurn via_edge intersection in
  let fork := findFork via_edge intersection in
  let straightmost := findClosestToStraight intersection in
  let basic (i : nat) (modifier : DirectionModifier.Enum) (intersection : Intersection) :=
    set_instruction intersection i
      (mkTurnInstruction (findBasicTurnType via_edge (intersection !!! i)) modifier) in
  if negb (Nat.eqb obvious_index 0) then
    let intersection :=
      set_instruction intersection obvious_index
        (getInstructionForObvious (length intersection) via_edge
           (isThroughStreet obvious_index intersection) (intersection !!! obvious_index)) in
    let intersection := assignLeftTurns via_edge intersection (obvious_index + 1) in
    assignRightTurns via_edge intersection obvious_index
  else
    match fork with
    | Some fork =>
        let intersection :=
          if Nat.eqb (Fork.size fork) 2 then
            let left_classification :=
              road_classification (GetEdgeData (eid (intersection !!! Fork.left fork))) in
            let right_classification :=
              road_classification (GetEdgeData (eid (intersection !!! Fork.right fork))) in
            if canBeSeenAsFork left_classification right_classification then
              assignForkAt via_edge intersection (Fork.left fork) (Fork.right fork)
            else if Nat.ltb (GetPriority right_classification)
                            (GetPriority left_classification)
            then
              basic (Fork.left fork) DirectionModifier.SlightLeft
                (set_instruction intersection (Fork.right fork)
                   (getInstructionForObvious (length intersection) via_edge false
                      (intersection !!! Fork.right fork)))
            else
              basic (Fork.right fork) DirectionModifier.SlightRight
                (set_instruction intersection (Fork.left fork)
                   (getInstructionForObvious (length intersection) via_edge false
                      (intersection !!! Fork.left fork)))
          else if Nat.eqb (Fork.size fork) 3 then
            assignFork3At via_edge intersection (Fork.left fork) (Fork.right fork + 1)
              (Fork.right fork)
          else intersection in
        let left_index := Fork.left fork in
        let right_index := Fork.right fork in
        let intersection := assignLeftTurns via_edge intersection (left_index + 1) in
        assignRightTurns via_edge intersection right_index
    | None =>
        if (deviation_from_straight straightmost <? FUZZY_ANGLE_DIFFERENCE) &&
           negb (entry_allowed (intersection !!! id straightmost))
        then
          let intersection := assignLeftTurns via_edge intersection (id straightmost + 1) in
          assignRightTurns via_edge intersection (id straightmost)
        else if angle (intersection !!! id straightmost) >? deg 180 then
          let intersection := assignLeftTurns via_edge intersection (id straightmost) in
          assignRightTurns via_edge intersection (id straightmost)
        else if angle (intersection !!! id straightmost) <? deg 180 then
          let intersection := assignLeftTurns via_edge intersection (id straightmost + 1) in
          assignRightTurns via_edge intersection (id straightmost + 1)
        else assignTrivialTurns via_edge intersection 1 (length intersection)
    end.

(** [TurnHandler::operator()], the classifier (the spec's [classify]). *)
Definition classify (via_edge : EdgeID) (intersection : Intersection) : Intersection :=
  if Nat.eqb (length intersection) 1 then handleOneWayTurn intersection
  else
    let intersection :=
      if entry_allowed (intersection !!! 0%nat)
      then set_instruction intersection 0
             (mkTurnInstruction (findBasicTurnType via_edge (intersection !!! 0%nat))
                                DirectionModifier.UTurn)
      else intersection in
    if Nat.eqb (length intersection) 2 then handleTwoWayTurn via_edge intersection
    else if Nat.eqb (length intersection) 3 then handleThreeWayTurn via_edge intersection
    else handleComplexTurn via_edge intersection.

End TurnHandler.

(** ** A concrete handler, for the examples

    The values of the constants and the oracles below are examples that fit
    the spec's description of them (thresholds centred on 180, a fork
    instruction of [Fork] type, classes compared by priority); the theorems of
    this file do not depend on them. *)

Definition example_constants : Constants :=
  mkConstants (deg 40) (deg 60) (deg 25) (deg 3).

Definition example_getTurnDirection (angle : Qc) : DirectionModifier.Enum :=
  if (angle >? 0) && (angle <? deg 60) then DirectionModifier.SharpRight
  else if (angle >=? deg 60) && (angle <? deg 140) then DirectionModifier.Right
  else if (angle >=? deg 140) && (angle <? deg 160) then DirectionModifier.SlightRight
  else if (angle >=? deg 160) && (angle <=? deg 200) then DirectionModifier.Straight
  else if (angle >? deg 200) && (angle <=? deg 220) then DirectionModifier.SlightLeft
  else if (angle >? deg 220) && (angle <=? deg 300) then DirectionModifier.Left
  else if (angle >? deg 300) && (angle <? deg 360) then DirectionModifier.SharpLeft
  else DirectionModifier.UTurn.

Definition example_obviousByRoadClass (via obvious compare : RoadClassification) : bool :=
  Nat.ltb (2 * GetPriority obvious) (GetPriority compare) &&
  Nat.eqb (GetPriority via) (GetPriority obvious) &&
  Bool.eqb (IsLinkClass via) (IsLinkClass obvious).

Definition example_canBeSeenAsFork (first second : RoadClassification) : bool :=
  Nat.leb (GetPriority first - GetPriority second) 1 &&
  Nat.leb (GetPriority second - GetPriority first) 1.

(** The handler over a graph [edge_data] whose [findObviousTurn] is [obvious]:
    every turn is a basic [Turn], an obvious road keeps the direction of its
    angle, and a fork is announced slightly left / straight / slightly
    right. *)
Definition example_handler (edge_data : EdgeID → EdgeData) (obvious : Intersection → nat)
  : IntersectionHandler :=
  mkIntersectionHandler
    edge_data
    0%nat
    (λ a b, negb (Nat.eqb a b))
    example_obviousByRoadClass
    example_canBeSeenAsFork
    example_getTurnDirection
    (λ _ _, TurnType.Turn)
    (λ _ intersection, obvious intersection)
    (λ _ _ _ road,
       mkTurnInstruction TurnType.Continue (example_getTurnDirection (angle road)))
    (λ _ _, false)
    (λ _ _ _,
       (mkTurnInstruction TurnType.Fork DirectionModifier.SlightLeft,
        mkTurnInstruction TurnType.Fork DirectionModifier.SlightRight))
    (λ _ _ _ _,
       (mkTurnInstruction TurnType.Fork DirectionModifier.SlightLeft,
        mkTurnInstruction TurnType.Fork DirectionModifier.Straight,
        mkTurnInstruction TurnType.Fork DirectionModifier.SlightRight)).

(** A graph in which every edge has the same class and its own name. *)
Definition uniform_edge_data (e : EdgeID) : EdgeData :=
  mkEdgeData (mkRoadClassification 3 false) (S e).

(** A road at [a] degrees that has not been classified. *)
Definition road (e : EdgeID) (a : Z) (allowed : bool) : ConnectedRoad :=
  mkConnectedRoad e (deg a) 0 allowed default_instruction 0%nat.
Arguments road _%_nat _%_Z _.

(** The instructions of an intersection, road by road. *)
Definition instructions (intersection : Intersection) : list TurnInstruction :=
  instruction <$> intersection.

(** * The handler on [double]

    The translation of the same source with the numbers as they are in the
    program: an angle is an IEEE-754 binary64 number ([float], the kernel's
    primitive type), and [-], [/], [<], [==] and [std::abs] are the operations
    of the processor.  [360 - angle] is rounded, a division by zero gives an
    infinity or a NaN, and every comparison with a NaN is false. *)

#[local] Set Warnings "-inexact-float".

Module Double.

Local Open Scope float_scope.

Notation "x >? y" := (PrimFloat.ltb y x) (only parsing) : float_scope.
Notation "x >=? y" := (PrimFloat.leb y x) (only parsing) : float_scope.

(** [std::numeric_limits<double>::epsilon()], that is 2^-52. *)
Definition epsilon : float := 0x1p-52.

(** [std::min]: the first argument unless the second is smaller. *)
Definition min (x y : float) : float := if y <? x then y else x.

(** Modelled from the spec: [util::angularDeviation] (util/bearing.hpp is not
    among the translated files) "returns the smaller of |a−b| and 360−|a−b|". *)
Definition angularDeviation (angle from : float) : float :=
  let deviation := abs (angle - from) in
  min (360 - deviation) deviation.

Record ConnectedRoad : Type := mkConnectedRoad {
  eid : EdgeID;
  angle : float;
  bearing : float;
  entry_allowed : bool;
  instruction : TurnInstruction;
  lane_data_id : LaneDataID
}.

(** [road.instruction = t] *)
Definition with_instruction (t : TurnInstruction) (r : ConnectedRoad) : ConnectedRoad :=
  mkConnectedRoad (eid r) (angle r) (bearing r) (entry_allowed r) t (lane_data_id r).

Definition compareByAngle (r other : ConnectedRoad) : bool := angle r <? angle other.

(** [ConnectedRoad::mirror] *)
Definition mirror (r : ConnectedRoad) : ConnectedRoad :=
  if angularDeviation (angle r) 0 >? epsilon then
    mkConnectedRoad (eid r) (360 - angle r) (bearing r) (entry_allowed r)
      (mkTurnInstruction (type (instruction r))
         (nth (DirectionModifier.to_nat (direction_modifier (instruction r)))
              mirrored_modifiers DirectionModifier.UTurn))
      (lane_data_id r)
  else r.

(** [ConnectedRoad::getMirroredCopy] *)
Definition getMirroredCopy (r : ConnectedRoad) : ConnectedRoad := mirror r.

(** [Intersection]: a [std::vector<ConnectedRoad>]. *)
Abbreviation Intersection := (list ConnectedRoad).

Global Instance ConnectedRoad_inhabited : Inhabited ConnectedRoad :=
  populate (mkConnectedRoad 0%nat 0 0 false default_instruction 0%nat).

(** [Intersection::valid] *)
Definition valid (intersection : Intersection) : bool :=
  negb (bool_decide (intersection = [])) &&
  is_sorted compareByAngle intersection &&
  (angle (intersection !!! 0%nat) <? epsilon).

(** [Intersection::hasValidEntries] *)
Definition hasValidEntries (intersection : Intersection) (first last : nat) : bool :=
  forallb (λ i, entry_allowed (intersection !!! i)) (seq first (S last - first)).

(** [intersection[i].instruction = t] *)
Definition set_instruction (intersection : Intersection) (i : nat) (t : TurnInstruction)
  : Intersection :=
  alter (with_instruction t) i intersection.

(** The constants of extractor/guidance/constants.hpp whose values the
    translated files do not show. *)
Class Constants : Type := mkConstants {
  NARROW_TURN_ANGLE : float;
  GROUP_ANGLE : float;
  FUZZY_ANGLE_DIFFERENCE : float;
  MAXIMAL_ALLOWED_NO_TURN_DEVIATION : float
}.

(** Modelled from the spec: [STRAIGHT_ANGLE = 180] and
    [INCREASES_BY_FOURTY_PERCENT = 1.4] (constants.hpp); [1.4] is the
    [double] next to it. *)
Definition STRAIGHT_ANGLE : float := 180.
Definition INCREASES_BY_FOURTY_PERCENT : float := 1.4.

(** The members of the base class [IntersectionHandler] and the free functions
    of the guidance toolkit that [TurnHandler] calls. *)
Class IntersectionHandler : Type := mkIntersectionHandler {
  GetEdgeData : EdgeID → EdgeData;
  EMPTY_NAMEID : NameID;
  requiresNameAnnounced : NameID → NameID → bool;
  obviousByRoadClass : RoadClassification → RoadClassification → RoadClassification → bool;
  canBeSeenAsFork : RoadClassification → RoadClassification → bool;
  getTurnDirection : float → DirectionModifier.Enum;
  findBasicTurnType : EdgeID → ConnectedRoad → TurnType.Enum;
  findObviousTurn : EdgeID → Intersection → nat;
  getInstructionForObvious : nat → EdgeID → bool → ConnectedRoad → TurnInstruction;
  isThroughStreet : nat → Intersection → bool;
  assignFork : EdgeID → ConnectedRoad → ConnectedRoad → ForkOfTwo;
  assignFork3 : EdgeID → ConnectedRoad → ConnectedRoad → ConnectedRoad → ForkOfThree
}.

Record StraightestTurnAtIntersection : Type := mkStraightestTurnAtIntersection {
  id : nat;
  deviation_from_straight : float
}.

Section TurnHandler.
Context `{K : Constants} `{B : IntersectionHandler}.

Definition isOutermostForkCandidate (road1 road2 : ConnectedRoad) : bool :=
  let angle_between_next_road_and_straight := angularDeviation (angle road2) STRAIGHT_ANGLE in
  let angle_between_prev_road_and_next := angularDeviation (angle road1) (angle road2) in
  let angle_between_prev_road_and_straight := angularDeviation (angle road1) STRAIGHT_ANGLE in
  if angle_between_next_road_and_straight >? NARROW_TURN_ANGLE then
    if (angle_between_prev_road_and_next >? NARROW_TURN_ANGLE) ||
       (angle_between_prev_road_and_straight >? GROUP_ANGLE)
    then true
    else false
  else false.

Definition isEndOfRoad (_ possible_right_turn possible_left_turn : ConnectedRoad) : bool :=
  (angularDeviation (angle possible_right_turn) 90 <? NARROW_TURN_ANGLE) &&
  (angularDeviation (angle possible_left_turn) 270 <? NARROW_TURN_ANGLE) &&
  (angularDeviation (angle possible_right_turn) (angle possible_left_turn) >?
     2 * NARROW_TURN_ANGLE).

(** [findOutermostForkCandidate(start, end)] on the range [range]: the offset
    from [start] of the outermost candidate, the last road of the range when
    every road is part of the fork. *)
Definition findOutermostForkCandidate (range : list ConnectedRoad) : nat :=
  match adjacent_find isOutermostForkCandidate range with
  | Some outermost => outermost
  | None => length range - 1
  end.

Definition findClosestToStraight (intersection : Intersection)
  : StraightestTurnAtIntersection :=
  fold_left
    (λ (st : StraightestTurnAtIntersection) (i : nat),
       let deviation := angularDeviation (angle (intersection !!! i)) STRAIGHT_ANGLE in
       if entry_allowed (intersection !!! i) && (deviation <? deviation_from_straight st)
       then mkStraightestTurnAtIntersection i deviation
       else st)
    (seq 1 (length intersection - 1))
    (mkStraightestTurnAtIntersection 0%nat 180).

(** [TurnHandler::handleOneWayTurn] *)
Definition handleOneWayTurn (intersection : Intersection) : Intersection := intersection.

(** [TurnHandler::handleTwoWayTurn] *)
Definition handleTwoWayTurn (via_edge : EdgeID) (intersection : Intersection)
  : Intersection :=
  set_instruction intersection 1
    (getInstructionForObvious (length intersection) via_edge false (intersection !!! 1%nat)).

(** [TurnHandler::isObviousOfTwo] *)
Definition isObviousOfTwo (via_edge : EdgeID) (road other : ConnectedRoad) : bool :=
  let via_data := GetEdgeData via_edge in
  let road_data := GetEdgeData (eid road) in
  let other_data := GetEdgeData (eid other) in
  let via_classification := road_classification via_data in
  let road_classification' := road_classification road_data in
  let other_classification := road_classification other_data in
  if obviousByRoadClass via_classification road_classification' other_classification then true
  else if obviousByRoadClass via_classification other_classification road_classification'
  then false
  else
    let turn_is_perfectly_straight :=
      angularDeviation (angle road) STRAIGHT_ANGLE <? epsilon in
    let same_name := negb (requiresNameAnnounced (name_id via_data) (name_id road_data)) in
    if turn_is_perfectly_straight &&
       negb (Nat.eqb (name_id via_data) EMPTY_NAMEID) && same_name
    then true
    else
      let is_much_narrower_than_other :=
        (angularDeviation (angle other) STRAIGHT_ANGLE /
           angularDeviation (angle road) STRAIGHT_ANGLE >? INCREASES_BY_FOURTY_PERCENT) &&
        (angularDeviation (angularDeviation (angle other) STRAIGHT_ANGLE)
                          (angularDeviation (angle road) STRAIGHT_ANGLE) >?
           FUZZY_ANGLE_DIFFERENCE) in
      is_much_narrower_than_other.

(** [TurnHandler::hasObvious] *)
Definition hasObvious (via_edge : EdgeID) (intersection : Intersection) (fork : Fork.t)
  : bool :=
  existsb
    (λ road,
       isObviousOfTwo via_edge (intersection !!! road) (intersection !!! S road) ||
       isObviousOfTwo via_edge (intersection !!! S road) (intersection !!! road))
    (seq (Fork.right fork) (Fork.left fork - Fork.right fork)).

(** [TurnHandler::findLeftAndRightmostForkCandidates].  The reverse range
    [rend() - id - 1 .. rend()] holds the roads [id], [id - 1], ..., [0]. *)
Definition findLeftAndRightmostForkCandidates (intersection : Intersection)
  : option Fork.t :=
  if bool_decide (3 ≤ length intersection)%nat then
    let straightest := findClosestToStraight intersection in
    if deviation_from_straight straightest <=? NARROW_TURN_ANGLE then
      let right :=
        findOutermostForkCandidate (reverse (take (S (id straightest)) intersection)) in
      let right_index := (id straightest - right)%nat in
      let forward_right := right_index in
      let left :=
        (id straightest + findOutermostForkCandidate (drop (id straightest) intersection))%nat in
      if bool_decide (forward_right < left)%nat &&
         bool_decide (left - forward_right + 1 ≤ 3)%nat
      then Some (Fork.make forward_right left)
      else None
    else None
  else None.

(** [TurnHandler::isCompatibleByRoadClass] *)
Definition isCompatibleByRoadClass (intersection : Intersection) (fork : Fork.t) : bool :=
  let class_of (road : ConnectedRoad) := road_classification (GetEdgeData (eid road)) in
  let via_class := class_of (intersection !!! 0%nat) in
  let is_right_link_class := IsLinkClass (class_of (intersection !!! Fork.right fork)) in
  if negb (forallb
             (λ road, Bool.eqb is_right_link_class
                        (IsLinkClass (class_of (intersection !!! road))))
             (seq (S (Fork.right fork)) (Fork.left fork - Fork.right fork)))
  then false
  else
    forallb
      (λ base,
         let base_class := class_of (intersection !!! base) in
         forallb
           (λ compare,
              let compare_class := class_of (intersection !!! compare) in
              negb (obviousByRoadClass via_class base_class compare_class) ||
              Nat.eqb (eid (intersection !!! compare)) (eid (intersection !!! base)))
           (seq (Fork.right fork) (S (Fork.left fork) - Fork.right fork)))
      (seq (Fork.right fork) (S (Fork.left fork) - Fork.right fork)).

(** [TurnHandler::findFork].  [fork->right - 1] is read at the position before
    [right]; for [right = 0] the source has no such road (the lemma
    [findFork_candidates_bounds] excludes the case for the intersections the
    handler is meant for). *)
Definition findFork (via_edge : EdgeID) (intersection : Intersection) : option Fork.t :=
  match findLeftAndRightmostForkCandidates intersection with
  | Some fork =>
      let next :=
        if Nat.eqb (S (Fork.left fork)) (length intersection) then 0%nat
        else S (Fork.left fork) in
      let separated_at_left_side :=
        angularDeviation (angle (intersection !!! Fork.left fork))
                         (angle (intersection !!! next)) >=? GROUP_ANGLE in
      let separated_at_right_side :=
        angularDeviation (angle (intersection !!! Fork.right fork))
                         (angle (intersection !!! (Fork.right fork - 1)%nat)) >=? GROUP_ANGLE in
      let has_obvious := hasObvious via_edge intersection fork in
      let has_compatible_classes := isCompatibleByRoadClass intersection fork in
      let only_valid_entries :=
        hasValidEntries intersection (Fork.right fork) (Fork.left fork) in
      if separated_at_left_side && separated_at_right_side && negb has_obvious &&
         has_compatible_classes && only_valid_entries
      then Some fork
      else None
  | None => None
  end.

(** Modelled from the spec: [assignTrivialTurns(via, i, from, to)] of the
    base class (not among the translated files): "every road gets
    {findBasicTurnType, getTurnDirection(angle)}", for the roads [from .. to),
    the end excluded. *)
Definition assignTrivialTurns (via_edge : EdgeID) (intersection : Intersection)
    (begin end_ : nat) : Intersection :=
  fold_left
    (λ (intersection : Intersection) (index : nat),
       set_instruction intersection index
         (mkTurnInstruction (findBasicTurnType via_edge (intersection !!! index))
                            (getTurnDirection (angle (intersection !!! index)))))
    (seq begin (end_ - begin))
    intersection.

(** [TurnHandler::handleDistinctConflict] takes the two roads by reference and
    stores into their [instruction]; it is modelled as the function from the
    two roads to the two roads it leaves.  Its body has three parts, in this
    order: the roads of which one is invalid or whose angles are equal, *)
Definition conflict_of_invalid_or_identical (via_edge : EdgeID) (left right : ConnectedRoad)
  : ConnectedRoad * ConnectedRoad :=
  let left :=
    if entry_allowed left
    then with_instruction
           (mkTurnInstruction (findBasicTurnType via_edge left)
                              (getTurnDirection (angle left))) left
    else left in
  let right :=
    if entry_allowed right
    then with_instruction
           (mkTurnInstruction (findBasicTurnType via_edge right)
                              (getTurnDirection (angle right))) right
    else right in
  (left, right).

(** the block guarded by "left is straight or slightly left, or right is
    slightly right" (a fork, or the road of the higher class wins), which has
    no [return], *)
Definition conflict_by_road_class (via_edge : EdgeID) (left right : ConnectedRoad)
  : ConnectedRoad * ConnectedRoad :=
  if DirectionModifier.eqb (getTurnDirection (angle left)) DirectionModifier.Straight ||
     DirectionModifier.eqb (getTurnDirection (angle left)) DirectionModifier.SlightLeft ||
     DirectionModifier.eqb (getTurnDirection (angle right)) DirectionModifier.SlightRight
  then
    let left_classification := road_classification (GetEdgeData (eid left)) in
    let right_classification := road_classification (GetEdgeData (eid right)) in
    if canBeSeenAsFork left_classification right_classification then
      let '(left_instruction, right_instruction) := assignFork via_edge left right in
      (with_instruction left_instruction left, with_instruction right_instruction right)
    else if Nat.ltb (GetPriority right_classification) (GetPriority left_classification)
    then
      let right := with_instruction (getInstructionForObvious 4 via_edge false right) right in
      let left :=
        with_instruction
          (mkTurnInstruction (findBasicTurnType via_edge left) DirectionModifier.SlightLeft)
          left in
      (left, right)
    else
      let left := with_instruction (getInstructionForObvious 4 via_edge false left) left in
      let right :=
        with_instruction
          (mkTurnInstruction (findBasicTurnType via_edge right) DirectionModifier.SlightRight)
          right in
      (left, right)
  else (left, right).

(** and the chain of tests on the angles, every one of which stores into both
    roads. *)
Definition conflict_by_angle (via_edge : EdgeID) (left right : ConnectedRoad)
  : ConnectedRoad * ConnectedRoad :=
  let left_type := findBasicTurnType via_edge left in
  let right_type := findBasicTurnType via_edge right in
  let assign (left_modifier right_modifier : DirectionModifier.Enum) :=
    (with_instruction (mkTurnInstruction left_type left_modifier) left,
     with_instruction (mkTurnInstruction right_type right_modifier) right) in
  if angularDeviation (angle left) 90 <? MAXIMAL_ALLOWED_NO_TURN_DEVIATION then
    assign DirectionModifier.Right DirectionModifier.SharpRight
  else if angularDeviation (angle right) 90 <? MAXIMAL_ALLOWED_NO_TURN_DEVIATION then
    assign DirectionModifier.SlightRight DirectionModifier.Right
  else if angularDeviation (angle left) 270 <? MAXIMAL_ALLOWED_NO_TURN_DEVIATION then
    assign DirectionModifier.Left DirectionModifier.SlightLeft
  else if angularDeviation (angle right) 270 <? MAXIMAL_ALLOWED_NO_TURN_DEVIATION then
    assign DirectionModifier.SharpLeft DirectionModifier.Left
  else if DirectionModifier.eqb (getTurnDirection (angle left)) DirectionModifier.SharpLeft then
    assign DirectionModifier.SharpLeft DirectionModifier.Left
  else if DirectionModifier.eqb (getTurnDirection (angle right)) DirectionModifier.SharpRight then
    assign DirectionModifier.Right DirectionModifier.SharpRight
  else if DirectionModifier.eqb (getTurnDirection (angle left)) DirectionModifier.Right then
    if angularDeviation (angle left) 85 >=? angularDeviation (angle right) 85
    then assign DirectionModifier.Right DirectionModifier.SharpRight
    else assign DirectionModifier.SlightRight DirectionModifier.Right
  else
    if angularDeviation (angle left) 265 >=? angularDeviation (angle right) 265
    then assign DirectionModifier.SharpLeft DirectionModifier.Left
    else assign DirectionModifier.Left DirectionModifier.SlightLeft.

Definition handleDistinctConflict (via_edge : EdgeID) (left right : ConnectedRoad)
  : ConnectedRoad * ConnectedRoad :=
  if negb (entry_allowed left) || negb (entry_allowed right) || (angle left =? angle right)
  then conflict_of_invalid_or_identical via_edge left right
  else
    let '(left', right') := conflict_by_road_class via_edge left right in
    conflict_by_angle via_edge left' right'.

(** [handleDistinctConflict(via_edge, intersection[left], intersection[right])]:
    the call on two roads of the intersection, and the stores it makes. *)
Definition handleDistinctConflictAt (via_edge : EdgeID) (intersection : Intersection)
    (left right : nat) : Intersection :=
  let '(left_road, right_road) :=
    handleDistinctConflict via_edge (intersection !!! left) (intersection !!! right) in
  <[right := right_road]> (<[left := left_road]> intersection).

(** [TurnHandler::assignRightTurns] *)
Definition assignRightTurns (via_edge : EdgeID) (intersection : Intersection) (up_to : nat)
  : Intersection :=
  let count_valid :=
    length (filter (λ i, entry_allowed (intersection !!! i) = true) (seq 1 (up_to - 1))) in
  let basic (i : nat) (modifier : DirectionModifier.Enum) (intersection : Intersection) :=
    set_instruction intersection i
      (mkTurnInstruction (findBasicTurnType via_edge (intersection !!! i)) modifier) in
  if bool_decide (up_to ≤ 1)%nat || Nat.eqb count_valid 0 then intersection
  else if Nat.eqb up_to 2 then assignTrivialTurns via_edge intersection 1 up_to
  else if Nat.eqb up_to 3 then
    let first_direction := getTurnDirection (angle (intersection !!! 1%nat)) in
    let second_direction := getTurnDirection (angle (intersection !!! 2%nat)) in
    if DirectionModifier.eqb first_direction second_direction
    then handleDistinctConflictAt via_edge intersection 2 1
    else assignTrivialTurns via_edge intersection 1 up_to
  else if Nat.eqb up_to 4 then
    let first_direction := getTurnDirection (angle (intersection !!! 1%nat)) in
    let second_direction := getTurnDirection (angle (intersection !!! 2%nat)) in
    let third_direction := getTurnDirection (angle (intersection !!! 3%nat)) in
    if negb (DirectionModifier.eqb first_direction second_direction) &&
       negb (DirectionModifier.eqb second_direction third_direction)
    then assignTrivialTurns via_edge intersection 1 up_to
    else if bool_decide
              (Nat.b2n (entry_allowed (intersection !!! 1%nat)) +
               Nat.b2n (entry_allowed (intersection !!! 2%nat)) +
               Nat.b2n (entry_allowed (intersection !!! 3%nat)) ≤ 2)%nat
    then
      if negb (entry_allowed (intersection !!! 3%nat))
      then handleDistinctConflictAt via_edge intersection 2 1
      else if negb (entry_allowed (intersection !!! 1%nat))
      then handleDistinctConflictAt via_edge intersection 3 2
      else handleDistinctConflictAt via_edge intersection 3 1
    else if (angularDeviation (angle (intersection !!! 1%nat)) (angle (intersection !!! 2%nat))
               >=? NARROW_TURN_ANGLE) &&
            (angularDeviation (angle (intersection !!! 2%nat)) (angle (intersection !!! 3%nat))
               >=? NARROW_TURN_ANGLE)
    then
      basic 3%nat DirectionModifier.SlightRight
        (basic 2%nat DirectionModifier.Right
           (basic 1%nat DirectionModifier.SharpRight intersection))
    else if (DirectionModifier.eqb first_direction second_direction &&
             DirectionModifier.eqb second_direction third_direction) ||
            (DirectionModifier.eqb first_direction second_direction &&
             (angularDeviation (angle (intersection !!! 2%nat))
                               (angle (intersection !!! 3%nat)) <? GROUP_ANGLE)) ||
            (DirectionModifier.eqb second_direction third_direction &&
             (angularDeviation (angle (intersection !!! 1%nat))
                               (angle (intersection !!! 2%nat)) <? GROUP_ANGLE))
    then assignTrivialTurns via_edge intersection 1 up_to
    else if (DirectionModifier.eqb first_direction second_direction &&
             (angularDeviation (angle (intersection !!! 2%nat))
                               (angle (intersection !!! 3%nat)) >=? GROUP_ANGLE)) ||
            (DirectionModifier.eqb second_direction third_direction &&
             (angularDeviation (angle (intersection !!! 1%nat))
                               (angle (intersection !!! 2%nat)) >=? GROUP_ANGLE))
    then
      if angularDeviation (angle (intersection !!! 2%nat)) (angle (intersection !!! 3%nat))
           >=? GROUP_ANGLE
      then
        basic 3%nat third_direction (handleDistinctConflictAt via_edge intersection 2 1)
      else
        handleDistinctConflictAt via_edge (basic 1%nat first_direction intersection) 3 2
    else assignTrivialTurns via_edge intersection 1 up_to
  else assignTrivialTurns via_edge intersection 1 up_to.

(** The lambda [switch_left_and_right] of [assignLeftTurns]: every road is
    mirrored, then the roads behind the first one are reversed. *)
Definition switch_left_and_right (intersection : Intersection) : Intersection :=
  let mirrored := mirror <$> intersection in
  take 1 mirrored ++ reverse (drop 1 mirrored).

(** [TurnHandler::assignLeftTurns].  [count] is [size() - starting_at + 1] on
    [std::size_t]. *)
Definition assignLeftTurns (via_edge : EdgeID) (intersection : Intersection)
    (starting_at : nat) : Intersection :=
  let intersection := switch_left_and_right intersection in
  let count := (length intersection + 1 - starting_at)%nat in
  let intersection := assignRightTurns via_edge intersection count in
  switch_left_and_right intersection.

(** [assignFork(via_edge, intersection[left], intersection[right])] and the
    stores it makes. *)
Definition assignForkAt (via_edge : EdgeID) (intersection : Intersection) (left right : nat)
  : Intersection :=
  let '(left_instruction, right_instruction) :=
    assignFork via_edge (intersection !!! left) (intersection !!! right) in
  set_instruction (set_instruction intersection left left_instruction) right right_instruction.

(** The same for the fork of three roads. *)
Definition assignFork3At (via_edge : EdgeID) (intersection : Intersection)
    (left center right : nat) : Intersection :=
  let '(left_instruction, center_instruction, right_instruction) :=
    assignFork3 via_edge (intersection !!! left) (intersection !!! center)
                (intersection !!! right) in
  set_instruction
    (set_instruction (set_instruction intersection left left_instruction)
       center center_instruction)
    right right_instruction.

(** [TurnHandler::handleThreeWayTurn] *)
Definition handleThreeWayTurn (via_edge : EdgeID) (intersection : Intersection)
  : Intersection :=
  let obvious_index := findObviousTurn via_edge intersection in
  let fork := findFork via_edge intersection in
  let end_of_road (i : nat) (modifier : DirectionModifier.Enum) (intersection : Intersection) :=
    if entry_allowed (intersection !!! i) then
      if negb (TurnType.eqb TurnType.OnRamp (findBasicTurnType via_edge (intersection !!! i)))
      then set_instruction intersection i (mkTurnInstruction TurnType.EndOfRoad modifier)
      else set_instruction intersection i (mkTurnInstruction TurnType.OnRamp modifier)
    else intersection in
  let basic (i : nat) (modifier : DirectionModifier.Enum) (intersection : Intersection) :=
    set_instruction intersection i
      (mkTurnInstruction (findBasicTurnType via_edge (intersection !!! i)) modifier) in
  match fork, Nat.eqb obvious_index 0 with
  | Some fork, true => assignForkAt via_edge intersection (Fork.left fork) (Fork.right fork)
  | _, _ =>
      if isEndOfRoad (intersection !!! 0%nat) (intersection !!! 1%nat) (intersection !!! 2%nat)
         && Nat.eqb obvious_index 0
      then
        end_of_road 2%nat DirectionModifier.Left
          (end_of_road 1%nat DirectionModifier.Right intersection)
      else if negb (Nat.eqb obvious_index 0) then
        let direction_at_one := getTurnDirection (angle (intersection !!! 1%nat)) in
        let direction_at_two := getTurnDirection (angle (intersection !!! 2%nat)) in
        if Nat.eqb obvious_index 1 then
          let intersection :=
            set_instruction intersection 1
              (getInstructionForObvious 3 via_edge (isThroughStreet 1 intersection)
                 (intersection !!! 1%nat)) in
          let second_direction :=
            if DirectionModifier.eqb direction_at_one direction_at_two &&
               DirectionModifier.eqb direction_at_two DirectionModifier.Straight
            then DirectionModifier.SlightLeft
            else direction_at_two in
          basic 2%nat second_direction intersection
        else
          let intersection :=
            set_instruction intersection 2
              (getInstructionForObvious 3 via_edge (isThroughStreet 2 intersection)
                 (intersection !!! 2%nat)) in
          let first_direction :=
            if DirectionModifier.eqb direction_at_one direction_at_two &&
               DirectionModifier.eqb direction_at_one DirectionModifier.Straight
            then DirectionModifier.SlightRight
            else direction_at_one in
          basic 1%nat first_direction intersection
      else
        basic 2%nat (getTurnDirection (angle (intersection !!! 2%nat)))
          (basic 1%nat (getTurnDirection (angle (intersection !!! 1%nat))) intersection)
  end.

(** [TurnHandler::handleComplexTurn] *)
Definition handleComplexTurn (via_edge : EdgeID) (intersection : Intersection)
  : Intersection :=
  let obvious_index := findObviousTurn via_edge intersection in
  let fork := findFork via_edge intersection in
  let straightmost := findClosestToStraight intersection in
  let basic (i : nat) (modifier : DirectionModifier.Enum) (intersection : Intersection) :=
    set_instruction intersection i
      (mkTurnInstruction (findBasicTurnType via_edge (intersection !!! i)) modifier) in
  if negb (Nat.eqb obvious_index 0) then
    let intersection :=
      set_instruction intersection obvious_index
        (getInstructionForObvious (length intersection) via_edge
           (isThroughStreet obvious_index intersection) (intersection !!! obvious_index)) in
    let intersection := assignLeftTurns via_edge intersection (obvious_index + 1) in
    assignRightTurns via_edge intersection obvious_index
  else
    match fork with
    | Some fork =>
        let intersection :=
          if Nat.eqb (Fork.size fork) 2 then
            let left_classification :=
              road_classification (GetEdgeData (eid (intersection !!! Fork.left fork))) in
            let right_classification :=
              road_classification (GetEdgeData (eid (intersection !!! Fork.right fork))) in
            if canBeSeenAsFork left_classification right_classification then
              assignForkAt via_edge intersection (Fork.left fork) (Fork.right fork)
            else if Nat.ltb (GetPriority right_classification)
                            (GetPriority left_classification)
            then
              basic (Fork.left fork) DirectionModifier.SlightLeft
                (set_instruction intersection (Fork.right fork)
                   (getInstructionForObvious (length intersection) via_edge false
                      (intersection !!! Fork.right fork)))
            else
              basic (Fork.right fork) DirectionModifier.SlightRight
                (set_instruction intersection (Fork.left fork)
                   (getInstructionForObvious (length intersection) via_edge false
                      (intersection !!! Fork.left fork)))
          else if Nat.eqb (Fork.size fork) 3 then
            assignFork3At via_edge intersection (Fork.left fork) (Fork.right fork + 1)
              (Fork.right fork)
          else intersection in
        let left_index := Fork.left fork in
        let right_index := Fork.right fork in
        let intersection := assignLeftTurns via_edge intersection (left_index + 1) in
        assignRightTurns via_edge intersection right_index
    | None =>
        if (deviation_from_straight straightmost <? FUZZY_ANGLE_DIFFERENCE) &&
           negb (entry_allowed (intersection !!! id straightmost))
        then
          let intersection := assignLeftTurns via_edge intersection (id straightmost + 1) in
          assignRightTurns via_edge intersection (id straightmost)
        else if angle (intersection !!! id straightmost) >? 180 then
          let intersection := assignLeftTurns via_edge intersection (id straightmost) in
          assignRightTurns via_edge intersection (id straightmost)
        else if angle (intersection !!! id straightmost) <? 180 then
          let intersection := assignLeftTurns via_edge intersection (id straightmost + 1) in
          assignRightTurns via_edge intersection (id straightmost + 1)
        else assignTrivialTurns via_edge intersection 1 (length intersection)
    end.

(** [TurnHandler::operator()], the classifier (the spec's [classify]). *)
Definition classify (via_edge : EdgeID) (intersection : Intersection) : Intersection :=
  if Nat.eqb (length intersection) 1 then handleOneWayTurn intersection
  else
    let intersection :=
      if entry_allowed (intersection !!! 0%nat)
      then set_instruction intersection 0
             (mkTurnInstruction (findBasicTurnType via_edge (intersection !!! 0%nat))
                                DirectionModifier.UTurn)
      else intersection in
    if Nat.eqb (length intersection) 2 then handleTwoWayTurn via_edge intersection
    else if Nat.eqb (length intersection) 3 then handleThreeWayTurn via_edge intersection
    else handleComplexTurn via_edge intersection.

End TurnHandler.

(** ** A concrete handler on [double], for the examples *)

Definition example_constants : Constants :=
  mkConstants 40 60 25 3.

Definition example_getTurnDirection (angle : float) : DirectionModifier.Enum :=
  if (0 <? angle) && (angle <? 60) then DirectionModifier.SharpRight
  else if (60 <=? angle) && (angle <? 140) then DirectionModifier.Right
  else if (140 <=? angle) && (angle <? 160) then DirectionModifier.SlightRight
  else if (160 <=? angle) && (angle <=? 200) then DirectionModifier.Straight
  else if (200 <? angle) && (angle <=? 220) then DirectionModifier.SlightLeft
  else if (220 <? angle) && (angle <=? 300) then DirectionModifier.Left
  else if (300 <? angle) && (angle <? 360) then DirectionModifier.SharpLeft
  else DirectionModifier.UTurn.

Definition example_handler (edge_data : EdgeID → EdgeData)
    (obvious : Intersection → nat) : IntersectionHandler :=
  mkIntersectionHandler
    edge_data
    0%nat
    (λ a b, negb (Nat.eqb a b))
    example_obviousByRoadClass
    example_canBeSeenAsFork
    example_getTurnDirection
    (λ _ _, TurnType.Turn)
    (λ _ intersection, obvious intersection)
    (λ _ _ _ road,
       mkTurnInstruction TurnType.Continue (example_getTurnDirection (angle road)))
    (λ _ _, false)
    (λ _ _ _,
       (mkTurnInstruction TurnType.Fork DirectionModifier.SlightLeft,
        mkTurnInstruction TurnType.Fork DirectionModifier.SlightRight))
    (λ _ _ _ _,
       (mkTurnInstruction TurnType.Fork DirectionModifier.SlightLeft,
        mkTurnInstruction TurnType.Fork DirectionModifier.Straight,
        mkTurnInstruction TurnType.Fork DirectionModifier.SlightRight)).

(** A road at the angle [a] that has not been classified. *)
Definition road (e : EdgeID) (a : float) (allowed : bool) : ConnectedRoad :=
  mkConnectedRoad e a 0 allowed default_instruction 0%nat.
Arguments road _%_nat _%_float _.

Definition modifiers (intersection : Intersection) : list DirectionModifier.Enum :=
  (λ r, direction_modifier (instruction r)) <$> intersection.

End Double.

(** ** Arithmetic on [Qc] *)

Lemma this_plus (x y : Qc) : (this (x + y) == this x + this y)%Q.
Proof. unfold Qcplus. simpl. apply Qred_correct. Qed.

Lemma this_minus (x y : Qc) : (this (x - y) == this x - this y)%Q.
Proof. unfold Qcminus, Qcplus, Qcopp. simpl. rewrite !Qred_correct. reflexivity. Qed.

Lemma this_opp (x : Qc) : (this (- x) == - this x)%Q.
Proof. unfold Qcopp. simpl. apply Qred_correct. Qed.

Lemma this_mult (x y : Qc) : (this (x * y) == this x * this y)%Q.
Proof. unfold Qcmult. simpl. apply Qred_correct. Qed.

Lemma this_Q2Qc (q : Q) : (this (Q2Qc q) == q)%Q.
Proof. simpl. apply Qred_correct. Qed.

Lemma Qc_eq_this (x y : Qc) : x = y ↔ (this x == this y)%Q.
Proof. split; [intros ->; reflexivity | apply Qc_is_canon]. Qed.

(** Case analysis on the absolute values and minima of a goal. *)
Ltac qc_split :=
  unfold Qcmin in *;
  repeat match goal with
  | |- context [Qcabs ?x] => apply (Qcabs_case x); intros ?
  | H : context [Qcabs ?x] |- _ => revert H; apply (Qcabs_case x); intros ? ?
  | |- context [decide (Qclt ?x ?y)] => destruct (decide (Qclt x y))
  | H : context [decide (Qclt ?x ?y)] |- _ => destruct (decide (Qclt x y))
  end.

(** Linear arithmetic on [Qc], by transfer to [Q]. *)
Ltac qc_lra :=
  repeat match goal with
  | H : ¬ (_ ≤ _)%Qc |- _ => apply Qcnot_le_lt in H
  | H : ¬ (_ < _)%Qc |- _ => apply Qcnot_lt_le in H
  | H : @eq Qc _ _ |- _ => apply Qc_eq_this in H
  | H : ¬ @eq Qc _ _ |- _ => rewrite Qc_eq_this in H
  | |- ¬ (_ ≤ _)%Qc => apply Qclt_not_le
  | |- ¬ (_ < _)%Qc => apply Qcle_not_lt
  | |- @eq Qc _ _ => apply Qc_is_canon
  | |- ¬ @eq Qc _ _ => rewrite Qc_eq_this
  end;
  unfold epsilon, STRAIGHT_ANGLE, INCREASES_BY_FOURTY_PERCENT in *;
  unfold Qclt, Qcle in *;
  repeat match goal with
  | H : _ |- _ =>
      first [ rewrite this_plus in H | rewrite this_minus in H | rewrite this_opp in H
            | rewrite this_mult in H | rewrite this_Q2Qc in H ]
  end;
  repeat first [ rewrite this_plus | rewrite this_minus | rewrite this_opp
               | rewrite this_mult | rewrite this_Q2Qc ];
  cbn [this deg Qc_of_Z] in *; unfold inject_Z in *;
  lra.

(** Boolean comparisons as propositions. *)
Lemma Qcltb_lt (x y : Qc) : (x <? y) = true ↔ x < y.
Proof. unfold Qcltb. apply bool_decide_eq_true. Qed.

Lemma Qcltb_ge (x y : Qc) : (x <? y) = false ↔ y ≤ x.
Proof. unfold Qcltb. rewrite bool_decide_eq_false. symmetry. apply Qcle_ngt. Qed.

Lemma Qcleb_le (x y : Qc) : (x <=? y) = true ↔ x ≤ y.
Proof. unfold Qcleb. apply bool_decide_eq_true. Qed.

Lemma Qcleb_gt (x y : Qc) : (x <=? y) = false ↔ y < x.
Proof. unfold Qcleb. rewrite bool_decide_eq_false. symmetry. apply Qclt_nge. Qed.

Lemma Qceqb_eq (x y : Qc) : (x =? y) = true ↔ x = y.
Proof. unfold Qceqb. apply bool_decide_eq_true. Qed.

(** ** Angular deviation *)

Lemma angularDeviation_sym (a b : Qc) : angularDeviation a b = angularDeviation b a.
Proof. unfold angularDeviation. rewrite (Qcabs_Qcminus a b). reflexivity. Qed.

Lemma angularDeviation_mirror (a b : Qc) :
  angularDeviation (deg 360 - a) (deg 360 - b) = angularDeviation a b.
Proof.
  unfold angularDeviation. cbn zeta.
  replace (deg 360 - a - (deg 360 - b)) with (- (a - b)) by ring.
  rewrite Qcabs_opp. reflexivity.
Qed.

Lemma angularDeviation_zero (a : Qc) :
  0 ≤ a → a ≤ deg 360 → angularDeviation a 0 = Qcmin (deg 360 - a) a.
Proof.
  intros. unfold angularDeviation. cbn zeta.
  replace (a - 0) with a by ring. rewrite Qcabs_pos; done.
Qed.

Lemma angularDeviation_zero_mirror (a : Qc) :
  0 ≤ a → a ≤ deg 360 → angularDeviation (deg 360 - a) 0 = angularDeviation a 0.
Proof.
  intros. rewrite !angularDeviation_zero by qc_lra.
  qc_split; qc_lra.
Qed.

Lemma angularDeviation_straight (a : Qc) :
  0 ≤ a → a ≤ deg 360 → angularDeviation a STRAIGHT_ANGLE = Qcabs (a - deg 180).
Proof.
  intros. unfold angularDeviation, STRAIGHT_ANGLE. cbn zeta.
  qc_split; try reflexivity; qc_lra.
Qed.

Lemma angularDeviation_straight_range (a : Qc) :
  0 ≤ a → a ≤ deg 360 →
  0 ≤ angularDeviation a STRAIGHT_ANGLE ∧ angularDeviation a STRAIGHT_ANGLE ≤ deg 180.
Proof.
  intros. rewrite angularDeviation_straight by done.
  split; qc_split; qc_lra.
Qed.

(** ** The mirror of a road *)

Definition mirror_modifier (m : DirectionModifier.Enum) : DirectionModifier.Enum :=
  nth (DirectionModifier.to_nat m) mirrored_modifiers DirectionModifier.UTurn.

Lemma mirror_modifier_involutive (m : DirectionModifier.Enum) :
  mirror_modifier (mirror_modifier m) = m.
Proof. destruct m; reflexivity. Qed.

Lemma mirror_involutive_road (r : ConnectedRoad) :
  0 ≤ angle r → angle r ≤ deg 360 → mirror (mirror r) = r.
Proof.
  intros Hlo Hhi. unfold mirror at 2.
  destruct (angularDeviation (angle r) 0 >? epsilon) eqn:Hdev.
  - unfold mirror. cbn [angle instruction type direction_modifier eid bearing
                        entry_allowed lane_data_id].
    rewrite angularDeviation_zero_mirror, Hdev by done.
    destruct r as [e a b allowed [ty m] lane]. cbn in *.
    f_equal.
    + ring.
    + f_equal. apply mirror_modifier_involutive.
  - unfold mirror. rewrite Hdev. reflexivity.
Qed.

(** ** What the classifier reads and what it writes

    [erase r] is the road [r] without its instruction: the part of a road
    that the handlers only read. *)

Definition erase (r : ConnectedRoad) : ConnectedRoad := with_instruction default_instruction r.

(** The instruction of the road at position [k]. *)
Definition ins (X : Intersection) (k : nat) : TurnInstruction := instruction (X !!! k).

(** Every angle of the intersection is one of the data model, between 0 and
    360. *)
Definition in_range (X : Intersection) : Prop :=
  Forall (λ r, 0 ≤ angle r ∧ angle r ≤ deg 360) X.

Lemma erase_idemp r : erase (erase r) = erase r.
Proof. reflexivity. Qed.

Lemma erase_with_instruction t r : erase (with_instruction t r) = erase r.
Proof. reflexivity. Qed.

Lemma with_instruction_instruction r : with_instruction (instruction r) r = r.
Proof. by destruct r. Qed.

Lemma road_eq r r' : erase r = erase r' → instruction r = instruction r' → r = r'.
Proof.
  destruct r, r'. unfold erase, with_instruction. cbn. intros [= -> -> -> -> ->] ->.
  reflexivity.
Qed.

Lemma erase_reads r r' :
  erase r = erase r' →
  eid r = eid r' ∧ angle r = angle r' ∧ bearing r = bearing r' ∧
  entry_allowed r = entry_allowed r' ∧ lane_data_id r = lane_data_id r'.
Proof. destruct r, r'. unfold erase, with_instruction. cbn. by intros [= -> -> -> -> ->]. Qed.

Lemma erase_inhabitant : erase inhabitant = inhabitant.
Proof. reflexivity. Qed.

Lemma lookup_total_erase (X : Intersection) k : (erase <$> X) !!! k = erase (X !!! k).
Proof.
  rewrite !list_lookup_total_alt, list_lookup_fmap. by destruct (X !! k).
Qed.

Lemma erase_eq_lookup (X Y : Intersection) k :
  erase <$> X = erase <$> Y → erase (X !!! k) = erase (Y !!! k).
Proof. intros E. by rewrite <- !lookup_total_erase, E. Qed.

Lemma erase_eq_length (X Y : Intersection) :
  erase <$> X = erase <$> Y → length X = length Y.
Proof. intros E. by rewrite <- (length_fmap erase X), E, length_fmap. Qed.

Lemma erase_set_instruction X i t : erase <$> set_instruction X i t = erase <$> X.
Proof.
  unfold set_instruction. apply list_eq. intros k.
  rewrite !list_lookup_fmap. destruct (decide (i = k)) as [->|Hne].
  - rewrite list_lookup_alter_eq. by destruct (X !! k).
  - by rewrite list_lookup_alter_ne.
Qed.

Lemma erase_insert (X : Intersection) i r :
  erase r = erase (X !!! i) → erase <$> <[i:=r]> X = erase <$> X.
Proof.
  intros E. apply list_eq. intros k. rewrite !list_lookup_fmap.
  destruct (decide (i = k)) as [->|Hne].
  - destruct (decide (k < length X)%nat) as [Hk|Hk].
    + rewrite list_lookup_insert_eq by done.
      destruct (lookup_lt_is_Some_2 X k Hk) as [x Hx].
      rewrite Hx. rewrite (list_lookup_total_correct _ _ _ Hx) in E. cbn. by rewrite E.
    + by rewrite list_insert_ge by lia.
  - by rewrite list_lookup_insert_ne.
Qed.

Lemma ins_set_instruction X i t k :
  ins (set_instruction X i t) k =
  if decide (i = k ∧ (k < length X)%nat) then t else ins X k.
Proof.
  unfold ins, set_instruction. destruct (decide (i = k)) as [->|Hne].
  - destruct (decide (k < length X)%nat) as [Hk|Hk].
    + rewrite list_lookup_total_alter_eq by done.
      rewrite decide_True by done. reflexivity.
    + rewrite decide_False by tauto.
      rewrite !list_lookup_total_alt, list_lookup_alter_eq, lookup_ge_None_2 by lia.
      reflexivity.
  - rewrite list_lookup_total_alter_ne by done. rewrite decide_False by tauto. reflexivity.
Qed.

Lemma ins_insert (X : Intersection) i r k :
  ins (<[i:=r]> X) k =
  if decide (i = k ∧ (k < length X)%nat) then instruction r else ins X k.
Proof.
  unfold ins. destruct (decide (i = k)) as [->|Hne].
  - destruct (decide (k < length X)%nat) as [Hk|Hk].
    + rewrite list_lookup_total_insert_eq by done. by rewrite decide_True.
    + rewrite list_insert_ge by lia. rewrite decide_False by tauto. reflexivity.
  - rewrite list_lookup_total_insert_ne by done. by rewrite decide_False by tauto.
Qed.

Lemma in_range_erase X Y : erase <$> X = erase <$> Y → in_range X → in_range Y.
Proof.
  unfold in_range. rewrite !Forall_lookup. intros E HX k r Hr.
  assert (Hk : (k < length X)%nat).
  { rewrite (erase_eq_length _ _ E). by eapply lookup_lt_Some. }
  destruct (lookup_lt_is_Some_2 X k Hk) as [r' Hr'].
  pose proof (HX k r' Hr') as Hrange.
  pose proof (erase_eq_lookup X Y k E) as Ek.
  rewrite (list_lookup_total_correct _ _ _ Hr), (list_lookup_total_correct _ _ _ Hr') in Ek.
  destruct (erase_reads _ _ Ek) as (_ & <- & _). done.
Qed.

(** The oracles are read-only queries of the graph and of the geometry of
    the intersection: what they answer does not depend on the instructions
    the roads carry. *)
Class Blind `{B : IntersectionHandler} : Prop := {
  findBasicTurnType_blind via r :
    findBasicTurnType via r = findBasicTurnType via (erase r);
  findObviousTurn_blind via X :
    findObviousTurn via X = findObviousTurn via (erase <$> X);
  getInstructionForObvious_blind n via through r :
    getInstructionForObvious n via through r =
    getInstructionForObvious n via through (erase r);
  isThroughStreet_blind k X :
    isThroughStreet k X = isThroughStreet k (erase <$> X);
  assignFork_blind via l r :
    assignFork via l r = assignFork via (erase l) (erase r);
  assignFork3_blind via l c r :
    assignFork3 via l c r = assignFork3 via (erase l) (erase c) (erase r)
}.

(** Two runs in lockstep.  [X] and [Y] are two intersections with the same
    roads (they differ in the instructions only); [X'] and [Y'] are what a
    handler has made of them so far: the roads are still the same, and at
    every position the two runs either wrote the same instruction or both
    left the instruction they started with. *)
Record Lockstep (X Y X' Y' : Intersection) : Prop := mkLockstep {
  lockstep_start : erase <$> X = erase <$> Y;
  lockstep_left : erase <$> X' = erase <$> X;
  lockstep_right : erase <$> Y' = erase <$> Y;
  lockstep_ins : ∀ k,
    ins X' k = ins Y' k ∨ (ins X' k = ins X k ∧ ins Y' k = ins Y k)
}.

Lemma Lockstep_refl X Y : erase <$> X = erase <$> Y → Lockstep X Y X Y.
Proof. intros E. split; auto. Qed.

Lemma Lockstep_now X Y X' Y' : Lockstep X Y X' Y' → erase <$> X' = erase <$> Y'.
Proof. intros [E EX EY _]. by rewrite EX, EY. Qed.

Lemma Lockstep_length X Y X' Y' : Lockstep X Y X' Y' → length X' = length Y'.
Proof. intros H. apply erase_eq_length. by eapply Lockstep_now. Qed.

Lemma Lockstep_road X Y X' Y' k :
  Lockstep X Y X' Y' → erase (Y' !!! k) = erase (X' !!! k).
Proof. intros H. symmetry. apply erase_eq_lookup. by eapply Lockstep_now. Qed.

Lemma Lockstep_set X Y X' Y' i t :
  Lockstep X Y X' Y' → Lockstep X Y (set_instruction X' i t) (set_instruction Y' i t).
Proof.
  intros H. pose proof (Lockstep_length _ _ _ _ H) as Hlen.
  destruct H as [E EX EY HI]. split; [done| | |].
  - by rewrite erase_set_instruction.
  - by rewrite erase_set_instruction.
  - intros k. rewrite !ins_set_instruction, <- Hlen.
    destruct (decide (i = k ∧ (k < length X')%nat)); [by left|apply HI].
Qed.

Lemma Lockstep_insert X Y X' Y' i r r' :
  Lockstep X Y X' Y' →
  erase r = erase (X' !!! i) → erase r' = erase (Y' !!! i) →
  (instruction r = instruction r' ∨
   (instruction r = ins X' i ∧ instruction r' = ins Y' i)) →
  Lockstep X Y (<[i:=r]> X') (<[i:=r']> Y').
Proof.
  intros H Er Er' Hrr. pose proof (Lockstep_length _ _ _ _ H) as Hlen.
  destruct H as [E EX EY HI]. split; [done| | |].
  - by rewrite erase_insert.
  - by rewrite erase_insert.
  - intros k. rewrite !ins_insert, <- Hlen.
    destruct (decide (i = k ∧ (k < length X')%nat)) as [[-> _]|]; [|apply HI].
    destruct Hrr as [->|[-> ->]]; [by left|apply HI].
Qed.

(** ** Switching left and right *)

(** The position a road at position [k] of an intersection of [n] roads comes
    from, or goes to, when left and right are switched. *)
Definition mirror_index (n k : nat) : nat := if Nat.eqb k 0 then 0%nat else (n - k)%nat.

(** The instruction of the mirror of a road at angle [a] that carries [t]. *)
Definition mirror_instruction_at (a : Qc) (t : TurnInstruction) : TurnInstruction :=
  if angularDeviation a 0 >? epsilon
  then mkTurnInstruction (type t) (mirror_modifier (direction_modifier t))
  else t.

Lemma instruction_mirror r :
  instruction (mirror r) = mirror_instruction_at (angle r) (instruction r).
Proof. unfold mirror, mirror_instruction_at. by destruct (_ >? _). Qed.

Lemma erase_mirror r : erase (mirror r) = mirror (erase r).
Proof. unfold mirror. cbn. by destruct (_ >? _). Qed.

Lemma switch_left_and_right_cons r0 tl :
  switch_left_and_right (r0 :: tl) = mirror r0 :: reverse (mirror <$> tl).
Proof. reflexivity. Qed.

Lemma length_switch_left_and_right X : length (switch_left_and_right X) = length X.
Proof.
  destruct X as [|r0 tl]; [done|].
  rewrite switch_left_and_right_cons. cbn. by rewrite length_reverse, length_fmap.
Qed.

Lemma erase_switch_left_and_right X :
  erase <$> switch_left_and_right X = switch_left_and_right (erase <$> X).
Proof.
  destruct X as [|r0 tl]; [done|].
  cbn [fmap list_fmap]. rewrite !switch_left_and_right_cons. cbn [fmap list_fmap].
  rewrite erase_mirror. f_equal.
  rewrite fmap_reverse. f_equal.
  rewrite <- !list_fmap_compose. apply list_fmap_ext. intros _ r _. apply erase_mirror.
Qed.

Lemma lookup_switch_left_and_right (X : Intersection) k :
  (k < length X)%nat →
  switch_left_and_right X !!! k = mirror (X !!! mirror_index (length X) k).
Proof.
  intros Hk. destruct X as [|r0 tl]; [cbn in Hk; lia|].
  rewrite switch_left_and_right_cons. unfold mirror_index.
  destruct k as [|j]; [done|]. cbn [Nat.eqb length] in *.
  replace (S (length tl) - S j)%nat with (S (length tl - S j)) by lia.
  rewrite !lookup_total_cons_ne_0 by done. cbn [Nat.pred].
  destruct (lookup_lt_is_Some_2 tl (length tl - S j)) as [x Hx]; [lia|].
  rewrite (list_lookup_total_correct tl _ x Hx).
  apply list_lookup_total_correct.
  rewrite reverse_lookup by (rewrite length_fmap; lia).
  by rewrite length_fmap, list_lookup_fmap, Hx.
Qed.

Lemma mirror_index_lt n k : (k < n)%nat → (mirror_index n k < n)%nat.
Proof. unfold mirror_index. destruct k; cbn; lia. Qed.

Lemma mirror_index_involutive n k :
  (k < n)%nat → mirror_index n (mirror_index n k) = k.
Proof.
  unfold mirror_index. intros Hk. destruct k as [|j]; [done|]. cbn [Nat.eqb].
  destruct (Nat.eqb_spec (n - S j) 0); lia.
Qed.

Lemma ins_switch_left_and_right (X : Intersection) k :
  (k < length X)%nat →
  ins (switch_left_and_right X) k =
  mirror_instruction_at (angle (X !!! mirror_index (length X) k))
                        (ins X (mirror_index (length X) k)).
Proof.
  intros Hk. unfold ins. rewrite lookup_switch_left_and_right by done.
  apply instruction_mirror.
Qed.

Lemma ins_out_of_range (X : Intersection) k :
  (length X ≤ k)%nat → ins X k = default_instruction.
Proof.
  intros Hk. unfold ins. rewrite list_lookup_total_alt, lookup_ge_None_2 by done. done.
Qed.

Lemma mirror_involutive_fmap (l : list ConnectedRoad) :
  Forall (λ r, 0 ≤ angle r ∧ angle r ≤ deg 360) l → mirror <$> (mirror <$> l) = l.
Proof.
  intros Hl. induction Hl as [|r l [Hlo Hhi] _ IH]; [done|].
  cbn [fmap list_fmap] in *. by rewrite IH, mirror_involutive_road.
Qed.

Lemma switch_left_and_right_involutive X :
  in_range X → switch_left_and_right (switch_left_and_right X) = X.
Proof.
  intros HX. destruct X as [|r0 tl]; [done|].
  apply Forall_cons_1 in HX as [[Hlo Hhi] Htl].
  rewrite !switch_left_and_right_cons.
  rewrite mirror_involutive_road by done. f_equal.
  rewrite fmap_reverse, reverse_involutive. by apply mirror_involutive_fmap.
Qed.

Section Lockstep.
Context `{K : Constants} `{B : IntersectionHandler} {Hblind : Blind}.

Lemma findBasicTurnType_erase via r r' :
  erase r = erase r' → findBasicTurnType via r = findBasicTurnType via r'.
Proof. intros E. by rewrite (findBasicTurnType_blind via r), E, <- findBasicTurnType_blind. Qed.

Lemma getInstructionForObvious_erase n via through r r' :
  erase r = erase r' →
  getInstructionForObvious n via through r = getInstructionForObvious n via through r'.
Proof.
  intros E.
  by rewrite (getInstructionForObvious_blind n via through r), E,
    <- getInstructionForObvious_blind.
Qed.

Lemma assignFork_erase via l r l' r' :
  erase l = erase l' → erase r = erase r' → assignFork via l r = assignFork via l' r'.
Proof. intros El Er. by rewrite (assignFork_blind via l r), El, Er, <- assignFork_blind. Qed.

Lemma assignFork3_erase via l c r l' c' r' :
  erase l = erase l' → erase c = erase c' → erase r = erase r' →
  assignFork3 via l c r = assignFork3 via l' c' r'.
Proof.
  intros El Ec Er.
  by rewrite (assignFork3_blind via l c r), El, Ec, Er, <- assignFork3_blind.
Qed.

Lemma findObviousTurn_erase via X Y :
  erase <$> X = erase <$> Y → findObviousTurn via X = findObviousTurn via Y.
Proof. intros E. by rewrite (findObviousTurn_blind via X), E, <- findObviousTurn_blind. Qed.

Lemma isThroughStreet_erase k X Y :
  erase <$> X = erase <$> Y → isThroughStreet k X = isThroughStreet k Y.
Proof. intros E. by rewrite (isThroughStreet_blind k X), E, <- isThroughStreet_blind. Qed.

(** *** The geometric queries do not read instructions *)

Lemma adjacent_find_fmap {A A'} (f : A → A') (p : A → A → bool) (p' : A' → A' → bool) l :
  (∀ x y, p' (f x) (f y) = p x y) →
  adjacent_find p' (f <$> l) = adjacent_find p l.
Proof.
  intros Hp. induction l as [|x [|y l] IH]; [done..|].
  cbn [fmap list_fmap adjacent_find] in *. rewrite Hp.
  destruct (p x y); [done|]. by rewrite IH.
Qed.

Lemma isOutermostForkCandidate_erase r1 r2 :
  isOutermostForkCandidate (erase r1) (erase r2) = isOutermostForkCandidate r1 r2.
Proof. reflexivity. Qed.

Lemma findOutermostForkCandidate_erase l :
  findOutermostForkCandidate (erase <$> l) = findOutermostForkCandidate l.
Proof.
  unfold findOutermostForkCandidate.
  rewrite (adjacent_find_fmap erase isOutermostForkCandidate) by done.
  by rewrite length_fmap.
Qed.

Lemma fold_left_ext {A C} (f g : A → C → A) l a :
  (∀ a c, f a c = g a c) → fold_left f l a = fold_left g l a.
Proof. intros E. revert a. induction l as [|c l IH]; intros a; cbn; [done|]. by rewrite E, IH. Qed.

Lemma findClosestToStraight_erase X :
  findClosestToStraight (erase <$> X) = findClosestToStraight X.
Proof.
  unfold findClosestToStraight. rewrite length_fmap.
  apply fold_left_ext. intros st i. by rewrite lookup_total_erase.
Qed.

Lemma findLeftAndRightmostForkCandidates_erase X :
  findLeftAndRightmostForkCandidates (erase <$> X) = findLeftAndRightmostForkCandidates X.
Proof.
  unfold findLeftAndRightmostForkCandidates.
  rewrite length_fmap, findClosestToStraight_erase.
  rewrite <- fmap_take, <- fmap_reverse, <- fmap_drop.
  by rewrite !findOutermostForkCandidate_erase.
Qed.

Lemma forallb_ext' {A} (f g : A → bool) l : (∀ x, f x = g x) → forallb f l = forallb g l.
Proof. intros E. induction l as [|x l IH]; cbn; [done|]. by rewrite E, IH. Qed.

Lemma existsb_ext' {A} (f g : A → bool) l : (∀ x, f x = g x) → existsb f l = existsb g l.
Proof. intros E. induction l as [|x l IH]; cbn; [done|]. by rewrite E, IH. Qed.

Lemma findFork_erase via X : findFork via (erase <$> X) = findFork via X.
Proof.
  unfold findFork. rewrite findLeftAndRightmostForkCandidates_erase.
  destruct (findLeftAndRightmostForkCandidates X) as [fork|]; [|done].
  rewrite length_fmap, !lookup_total_erase. cbn [angle erase with_instruction].
  assert (hasObvious via (erase <$> X) fork = hasObvious via X fork) as ->.
  { unfold hasObvious. apply existsb_ext'. intros i. by rewrite !lookup_total_erase. }
  assert (isCompatibleByRoadClass (erase <$> X) fork = isCompatibleByRoadClass X fork) as ->.
  { unfold isCompatibleByRoadClass. rewrite !lookup_total_erase. cbn [eid erase with_instruction].
    match goal with
    | |- (if negb (forallb ?f ?l) then _ else forallb ?g ?m) =
         (if negb (forallb ?f' _) then _ else forallb ?g' _) =>
        rewrite (forallb_ext' f f' l), (forallb_ext' g g' m); [done| |]
    end.
    - intros i. apply forallb_ext'. intros j. by rewrite !lookup_total_erase.
    - intros i. by rewrite lookup_total_erase. }
  assert (hasValidEntries (erase <$> X) (Fork.right fork) (Fork.left fork) =
          hasValidEntries X (Fork.right fork) (Fork.left fork)) as ->.
  { unfold hasValidEntries. apply forallb_ext'. intros i. by rewrite lookup_total_erase. }
  reflexivity.
Qed.

Lemma findFork_erase_eq via X Y :
  erase <$> X = erase <$> Y → findFork via X = findFork via Y.
Proof. intros E. by rewrite <- (findFork_erase via X), E, findFork_erase. Qed.

Lemma findClosestToStraight_erase_eq X Y :
  erase <$> X = erase <$> Y → findClosestToStraight X = findClosestToStraight Y.
Proof.
  intros E. by rewrite <- (findClosestToStraight_erase X), E, findClosestToStraight_erase.
Qed.

(** *** Conflict resolution *)

Lemma conflict_by_road_class_erase via l r :
  erase (conflict_by_road_class via l r).1 = erase l ∧
  erase (conflict_by_road_class via l r).2 = erase r.
Proof.
  unfold conflict_by_road_class.
  repeat match goal with
  | |- context [if ?c then _ else _] => destruct c
  | |- context [let '(_, _) := ?p in _] => destruct p
  end; done.
Qed.

Lemma conflict_by_angle_erase via l r l' r' :
  erase l = erase l' → erase r = erase r' →
  ∃ tl tr,
    conflict_by_angle via l r = (with_instruction tl l, with_instruction tr r) ∧
    conflict_by_angle via l' r' = (with_instruction tl l', with_instruction tr r').
Proof.
  intros El Er. unfold conflict_by_angle.
  destruct (erase_reads _ _ El) as (_ & <- & _).
  destruct (erase_reads _ _ Er) as (_ & <- & _).
  rewrite <- (findBasicTurnType_erase via l l' El), <- (findBasicTurnType_erase via r r' Er).
  repeat match goal with
  | |- context [if ?c then _ else _] => destruct c
  end; eauto.
Qed.

Lemma handleDistinctConflict_lockstep via a b a' b' :
  erase a = erase a' → erase b = erase b' →
  let res := handleDistinctConflict via a b in
  let res' := handleDistinctConflict via a' b' in
  (erase res.1 = erase a ∧ erase res.2 = erase b ∧
   erase res'.1 = erase a' ∧ erase res'.2 = erase b') ∧
  (instruction res.1 = instruction res'.1 ∨
   (instruction res.1 = instruction a ∧ instruction res'.1 = instruction a')) ∧
  (instruction res.2 = instruction res'.2 ∨
   (instruction res.2 = instruction b ∧ instruction res'.2 = instruction b')).
Proof.
  intros Ea Eb. cbn zeta. unfold handleDistinctConflict.
  destruct (erase_reads _ _ Ea) as (_ & Haa & _ & Hal & _).
  destruct (erase_reads _ _ Eb) as (_ & Hab & _ & Hbl & _).
  rewrite <- Haa, <- Hab, <- Hal, <- Hbl.
  destruct (negb (entry_allowed a) || negb (entry_allowed b) || (angle a =? angle b)).
  - unfold conflict_of_invalid_or_identical. rewrite <- Haa, <- Hab, <- Hal, <- Hbl.
    rewrite <- (findBasicTurnType_erase via a a' Ea), <- (findBasicTurnType_erase via b b' Eb).
    destruct (entry_allowed a), (entry_allowed b); cbn; auto 10.
  - destruct (conflict_by_road_class_erase via a b) as [E1 E2].
    destruct (conflict_by_road_class_erase via a' b') as [E1' E2'].
    destruct (conflict_by_road_class via a b) as [l1 r1].
    destruct (conflict_by_road_class via a' b') as [l1' r1'].
    cbn [fst snd] in *.
    destruct (conflict_by_angle_erase via l1 r1 l1' r1') as (tl & tr & -> & ->);
      [congruence..|].
    cbn. rewrite !erase_with_instruction. auto 10.
Qed.

Lemma Lockstep_handleDistinctConflictAt via X Y X' Y' l r :
  l ≠ r →
  Lockstep X Y X' Y' →
  Lockstep X Y (handleDistinctConflictAt via X' l r) (handleDistinctConflictAt via Y' l r).
Proof.
  intros Hne H. unfold handleDistinctConflictAt.
  pose proof (handleDistinctConflict_lockstep via (X' !!! l) (X' !!! r) (Y' !!! l) (Y' !!! r))
    as Hc.
  cbn zeta in Hc.
  destruct Hc as ((E1 & E2 & E1' & E2') & Hl & Hr);
    [symmetry; by eapply Lockstep_road..|].
  destruct (handleDistinctConflict via (X' !!! l) (X' !!! r)) as [lr rr].
  destruct (handleDistinctConflict via (Y' !!! l) (Y' !!! r)) as [lr' rr'].
  cbn [fst snd] in *.
  apply Lockstep_insert.
  - apply Lockstep_insert; done.
  - by rewrite list_lookup_total_insert_ne.
  - by rewrite list_lookup_total_insert_ne.
  - unfold ins. by rewrite !list_lookup_total_insert_ne.
Qed.

(** *** Basic turns *)

Lemma Lockstep_basic via X Y X' Y' i m :
  Lockstep X Y X' Y' →
  Lockstep X Y
    (set_instruction X' i (mkTurnInstruction (findBasicTurnType via (X' !!! i)) m))
    (set_instruction Y' i (mkTurnInstruction (findBasicTurnType via (Y' !!! i)) m)).
Proof.
  intros H.
  rewrite (findBasicTurnType_erase via (Y' !!! i) (X' !!! i)) by by eapply Lockstep_road.
  by apply Lockstep_set.
Qed.

Lemma Lockstep_assignTrivialTurns via X Y X' Y' b e :
  Lockstep X Y X' Y' →
  Lockstep X Y (assignTrivialTurns via X' b e) (assignTrivialTurns via Y' b e).
Proof.
  unfold assignTrivialTurns. generalize (seq b (e - b)). intros l. revert X' Y'.
  induction l as [|i l IH]; intros X' Y' H; cbn [fold_left]; [done|].
  apply IH.
  destruct (erase_reads _ _ (Lockstep_road _ _ _ _ i H)) as (_ & -> & _).
  by apply Lockstep_basic.
Qed.

(** *** The side assigners *)

(** The decisions of two runs in lockstep are the same: every read of the
    second intersection is the read of the first. *)
Ltac sync_reads H k :=
  let Ha := fresh "Ha" in
  let Hl := fresh "Hl" in
  let He := fresh "He" in
  destruct (erase_reads _ _ (Lockstep_road _ _ _ _ k H)) as (He & Ha & _ & Hl & _);
  rewrite ?Ha, ?Hl, ?He; clear Ha Hl He.

Ltac sync_angles H k :=
  let Ha := fresh "Ha" in
  destruct (erase_reads _ _ (Lockstep_road _ _ _ _ k H)) as (_ & Ha & _);
  rewrite ?Ha; clear Ha.

Ltac same_branch :=
  repeat match goal with
  | |- Lockstep _ _ (if ?c then _ else _) (if ?c then _ else _) => destruct c
  end.

Lemma count_valid_erase (X Y : Intersection) (l : list nat) :
  erase <$> X = erase <$> Y →
  filter (λ i, entry_allowed (X !!! i) = true) l =
  filter (λ i, entry_allowed (Y !!! i) = true) l.
Proof.
  intros E. apply list_filter_iff. intros i.
  destruct (erase_reads _ _ (erase_eq_lookup X Y i E)) as (_ & _ & _ & -> & _). done.
Qed.

Lemma Lockstep_assignRightTurns via X Y X' Y' up_to :
  Lockstep X Y X' Y' →
  Lockstep X Y (assignRightTurns via X' up_to) (assignRightTurns via Y' up_to).
Proof.
  intros H. unfold assignRightTurns.
  rewrite <- (count_valid_erase X' Y') by by eapply Lockstep_now.
  sync_reads H 1%nat. sync_reads H 2%nat. sync_reads H 3%nat.
  same_branch;
    auto using Lockstep_assignTrivialTurns, Lockstep_handleDistinctConflictAt, Lockstep_basic.
Qed.

Lemma Lockstep_switch_left_and_right X Y X' Y' :
  Lockstep X Y X' Y' →
  Lockstep (switch_left_and_right X) (switch_left_and_right Y)
           (switch_left_and_right X') (switch_left_and_right Y').
Proof.
  intros H. pose proof (Lockstep_length _ _ _ _ H) as Hlen.
  destruct H as [E EX EY HI].
  pose proof (erase_eq_length _ _ EX) as HlenX.
  pose proof (erase_eq_length _ _ EY) as HlenY.
  split.
  - by rewrite !erase_switch_left_and_right, E.
  - by rewrite !erase_switch_left_and_right, EX.
  - by rewrite !erase_switch_left_and_right, EY.
  - intros k. destruct (decide (k < length X')%nat) as [Hk|Hk].
    + rewrite !ins_switch_left_and_right by lia.
      rewrite <- HlenX, <- HlenY, <- Hlen.
      set (j := mirror_index (length X') k).
      destruct (erase_reads _ _ (erase_eq_lookup _ _ j EX)) as (_ & <- & _).
      destruct (erase_reads _ _ (erase_eq_lookup _ _ j EY)) as (_ & <- & _).
      assert (Ej : erase <$> X' = erase <$> Y') by by rewrite EX, EY.
      destruct (erase_reads _ _ (erase_eq_lookup _ _ j Ej)) as (_ & <- & _).
      destruct (HI j) as [->|[-> ->]]; auto.
    + left. rewrite !ins_out_of_range; [done|rewrite length_switch_left_and_right; lia..].
Qed.

Lemma Lockstep_assignLeftTurns via X Y X' Y' starting_at :
  in_range X → in_range Y →
  Lockstep X Y X' Y' →
  Lockstep X Y (assignLeftTurns via X' starting_at) (assignLeftTurns via Y' starting_at).
Proof.
  intros HX HY H. unfold assignLeftTurns.
  rewrite !length_switch_left_and_right, <- (Lockstep_length _ _ _ _ H).
  rewrite <- (switch_left_and_right_involutive X), <- (switch_left_and_right_involutive Y)
    by done.
  apply Lockstep_switch_left_and_right, Lockstep_assignRightTurns,
    Lockstep_switch_left_and_right, H.
Qed.

(** *** The handlers *)

Lemma Lockstep_obvious via X Y X' Y' n i (through : Intersection → bool) :
  through Y' = through X' →
  Lockstep X Y X' Y' →
  Lockstep X Y
    (set_instruction X' i (getInstructionForObvious n via (through X') (X' !!! i)))
    (set_instruction Y' i (getInstructionForObvious n via (through Y') (Y' !!! i))).
Proof.
  intros Ht H. rewrite Ht.
  rewrite (getInstructionForObvious_erase n via _ (Y' !!! i) (X' !!! i))
    by by eapply Lockstep_road.
  by apply Lockstep_set.
Qed.

Lemma Lockstep_assignForkAt via X Y X' Y' l r :
  Lockstep X Y X' Y' →
  Lockstep X Y (assignForkAt via X' l r) (assignForkAt via Y' l r).
Proof.
  intros H. unfold assignForkAt.
  rewrite (assignFork_erase via (Y' !!! l) (Y' !!! r) (X' !!! l) (X' !!! r))
    by by eapply Lockstep_road.
  destruct (assignFork via (X' !!! l) (X' !!! r)) as [tl tr].
  by do 2 apply Lockstep_set.
Qed.

Lemma Lockstep_assignFork3At via X Y X' Y' l c r :
  Lockstep X Y X' Y' →
  Lockstep X Y (assignFork3At via X' l c r) (assignFork3At via Y' l c r).
Proof.
  intros H. unfold assignFork3At.
  rewrite (assignFork3_erase via (Y' !!! l) (Y' !!! c) (Y' !!! r)
             (X' !!! l) (X' !!! c) (X' !!! r)) by by eapply Lockstep_road.
  destruct (assignFork3 via (X' !!! l) (X' !!! c) (X' !!! r)) as [[tl tc] tr].
  by do 3 apply Lockstep_set.
Qed.

Lemma Lockstep_end_of_road via X Y X' Y' i m :
  Lockstep X Y X' Y' →
  Lockstep X Y
    (if entry_allowed (X' !!! i) then
       if negb (TurnType.eqb TurnType.OnRamp (findBasicTurnType via (X' !!! i)))
       then set_instruction X' i (mkTurnInstruction TurnType.EndOfRoad m)
       else set_instruction X' i (mkTurnInstruction TurnType.OnRamp m)
     else X')
    (if entry_allowed (Y' !!! i) then
       if negb (TurnType.eqb TurnType.OnRamp (findBasicTurnType via (Y' !!! i)))
       then set_instruction Y' i (mkTurnInstruction TurnType.EndOfRoad m)
       else set_instruction Y' i (mkTurnInstruction TurnType.OnRamp m)
     else Y').
Proof.
  intros H.
  rewrite (findBasicTurnType_erase via (Y' !!! i) (X' !!! i)) by by eapply Lockstep_road.
  sync_reads H i. same_branch; auto using Lockstep_set.
Qed.

Lemma Lockstep_handleTwoWayTurn via X Y X' Y' :
  Lockstep X Y X' Y' →
  Lockstep X Y (handleTwoWayTurn via X') (handleTwoWayTurn via Y').
Proof.
  intros H. unfold handleTwoWayTurn.
  rewrite <- (Lockstep_length _ _ _ _ H).
  by apply (Lockstep_obvious via X Y X' Y' _ _ (λ _, false)).
Qed.

Lemma Lockstep_handleThreeWayTurn via X Y X' Y' :
  Lockstep X Y X' Y' →
  Lockstep X Y (handleThreeWayTurn via X') (handleThreeWayTurn via Y').
Proof.
  intros H. pose proof (Lockstep_now _ _ _ _ H) as E.
  unfold handleThreeWayTurn, isEndOfRoad. cbn zeta.
  rewrite <- (findObviousTurn_erase via X' Y' E), <- (findFork_erase_eq via X' Y' E).
  sync_angles H 0%nat. sync_angles H 1%nat. sync_angles H 2%nat.
  destruct (findFork via X') as [fork|], (Nat.eqb (findObviousTurn via X') 0);
    try (by apply Lockstep_assignForkAt);
    same_branch;
    auto using Lockstep_end_of_road, Lockstep_basic;
    try (apply Lockstep_basic, (Lockstep_obvious via X Y X' Y' _ _ (isThroughStreet _));
         [symmetry; by apply isThroughStreet_erase|done]).
Qed.

Lemma Lockstep_handleComplexTurn via X Y X' Y' :
  in_range X → in_range Y →
  Lockstep X Y X' Y' →
  Lockstep X Y (handleComplexTurn via X') (handleComplexTurn via Y').
Proof.
  intros HX HY H. pose proof (Lockstep_now _ _ _ _ H) as E.
  unfold handleComplexTurn. cbn zeta.
  rewrite <- (findObviousTurn_erase via X' Y' E), <- (findFork_erase_eq via X' Y' E),
    <- (findClosestToStraight_erase_eq X' Y' E), <- (Lockstep_length _ _ _ _ H).
  set (s := id (findClosestToStraight X')).
  sync_reads H s.
  destruct (negb (Nat.eqb (findObviousTurn via X') 0)).
  { apply Lockstep_assignRightTurns, Lockstep_assignLeftTurns; [done..|].
    apply (Lockstep_obvious via X Y X' Y' _ _ (isThroughStreet _));
      [symmetry; by apply isThroughStreet_erase|done]. }
  destruct (findFork via X') as [fork|].
  { apply Lockstep_assignRightTurns, Lockstep_assignLeftTurns; [done..|].
    sync_reads H (Fork.left fork). sync_reads H (Fork.right fork).
    same_branch; auto using Lockstep_assignForkAt, Lockstep_assignFork3At.
    - apply Lockstep_basic, (Lockstep_obvious via X Y X' Y' _ _ (λ _, false)); done.
    - apply Lockstep_basic, (Lockstep_obvious via X Y X' Y' _ _ (λ _, false)); done. }
  same_branch;
    auto using Lockstep_assignRightTurns, Lockstep_assignLeftTurns,
      Lockstep_assignTrivialTurns.
Qed.

Lemma Lockstep_classify via X Y X' Y' :
  in_range X → in_range Y →
  Lockstep X Y X' Y' →
  Lockstep X Y (classify via X') (classify via Y').
Proof.
  intros HX HY H. unfold classify, handleOneWayTurn.
  rewrite <- (Lockstep_length _ _ _ _ H).
  destruct (Nat.eqb (length X') 1); [done|].
  assert (H0 : Lockstep X Y
    (if entry_allowed (X' !!! 0%nat)
     then set_instruction X' 0
            (mkTurnInstruction (findBasicTurnType via (X' !!! 0%nat)) DirectionModifier.UTurn)
     else X')
    (if entry_allowed (Y' !!! 0%nat)
     then set_instruction Y' 0
            (mkTurnInstruction (findBasicTurnType via (Y' !!! 0%nat)) DirectionModifier.UTurn)
     else Y')).
  { sync_reads H 0%nat. same_branch; auto using Lockstep_basic. }
  revert H0.
  generalize (if entry_allowed (X' !!! 0%nat)
     then set_instruction X' 0
            (mkTurnInstruction (findBasicTurnType via (X' !!! 0%nat)) DirectionModifier.UTurn)
     else X').
  generalize (if entry_allowed (Y' !!! 0%nat)
     then set_instruction Y' 0
            (mkTurnInstruction (findBasicTurnType via (Y' !!! 0%nat)) DirectionModifier.UTurn)
     else Y').
  intros Y1 X1 H1. rewrite <- (Lockstep_length _ _ _ _ H1).
  same_branch;
    auto using Lockstep_handleTwoWayTurn, Lockstep_handleThreeWayTurn,
      Lockstep_handleComplexTurn.
Qed.

End Lockstep.

(** ** The frame of the classifier: only instructions change *)

Section Frame.
Context `{K : Constants} `{B : IntersectionHandler}.

Ltac split_branches :=
  repeat match goal with
  | |- context [if ?c then _ else _] => destruct c
  | |- context [match ?c with Some _ => _ | None => _ end] => destruct c
  | |- context [let '(_, _) := ?p in _] => destruct p
  end.

Lemma erase_assignTrivialTurns via X b e :
  erase <$> assignTrivialTurns via X b e = erase <$> X.
Proof.
  unfold assignTrivialTurns. generalize (seq b (e - b)). intros l. revert X.
  induction l as [|i l IH]; intros X; cbn [fold_left]; [done|].
  by rewrite IH, erase_set_instruction.
Qed.

Lemma erase_handleDistinctConflict via l r :
  erase (handleDistinctConflict via l r).1 = erase l ∧
  erase (handleDistinctConflict via l r).2 = erase r.
Proof.
  unfold handleDistinctConflict.
  destruct (conflict_by_road_class_erase via l r) as [E1 E2].
  destruct (conflict_by_road_class via l r) as [l1 r1]. cbn [fst snd] in *.
  unfold conflict_of_invalid_or_identical, conflict_by_angle.
  split_branches; cbn [fst snd]; rewrite ?erase_with_instruction; done.
Qed.

Lemma erase_handleDistinctConflictAt via X l r :
  l ≠ r → erase <$> handleDistinctConflictAt via X l r = erase <$> X.
Proof.
  intros Hne. unfold handleDistinctConflictAt.
  destruct (erase_handleDistinctConflict via (X !!! l) (X !!! r)) as [E1 E2].
  destruct (handleDistinctConflict via (X !!! l) (X !!! r)) as [l1 r1]. cbn [fst snd] in *.
  rewrite erase_insert; [by rewrite erase_insert|].
  by rewrite list_lookup_total_insert_ne.
Qed.

Lemma erase_assignRightTurns via X up_to :
  erase <$> assignRightTurns via X up_to = erase <$> X.
Proof.
  unfold assignRightTurns.
  split_branches;
    rewrite ?erase_set_instruction, ?erase_assignTrivialTurns,
      ?erase_handleDistinctConflictAt, ?erase_set_instruction by done;
    done.
Qed.

Lemma in_range_fmap_erase X : in_range X → in_range (erase <$> X).
Proof. apply in_range_erase. by rewrite <- list_fmap_compose. Qed.

Lemma erase_assignLeftTurns via X starting_at :
  in_range X → erase <$> assignLeftTurns via X starting_at = erase <$> X.
Proof.
  intros HX. unfold assignLeftTurns.
  rewrite erase_switch_left_and_right, erase_assignRightTurns,
    erase_switch_left_and_right.
  by apply switch_left_and_right_involutive, in_range_fmap_erase.
Qed.

Lemma erase_assignForkAt via X l r : erase <$> assignForkAt via X l r = erase <$> X.
Proof.
  unfold assignForkAt. destruct (assignFork _ _ _). by rewrite !erase_set_instruction.
Qed.

Lemma erase_assignFork3At via X l c r : erase <$> assignFork3At via X l c r = erase <$> X.
Proof.
  unfold assignFork3At. destruct (assignFork3 _ _ _ _) as [[? ?] ?].
  by rewrite !erase_set_instruction.
Qed.

Lemma erase_handleTwoWayTurn via X : erase <$> handleTwoWayTurn via X = erase <$> X.
Proof. apply erase_set_instruction. Qed.

Lemma erase_handleThreeWayTurn via X : erase <$> handleThreeWayTurn via X = erase <$> X.
Proof.
  unfold handleThreeWayTurn. cbn zeta.
  split_branches; rewrite ?erase_assignForkAt, ?erase_set_instruction; done.
Qed.

Lemma erase_sides via X l r :
  in_range X →
  erase <$> assignRightTurns via (assignLeftTurns via X l) r = erase <$> X.
Proof. intros HX. by rewrite erase_assignRightTurns, erase_assignLeftTurns. Qed.

Lemma erase_handleComplexTurn via X :
  in_range X → erase <$> handleComplexTurn via X = erase <$> X.
Proof.
  intros HX. unfold handleComplexTurn. cbn zeta.
  split_branches;
    rewrite ?erase_assignTrivialTurns, ?erase_sides;
    rewrite ?erase_set_instruction, ?erase_assignForkAt, ?erase_assignFork3At,
      ?erase_set_instruction;
    try done;
    (eapply in_range_erase; [|exact HX]);
    rewrite ?erase_set_instruction, ?erase_assignForkAt, ?erase_assignFork3At,
      ?erase_set_instruction; done.
Qed.

Lemma erase_classify via X : in_range X → erase <$> classify via X = erase <$> X.
Proof.
  intros HX. unfold classify, handleOneWayTurn.
  assert (in_range (set_instruction X 0
            (mkTurnInstruction (findBasicTurnType via (X !!! 0%nat))
               DirectionModifier.UTurn))) as HX0.
  { eapply in_range_erase; [|exact HX]. by rewrite erase_set_instruction. }
  split_branches;
    rewrite ?erase_handleTwoWayTurn, ?erase_handleThreeWayTurn, ?erase_handleComplexTurn,
      ?erase_set_instruction by done;
    done.
Qed.

End Frame.

(** An end-of-road junction: back, right at 90 degrees, left at 270. *)
Definition t_junction : Intersection :=
  [road 0 0 true; road 1 90 true; road 2 270 true].

(** A crossing of five roads, the one straight ahead closed. *)
Definition closed_straight_crossing : Intersection :=
  [road 0 0 true; road 1 100 true; road 2 170 true; road 3 180 false; road 4 190 true].

(** The example handler with no obvious turn anywhere. *)
Definition plain_handler : IntersectionHandler :=
  example_handler uniform_edge_data (λ _, 0%nat).

Lemma example_handler_blind edge_data obvious :
  (∀ X, obvious X = obvious (erase <$> X)) → @Blind (example_handler edge_data obvious).
Proof. intros Hobvious. split; done. Qed.

Lemma plain_handler_blind : @Blind plain_handler.
Proof. by apply example_handler_blind. Qed.

Lemma in_range_cons r X :
  0 ≤ angle r → angle r ≤ deg 360 → in_range X → in_range (r :: X).
Proof. intros. by apply List.Forall_cons. Qed.

Lemma in_range_nil : in_range [].
Proof. apply List.Forall_nil. Qed.

(** Discharges [in_range] of a concrete intersection. *)
Ltac in_range_concrete :=
  repeat first [ apply in_range_nil | apply in_range_cons; [cbn; qc_lra | cbn; qc_lra |] ].

Lemma intersection_eq (X Y : Intersection) :
  erase <$> X = erase <$> Y → (∀ k, ins X k = ins Y k) → X = Y.
Proof.
  intros E HI. apply list_eq. intros k.
  pose proof (erase_eq_length _ _ E) as Hlen.
  destruct (decide (k < length X)%nat) as [Hk|Hk].
  - destruct (lookup_lt_is_Some_2 X k Hk) as [x Hx].
    destruct (lookup_lt_is_Some_2 Y k) as [y Hy]; [lia|].
    rewrite Hx, Hy. f_equal.
    pose proof (erase_eq_lookup _ _ k E) as Ek. specialize (HI k). unfold ins in HI.
    rewrite (list_lookup_total_correct _ _ _ Hx), (list_lookup_total_correct _ _ _ Hy) in Ek, HI.
    by apply road_eq.
  - rewrite !lookup_ge_None_2; [done|lia..].
Qed.

(** On the rationals classifying twice is classifying once: on the result
    of the classifier the classifier changes nothing, for oracles that answer
    from the graph and the geometry (not from the instructions already on the
    roads) and angles between 0 and 360. *)
Lemma classify_idempotent_exact `{K : Constants} `{B : IntersectionHandler} {Hblind : Blind}
    (via : EdgeID) (X : Intersection) :
  in_range X →
  classify via (classify via X) = classify via X.
Proof.
  intros HX. pose proof (erase_classify via X HX) as E.
  assert (HcX : in_range (classify via X)) by (eapply in_range_erase; [|exact HX]; done).
  pose proof (Lockstep_classify via X (classify via X) X (classify via X) HX HcX
                (Lockstep_refl _ _ (eq_sym E))) as [_ EL ER HI].
  apply intersection_eq; [by rewrite ER|].
  intros k. destruct (HI k) as [->|[_ ->]]; done.
Qed.

(** ** The range of a fork *)

Lemma adjacent_find_cons {A} (p : A → A → bool) x y l :
  adjacent_find p (x :: y :: l) =
  if p x y then Some 0%nat else S <$> adjacent_find p (y :: l).
Proof. reflexivity. Qed.

Lemma adjacent_find_Some_lt {A} (p : A → A → bool) l k :
  adjacent_find p l = Some k → (S k < length l)%nat.
Proof.
  revert k. induction l as [|x [|y l] IH]; intros k; [done..|].
  rewrite adjacent_find_cons. destruct (p x y).
  - intros [= <-]. cbn. lia.
  - destruct (adjacent_find p (y :: l)) as [j|] eqn:Hj; [|done].
    intros [= <-]. specialize (IH j eq_refl). cbn in *. lia.
Qed.

Lemma adjacent_find_None {A} (p : A → A → bool) l k x y :
  adjacent_find p l = None → l !! k = Some x → l !! S k = Some y → p x y = false.
Proof.
  revert k. induction l as [|x' [|y' l] IH]; intros k; [done..|].
  rewrite adjacent_find_cons. destruct (p x' y') eqn:Hp; [done|].
  destruct (adjacent_find p (y' :: l)) eqn:Hj; [done|]. intros _.
  destruct k as [|k]; cbn.
  - by intros [= <-] [= <-].
  - intros Hx Hy. by apply (IH k).
Qed.

(** The constants are such that a road within [NARROW_TURN_ANGLE] of the way
    back is more than [GROUP_ANGLE] away from straight ahead. *)
Definition narrow_and_group_fit `{K : Constants} : Prop :=
  0 ≤ GROUP_ANGLE ∧ NARROW_TURN_ANGLE + GROUP_ANGLE + epsilon ≤ deg 180.

Section ForkRange.
Context `{K : Constants} `{B : IntersectionHandler}.

Lemma findClosestToStraight_id X :
  (id (findClosestToStraight X) = 0%nat ∧
   deviation_from_straight (findClosestToStraight X) = deg 180) ∨
  (1 ≤ id (findClosestToStraight X) < length X)%nat.
Proof.
  unfold findClosestToStraight.
  assert (Hl : Forall (λ i, 1 ≤ i < length X)%nat (seq 1 (length X - 1))).
  { apply Forall_forall. intros i Hi%in_seq. lia. }
  revert Hl. generalize (seq 1 (length X - 1)). intros l Hl.
  assert (H0 : (id (mkStraightestTurnAtIntersection 0 (deg 180)) = 0%nat ∧
                deviation_from_straight (mkStraightestTurnAtIntersection 0 (deg 180)) = deg 180) ∨
               (1 ≤ id (mkStraightestTurnAtIntersection 0 (deg 180)) < length X)%nat)
    by (by left).
  revert H0. generalize (mkStraightestTurnAtIntersection 0 (deg 180)).
  induction Hl as [|i l Hi _ IH]; intros st Hst; cbn [fold_left]; [done|].
  apply IH. destruct (_ && _); [by right|done].
Qed.

(** The road next to the way back is an outermost fork candidate. *)
Lemma isOutermostForkCandidate_first r1 r0 :
  narrow_and_group_fit →
  0 ≤ angle r0 → angle r0 < epsilon →
  0 ≤ angle r1 → angle r1 ≤ deg 360 →
  isOutermostForkCandidate r1 r0 = true.
Proof.
  intros [HG HNG] H0 H0' H1 H1'. unfold isOutermostForkCandidate. cbn zeta.
  assert (Hs : NARROW_TURN_ANGLE < angularDeviation (angle r0) STRAIGHT_ANGLE).
  { rewrite angularDeviation_straight by qc_lra. qc_split; qc_lra. }
  apply Qcltb_lt in Hs. rewrite Hs.
  destruct (angularDeviation (angle r1) (angle r0) >? NARROW_TURN_ANGLE) eqn:Hn; [done|].
  apply Qcltb_ge in Hn.
  assert (Hg : GROUP_ANGLE < angularDeviation (angle r1) STRAIGHT_ANGLE).
  { rewrite angularDeviation_straight by done.
    unfold angularDeviation in Hn. cbn zeta in Hn. qc_split; qc_lra. }
  apply Qcltb_lt in Hg. by rewrite Hg.
Qed.

Lemma valid_first X :
  valid X = true → X ≠ [] ∧ angle (X !!! 0%nat) < epsilon.
Proof.
  unfold valid. rewrite !andb_true_iff, negb_true_iff, bool_decide_eq_false, Qcltb_lt.
  tauto.
Qed.

Lemma in_range_lookup X k :
  in_range X → 0 ≤ angle (X !!! k) ∧ angle (X !!! k) ≤ deg 360.
Proof.
  intros HX. destruct (decide (k < length X)%nat) as [Hk|Hk].
  - destruct (lookup_lt_is_Some_2 X k Hk) as [x Hx].
    rewrite (list_lookup_total_correct _ _ _ Hx).
    unfold in_range in HX. rewrite Forall_lookup in HX. by apply (HX k).
  - rewrite list_lookup_total_alt, lookup_ge_None_2 by lia. cbn. split; qc_lra.
Qed.

Lemma findLeftAndRightmostForkCandidates_bounds X fork :
  narrow_and_group_fit → angle (X !!! 0%nat) < epsilon → in_range X →
  findLeftAndRightmostForkCandidates X = Some fork →
  (1 ≤ Fork.right fork)%nat ∧ (Fork.right fork < Fork.left fork)%nat ∧
  (Fork.left fork < length X)%nat ∧
  Fork.size fork = (Fork.left fork - Fork.right fork + 1)%nat ∧
  (Fork.size fork = 2%nat ∨ Fork.size fork = 3%nat).
Proof.
  intros Hfit Hvalid HX. unfold findLeftAndRightmostForkCandidates.
  destruct (bool_decide (3 ≤ length X)%nat) eqn:Hlen; [|done].
  apply bool_decide_eq_true in Hlen.
  destruct (deviation_from_straight (findClosestToStraight X) <=? NARROW_TURN_ANGLE)
    eqn:Hdev; [|done].
  apply Qcleb_le in Hdev.
  destruct (findClosestToStraight_id X) as [[_ Hd]|Hid].
  { rewrite Hd in Hdev. destruct Hfit. exfalso. qc_lra. }
  set (s := id (findClosestToStraight X)) in *.
  set (right := findOutermostForkCandidate (reverse (take (S s) X))).
  set (left := findOutermostForkCandidate (drop s X)).
  assert (Hright : (right < s)%nat).
  { unfold right, findOutermostForkCandidate.
    destruct (adjacent_find _ _) as [k|] eqn:Hk.
    - apply adjacent_find_Some_lt in Hk.
      rewrite length_reverse, length_take in Hk. lia.
    - exfalso.
      assert (Hl : length (take (S s) X) = S s) by (rewrite length_take; lia).
      pose proof (adjacent_find_None _ _ (s - 1)%nat (X !!! 1%nat) (X !!! 0%nat) Hk) as Hp.
      assert (Ho : isOutermostForkCandidate (X !!! 1%nat) (X !!! 0%nat) = true).
      { apply isOutermostForkCandidate_first;
          [done|by apply in_range_lookup|done|by apply in_range_lookup..]. }
      rewrite Ho in Hp. enough (true = false) by done. apply Hp.
      + destruct (lookup_lt_is_Some_2 X 1) as [x Hx]; [lia|].
        rewrite (list_lookup_total_correct _ _ _ Hx).
        rewrite reverse_lookup by lia. rewrite Hl, lookup_take_lt by lia.
        by replace (S s - S (s - 1))%nat with 1%nat by lia.
      + destruct (lookup_lt_is_Some_2 X 0) as [x Hx]; [lia|].
        rewrite (list_lookup_total_correct _ _ _ Hx).
        rewrite reverse_lookup by lia. rewrite Hl, lookup_take_lt by lia.
        by replace (S s - S (S (s - 1)))%nat with 0%nat by lia. }
  assert (Hleft : (s + left < length X)%nat).
  { unfold left, findOutermostForkCandidate.
    destruct (adjacent_find _ _) as [k|] eqn:Hk.
    - apply adjacent_find_Some_lt in Hk. rewrite length_drop in Hk. lia.
    - rewrite length_drop. lia. }
  destruct (bool_decide (s - right < s + left)%nat) eqn:H1; [|done].
  destruct (bool_decide (s + left - (s - right) + 1 ≤ 3)%nat) eqn:H2; [|done].
  apply bool_decide_eq_true in H1, H2.
  cbn [andb]. intros [= <-]. unfold Fork.make. cbn [Fork.right Fork.left Fork.size].
  lia.
Qed.

Lemma findFork_candidates via X fork :
  findFork via X = Some fork → findLeftAndRightmostForkCandidates X = Some fork.
Proof.
  unfold findFork. destruct (findLeftAndRightmostForkCandidates X) as [f|]; [|done].
  by destruct (_ && _ && _ && _ && _).
Qed.

Lemma findFork_candidates_bounds via X fork :
  narrow_and_group_fit → valid X = true → in_range X →
  findFork via X = Some fork →
  (1 ≤ Fork.right fork)%nat ∧ (Fork.right fork < Fork.left fork)%nat ∧
  (Fork.left fork < length X)%nat ∧
  Fork.size fork = (Fork.left fork - Fork.right fork + 1)%nat ∧
  (Fork.size fork = 2%nat ∨ Fork.size fork = 3%nat).
Proof.
  intros Hfit Hvalid HX Hfork.
  eapply findLeftAndRightmostForkCandidates_bounds; [done| |done|].
  - by apply valid_first.
  - by eapply findFork_candidates.
Qed.

End ForkRange.

(** C3. A fork that [findFork] returns has two or three roads, and all of
    them are roads [1 .. size - 1] of the intersection: its rightmost road is
    not the road back at position 0, its leftmost road is a road of the
    intersection.  (For a valid intersection with angles of the data model,
    and constants for which a road within [NARROW_TURN_ANGLE] of the way back
    is more than [GROUP_ANGLE] away from straight.) *)
Theorem findFork_range `{K : Constants} `{B : IntersectionHandler}
    (via : EdgeID) (X : Intersection) (fork : Fork.t) :
  narrow_and_group_fit → valid X = true → in_range X →
  findFork via X = Some fork →
  (Fork.size fork = 2%nat ∨ Fork.size fork = 3%nat) ∧
  Fork.size fork = (Fork.left fork - Fork.right fork + 1)%nat ∧
  ∀ position, (Fork.right fork ≤ position ≤ Fork.left fork)%nat →
              (1 ≤ position < length X)%nat.
Proof.
  intros Hfit Hvalid HX Hfork.
  destruct (findFork_candidates_bounds via X fork Hfit Hvalid HX Hfork)
    as (H1 & H2 & H3 & H4 & H5).
  split; [done|]. split; [done|]. intros position Hp. lia.
Qed.

(** An announced fork: straight on at 170 degrees or slightly left at 195. *)
Definition narrow_fork : Intersection :=
  [road 0 0 true; road 1 170 true; road 2 195 true].

Lemma example_constants_fit : @narrow_and_group_fit example_constants.
Proof. split; cbn; qc_lra. Qed.

Lemma findFork_range_witness :
  (Fork.size (Fork.make 1 2) = 2%nat ∨ Fork.size (Fork.make 1 2) = 3%nat) ∧
  Fork.size (Fork.make 1 2) =
    (Fork.left (Fork.make 1 2) - Fork.right (Fork.make 1 2) + 1)%nat ∧
  ∀ position,
    (Fork.right (Fork.make 1 2) ≤ position ≤ Fork.left (Fork.make 1 2))%nat →
    (1 ≤ position < length narrow_fork)%nat.
Proof.
  apply (findFork_range (K:=example_constants) (B:=plain_handler) 9%nat narrow_fork).
  - exact example_constants_fit.
  - vm_compute. reflexivity.
  - unfold narrow_fork. in_range_concrete.
  - vm_compute. reflexivity.
Defined.

(** ** Where the side assigners write *)

Section Support.
Context `{K : Constants} `{B : IntersectionHandler}.

Lemma length_set_instruction X i t : length (set_instruction X i t) = length X.
Proof. apply length_alter. Qed.

Lemma ins_set_instruction_ne X i t k : i ≠ k → ins (set_instruction X i t) k = ins X k.
Proof. intros Hne. rewrite ins_set_instruction. by rewrite decide_False by tauto. Qed.

Lemma ins_assignTrivialTurns_outside via X b e k :
  (k < b ∨ e ≤ k)%nat → ins (assignTrivialTurns via X b e) k = ins X k.
Proof.
  unfold assignTrivialTurns. intros Hk.
  assert (Hl : Forall (λ i, i ≠ k) (seq b (e - b))).
  { apply Forall_forall. intros i Hi%in_seq. lia. }
  revert Hl. generalize (seq b (e - b)). intros l Hl. revert X.
  induction Hl as [|i l Hi _ IH]; intros X; cbn [fold_left]; [done|].
  by rewrite IH, ins_set_instruction_ne.
Qed.

Lemma ins_handleDistinctConflictAt_outside via X l r k :
  k ≠ l → k ≠ r → ins (handleDistinctConflictAt via X l r) k = ins X k.
Proof.
  intros Hl Hr. unfold handleDistinctConflictAt.
  destruct (handleDistinctConflict via (X !!! l) (X !!! r)) as [l1 r1].
  unfold ins. by rewrite !list_lookup_total_insert_ne.
Qed.

Lemma assignRightTurns_outside via X up_to k :
  (k = 0 ∨ up_to ≤ k)%nat → ins (assignRightTurns via X up_to) k = ins X k.
Proof.
  intros Hk. unfold assignRightTurns.
  repeat match goal with
  | |- context [if ?c then _ else _] => destruct c eqn:?
  end;
  repeat match goal with
  | H : Nat.eqb _ _ = true |- _ => apply Nat.eqb_eq in H
  | H : bool_decide _ = false |- _ => apply bool_decide_eq_false in H
  end;
  subst;
  rewrite ?ins_set_instruction_ne, ?ins_handleDistinctConflictAt_outside,
    ?ins_set_instruction_ne, ?ins_assignTrivialTurns_outside by lia;
  try done.
Qed.

End Support.

(** ** The road back *)

Lemma is_sorted_fmap {A A'} (f : A → A') (cmp : A → A → bool) (cmp' : A' → A' → bool) l :
  (∀ x y, cmp' (f x) (f y) = cmp x y) →
  is_sorted cmp' (f <$> l) = is_sorted cmp l.
Proof.
  intros Hc. induction l as [|x [|y l] IH]; [done..|].
  change (negb (cmp' (f y) (f x)) && is_sorted cmp' (f <$> y :: l) =
          negb (cmp y x) && is_sorted cmp (y :: l)).
  by rewrite Hc, IH.
Qed.

Lemma valid_erase X : valid (erase <$> X) = valid X.
Proof.
  unfold valid. rewrite lookup_total_erase.
  rewrite (is_sorted_fmap erase compareByAngle compareByAngle) by done.
  by destruct X.
Qed.

Lemma valid_erase_eq X Y : erase <$> X = erase <$> Y → valid X = valid Y.
Proof. intros E. by rewrite <- (valid_erase X), E, valid_erase. Qed.

(** The road at position 0 is labelled as the way back. *)
Definition uturn_first (X : Intersection) : Prop :=
  direction_modifier (ins X 0) = DirectionModifier.UTurn.

Section RoadBack.
Context `{K : Constants} `{B : IntersectionHandler}.

Lemma uturn_first_switch_left_and_right X :
  uturn_first X → uturn_first (switch_left_and_right X).
Proof.
  unfold uturn_first. intros HX. destruct X as [|r0 tl]; [done|].
  rewrite ins_switch_left_and_right by (cbn; lia).
  unfold mirror_index, mirror_instruction_at. cbn [Nat.eqb].
  destruct (_ >? _); [|done]. cbn. by rewrite HX.
Qed.

Lemma uturn_first_assignRightTurns via X up_to :
  uturn_first X → uturn_first (assignRightTurns via X up_to).
Proof. unfold uturn_first. rewrite assignRightTurns_outside; [done|by left]. Qed.

Lemma uturn_first_assignLeftTurns via X starting_at :
  uturn_first X → uturn_first (assignLeftTurns via X starting_at).
Proof.
  intros HX. unfold assignLeftTurns.
  by apply uturn_first_switch_left_and_right, uturn_first_assignRightTurns,
    uturn_first_switch_left_and_right.
Qed.

Lemma uturn_first_set_instruction X i t :
  i ≠ 0%nat → uturn_first X → uturn_first (set_instruction X i t).
Proof. unfold uturn_first. intros Hi. by rewrite ins_set_instruction_ne. Qed.

Lemma uturn_first_assignTrivialTurns via X e :
  uturn_first X → uturn_first (assignTrivialTurns via X 1 e).
Proof. unfold uturn_first. rewrite ins_assignTrivialTurns_outside; [done|lia]. Qed.

Lemma uturn_first_assignForkAt via X l r :
  l ≠ 0%nat → r ≠ 0%nat → uturn_first X → uturn_first (assignForkAt via X l r).
Proof.
  intros Hl Hr HX. unfold assignForkAt. destruct (assignFork _ _ _).
  by repeat (apply uturn_first_set_instruction; [done|]).
Qed.

Lemma uturn_first_assignFork3At via X l c r :
  l ≠ 0%nat → c ≠ 0%nat → r ≠ 0%nat →
  uturn_first X → uturn_first (assignFork3At via X l c r).
Proof.
  intros Hl Hc Hr HX. unfold assignFork3At. destruct (assignFork3 _ _ _ _) as [[? ?] ?].
  by repeat (apply uturn_first_set_instruction; [done|]).
Qed.

Lemma uturn_first_handleThreeWayTurn via X :
  narrow_and_group_fit → valid X = true → in_range X →
  uturn_first X → uturn_first (handleThreeWayTurn via X).
Proof.
  intros Hfit Hvalid HX H0. unfold handleThreeWayTurn. cbn zeta.
  destruct (findFork via X) as [fork|] eqn:Hfork.
  - destruct (findFork_candidates_bounds via X fork Hfit Hvalid HX Hfork) as (? & ? & _).
    repeat match goal with
    | |- context [if ?c then _ else _] => destruct c
    | |- context [match ?c with true => _ | false => _ end] => destruct c
    end;
    repeat first [ done | apply uturn_first_set_instruction; [lia|]
                 | apply uturn_first_assignForkAt; [lia..|] ].
  - repeat match goal with
    | |- context [if ?c then _ else _] => destruct c
    | |- context [match ?c with true => _ | false => _ end] => destruct c
    end;
    repeat first [ done | apply uturn_first_set_instruction; [lia|] ].
Qed.

Lemma uturn_first_handleComplexTurn via X :
  narrow_and_group_fit → valid X = true → in_range X →
  uturn_first X → uturn_first (handleComplexTurn via X).
Proof.
  intros Hfit Hvalid HX H0. unfold handleComplexTurn. cbn zeta.
  destruct (negb (Nat.eqb (findObviousTurn via X) 0)) eqn:Hobvious.
  { apply negb_true_iff, Nat.eqb_neq in Hobvious.
    by apply uturn_first_assignRightTurns, uturn_first_assignLeftTurns,
      uturn_first_set_instruction. }
  destruct (findFork via X) as [fork|] eqn:Hfork.
  { destruct (findFork_candidates_bounds via X fork Hfit Hvalid HX Hfork) as (? & ? & _).
    apply uturn_first_assignRightTurns, uturn_first_assignLeftTurns.
    repeat match goal with
    | |- context [if ?c then _ else _] => destruct c
    end;
    repeat first [ done | apply uturn_first_set_instruction; [lia|]
                 | apply uturn_first_assignForkAt; [lia..|]
                 | apply uturn_first_assignFork3At; [lia..|] ]. }
  repeat match goal with
  | |- context [if ?c then _ else _] => destruct c
  end;
  auto using uturn_first_assignRightTurns, uturn_first_assignLeftTurns,
    uturn_first_assignTrivialTurns.
Qed.

End RoadBack.

(** C5, as the code has it.  When the road back allows entry and the
    intersection has more roads than this one, the classifier labels it with
    the modifier [UTurn].  An intersection of one road only is returned as it
    is: the road back keeps the modifier it came with.  (For a valid
    intersection with angles of the data model, and constants that keep the
    road back out of every fork.) *)
Theorem classify_uturn `{K : Constants} `{B : IntersectionHandler}
    (via : EdgeID) (X : Intersection) :
  narrow_and_group_fit → valid X = true → in_range X →
  entry_allowed (X !!! 0%nat) = true →
  (length X = 1%nat → classify via X = X) ∧
  (length X ≠ 1%nat →
   direction_modifier (ins (classify via X) 0) = DirectionModifier.UTurn).
Proof.
  intros Hfit Hvalid HX Hallowed. unfold classify, handleOneWayTurn. split.
  - by intros ->.
  - intros Hlen%Nat.eqb_neq. rewrite Hlen, Hallowed.
    set (X0 := set_instruction X 0 _).
    assert (E0 : erase <$> X0 = erase <$> X) by apply erase_set_instruction.
    assert (H0 : uturn_first X0).
    { unfold uturn_first, X0. rewrite ins_set_instruction.
      destruct X; [done|]. rewrite decide_True; [done|]. cbn. split; [done|lia]. }
    assert (Hvalid0 : valid X0 = true) by by rewrite (valid_erase_eq _ _ E0).
    assert (HX0 : in_range X0) by (eapply in_range_erase; [|exact HX]; done).
    repeat match goal with
    | |- context [if ?c then _ else _] => destruct c
    end.
    + unfold handleTwoWayTurn. by apply uturn_first_set_instruction.
    + by apply uturn_first_handleThreeWayTurn.
    + by apply uturn_first_handleComplexTurn.
Qed.

Lemma classify_uturn_witness :
  (length closed_straight_crossing = 1%nat →
   classify (K:=example_constants) (B:=plain_handler) 9%nat closed_straight_crossing =
   closed_straight_crossing) ∧
  (length closed_straight_crossing ≠ 1%nat →
   direction_modifier
     (ins (classify (K:=example_constants) (B:=plain_handler) 9%nat closed_straight_crossing)
          0) = DirectionModifier.UTurn).
Proof.
  apply classify_uturn.
  - exact example_constants_fit.
  - vm_compute. reflexivity.
  - unfold closed_straight_crossing. in_range_concrete.
  - reflexivity.
Defined.

(** The road back of a dead end, already labelled as going straight on. *)
Definition labelled_dead_end : Intersection :=
  [mkConnectedRoad 0%nat 0 0 true
     (mkTurnInstruction TurnType.Turn DirectionModifier.Straight) 0%nat].

(** C5, as stated, fails for an intersection of one road: the road back
    allows entry and is returned with the modifier it came with. *)
Lemma classify_uturn_counterexample :
  valid labelled_dead_end = true ∧
  entry_allowed (labelled_dead_end !!! 0%nat) = true ∧
  direction_modifier
    (ins (classify (K:=example_constants) (B:=plain_handler) 9%nat labelled_dead_end) 0)
  ≠ DirectionModifier.UTurn.
Proof. split; [by vm_compute|]. split; [done|]. by vm_compute. Qed.

(** ** Conflict resolution: what the class comparison leaves *)

Section Conflict.
Context `{K : Constants} `{B : IntersectionHandler} {Hblind : Blind}.

(** Once both roads are valid and their angles differ, the result of
    [handleDistinctConflict] is that of the chain of angle tests alone:
    whatever the block on the road classes stored is stored over. *)
Lemma handleDistinctConflict_by_angle via left right :
  negb (entry_allowed left) || negb (entry_allowed right) || (angle left =? angle right)
    = false →
  handleDistinctConflict via left right = conflict_by_angle via left right.
Proof.
  intros Hguard. unfold handleDistinctConflict. rewrite Hguard.
  destruct (conflict_by_road_class_erase via left right) as [El Er].
  destruct (conflict_by_road_class via left right) as [l1 r1]. cbn [fst snd] in *.
  destruct (conflict_by_angle_erase via l1 r1 left right El Er) as (tl & tr & -> & ->).
  f_equal; by apply road_eq.
Qed.

End Conflict.

(** Two roads slightly to the right, at 155 and at 145 degrees. *)
Definition slightly_right_155 : ConnectedRoad := road 2 155 true.
Definition slightly_right_145 : ConnectedRoad := road 1 145 true.

(** C4 on the code.  For two valid roads slightly to the right the guard of
    the class comparison holds and its fork branch stores a fork instruction
    into both roads; [handleDistinctConflict] nevertheless returns the roads
    with the instructions of the angle tests that follow ([Left] and
    [SlightLeft]): the stores of the class comparison are overwritten. *)
Theorem handleDistinctConflict_overwrites_fork :
  instruction <$>
    [ (conflict_by_road_class (B:=plain_handler) 9%nat
         slightly_right_155 slightly_right_145).1;
      (conflict_by_road_class (B:=plain_handler) 9%nat
         slightly_right_155 slightly_right_145).2 ] =
    [ mkTurnInstruction TurnType.Fork DirectionModifier.SlightLeft;
      mkTurnInstruction TurnType.Fork DirectionModifier.SlightRight ] ∧
  instruction <$>
    [ (handleDistinctConflict (K:=example_constants) (B:=plain_handler) 9%nat
         slightly_right_155 slightly_right_145).1;
      (handleDistinctConflict (K:=example_constants) (B:=plain_handler) 9%nat
         slightly_right_155 slightly_right_145).2 ] =
    [ mkTurnInstruction TurnType.Turn DirectionModifier.Left;
      mkTurnInstruction TurnType.Turn DirectionModifier.SlightLeft ].
Proof. split; vm_compute; reflexivity. Qed.

(** The classifier reaches that call: with the road at 180 degrees the obvious
    turn, [assignRightTurns] is left with the roads at 145 and 155 degrees,
    which have the same direction, and they come back as [SlightLeft] and
    [Left]. *)
Definition right_pair_crossing : Intersection :=
  [road 0 0 true; road 1 145 true; road 2 155 true; road 3 180 true; road 4 270 true].

Lemma classify_right_pair :
  instructions
    (classify (K:=example_constants)
       (B:=example_handler uniform_edge_data (λ _, 3%nat)) 9%nat right_pair_crossing) =
  [ mkTurnInstruction TurnType.Turn DirectionModifier.UTurn;
    mkTurnInstruction TurnType.Turn DirectionModifier.SlightLeft;
    mkTurnInstruction TurnType.Turn DirectionModifier.Left;
    mkTurnInstruction TurnType.Continue DirectionModifier.Straight;
    mkTurnInstruction TurnType.Turn DirectionModifier.Left ].
Proof. vm_compute. reflexivity. Qed.

(** ** Obviousness of one road over another *)

(** The tests of [isObviousOfTwo] that come before the narrowness test: the
    narrowness test is reached when neither road is obvious by its class and
    the road is not a perfectly straight continuation of the same name. *)
Definition reaches_narrowness_test `{B : IntersectionHandler}
    (via_edge : EdgeID) (road other : ConnectedRoad) : bool :=
  let via_data := GetEdgeData via_edge in
  let road_data := GetEdgeData (eid road) in
  let other_data := GetEdgeData (eid other) in
  negb (obviousByRoadClass (road_classification via_data) (road_classification road_data)
          (road_classification other_data)) &&
  negb (obviousByRoadClass (road_classification via_data) (road_classification other_data)
          (road_classification road_data)) &&
  negb ((angularDeviation (angle road) STRAIGHT_ANGLE <? epsilon) &&
        negb (Nat.eqb (name_id via_data) EMPTY_NAMEID) &&
        negb (requiresNameAnnounced (name_id via_data) (name_id road_data))).

Lemma quotient_gt_fdiv (x y c : Qc) :
  quotient_gt (fdiv x y) c = true ↔ (y ≠ 0 ∧ c < x / y) ∨ (y = 0 ∧ 0 < x).
Proof.
  unfold fdiv. destruct (decide (y = 0)) as [->|Hy].
  - destruct (decide (x = 0)) as [->|Hx]; cbn.
    + split; [done|]. intros [[? _]|[_ H]]; [done|]. by apply Qclt_not_eq in H.
    + destruct (decide (0 < x)) as [Hpos|Hneg]; cbn.
      * split; [by right|done].
      * split; [done|]. intros [[? _]|[_ ?]]; done.
  - cbn. rewrite Qcltb_lt. split; [by left|]. by intros [[_ ?]|[? _]].
Qed.

Section Obvious.
Context `{K : Constants} `{B : IntersectionHandler}.

Lemma isObviousOfTwo_reached via road other :
  reaches_narrowness_test via road other = true →
  isObviousOfTwo via road other =
  quotient_gt
    (fdiv (angularDeviation (angle other) STRAIGHT_ANGLE)
          (angularDeviation (angle road) STRAIGHT_ANGLE))
    INCREASES_BY_FOURTY_PERCENT &&
  (angularDeviation (angularDeviation (angle other) STRAIGHT_ANGLE)
                    (angularDeviation (angle road) STRAIGHT_ANGLE) >?
     FUZZY_ANGLE_DIFFERENCE).
Proof.
  unfold reaches_narrowness_test, isObviousOfTwo. cbn zeta.
  rewrite !andb_true_iff, !negb_true_iff. intros [[-> ->] ->]. reflexivity.
Qed.

Lemma angularDeviation_of_deviations a b :
  0 ≤ a → a ≤ deg 180 → 0 ≤ b → b ≤ deg 180 →
  angularDeviation a b = Qcabs (a - b).
Proof.
  intros. unfold angularDeviation. cbn zeta. qc_split; try reflexivity; qc_lra.
Qed.

End Obvious.

(** A road straight ahead whose name differs from that of the via edge, and a
    road to the right. *)
Definition straight_ahead : ConnectedRoad := road 1 180 true.
Definition to_the_right : ConnectedRoad := road 2 90 true.

(** C10, as stated, fails: the narrowness test is reached with a road that
    goes exactly straight ahead (its name is not that of the via edge), and
    the divisor, its deviation from straight, is zero.  The quotient is then
    the infinity of the [double] division, and the road is obvious. *)
Lemma narrowness_divisor_counterexample :
  reaches_narrowness_test (B:=plain_handler) 9%nat straight_ahead to_the_right = true ∧
  angularDeviation (angle straight_ahead) STRAIGHT_ANGLE = 0 ∧
  fdiv (angularDeviation (angle to_the_right) STRAIGHT_ANGLE)
       (angularDeviation (angle straight_ahead) STRAIGHT_ANGLE) = PosInf ∧
  isObviousOfTwo (K:=example_constants) (B:=plain_handler) 9%nat
    straight_ahead to_the_right = true.
Proof.
  split; [by vm_compute|]. split; [by apply Qc_is_canon|].
  split; by vm_compute.
Qed.

(** C10, as the code has it.  When the narrowness test is reached, the
    divisor [angularDeviation(road.angle, 180)] is zero for a road that goes
    exactly straight ahead (angle 180) and for no other; and it is at least
    [epsilon] when the via edge has a name that the road continues. *)
Theorem narrowness_divisor `{B : IntersectionHandler}
    (via : EdgeID) (road other : ConnectedRoad) :
  0 ≤ angle road → angle road ≤ deg 360 →
  reaches_narrowness_test via road other = true →
  (angularDeviation (angle road) STRAIGHT_ANGLE = 0 ↔ angle road = deg 180) ∧
  (name_id (GetEdgeData via) ≠ EMPTY_NAMEID →
   requiresNameAnnounced (name_id (GetEdgeData via)) (name_id (GetEdgeData (eid road)))
     = false →
   epsilon ≤ angularDeviation (angle road) STRAIGHT_ANGLE).
Proof.
  intros H0 H1 Hreach. split.
  - rewrite angularDeviation_straight by done. split.
    + intros Hz. revert Hz. qc_split; intros; qc_lra.
    + intros ->. by apply Qc_is_canon.
  - intros Hname Hsame. unfold reaches_narrowness_test in Hreach. cbn zeta in Hreach.
    rewrite !andb_true_iff, !negb_true_iff in Hreach. destruct Hreach as [_ Hstraight].
    rewrite Hsame in Hstraight. apply Nat.eqb_neq in Hname. rewrite Hname in Hstraight.
    cbn [negb andb] in Hstraight. rewrite !andb_true_r in Hstraight.
    by apply Qcltb_ge.
Qed.

Lemma narrowness_divisor_witness :
  (angularDeviation (angle (road 1 120 true)) STRAIGHT_ANGLE = 0 ↔
   angle (road 1 120 true) = deg 180) ∧
  (name_id (@GetEdgeData plain_handler 9%nat) ≠ @EMPTY_NAMEID plain_handler →
   @requiresNameAnnounced plain_handler
     (name_id (@GetEdgeData plain_handler 9%nat))
     (name_id (@GetEdgeData plain_handler (eid (road 1 120 true)))) = false →
   epsilon ≤ angularDeviation (angle (road 1 120 true)) STRAIGHT_ANGLE).
Proof.
  apply (narrowness_divisor (B:=plain_handler) 9%nat (road 1 120 true) (road 2 60 true));
    [cbn; qc_lra..|].
  vm_compute. reflexivity.
Defined.

(** ** Which roads the classifier labels *)

(** The road at position [k] carries an instruction with a turn type. *)
Definition labelled (X : Intersection) (k : nat) : Prop :=
  type (ins X k) ≠ TurnType.Invalid.

(** Among the positions [P], every road that allows entry is labelled. *)
Definition covers (X : Intersection) (P : nat → Prop) : Prop :=
  ∀ k, P k → (k < length X)%nat → entry_allowed (X !!! k) = true → labelled X k.

(** The oracles answer with a turn type, and [findObviousTurn] with 0 or a
    position of the intersection. *)
Class Labelling `{B : IntersectionHandler} : Prop := {
  findBasicTurnType_labels via r : findBasicTurnType via r ≠ TurnType.Invalid;
  getInstructionForObvious_labels n via through r :
    type (getInstructionForObvious n via through r) ≠ TurnType.Invalid;
  assignFork_labels via l r :
    type (assignFork via l r).1 ≠ TurnType.Invalid ∧
    type (assignFork via l r).2 ≠ TurnType.Invalid;
  assignFork3_labels via l c r :
    type (assignFork3 via l c r).1.1 ≠ TurnType.Invalid ∧
    type (assignFork3 via l c r).1.2 ≠ TurnType.Invalid ∧
    type (assignFork3 via l c r).2 ≠ TurnType.Invalid;
  findObviousTurn_position via (X : Intersection) :
    (findObviousTurn via X = 0 ∨ findObviousTurn via X < length X)%nat
}.

Lemma labelled_lt X k : labelled X k → (k < length X)%nat.
Proof.
  unfold labelled. intros H. destruct (decide (k < length X)%nat); [done|].
  rewrite ins_out_of_range in H by lia. done.
Qed.

Lemma erase_eq_allowed (X Y : Intersection) k :
  erase <$> X = erase <$> Y → entry_allowed (X !!! k) = entry_allowed (Y !!! k).
Proof. intros E. by destruct (erase_reads _ _ (erase_eq_lookup X Y k E)) as (_ & _ & _ & ? & _). Qed.

Lemma labelled_set_instruction X i t k :
  type t ≠ TurnType.Invalid → labelled X k → labelled (set_instruction X i t) k.
Proof. unfold labelled. rewrite ins_set_instruction. by destruct (decide _). Qed.

Lemma labelled_set_instruction_here X i t :
  type t ≠ TurnType.Invalid → (i < length X)%nat → labelled (set_instruction X i t) i.
Proof. unfold labelled. rewrite ins_set_instruction. intros. by rewrite decide_True. Qed.

Lemma labelled_switch_left_and_right X k :
  (k < length X)%nat →
  labelled (switch_left_and_right X) k ↔ labelled X (mirror_index (length X) k).
Proof.
  intros Hk. unfold labelled. rewrite ins_switch_left_and_right by done.
  unfold mirror_instruction_at. by destruct (_ >? _).
Qed.

Lemma allowed_switch_left_and_right (X : Intersection) k :
  (k < length X)%nat →
  entry_allowed (switch_left_and_right X !!! k) =
  entry_allowed (X !!! mirror_index (length X) k).
Proof.
  intros Hk. rewrite lookup_switch_left_and_right by done.
  unfold mirror. by destruct (_ >? _).
Qed.

Section Labels.
Context `{K : Constants} `{B : IntersectionHandler} {Hlabels : Labelling}.

Lemma labelled_basic via X i m k :
  labelled X k →
  labelled (set_instruction X i (mkTurnInstruction (findBasicTurnType via (X !!! i)) m)) k.
Proof. apply labelled_set_instruction, findBasicTurnType_labels. Qed.

Lemma labelled_basic_here via X i m :
  (i < length X)%nat →
  labelled (set_instruction X i (mkTurnInstruction (findBasicTurnType via (X !!! i)) m)) i.
Proof. apply labelled_set_instruction_here, findBasicTurnType_labels. Qed.

Lemma assignTrivialTurns_labels via X b e :
  (∀ k, labelled X k → labelled (assignTrivialTurns via X b e) k) ∧
  (∀ k, (b ≤ k < e)%nat → (k < length X)%nat → labelled (assignTrivialTurns via X b e) k).
Proof.
  unfold assignTrivialTurns.
  assert (Hl : ∀ k, (b ≤ k < e)%nat → k ∈ seq b (e - b)).
  { intros k Hk. apply elem_of_seq. lia. }
  revert Hl. generalize (seq b (e - b)). intros l. revert X.
  assert (Hmono : ∀ l X k,
    labelled X k →
    labelled (fold_left
      (λ (intersection : Intersection) (index : nat),
         set_instruction intersection index
           (mkTurnInstruction (findBasicTurnType via (intersection !!! index))
              (getTurnDirection (angle (intersection !!! index))))) l X) k).
  { intros l0. induction l0 as [|i l0 IH]; intros X k Hk; cbn [fold_left]; [done|].
    by apply IH, labelled_basic. }
  intros X Hl. split; [by apply Hmono|].
  intros k Hk Hlen. specialize (Hl k Hk). clear Hk.
  revert X Hlen. induction l as [|i l IH]; intros X Hlen; [by apply elem_of_nil in Hl|].
  cbn [fold_left]. apply elem_of_cons in Hl as [->|Hl].
  - by apply Hmono, labelled_basic_here.
  - apply IH; [done|]. by rewrite length_set_instruction.
Qed.

(** On the level of two roads: [handleDistinctConflict] keeps a label and
    labels the roads that allow entry. *)
Lemma handleDistinctConflict_labels via l r :
  let res := handleDistinctConflict via l r in
  (type (instruction l) ≠ TurnType.Invalid → type (instruction res.1) ≠ TurnType.Invalid) ∧
  (type (instruction r) ≠ TurnType.Invalid → type (instruction res.2) ≠ TurnType.Invalid) ∧
  (entry_allowed l = true → type (instruction res.1) ≠ TurnType.Invalid) ∧
  (entry_allowed r = true → type (instruction res.2) ≠ TurnType.Invalid).
Proof.
  cbn zeta. unfold handleDistinctConflict.
  destruct (conflict_by_road_class via l r) as [l1 r1].
  unfold conflict_of_invalid_or_identical, conflict_by_angle.
  pose proof (findBasicTurnType_labels via l).
  pose proof (findBasicTurnType_labels via r).
  pose proof (findBasicTurnType_labels via l1).
  pose proof (findBasicTurnType_labels via r1).
  repeat match goal with
  | |- context [if ?c then _ else _] => destruct c eqn:?
  end; cbn; auto.
Qed.

Lemma handleDistinctConflictAt_labels via X l r :
  l ≠ r →
  (∀ k, labelled X k → labelled (handleDistinctConflictAt via X l r) k) ∧
  ((l < length X)%nat → entry_allowed (X !!! l) = true →
   labelled (handleDistinctConflictAt via X l r) l) ∧
  ((r < length X)%nat → entry_allowed (X !!! r) = true →
   labelled (handleDistinctConflictAt via X l r) r).
Proof.
  intros Hne. unfold handleDistinctConflictAt.
  pose proof (handleDistinctConflict_labels via (X !!! l) (X !!! r)) as Hc. cbn zeta in Hc.
  destruct Hc as (H1 & H2 & H3 & H4).
  destruct (handleDistinctConflict via (X !!! l) (X !!! r)) as [l1 r1]. cbn [fst snd] in *.
  unfold labelled. split; [|split].
  - intros k Hk. rewrite !ins_insert, length_insert.
    repeat destruct (decide _); destruct_and?; subst; auto.
  - intros Hl Ha. rewrite !ins_insert, length_insert.
    rewrite decide_False by (intros [? _]; congruence). rewrite decide_True by done. auto.
  - intros Hr Ha. rewrite !ins_insert, length_insert. rewrite decide_True by done. auto.
Qed.

Lemma allowed_set_instruction (X : Intersection) i t k :
  entry_allowed (set_instruction X i t !!! k) = entry_allowed (X !!! k).
Proof. apply erase_eq_allowed, erase_set_instruction. Qed.

Lemma length_handleDistinctConflictAt via (X : Intersection) l r :
  l ≠ r → length (handleDistinctConflictAt via X l r) = length X.
Proof. intros Hne. by apply erase_eq_length, erase_handleDistinctConflictAt. Qed.

Lemma count_valid_zero (X : Intersection) up_to k :
  Nat.eqb (length (filter (λ i, entry_allowed (X !!! i) = true) (seq 1 (up_to - 1)))) 0 = true →
  (1 ≤ k < up_to)%nat → entry_allowed (X !!! k) = false.
Proof.
  intros Hc%Nat.eqb_eq%length_zero_iff_nil Hk.
  destruct (entry_allowed (X !!! k)) eqn:Ha; [|done].
  assert (Hin : k ∈ filter (λ i, entry_allowed (X !!! i) = true) (seq 1 (up_to - 1))).
  { apply list_elem_of_filter. split; [done|]. apply elem_of_seq. lia. }
  rewrite Hc in Hin. by apply elem_of_nil in Hin.
Qed.

Lemma handleDistinctConflictAt_mono via X l r k :
  l ≠ r → labelled X k → labelled (handleDistinctConflictAt via X l r) k.
Proof. intros Hne. by apply handleDistinctConflictAt_labels. Qed.

Lemma handleDistinctConflictAt_left via X l r :
  l ≠ r → (l < length X)%nat → entry_allowed (X !!! l) = true →
  labelled (handleDistinctConflictAt via X l r) l.
Proof. intros Hne. by apply handleDistinctConflictAt_labels. Qed.

Lemma handleDistinctConflictAt_right via X l r :
  l ≠ r → (r < length X)%nat → entry_allowed (X !!! r) = true →
  labelled (handleDistinctConflictAt via X l r) r.
Proof. intros Hne. by apply handleDistinctConflictAt_labels. Qed.

Lemma assignTrivialTurns_mono via X b e k :
  labelled X k → labelled (assignTrivialTurns via X b e) k.
Proof. apply assignTrivialTurns_labels. Qed.

Lemma assignTrivialTurns_here via X b e k :
  (b ≤ k < e)%nat → (k < length X)%nat → labelled (assignTrivialTurns via X b e) k.
Proof. apply assignTrivialTurns_labels. Qed.

Create HintDb labels.
Hint Resolve labelled_basic labelled_basic_here handleDistinctConflictAt_mono
  handleDistinctConflictAt_left handleDistinctConflictAt_right
  assignTrivialTurns_mono assignTrivialTurns_here : labels.
Hint Extern 1 (_ ≠ _) => lia : labels.
Hint Extern 1 (_ < _)%nat =>
  rewrite ?length_set_instruction, ?length_handleDistinctConflictAt by lia; lia : labels.
Hint Extern 1 (_ ≤ _ < _)%nat => lia : labels.
Hint Extern 1 (entry_allowed (set_instruction _ _ _ !!! _) = true) =>
  rewrite allowed_set_instruction : labels.

Lemma assignRightTurns_mono via X up_to k :
  labelled X k → labelled (assignRightTurns via X up_to) k.
Proof.
  intros Hk. unfold assignRightTurns.
  repeat match goal with
  | |- context [if ?c then _ else _] => destruct c
  end; auto 6 with labels.
Qed.

Lemma assignRightTurns_covers via X up_to :
  covers (assignRightTurns via X up_to) (λ k, 1 ≤ k < up_to)%nat.
Proof.
  unfold covers.
  setoid_rewrite (erase_eq_allowed _ X _ (erase_assignRightTurns via X up_to)).
  setoid_rewrite (erase_eq_length _ X (erase_assignRightTurns via X up_to)).
  unfold assignRightTurns.
  destruct (bool_decide (up_to ≤ 1)%nat) eqn:H1.
  { apply bool_decide_eq_true in H1. intros k Hk. lia. }
  destruct (Nat.eqb (length _) 0) eqn:Hcount.
  { intros k Hk _ Ha. by rewrite (count_valid_zero X up_to k) in Ha. }
  cbn [orb].
  repeat match goal with
  | |- context [if ?c then _ else _] => destruct c eqn:?
  end;
  repeat match goal with
  | H : Nat.eqb _ _ = true |- _ => apply Nat.eqb_eq in H; subst
  | H : negb _ = true |- _ => apply negb_true_iff in H
  | H : negb _ = false |- _ => apply negb_false_iff in H
  | H : bool_decide _ = true |- _ => apply bool_decide_eq_true in H
  | H : bool_decide _ = false |- _ => apply bool_decide_eq_false in H
  end;
  intros k Hk Hlen Ha;
  try (by auto with labels);
  (assert (k = 1 ∨ k = 2 ∨ k = 3)%nat as [->|[->| ->]] by lia); try lia;
  try congruence;
  auto 6 with labels.
  all: repeat match goal with
       | H : entry_allowed _ = true |- _ => rewrite H in *; clear H
       end; cbn in *; lia.
Qed.

Lemma length_assignRightTurns via (X : Intersection) up_to :
  length (assignRightTurns via X up_to) = length X.
Proof. apply erase_eq_length, erase_assignRightTurns. Qed.

Lemma assignLeftTurns_mono via X starting_at k :
  labelled X k → labelled (assignLeftTurns via X starting_at) k.
Proof.
  intros Hk. pose proof (labelled_lt _ _ Hk) as Hlt. unfold assignLeftTurns.
  apply labelled_switch_left_and_right;
    [by rewrite length_assignRightTurns, length_switch_left_and_right|].
  apply assignRightTurns_mono.
  rewrite length_assignRightTurns, length_switch_left_and_right.
  apply labelled_switch_left_and_right; [by apply mirror_index_lt|].
  by rewrite mirror_index_involutive.
Qed.

Lemma assignLeftTurns_covers via X starting_at :
  (1 ≤ starting_at)%nat →
  covers (assignLeftTurns via X starting_at) (λ k, starting_at ≤ k)%nat.
Proof.
  intros Hs k Hk. unfold assignLeftTurns.
  rewrite !length_switch_left_and_right, length_assignRightTurns,
    length_switch_left_and_right.
  intros Hlen Ha.
  rewrite allowed_switch_left_and_right in Ha
    by by rewrite length_assignRightTurns, length_switch_left_and_right.
  rewrite length_assignRightTurns, length_switch_left_and_right in Ha.
  apply labelled_switch_left_and_right;
    [by rewrite length_assignRightTurns, length_switch_left_and_right|].
  rewrite length_assignRightTurns, length_switch_left_and_right.
  apply assignRightTurns_covers; [| |done].
  - unfold mirror_index. destruct (Nat.eqb_spec k 0); lia.
  - rewrite length_assignRightTurns, length_switch_left_and_right.
    by apply mirror_index_lt.
Qed.

(** The two sides together label every road that allows entry and is not
    between them. *)
Lemma sides_cover via X starting_at up_to :
  in_range X → (1 ≤ starting_at)%nat →
  (∀ k, (1 ≤ k < length X)%nat → entry_allowed (X !!! k) = true →
        (k < up_to ∨ starting_at ≤ k)%nat ∨ labelled X k) →
  covers (assignRightTurns via (assignLeftTurns via X starting_at) up_to) (λ k, 1 ≤ k)%nat.
Proof.
  intros HX Hs Hmiddle k Hk Hlen Ha.
  pose proof (erase_sides via X starting_at up_to HX) as E.
  rewrite (erase_eq_length _ _ E) in Hlen. rewrite (erase_eq_allowed _ _ k E) in Ha.
  destruct (decide (k < up_to)%nat) as [Hr|Hr].
  { apply assignRightTurns_covers; [lia| |].
    - by rewrite (erase_eq_length _ X E).
    - by rewrite (erase_eq_allowed _ X k E). }
  apply assignRightTurns_mono.
  destruct (decide (starting_at ≤ k)%nat) as [Hl|Hl].
  { apply assignLeftTurns_covers; [done..| |].
    - by rewrite (erase_eq_length _ X) by by apply erase_assignLeftTurns.
    - by rewrite (erase_eq_allowed _ X k) by by apply erase_assignLeftTurns. }
  apply assignLeftTurns_mono.
  destruct (Hmiddle k) as [?|?]; [lia|done|lia|done].
Qed.

Lemma sides_mono via X starting_at up_to k :
  labelled X k →
  labelled (assignRightTurns via (assignLeftTurns via X starting_at) up_to) k.
Proof. intros Hk. by apply assignRightTurns_mono, assignLeftTurns_mono. Qed.

Lemma assignForkAt_labels via X l r :
  (∀ k, labelled X k → labelled (assignForkAt via X l r) k) ∧
  ((l < length X)%nat → labelled (assignForkAt via X l r) l) ∧
  ((r < length X)%nat → labelled (assignForkAt via X l r) r).
Proof.
  unfold assignForkAt.
  destruct (assignFork_labels via (X !!! l) (X !!! r)) as [H1 H2].
  destruct (assignFork via (X !!! l) (X !!! r)) as [tl tr]. cbn [fst snd] in *.
  split; [|split].
  - intros k Hk. by repeat (apply labelled_set_instruction; [done|]).
  - intros Hl. apply labelled_set_instruction; [done|].
    by apply labelled_set_instruction_here.
  - intros Hr. apply labelled_set_instruction_here; [done|].
    by rewrite length_set_instruction.
Qed.

Lemma assignFork3At_labels via X l c r :
  (∀ k, labelled X k → labelled (assignFork3At via X l c r) k) ∧
  ((l < length X)%nat → labelled (assignFork3At via X l c r) l) ∧
  ((c < length X)%nat → labelled (assignFork3At via X l c r) c) ∧
  ((r < length X)%nat → labelled (assignFork3At via X l c r) r).
Proof.
  unfold assignFork3At.
  destruct (assignFork3_labels via (X !!! l) (X !!! c) (X !!! r)) as (H1 & H2 & H3).
  destruct (assignFork3 via (X !!! l) (X !!! c) (X !!! r)) as [[tl tc] tr].
  cbn [fst snd] in *.
  split; [|split; [|split]].
  - intros k Hk. by repeat (apply labelled_set_instruction; [done|]).
  - intros Hl. do 2 (apply labelled_set_instruction; [done|]).
    by apply labelled_set_instruction_here.
  - intros Hc. apply labelled_set_instruction; [done|].
    apply labelled_set_instruction_here; [done|]. by rewrite length_set_instruction.
  - intros Hr. apply labelled_set_instruction_here; [done|].
    by rewrite !length_set_instruction.
Qed.

Lemma assignForkAt_mono via X l r k :
  labelled X k → labelled (assignForkAt via X l r) k.
Proof. apply assignForkAt_labels. Qed.

Lemma assignFork3At_mono via X l c r k :
  labelled X k → labelled (assignFork3At via X l c r) k.
Proof. apply assignFork3At_labels. Qed.

Lemma labelled_obvious via X n through i k :
  labelled X k →
  labelled (set_instruction X i (getInstructionForObvious n via through (X !!! i))) k.
Proof. apply labelled_set_instruction, getInstructionForObvious_labels. Qed.

Lemma labelled_obvious_here via X n through i :
  (i < length X)%nat →
  labelled (set_instruction X i (getInstructionForObvious n via through (X !!! i))) i.
Proof. apply labelled_set_instruction_here, getInstructionForObvious_labels. Qed.

Hint Resolve assignForkAt_mono assignFork3At_mono labelled_obvious labelled_obvious_here
  sides_mono assignRightTurns_mono assignLeftTurns_mono : labels.
Hint Extern 1 (type _ ≠ TurnType.Invalid) => discriminate : labels.
Hint Resolve labelled_set_instruction labelled_set_instruction_here : labels.

Lemma handleThreeWayTurn_mono via X k :
  labelled X k → labelled (handleThreeWayTurn via X) k.
Proof.
  intros Hk. unfold handleThreeWayTurn. cbn zeta.
  repeat match goal with
  | |- context [if ?c then _ else _] => destruct c
  | |- context [match ?c with Some _ => _ | None => _ end] => destruct c
  end; auto 6 with labels.
Qed.

Lemma handleComplexTurn_mono via X k :
  labelled X k → labelled (handleComplexTurn via X) k.
Proof.
  intros Hk. unfold handleComplexTurn. cbn zeta.
  repeat match goal with
  | |- context [if ?c then _ else _] => destruct c
  | |- context [match ?c with Some _ => _ | None => _ end] => destruct c
  end; auto 8 with labels.
Qed.

Lemma handleThreeWayTurn_covers via X :
  narrow_and_group_fit → valid X = true → in_range X → length X = 3%nat →
  covers (handleThreeWayTurn via X) (λ k, 1 ≤ k)%nat.
Proof.
  intros Hfit Hvalid HX Hlen k Hk.
  rewrite (erase_eq_length _ X (erase_handleThreeWayTurn via X)).
  rewrite (erase_eq_allowed _ X k (erase_handleThreeWayTurn via X)).
  intros Hlt Ha. unfold handleThreeWayTurn. cbn zeta.
  assert (k = 1 ∨ k = 2)%nat as Hk12 by lia.
  destruct (findFork via X) as [fork|] eqn:Hfork.
  - destruct (findFork_candidates_bounds via X fork Hfit Hvalid HX Hfork)
      as (Hr & Hrl & Hl & _).
    assert (Fork.right fork = 1%nat) as Hr1 by lia.
    assert (Fork.left fork = 2%nat) as Hl2 by lia.
    rewrite Hr1, Hl2.
    destruct (assignForkAt_labels via X 2 1) as (_ & Hfl & Hfr).
    destruct Hk12 as [-> | ->];
    repeat (rewrite ?allowed_set_instruction, ?Ha;
            match goal with
            | |- context [if ?c then _ else _] =>
                lazymatch c with
                | context [if _ then _ else _] => fail
                | _ => destruct c
                end
            end);
    auto 6 with labels.
  - destruct Hk12 as [-> | ->];
    repeat (rewrite ?allowed_set_instruction, ?Ha;
            match goal with
            | |- context [if ?c then _ else _] =>
                lazymatch c with
                | context [if _ then _ else _] => fail
                | _ => destruct c
                end
            end);
    auto 6 with labels.
Qed.

Lemma handleComplexTurn_covers via X :
  narrow_and_group_fit → valid X = true → in_range X →
  covers (handleComplexTurn via X) (λ k, 1 ≤ k)%nat.
Proof.
  intros Hfit Hvalid HX. unfold handleComplexTurn. cbn zeta.
  destruct (negb (Nat.eqb (findObviousTurn via X) 0)) eqn:Hobvious.
  { apply negb_true_iff, Nat.eqb_neq in Hobvious.
    destruct (findObviousTurn_position via X) as [?|Ho]; [done|].
    apply sides_cover; [|lia|].
    - eapply in_range_erase; [|exact HX]. by rewrite erase_set_instruction.
    - intros k Hk Ha. rewrite length_set_instruction in Hk.
      destruct (decide (k = findObviousTurn via X)) as [->|Hne]; [|lia].
      right. by apply labelled_obvious_here. }
  destruct (findFork via X) as [fork|] eqn:Hfork.
  { destruct (findFork_candidates_bounds via X fork Hfit Hvalid HX Hfork)
      as (Hr & Hrl & Hl & Hsize & Hsize23).
    destruct (assignForkAt_labels via X (Fork.left fork) (Fork.right fork))
      as (_ & Hfl & Hfr).
    destruct (assignFork3At_labels via X (Fork.left fork) (Fork.right fork + 1)
                (Fork.right fork)) as (_ & Hf3l & Hf3c & Hf3r).
    apply sides_cover; [|lia|].
    - eapply in_range_erase; [|exact HX].
      repeat match goal with
      | |- context [if ?c then _ else _] => destruct c
      end;
      by rewrite ?erase_set_instruction, ?erase_assignForkAt, ?erase_assignFork3At,
        ?erase_set_instruction.
    - intros k Hk Ha.
      destruct (decide (k < Fork.right fork)%nat); [left; lia|].
      destruct (decide (Fork.left fork + 1 ≤ k)%nat); [left; lia|]. right.
      clear Hk Ha.
      destruct Hsize23 as [Hs|Hs]; rewrite Hs; cbn [Nat.eqb].
      + assert (k = Fork.right fork ∨ k = Fork.left fork) as [-> | ->] by lia;
        repeat match goal with
        | |- context [if ?c then _ else _] => destruct c
        end; auto 6 with labels.
      + assert (k = Fork.right fork ∨ k = (Fork.right fork + 1)%nat ∨ k = Fork.left fork)
          as [-> | [-> | ->]] by lia; auto with lia. }
  destruct ((deviation_from_straight (findClosestToStraight X) <? FUZZY_ANGLE_DIFFERENCE) &&
            negb (entry_allowed (X !!! id (findClosestToStraight X)))) eqn:Hinvalid.
  { apply andb_true_iff in Hinvalid as [_ Hclosed%negb_true_iff].
    apply sides_cover; [done|lia|].
    intros k Hk Ha. destruct (decide (k = id (findClosestToStraight X))) as [->|Hne];
      [congruence|left; lia]. }
  destruct (angle (X !!! id (findClosestToStraight X)) >? deg 180) eqn:Hleft.
  { apply sides_cover; [done| |intros k Hk Ha; left; lia].
    destruct (decide (id (findClosestToStraight X) = 0%nat)) as [Hz|?]; [|lia].
    exfalso. rewrite Hz in Hleft. apply Qcltb_lt in Hleft.
    destruct (valid_first X Hvalid) as [_ Hfirst]. unfold epsilon in *. qc_lra. }
  destruct (angle (X !!! id (findClosestToStraight X)) <? deg 180).
  { apply sides_cover; [done|lia|intros k Hk Ha; left; lia]. }
  intros k Hk Hlen Ha.
  rewrite (erase_eq_length _ X (erase_assignTrivialTurns via X 1 _)) in Hlen.
  by apply assignTrivialTurns_here.
Qed.

Lemma classify_covers via X :
  narrow_and_group_fit → valid X = true → in_range X →
  (2 ≤ length X)%nat →
  ∀ k, (k < length X)%nat → entry_allowed (X !!! k) = true → labelled (classify via X) k.
Proof.
  intros Hfit Hvalid HX Hlen k Hk Ha.
  unfold classify, handleOneWayTurn.
  destruct (Nat.eqb_spec (length X) 1) as [?|_]; [lia|].
  set (X0 := if entry_allowed (X !!! 0%nat) then _ else X).
  assert (E0 : erase <$> X0 = erase <$> X).
  { unfold X0. destruct (entry_allowed (X !!! 0%nat)); [apply erase_set_instruction|done]. }
  assert (H0 : k = 0%nat → labelled X0 k).
  { intros ->. unfold X0. rewrite Ha. by apply labelled_basic_here. }
  assert (Hvalid0 : valid X0 = true) by by rewrite (valid_erase_eq _ _ E0).
  assert (HX0 : in_range X0) by (eapply in_range_erase; [|exact HX]; done).
  rewrite <- (erase_eq_allowed _ _ k E0) in Ha.
  rewrite <- (erase_eq_length _ _ E0) in Hk, Hlen.
  clearbody X0. clear E0 HX Hvalid X.
  destruct (decide (k = 0%nat)) as [Hz|Hnz].
  { specialize (H0 Hz).
    repeat match goal with
    | |- context [if ?c then _ else _] => destruct c
    end;
    unfold handleTwoWayTurn;
    auto using handleThreeWayTurn_mono, handleComplexTurn_mono with labels. }
  destruct (Nat.eqb_spec (length X0) 2) as [H2|H2].
  { unfold handleTwoWayTurn. assert (k = 1%nat) as -> by lia.
    apply labelled_obvious_here. lia. }
  destruct (Nat.eqb_spec (length X0) 3) as [H3|H3].
  { apply handleThreeWayTurn_covers; try done; [lia| |].
    - by rewrite (erase_eq_length _ X0 (erase_handleThreeWayTurn via X0)).
    - by rewrite (erase_eq_allowed _ X0 k (erase_handleThreeWayTurn via X0)). }
  apply handleComplexTurn_covers; try done; [lia| |].
  - by rewrite (erase_eq_length _ X0 (erase_handleComplexTurn via X0 HX0)).
  - by rewrite (erase_eq_allowed _ X0 k (erase_handleComplexTurn via X0 HX0)).
Qed.

End Labels.

(** C2, as the code has it.  In an intersection of two roads or more, every
    road that allows entry is labelled by the classifier: it carries an
    instruction with a turn type, so not the default one.  (The oracles answer
    with a turn type and with a position of the intersection; the
    intersection is valid, its angles are those of the data model, and the
    constants keep the road back out of every fork.)  A road that does not
    allow entry may be left as it came, and so is the only road of an
    intersection of one road. *)
Theorem classify_labels_allowed `{K : Constants} `{B : IntersectionHandler}
    {Hlabels : Labelling} (via : EdgeID) (X : Intersection) :
  narrow_and_group_fit → valid X = true → in_range X →
  (2 ≤ length X)%nat →
  ∀ k, (k < length X)%nat → entry_allowed (X !!! k) = true →
       type (ins (classify via X) k) ≠ TurnType.Invalid ∧
       ins (classify via X) k ≠ default_instruction.
Proof.
  intros Hfit Hvalid HX Hlen k Hk Ha.
  pose proof (classify_covers via X Hfit Hvalid HX Hlen k Hk Ha) as Hl.
  split; [done|]. intros Heq. apply Hl. by rewrite Heq.
Qed.

Lemma example_handler_labelling edge_data obvious :
  (∀ X : Intersection, obvious X = 0 ∨ obvious X < length X)%nat →
  @Labelling (example_handler edge_data obvious).
Proof. intros Hobvious. split; done. Qed.

Lemma plain_handler_labelling : @Labelling plain_handler.
Proof. apply example_handler_labelling. by left. Qed.

Lemma classify_labels_allowed_witness :
  entry_allowed (closed_straight_crossing !!! 2%nat) = true ∧
  type (ins (classify (K:=example_constants) (B:=plain_handler) 9%nat
               closed_straight_crossing) 2) ≠ TurnType.Invalid ∧
  ins (classify (K:=example_constants) (B:=plain_handler) 9%nat
         closed_straight_crossing) 2 ≠ default_instruction.
Proof.
  split; [reflexivity|].
  apply (classify_labels_allowed (Hlabels:=plain_handler_labelling)).
  - exact example_constants_fit.
  - vm_compute. reflexivity.
  - unfold closed_straight_crossing. in_range_concrete.
  - cbn. lia.
  - cbn. lia.
  - reflexivity.
Defined.

(** An end-of-road junction whose road to the left does not allow entry, and
    a dead end. *)
Definition closed_left_t_junction : Intersection :=
  [road 0 0 true; road 1 90 true; road 2 270 false].
Definition dead_end : Intersection := [road 0 0 true].

(** C2, as stated, fails: at the end of a road the classifier labels the
    road to the right, and leaves the road to the left, which does not allow
    entry, with the default instruction; and it returns an intersection of
    one road as it came, with the default instruction. *)
Lemma classify_labels_counterexample :
  (valid closed_left_t_junction = true ∧
   instructions (classify (K:=example_constants) (B:=plain_handler) 9%nat
                   closed_left_t_junction) =
   [ mkTurnInstruction TurnType.Turn DirectionModifier.UTurn;
     mkTurnInstruction TurnType.EndOfRoad DirectionModifier.Right;
     default_instruction ]) ∧
  (valid dead_end = true ∧
   instructions (classify (K:=example_constants) (B:=plain_handler) 9%nat dead_end) =
   default_instruction :: nil).
Proof. repeat split; vm_compute; reflexivity. Qed.

(** ** Mirror symmetry

    [switch_left_and_right] is the operation [M] of the spec: every road is
    mirrored and the roads behind the road back are reversed. *)

(** A road that is neither the way back nor within [epsilon] of it. *)
Definition strictly_inside (r : ConnectedRoad) : Prop :=
  epsilon < angle r ∧ angle r < deg 360 - epsilon.

(** The road at position 0 is the way back, at angle 0; the other roads lie
    strictly inside the circle. *)
Definition standard (X : Intersection) : Prop :=
  match X with
  | [] => False
  | r0 :: rest => angle r0 = 0 ∧ Forall strictly_inside rest
  end.

(** A road of a standard intersection. *)
Definition standard_road (r : ConnectedRoad) : Prop := angle r = 0 ∨ strictly_inside r.

(** Of the roads that allow entry, one is straighter than every other: no
    other road is as close to straight ahead as a straightest one. *)
Definition unique_straightest (X : Intersection) : Prop :=
  ∀ i j, (1 ≤ i < length X)%nat → (1 ≤ j < length X)%nat →
    entry_allowed (X !!! i) = true → entry_allowed (X !!! j) = true →
    (∀ k, (1 ≤ k < length X)%nat → entry_allowed (X !!! k) = true →
          angularDeviation (angle (X !!! i)) STRAIGHT_ANGLE ≤
          angularDeviation (angle (X !!! k)) STRAIGHT_ANGLE) →
    angularDeviation (angle (X !!! i)) STRAIGHT_ANGLE =
    angularDeviation (angle (X !!! j)) STRAIGHT_ANGLE →
    i = j.

(** The mirror of an instruction. *)
Definition mirror_instruction (t : TurnInstruction) : TurnInstruction :=
  mkTurnInstruction (type t) (mirror_modifier (direction_modifier t)).

Lemma mirror_inside r :
  strictly_inside r →
  mirror r = mkConnectedRoad (eid r) (deg 360 - angle r) (bearing r) (entry_allowed r)
               (mirror_instruction (instruction r)) (lane_data_id r).
Proof.
  intros [Hlo Hhi]. unfold mirror.
  assert (Hdev : epsilon < angularDeviation (angle r) 0).
  { rewrite angularDeviation_zero by qc_lra. qc_split; qc_lra. }
  apply Qcltb_lt in Hdev. by rewrite Hdev.
Qed.

Lemma mirror_zero r : angle r = 0 → mirror r = r.
Proof.
  intros Hr. unfold mirror. rewrite Hr.
  assert (Hdev : (angularDeviation 0 0 >? epsilon) = false) by by vm_compute.
  by rewrite Hdev.
Qed.

Lemma strictly_inside_mirror r : strictly_inside r → strictly_inside (mirror r).
Proof.
  intros Hr. rewrite (mirror_inside r Hr). destruct Hr as [Hlo Hhi].
  unfold strictly_inside. cbn [angle]. split; qc_lra.
Qed.

Lemma standard_road_mirror r : standard_road r → standard_road (mirror r).
Proof.
  intros [Hz|Hi].
  - left. by rewrite mirror_zero.
  - right. by apply strictly_inside_mirror.
Qed.

Lemma standard_road_range r : standard_road r → 0 ≤ angle r ∧ angle r ≤ deg 360.
Proof. intros [->|[Hlo Hhi]]; split; try qc_lra; by vm_compute. Qed.

Lemma mirror_straight r :
  standard_road r →
  angularDeviation (angle (mirror r)) STRAIGHT_ANGLE =
  angularDeviation (angle r) STRAIGHT_ANGLE.
Proof.
  intros [Hz|Hi].
  - by rewrite mirror_zero.
  - rewrite (mirror_inside r Hi). cbn [angle].
    replace STRAIGHT_ANGLE with (deg 360 - deg 180) at 1 by by apply Qc_is_canon.
    apply angularDeviation_mirror.
Qed.

Lemma mirror_between r r' :
  standard_road r → standard_road r' →
  angularDeviation (angle (mirror r)) (angle (mirror r')) =
  angularDeviation (angle r) (angle r').
Proof.
  intros [Hz|Hi] [Hz'|Hi'].
  - by rewrite !mirror_zero.
  - rewrite (mirror_zero r Hz), (mirror_inside r' Hi'), Hz. cbn [angle].
    rewrite !(angularDeviation_sym 0).
    destruct Hi'. apply angularDeviation_zero_mirror; qc_lra.
  - rewrite (mirror_zero r' Hz'), (mirror_inside r Hi), Hz'. cbn [angle].
    destruct Hi. apply angularDeviation_zero_mirror; qc_lra.
  - rewrite (mirror_inside r Hi), (mirror_inside r' Hi'). cbn [angle].
    apply angularDeviation_mirror.
Qed.

Lemma mirror_reads r :
  eid (mirror r) = eid r ∧ entry_allowed (mirror r) = entry_allowed r ∧
  bearing (mirror r) = bearing r ∧ lane_data_id (mirror r) = lane_data_id r.
Proof. unfold mirror. by destruct (_ >? _). Qed.

Lemma standard_roads X : standard X → Forall standard_road X.
Proof.
  destruct X as [|r0 rest]; [done|]. intros [Hz Hrest]. constructor; [by left|].
  eapply Forall_impl; [|exact Hrest]. intros r Hr. by right.
Qed.

Lemma standard_in_range X : standard X → in_range X.
Proof.
  intros HX%standard_roads. eapply Forall_impl; [|exact HX].
  intros r Hr. by apply standard_road_range.
Qed.

Lemma standard_switch_left_and_right X :
  standard X → standard (switch_left_and_right X).
Proof.
  destruct X as [|r0 rest]; [done|]. intros [Hz Hrest].
  rewrite switch_left_and_right_cons. split; [by rewrite mirror_zero|].
  apply Forall_reverse, Forall_fmap.
  eapply Forall_impl; [|exact Hrest]. intros r Hr. by apply strictly_inside_mirror.
Qed.

Lemma standard_lookup X k :
  standard X → (k < length X)%nat → standard_road (X !!! k).
Proof.
  intros HX%standard_roads Hk. rewrite Forall_lookup in HX.
  destruct (lookup_lt_is_Some_2 X k Hk) as [x Hx].
  rewrite (list_lookup_total_correct _ _ _ Hx). by apply (HX k).
Qed.

Lemma standard_lookup_inside X k :
  standard X → (1 ≤ k < length X)%nat → strictly_inside (X !!! k).
Proof.
  destruct X as [|r0 rest]; [done|]. intros [_ Hrest] Hk.
  destruct k as [|j]; [lia|]. rewrite lookup_total_cons_ne_0 by done. cbn [Nat.pred].
  rewrite Forall_lookup in Hrest. cbn in Hk.
  destruct (lookup_lt_is_Some_2 rest j) as [x Hx]; [lia|].
  rewrite (list_lookup_total_correct _ _ _ Hx). by apply (Hrest j).
Qed.

Lemma standard_lookup_zero X : standard X → angle (X !!! 0%nat) = 0.
Proof. destruct X as [|r0 rest]; [done|]. by intros [Hz _]. Qed.

Lemma standard_nonempty X : standard X → (1 ≤ length X)%nat.
Proof. destruct X; [done|]. cbn. lia. Qed.

Lemma standard_erase_eq X Y : erase <$> X = erase <$> Y → standard X → standard Y.
Proof.
  destruct X as [|x X], Y as [|y Y]; try done. cbn [fmap list_fmap].
  intros E0 [Hz HX].
  assert (Exy : erase x = erase y) by (by apply (f_equal (λ l, l !!! 0%nat)) in E0).
  assert (E : erase <$> X = erase <$> Y) by (by apply (f_equal tail) in E0).
  clear E0. split.
  - destruct (erase_reads x y Exy) as (_ & Ha & _). by rewrite <- Ha.
  - apply Forall_lookup. intros k r Hr.
    rewrite Forall_lookup in HX.
    assert (Hk : (k < length X)%nat).
    { rewrite <- (length_fmap erase X), E, length_fmap. by eapply lookup_lt_Some. }
    destruct (lookup_lt_is_Some_2 X k Hk) as [r' Hr'].
    pose proof (HX k r' Hr') as Hin.
    assert (Er : erase r' = erase r).
    { assert (Hl : (erase <$> X) !! k = (erase <$> Y) !! k) by by rewrite E.
      rewrite !list_lookup_fmap, Hr, Hr' in Hl. cbn in Hl. congruence. }
    destruct (erase_reads _ _ Er) as (_ & Ha & _).
    unfold strictly_inside in *. by rewrite <- Ha.
Qed.

(** The handler's oracles treat left and right alike. *)
Class Symmetric `{B : IntersectionHandler} : Prop := {
  getTurnDirection_mirror a :
    getTurnDirection (deg 360 - a) = mirror_modifier (getTurnDirection a);
  findBasicTurnType_mirror via r :
    findBasicTurnType via (mirror r) = findBasicTurnType via r;
  findObviousTurn_mirror via X :
    standard X →
    findObviousTurn via (switch_left_and_right X) =
    mirror_index (length X) (findObviousTurn via X);
  findObviousTurn_lt via X :
    findObviousTurn via X = 0%nat ∨ (findObviousTurn via X < length X)%nat;
  getInstructionForObvious_mirror n via through r :
    strictly_inside r →
    getInstructionForObvious n via through (mirror r) =
    mirror_instruction (getInstructionForObvious n via through r);
  isThroughStreet_mirror k X :
    standard X → (k < length X)%nat →
    isThroughStreet (mirror_index (length X) k) (switch_left_and_right X) =
    isThroughStreet k X;
  assignFork_mirror via l r :
    strictly_inside l → strictly_inside r →
    assignFork via (mirror r) (mirror l) =
    (mirror_instruction (assignFork via l r).2, mirror_instruction (assignFork via l r).1);
  assignFork3_mirror via l c r :
    strictly_inside l → strictly_inside c → strictly_inside r →
    assignFork3 via (mirror r) (mirror c) (mirror l) =
    (mirror_instruction (assignFork3 via l c r).2,
     mirror_instruction (assignFork3 via l c r).1.2,
     mirror_instruction (assignFork3 via l c r).1.1);
  canBeSeenAsFork_sym a b : canBeSeenAsFork a b = canBeSeenAsFork b a;
  canBeSeenAsFork_priority a b :
    canBeSeenAsFork a b = false → GetPriority a ≠ GetPriority b
}.

(** What [findClosestToStraight] finds: no road, when no road that allows
    entry is less than 180 degrees from straight; otherwise a road that allows
    entry and is at least as straight as every other one. *)
Definition straightness (X : Intersection) (i : nat) : Qc :=
  angularDeviation (angle (X !!! i)) STRAIGHT_ANGLE.

Lemma findClosestToStraight_spec (X : Intersection) :
  let st := findClosestToStraight X in
  (id st = 0%nat ∧ deviation_from_straight st = deg 180 ∧
   ∀ i, (1 ≤ i < length X)%nat → entry_allowed (X !!! i) = true →
        ¬ straightness X i < deg 180) ∨
  ((1 ≤ id st < length X)%nat ∧ entry_allowed (X !!! id st) = true ∧
   deviation_from_straight st = straightness X (id st) ∧
   deviation_from_straight st < deg 180 ∧
   ∀ i, (1 ≤ i < length X)%nat → entry_allowed (X !!! i) = true →
        deviation_from_straight st ≤ straightness X i).
Proof.
  cbn zeta. unfold findClosestToStraight.
  set (step := λ (st : StraightestTurnAtIntersection) (i : nat), _).
  set (inv := λ (m : nat) (st : StraightestTurnAtIntersection),
    (id st = 0%nat ∧ deviation_from_straight st = deg 180 ∧
     ∀ i, (1 ≤ i < 1 + m)%nat → entry_allowed (X !!! i) = true →
          ¬ straightness X i < deg 180) ∨
    ((1 ≤ id st < 1 + m)%nat ∧ entry_allowed (X !!! id st) = true ∧
     deviation_from_straight st = straightness X (id st) ∧
     deviation_from_straight st < deg 180 ∧
     ∀ i, (1 ≤ i < 1 + m)%nat → entry_allowed (X !!! i) = true →
          deviation_from_straight st ≤ straightness X i)).
  assert (Hinv : ∀ m, inv m (fold_left step (seq 1 m)
                                (mkStraightestTurnAtIntersection 0 (deg 180)))).
  { induction m as [|m IH].
    - left. cbn. split; [done|]. split; [done|]. intros i Hi. lia.
    - rewrite seq_S, fold_left_app. cbn [fold_left].
      set (st := fold_left step (seq 1 m) _) in *.
      unfold step at 1. fold (straightness X (1 + m)).
      destruct (entry_allowed (X !!! (1 + m)%nat)) eqn:Ha; cbn [andb].
      + destruct (straightness X (1 + m) <? deviation_from_straight st) eqn:Hlt.
        * apply Qcltb_lt in Hlt. right. cbn [id deviation_from_straight].
          split; [lia|]. split; [done|]. split; [done|].
          destruct IH as [(H0 & Hd & Hall)|(Hid & Hal & Hd & Hlt' & Hall)].
          -- split; [by rewrite <- Hd|]. intros i Hi Hai.
             destruct (decide (i = (1 + m)%nat)) as [->|Hne]; [apply Qcle_refl|].
             assert (Hge : ¬ straightness X i < deg 180) by (apply Hall; [lia|done]).
             rewrite Hd in Hlt. apply Qcnot_lt_le in Hge. qc_lra.
          -- split; [qc_lra|]. intros i Hi Hai.
             destruct (decide (i = (1 + m)%nat)) as [->|Hne]; [apply Qcle_refl|].
             assert (Hle : deviation_from_straight st ≤ straightness X i)
               by (apply Hall; [lia|done]).
             qc_lra.
        * apply Qcltb_ge in Hlt.
          destruct IH as [(H0 & Hd & Hall)|(Hid & Hal & Hd & Hlt' & Hall)].
          -- left. split; [done|]. split; [done|]. intros i Hi Hai.
             destruct (decide (i = (1 + m)%nat)) as [->|Hne].
             ++ rewrite Hd in Hlt. intros Hc. qc_lra.
             ++ apply Hall; [lia|done].
          -- right. split; [lia|]. split; [done|]. split; [done|]. split; [done|].
             intros i Hi Hai.
             destruct (decide (i = (1 + m)%nat)) as [->|Hne]; [done|].
             apply Hall; [lia|done].
      + destruct IH as [(H0 & Hd & Hall)|(Hid & Hal & Hd & Hlt' & Hall)].
        * left. split; [done|]. split; [done|]. intros i Hi Hai.
          destruct (decide (i = (1 + m)%nat)) as [->|Hne]; [congruence|].
          apply Hall; [lia|done].
        * right. split; [lia|]. split; [done|]. split; [done|]. split; [done|].
          intros i Hi Hai.
          destruct (decide (i = (1 + m)%nat)) as [->|Hne]; [congruence|].
          apply Hall; [lia|done]. }
  specialize (Hinv (length X - 1)%nat). unfold inv in Hinv.
  destruct (decide (length X = 0)%nat) as [H0|H0].
  - rewrite H0 in *. cbn [Nat.sub seq fold_left] in *. left. cbn.
    split; [done|]. split; [done|]. intros i Hi. lia.
  - replace (1 + (length X - 1))%nat with (length X) in Hinv by lia. exact Hinv.
Qed.

Lemma lookup_mirrored (X : Intersection) j :
  (1 ≤ j < length X)%nat →
  switch_left_and_right X !!! (length X - j)%nat = mirror (X !!! j).
Proof.
  intros Hj. rewrite lookup_switch_left_and_right by lia. unfold mirror_index.
  destruct (Nat.eqb_spec (length X - j) 0); [lia|].
  by replace (length X - (length X - j))%nat with j by lia.
Qed.

Lemma lookup_mirrored_zero (X : Intersection) :
  standard X → switch_left_and_right X !!! 0%nat = X !!! 0%nat.
Proof.
  destruct X as [|r0 rest]; [done|]. intros [Hz _].
  rewrite switch_left_and_right_cons. cbn. by apply mirror_zero.
Qed.

Lemma straightness_mirrored (X : Intersection) k :
  standard X → (k < length X)%nat →
  straightness (switch_left_and_right X) k = straightness X (mirror_index (length X) k).
Proof.
  intros HX Hk. unfold straightness. rewrite lookup_switch_left_and_right by done.
  apply mirror_straight, standard_lookup; [done|]. by apply mirror_index_lt.
Qed.

Lemma allowed_mirrored (X : Intersection) k :
  (k < length X)%nat →
  entry_allowed (switch_left_and_right X !!! k) =
  entry_allowed (X !!! mirror_index (length X) k).
Proof.
  intros Hk. rewrite lookup_switch_left_and_right by done.
  by destruct (mirror_reads (X !!! mirror_index (length X) k)) as (_ & -> & _).
Qed.

Lemma straightness_inside (X : Intersection) i :
  standard X → (1 ≤ i < length X)%nat → straightness X i < deg 180.
Proof.
  intros HX Hi. destruct (standard_lookup_inside X i HX Hi) as [Hlo Hhi].
  unfold straightness. rewrite angularDeviation_straight by qc_lra.
  qc_split; qc_lra.
Qed.

Lemma mirror_index_range n k : (1 ≤ k < n)%nat → (1 ≤ mirror_index n k < n)%nat.
Proof. unfold mirror_index. intros Hk. destruct (Nat.eqb_spec k 0); lia. Qed.

(** The straightest road of the mirrored intersection is the mirror of the
    straightest road. *)
Lemma findClosestToStraight_mirrored (X : Intersection) :
  standard X → unique_straightest X →
  findClosestToStraight (switch_left_and_right X) =
  mkStraightestTurnAtIntersection
    (mirror_index (length X) (id (findClosestToStraight X)))
    (deviation_from_straight (findClosestToStraight X)).
Proof.
  intros HX Hdistinct.
  pose proof (findClosestToStraight_spec X) as HS.
  pose proof (findClosestToStraight_spec (switch_left_and_right X)) as HM.
  cbn zeta in HS, HM. rewrite length_switch_left_and_right in HM.
  destruct (findClosestToStraight X) as [s d].
  destruct (findClosestToStraight (switch_left_and_right X)) as [s' d'].
  cbn [id deviation_from_straight] in *.
  destruct HS as [(-> & -> & Hno)|(Hs & Has & Hd & Hlt & Hmin)];
    destruct HM as [(-> & -> & Hno')|(Hs' & Has' & Hd' & Hlt' & Hmin')].
  - done.
  - exfalso. apply (Hno (mirror_index (length X) s')).
    + by apply mirror_index_range.
    + rewrite <- allowed_mirrored by lia. done.
    + apply straightness_inside; [done|]. by apply mirror_index_range.
  - exfalso. apply (Hno' (mirror_index (length X) s)).
    + by apply mirror_index_range.
    + rewrite allowed_mirrored by (apply mirror_index_lt; lia).
      rewrite mirror_index_involutive by lia. done.
    + rewrite straightness_mirrored by (done || apply mirror_index_lt; lia).
      rewrite mirror_index_involutive by lia. apply straightness_inside; [done|lia].
  - rewrite straightness_mirrored in Hd' by (done || lia).
    rewrite allowed_mirrored in Has' by lia.
    assert (H1 : d ≤ d').
    { rewrite Hd'. apply Hmin; [by apply mirror_index_range|done]. }
    assert (H2 : d' ≤ d).
    { rewrite Hd, <- (mirror_index_involutive (length X) s) by lia.
      rewrite <- straightness_mirrored by (done || apply mirror_index_lt; lia).
      apply Hmin'; [by apply mirror_index_range|].
      rewrite allowed_mirrored by (apply mirror_index_lt; lia).
      by rewrite mirror_index_involutive by lia. }
    assert (Hdd : d = d') by (apply Qcle_antisym; done).
    assert (Hss : s = mirror_index (length X) s').
    { apply Hdistinct; [lia|by apply mirror_index_range|done|done| |].
      - intros k Hk Hak. fold (straightness X s). fold (straightness X k).
        rewrite <- Hd. by apply Hmin.
      - fold (straightness X s). fold (straightness X (mirror_index (length X) s')).
        by rewrite <- Hd, <- Hd'. }
    rewrite Hss, <- Hdd. by rewrite mirror_index_involutive by lia.
Qed.

(** *** The candidates of a fork, mirrored *)

Lemma adjacent_find_snoc {A} (p : A → A → bool) (l : list A) (z : A) :
  adjacent_find p (l ++ [z]) =
  match adjacent_find p l with
  | Some k => Some k
  | None =>
      match l !! (length l - 1)%nat with
      | Some a => if p a z then Some (length l - 1)%nat else None
      | None => None
      end
  end.
Proof.
  induction l as [|x [|y l] IH]; [done| |].
  - cbn. by destruct (p x z).
  - change ((x :: y :: l) ++ [z]) with (x :: y :: (l ++ [z])).
    rewrite !adjacent_find_cons. destruct (p x y); [done|].
    change (y :: l ++ [z]) with ((y :: l) ++ [z]). rewrite IH.
    destruct (adjacent_find p (y :: l)) as [k|]; [done|].
    cbn [length]. replace (S (S (length l)) - 1)%nat with (S (length l)) by lia.
    replace (S (length l) - 1)%nat with (length l) by lia.
    change ((x :: y :: l) !! S (length l)) with ((y :: l) !! length l).
    destruct ((y :: l) !! length l) as [a|]; [|done].
    by destruct (p a z).
Qed.

Lemma adjacent_find_fmap_on {A A'} (P : A → Prop) (f : A → A')
    (p : A → A → bool) (p' : A' → A' → bool) l :
  Forall P l →
  (∀ x y, P x → P y → p' (f x) (f y) = p x y) →
  adjacent_find p' (f <$> l) = adjacent_find p l.
Proof.
  intros Hl Hp. induction l as [|x [|y l] IH]; [done..|].
  apply Forall_cons_1 in Hl as [Hx Hl]. pose proof Hl as Hl'.
  apply Forall_cons_1 in Hl' as [Hy _].
  change (f <$> x :: y :: l) with (f x :: f y :: (f <$> l)).
  rewrite !adjacent_find_cons, Hp by done.
  destruct (p x y); [done|].
  change (f y :: (f <$> l)) with (f <$> y :: l). by rewrite IH.
Qed.

Definition mirror_fork (n : nat) (fork : Fork.t) : Fork.t :=
  Fork.make (n - Fork.left fork) (n - Fork.right fork).

Section MirroredFork.
Context `{K : Constants} `{B : IntersectionHandler}.

Lemma isOutermostForkCandidate_mirror r1 r2 :
  standard_road r1 → standard_road r2 →
  isOutermostForkCandidate (mirror r1) (mirror r2) = isOutermostForkCandidate r1 r2.
Proof.
  intros H1 H2. unfold isOutermostForkCandidate.
  by rewrite !mirror_straight, mirror_between.
Qed.

Lemma findOutermostForkCandidate_mirror l :
  Forall standard_road l →
  findOutermostForkCandidate (mirror <$> l) = findOutermostForkCandidate l.
Proof.
  intros Hl. unfold findOutermostForkCandidate.
  rewrite (adjacent_find_fmap_on standard_road mirror isOutermostForkCandidate) by
    (done || apply isOutermostForkCandidate_mirror).
  by rewrite length_fmap.
Qed.

Lemma findOutermostForkCandidate_le l :
  (findOutermostForkCandidate l ≤ length l - 1)%nat.
Proof.
  unfold findOutermostForkCandidate.
  destruct (adjacent_find _ _) as [k|] eqn:Hk; [|done].
  apply adjacent_find_Some_lt in Hk. lia.
Qed.

(** The road back closes every range of candidates. *)
Lemma findOutermostForkCandidate_back l r0 :
  narrow_and_group_fit → angle r0 = 0 → Forall standard_road l → l ≠ [] →
  findOutermostForkCandidate (l ++ [r0]) = findOutermostForkCandidate l.
Proof.
  intros Hfit Hz Hl Hne. unfold findOutermostForkCandidate.
  rewrite adjacent_find_snoc, length_app. cbn [length].
  destruct (adjacent_find _ l) as [k|]; [done|].
  assert (Hlen : (length l - 1 < length l)%nat) by (destruct l; [done|cbn; lia]).
  destruct (lookup_lt_is_Some_2 l _ Hlen) as [a Ha]. rewrite Ha.
  rewrite isOutermostForkCandidate_first; [lia|done|..].
  - rewrite Hz. by vm_compute.
  - rewrite Hz. by vm_compute.
  - rewrite Forall_lookup in Hl. by apply (standard_road_range a), (Hl _ _ Ha).
  - rewrite Forall_lookup in Hl. by apply (standard_road_range a), (Hl _ _ Ha).
Qed.

End MirroredFork.

Section MirroredCandidates.
Context `{K : Constants} `{B : IntersectionHandler}.

Lemma findClosestToStraight_narrow X :
  narrow_and_group_fit →
  (deviation_from_straight (findClosestToStraight X) <=? NARROW_TURN_ANGLE) = true →
  (1 ≤ id (findClosestToStraight X) < length X)%nat.
Proof.
  intros [HG HNG] Hdev%Qcleb_le.
  destruct (findClosestToStraight_id X) as [[_ Hd]|Hid]; [|done].
  rewrite Hd in Hdev. exfalso. qc_lra.
Qed.

Lemma findLeftAndRightmostForkCandidates_mirrored X :
  narrow_and_group_fit → standard X → unique_straightest X →
  findLeftAndRightmostForkCandidates (switch_left_and_right X) =
  mirror_fork (length X) <$> findLeftAndRightmostForkCandidates X.
Proof.
  intros Hfit HX Hdistinct. unfold findLeftAndRightmostForkCandidates.
  rewrite length_switch_left_and_right, findClosestToStraight_mirrored by done.
  cbn [id deviation_from_straight].
  destruct (bool_decide (3 ≤ length X)%nat) eqn:Hlen; [|done].
  apply bool_decide_eq_true in Hlen.
  destruct (deviation_from_straight (findClosestToStraight X) <=? NARROW_TURN_ANGLE)
    eqn:Hdev; [|done].
  pose proof (findClosestToStraight_narrow X Hfit Hdev) as Hs.
  set (s := id (findClosestToStraight X)) in *.
  pose proof (standard_roads X HX) as Hroads.
  destruct X as [|r0 rest]; [done|]. destruct HX as [Hz Hrest].
  apply Forall_cons_1 in Hroads as [_ Hroads].
  cbn [length] in *.
  assert (Hpi : mirror_index (S (length rest)) s = S (length rest - s)).
  { unfold mirror_index. destruct (Nat.eqb_spec s 0); lia. }
  rewrite Hpi, switch_left_and_right_cons, (mirror_zero r0 Hz).
  destruct s as [|s0] eqn:Es; [lia|].
  change (take (S (S s0)) (r0 :: rest)) with (r0 :: take (S s0) rest).
  change (drop (S s0) (r0 :: rest)) with (drop s0 rest).
  change (take (S (S (length rest - S s0))) (r0 :: reverse (mirror <$> rest)))
    with (r0 :: take (S (length rest - S s0)) (reverse (mirror <$> rest))).
  change (drop (S (length rest - S s0)) (r0 :: reverse (mirror <$> rest)))
    with (drop (length rest - S s0) (reverse (mirror <$> rest))).
  rewrite !reverse_cons.
  rewrite take_reverse, reverse_involutive, drop_reverse, length_fmap.
  replace (length rest - S (length rest - S s0))%nat with s0 by lia.
  replace (length rest - (length rest - S s0))%nat with (S s0) by lia.
  rewrite <- fmap_drop, <- fmap_take, <- fmap_reverse.
  assert (Htake : Forall standard_road (reverse (take (S s0) rest))).
  { apply Forall_reverse, Forall_take. done. }
  assert (Hdrop : Forall standard_road (drop s0 rest)).
  { by apply Forall_drop. }
  assert (Htake_ne : reverse (take (S s0) rest) ≠ []).
  { intros E%(f_equal length). rewrite length_reverse, length_take in E.
    cbn [length] in E. lia. }
  assert (Hdrop_ne : drop s0 rest ≠ []).
  { intros E%(f_equal length). rewrite length_drop in E. cbn [length] in E. lia. }
  assert (Hdrop' : Forall standard_road (mirror <$> drop s0 rest)).
  { apply Forall_fmap. eapply Forall_impl; [|exact Hdrop].
    intros r Hr. by apply standard_road_mirror. }
  rewrite (findOutermostForkCandidate_back (reverse (take (S s0) rest))) by done.
  rewrite (findOutermostForkCandidate_back (mirror <$> drop s0 rest));
    [|done|done|done|by intros E%fmap_nil_inv].
  rewrite !findOutermostForkCandidate_mirror by done.
  pose proof (findOutermostForkCandidate_le (reverse (take (S s0) rest))) as Ha.
  pose proof (findOutermostForkCandidate_le (drop s0 rest)) as Hb.
  rewrite length_reverse, length_take in Ha. rewrite length_drop in Hb.
  set (a := findOutermostForkCandidate (reverse (take (S s0) rest))) in *.
  set (b := findOutermostForkCandidate (drop s0 rest)) in *.
  rewrite (bool_decide_ext (S (length rest - S s0) - b < S (length rest - S s0) + a)%nat
                           (S s0 - a < S s0 + b)%nat) by lia.
  rewrite (bool_decide_ext
             (S (length rest - S s0) + a - (S (length rest - S s0) - b) + 1 ≤ 3)%nat
             (S s0 + b - (S s0 - a) + 1 ≤ 3)%nat) by lia.
  destruct (bool_decide (S s0 - a < S s0 + b)%nat && _); [|done].
  cbn [fmap option_fmap option_map]. f_equal.
  unfold mirror_fork, Fork.make. cbn [Fork.left Fork.right]. f_equal; lia.
Qed.

End MirroredCandidates.

(** *** The tests on a fork, mirrored *)

Lemma forallb_seq_iff (f : nat → bool) a m :
  forallb f (seq a m) = true ↔ ∀ j, (a ≤ j < a + m)%nat → f j = true.
Proof.
  rewrite forallb_forall. split.
  - intros H j Hj. apply H, in_seq. lia.
  - intros H j Hj%in_seq. apply H. lia.
Qed.

Lemma existsb_seq_iff (f : nat → bool) a m :
  existsb f (seq a m) = true ↔ ∃ j, (a ≤ j < a + m)%nat ∧ f j = true.
Proof.
  rewrite existsb_exists. split.
  - intros (j & Hj%in_seq & Hf). exists j. split; [lia|done].
  - intros (j & Hj & Hf). exists j. split; [apply in_seq; lia|done].
Qed.

Ltac mirrored_lookup :=
  rewrite lookup_switch_left_and_right by lia; unfold mirror_index;
  match goal with |- context [Nat.eqb ?a 0] => destruct (Nat.eqb_spec a 0) end;
  f_equal; f_equal; lia.

Section MirroredTests.
Context `{K : Constants} `{B : IntersectionHandler}.

Lemma isObviousOfTwo_mirror via road other :
  standard_road road → standard_road other →
  isObviousOfTwo via (mirror road) (mirror other) = isObviousOfTwo via road other.
Proof.
  intros Hr Ho. unfold isObviousOfTwo.
  destruct (mirror_reads road) as (-> & _). destruct (mirror_reads other) as (-> & _).
  by rewrite !mirror_straight.
Qed.

Lemma hasObvious_mirrored via X fork :
  standard X →
  (1 ≤ Fork.right fork)%nat → (Fork.right fork < Fork.left fork)%nat →
  (Fork.left fork < length X)%nat →
  hasObvious via (switch_left_and_right X) (mirror_fork (length X) fork) =
  hasObvious via X fork.
Proof.
  intros HX Hr Hrl Hl. unfold hasObvious, mirror_fork. cbn [Fork.make Fork.left Fork.right].
  destruct fork as [r l sz]. cbn [Fork.left Fork.right] in *.
  set (n := length X) in *.
  set (F := λ road : nat,
    isObviousOfTwo via (X !!! road) (X !!! S road) ||
    isObviousOfTwo via (X !!! S road) (X !!! road)).
  set (F' := λ road : nat,
    isObviousOfTwo via (switch_left_and_right X !!! road)
                       (switch_left_and_right X !!! S road) ||
    isObviousOfTwo via (switch_left_and_right X !!! S road)
                       (switch_left_and_right X !!! road)).
  assert (HF : ∀ j, (1 ≤ j)%nat → (S j < n)%nat → F' j = F (n - S j)%nat).
  { intros j H1 H2. unfold F, F'.
    assert (switch_left_and_right X !!! j = mirror (X !!! S (n - S j))) as ->
      by mirrored_lookup.
    assert (switch_left_and_right X !!! S j = mirror (X !!! (n - S j)%nat)) as ->
      by mirrored_lookup.
    rewrite !isObviousOfTwo_mirror by (apply standard_lookup; [done|fold n; lia]).
    apply orb_comm. }
  apply eq_true_iff_eq. rewrite !existsb_seq_iff. split.
  - intros (j & Hj & Hf). exists (n - S j)%nat. split; [lia|].
    rewrite <- HF by lia. done.
  - intros (j & Hj & Hf). exists (n - S j)%nat. split; [lia|].
    rewrite HF by lia. by replace (n - S (n - S j))%nat with j by lia.
Qed.

Lemma hasValidEntries_mirrored X fork :
  (1 ≤ Fork.right fork)%nat → (Fork.right fork < Fork.left fork)%nat →
  (Fork.left fork < length X)%nat →
  hasValidEntries (switch_left_and_right X)
    (Fork.right (mirror_fork (length X) fork)) (Fork.left (mirror_fork (length X) fork)) =
  hasValidEntries X (Fork.right fork) (Fork.left fork).
Proof.
  intros Hr Hrl Hl. unfold hasValidEntries, mirror_fork. cbn [Fork.make Fork.left Fork.right].
  destruct fork as [r l sz]. cbn [Fork.left Fork.right] in *.
  set (n := length X) in *.
  assert (HF : ∀ j, (1 ≤ j < n)%nat →
            entry_allowed (switch_left_and_right X !!! j) =
            entry_allowed (X !!! (n - j)%nat)).
  { intros j Hj. rewrite allowed_mirrored by (fold n; lia). unfold mirror_index. fold n.
    by destruct (Nat.eqb_spec j 0); [lia|]. }
  apply eq_true_iff_eq. rewrite !forallb_seq_iff. split.
  - intros H j Hj. replace j with (n - (n - j))%nat by lia.
    rewrite <- HF by lia. apply H. lia.
  - intros H j Hj. rewrite HF by lia. apply H. lia.
Qed.

End MirroredTests.

Lemma if_negb_andb (a b : bool) : (if negb a then false else b) = a && b.
Proof. by destruct a. Qed.

Lemma eid_mirrored (X : Intersection) j :
  (1 ≤ j < length X)%nat →
  eid (switch_left_and_right X !!! (length X - j)%nat) = eid (X !!! j).
Proof.
  intros Hj. rewrite lookup_mirrored by done.
  by destruct (mirror_reads (X !!! j)) as (-> & _).
Qed.

Lemma angle_mirrored (X : Intersection) j j' :
  standard X → (j < length X)%nat → (j' < length X)%nat →
  angularDeviation (angle (switch_left_and_right X !!! j))
                   (angle (switch_left_and_right X !!! j')) =
  angularDeviation (angle (X !!! mirror_index (length X) j))
                   (angle (X !!! mirror_index (length X) j')).
Proof.
  intros HX Hj Hj'. rewrite !lookup_switch_left_and_right by done.
  apply mirror_between; apply standard_lookup; try done; by apply mirror_index_lt.
Qed.

Section MirroredClasses.
Context `{K : Constants} `{B : IntersectionHandler}.

Lemma isCompatibleByRoadClass_mirrored X fork :
  standard X →
  (1 ≤ Fork.right fork)%nat → (Fork.right fork < Fork.left fork)%nat →
  (Fork.left fork < length X)%nat →
  isCompatibleByRoadClass (switch_left_and_right X) (mirror_fork (length X) fork) =
  isCompatibleByRoadClass X fork.
Proof.
  intros HX Hr Hrl Hl. unfold isCompatibleByRoadClass, mirror_fork.
  cbn [Fork.make Fork.left Fork.right]. cbn zeta.
  destruct fork as [r l sz]. cbn [Fork.left Fork.right] in *.
  rewrite lookup_mirrored_zero by done.
  pose proof (eid_mirrored X) as He.
  set (n := length X) in *. set (Y := switch_left_and_right X) in *.
  rewrite !if_negb_andb. apply eq_true_iff_eq.
  rewrite !andb_true_iff, !forallb_seq_iff.
  split; intros [Hlink Hobv]; split.
  - assert (Hall : ∀ j, (r ≤ j ≤ l)%nat →
      IsLinkClass (road_classification (GetEdgeData (eid (X !!! j)))) =
      IsLinkClass (road_classification (GetEdgeData (eid (X !!! l))))).
    { intros j Hj. destruct (decide (j = l)) as [->|Hne]; [done|].
      specialize (Hlink (n - j)%nat ltac:(lia)). apply Bool.eqb_prop in Hlink.
      rewrite !He in Hlink by lia. done. }
    intros j Hj. apply (proj2 (Bool.eqb_true_iff _ _)). by rewrite (Hall r), (Hall j) by lia.
  - intros base Hb. apply forallb_seq_iff. intros compare Hc.
    specialize (Hobv (n - base)%nat ltac:(lia)). rewrite forallb_seq_iff in Hobv.
    specialize (Hobv (n - compare)%nat ltac:(lia)). by rewrite !He in Hobv by lia.
  - assert (Hall : ∀ j, (r ≤ j ≤ l)%nat →
      IsLinkClass (road_classification (GetEdgeData (eid (X !!! j)))) =
      IsLinkClass (road_classification (GetEdgeData (eid (X !!! r))))).
    { intros j Hj. destruct (decide (j = r)) as [->|Hne]; [done|].
      specialize (Hlink j ltac:(lia)). by apply Bool.eqb_prop in Hlink. }
    intros j Hj. apply (proj2 (Bool.eqb_true_iff _ _)).
    replace j with (n - (n - j))%nat by lia. rewrite !He by lia.
    by rewrite (Hall l), (Hall (n - j)%nat) by lia.
  - intros base Hb. apply forallb_seq_iff. intros compare Hc.
    specialize (Hobv (n - base)%nat ltac:(lia)). rewrite forallb_seq_iff in Hobv.
    specialize (Hobv (n - compare)%nat ltac:(lia)).
    replace base with (n - (n - base))%nat by lia.
    replace compare with (n - (n - compare))%nat by lia.
    by rewrite !He by lia.
Qed.

End MirroredClasses.

Section MirroredFindFork.
Context `{K : Constants} `{B : IntersectionHandler}.

Lemma standard_first X : standard X → angle (X !!! 0%nat) < epsilon.
Proof. intros HX. rewrite standard_lookup_zero by done. by vm_compute. Qed.

(** The fork of the mirrored intersection is the mirror of the fork. *)
Lemma findFork_mirrored via X :
  narrow_and_group_fit → standard X → unique_straightest X →
  findFork via (switch_left_and_right X) = mirror_fork (length X) <$> findFork via X.
Proof.
  intros Hfit HX Hdistinct. unfold findFork.
  rewrite findLeftAndRightmostForkCandidates_mirrored by done.
  destruct (findLeftAndRightmostForkCandidates X) as [fork|] eqn:Hc; [|done].
  cbn [fmap option_fmap option_map].
  destruct (findLeftAndRightmostForkCandidates_bounds X fork Hfit
              (standard_first X HX) (standard_in_range X HX) Hc) as (Hr & Hrl & Hl & _).
  rewrite hasObvious_mirrored, isCompatibleByRoadClass_mirrored,
    hasValidEntries_mirrored by done.
  rewrite length_switch_left_and_right.
  destruct fork as [r l sz]. unfold mirror_fork at 1 2 3 4 5.
  cbn [Fork.make Fork.left Fork.right] in *.
  remember (length X) as n eqn:Hn.
  assert (Hleft :
    angularDeviation
      (angle (switch_left_and_right X !!! (n - r)%nat))
      (angle (switch_left_and_right X !!!
                (if (S (n - r) =? n)%nat then 0 else S (n - r))%nat)) =
    angularDeviation (angle (X !!! r)) (angle (X !!! (r - 1)%nat))).
  { rewrite angle_mirrored; [|done|lia|destruct (Nat.eqb_spec (S (n - r)) n); lia].
    rewrite <- Hn. unfold mirror_index.
    destruct (Nat.eqb_spec (S (n - r)) n); destruct (Nat.eqb_spec (n - r) 0); try lia;
      cbn [Nat.eqb]; f_equal; f_equal; f_equal; lia. }
  assert (Hright :
    angularDeviation
      (angle (switch_left_and_right X !!! (n - l)%nat))
      (angle (switch_left_and_right X !!! (n - l - 1)%nat)) =
    angularDeviation (angle (X !!! l))
      (angle (X !!! (if (S l =? n)%nat then 0 else S l)%nat))).
  { rewrite angle_mirrored; [|done|lia..]. rewrite <- Hn. unfold mirror_index.
    destruct (Nat.eqb_spec (S l) n); destruct (Nat.eqb_spec (n - l) 0);
      destruct (Nat.eqb_spec (n - l - 1) 0); try lia;
      f_equal; f_equal; f_equal; lia. }
  rewrite Hleft, Hright.
  match goal with
  | |- (if ?a && ?b && ?c && ?d && ?e then _ else _) = _ =>
      replace (a && b) with (b && a) by apply andb_comm
  end.
  by destruct (_ && _ && _ && _ && _).
Qed.

End MirroredFindFork.

(** *** The two sides of an intersection

    [assignRightTurns] writes to the roads before [up_to] and
    [assignLeftTurns] to the roads from [starting_at] on, so the two can be done
    in either order. *)

Section MirroredSides.
Context `{K : Constants} `{B : IntersectionHandler} {Hblind : Blind}.

Lemma assignLeftTurns_outside via X starting_at k :
  in_range X → (k < starting_at)%nat →
  ins (assignLeftTurns via X starting_at) k = ins X k.
Proof.
  intros HX Hk. unfold assignLeftTurns. rewrite length_switch_left_and_right.
  set (W := assignRightTurns via (switch_left_and_right X) (length X + 1 - starting_at)).
  assert (EW : erase <$> W = erase <$> switch_left_and_right X)
    by apply erase_assignRightTurns.
  assert (HlenW : length W = length X).
  { by rewrite (erase_eq_length _ _ EW), length_switch_left_and_right. }
  destruct (decide (k < length X)%nat) as [Hlt|Hge].
  - rewrite ins_switch_left_and_right by lia. rewrite HlenW.
    destruct (erase_reads _ _ (erase_eq_lookup _ _ (mirror_index (length X) k) EW))
      as (_ & -> & _).
    unfold W. rewrite assignRightTurns_outside
      by (unfold mirror_index; destruct (Nat.eqb_spec k 0); lia).
    transitivity (ins (switch_left_and_right (switch_left_and_right X)) k);
      [|by rewrite switch_left_and_right_involutive].
    rewrite (ins_switch_left_and_right (switch_left_and_right X))
      by (rewrite length_switch_left_and_right; lia).
    by rewrite length_switch_left_and_right.
  - rewrite !ins_out_of_range; [done|lia|].
    rewrite length_switch_left_and_right. lia.
Qed.

Lemma sides_commute via X starting_at up_to :
  in_range X → (up_to ≤ starting_at)%nat →
  assignRightTurns via (assignLeftTurns via X starting_at) up_to =
  assignLeftTurns via (assignRightTurns via X up_to) starting_at.
Proof.
  intros HX Hle.
  assert (ER : erase <$> assignRightTurns via X up_to = erase <$> X)
    by apply erase_assignRightTurns.
  assert (EL : erase <$> assignLeftTurns via X starting_at = erase <$> X)
    by by apply erase_assignLeftTurns.
  assert (HR : in_range (assignRightTurns via X up_to))
    by by eapply in_range_erase; [symmetry; exact ER|].
  assert (HL : in_range (assignLeftTurns via X starting_at))
    by by eapply in_range_erase; [symmetry; exact EL|].
  apply intersection_eq.
  { by rewrite erase_assignRightTurns, EL, (erase_assignLeftTurns via _ _ HR), ER. }
  intros k.
  pose proof (Lockstep_assignRightTurns via _ _ _ _ up_to
                (Lockstep_refl X (assignLeftTurns via X starting_at) (eq_sym EL))) as L1.
  pose proof (Lockstep_assignLeftTurns via _ _ _ _ starting_at HX HR
                (Lockstep_refl X (assignRightTurns via X up_to) (eq_sym ER))) as L2.
  destruct (decide (k = 0 ∨ up_to ≤ k)%nat) as [Hk|Hk].
  - rewrite assignRightTurns_outside by done.
    destruct (lockstep_ins _ _ _ _ L2 k) as [E|[E1 E2]]; [done|].
    rewrite E1, E2. by rewrite assignRightTurns_outside.
  - rewrite (assignLeftTurns_outside via (assignRightTurns via X up_to)) by (done || lia).
    destruct (lockstep_ins _ _ _ _ L1 k) as [E|[E1 E2]]; [done|].
    rewrite E1, E2. by rewrite assignLeftTurns_outside by (done || lia).
Qed.

(** Both sides of the mirrored intersection. *)
Lemma sides_mirrored via X starting_at up_to :
  standard X → (up_to ≤ starting_at)%nat → (up_to ≤ length X + 1)%nat →
  assignRightTurns via
    (assignLeftTurns via (switch_left_and_right X) (length X + 1 - up_to))
    (length X + 1 - starting_at) =
  switch_left_and_right (assignRightTurns via (assignLeftTurns via X starting_at) up_to).
Proof.
  intros HX Hle Hup. pose proof (standard_in_range X HX) as Hrange.
  rewrite (sides_commute via X starting_at up_to) by done. unfold assignLeftTurns.
  rewrite !length_switch_left_and_right, length_assignRightTurns.
  rewrite (switch_left_and_right_involutive X) by done.
  replace (length X + 1 - (length X + 1 - up_to))%nat with up_to by lia.
  rewrite switch_left_and_right_involutive; [done|].
  eapply in_range_erase; [|exact (standard_in_range _ (standard_switch_left_and_right X HX))].
  by rewrite erase_assignRightTurns, !erase_switch_left_and_right, erase_assignRightTurns.
Qed.

End MirroredSides.

(** *** Stores into the mirrored intersection *)

Lemma mirror_instruction_involutive t : mirror_instruction (mirror_instruction t) = t.
Proof.
  destruct t as [ty m]. unfold mirror_instruction. cbn [type direction_modifier].
  by rewrite mirror_modifier_involutive.
Qed.

Lemma mirror_instruction_at_inside r t :
  strictly_inside r → mirror_instruction_at (angle r) t = mirror_instruction t.
Proof.
  intros [Hlo Hhi]. unfold mirror_instruction_at.
  assert (Hdev : epsilon < angularDeviation (angle r) 0).
  { rewrite angularDeviation_zero by qc_lra. qc_split; qc_lra. }
  apply Qcltb_lt in Hdev. by rewrite Hdev.
Qed.

Lemma mirror_with_instruction t r :
  strictly_inside r →
  mirror (with_instruction t r) = with_instruction (mirror_instruction t) (mirror r).
Proof.
  intros Hr. rewrite (mirror_inside r Hr).
  rewrite (mirror_inside (with_instruction t r)) by done. reflexivity.
Qed.

Lemma set_instruction_comm (X : Intersection) i j t u :
  i ≠ j →
  set_instruction (set_instruction X i t) j u = set_instruction (set_instruction X j u) i t.
Proof. intros Hne. unfold set_instruction. by apply list_alter_alter_ne. Qed.

Lemma erase_lookup_set_instruction (X : Intersection) i t k :
  erase (set_instruction X i t !!! k) = erase (X !!! k).
Proof. apply erase_eq_lookup, erase_set_instruction. Qed.

Lemma standard_set_instruction X i t : standard X → standard (set_instruction X i t).
Proof. apply standard_erase_eq. by rewrite erase_set_instruction. Qed.

Lemma unique_straightest_erase_eq X Y :
  erase <$> X = erase <$> Y → unique_straightest X → unique_straightest Y.
Proof.
  intros E HX i j Hi Hj Hai Haj Hmin Hdev.
  pose proof (erase_eq_length _ _ E) as Hlen.
  destruct (erase_reads _ _ (erase_eq_lookup X Y i E)) as (_ & Ei & _ & Ai & _).
  destruct (erase_reads _ _ (erase_eq_lookup X Y j E)) as (_ & Ej & _ & Aj & _).
  apply HX; [lia|lia|congruence|congruence| |by rewrite Ei, Ej].
  intros k Hk Hak.
  destruct (erase_reads _ _ (erase_eq_lookup X Y k E)) as (_ & Ek & _ & Ak & _).
  rewrite Ei, Ek. apply Hmin; [lia|congruence].
Qed.

Lemma switch_set_instruction (X : Intersection) k t :
  standard X → (1 ≤ k < length X)%nat →
  switch_left_and_right (set_instruction X k t) =
  set_instruction (switch_left_and_right X) (length X - k) (mirror_instruction t).
Proof.
  intros HX Hk. apply intersection_eq.
  { by rewrite erase_set_instruction, !erase_switch_left_and_right, erase_set_instruction. }
  intros j. destruct (decide (j < length X)%nat) as [Hj|Hj].
  - rewrite ins_switch_left_and_right by (by rewrite length_set_instruction).
    rewrite length_set_instruction, ins_set_instruction, ins_set_instruction.
    rewrite length_switch_left_and_right.
    destruct (erase_reads _ _ (erase_lookup_set_instruction X k t
                (mirror_index (length X) j))) as (_ & -> & _).
    destruct (decide (j = (length X - k)%nat)) as [->|Hne].
    + assert (Hpi : mirror_index (length X) (length X - k) = k).
      { unfold mirror_index. destruct (Nat.eqb_spec (length X - k) 0); lia. }
      rewrite Hpi, !decide_True by (split; [done|lia]).
      apply mirror_instruction_at_inside. by apply standard_lookup_inside.
    + assert (Hpi : k ≠ mirror_index (length X) j).
      { unfold mirror_index. destruct (Nat.eqb_spec j 0); lia. }
      rewrite !decide_False by (intros [? ?]; congruence).
      by rewrite ins_switch_left_and_right.
  - rewrite !ins_out_of_range; [done|..].
    + rewrite length_set_instruction, length_switch_left_and_right. lia.
    + rewrite length_switch_left_and_right, length_set_instruction. lia.
Qed.

Lemma switch_set_instruction_zero (X : Intersection) ty :
  standard X →
  switch_left_and_right
    (set_instruction X 0 (mkTurnInstruction ty DirectionModifier.UTurn)) =
  set_instruction (switch_left_and_right X) 0
    (mkTurnInstruction ty DirectionModifier.UTurn).
Proof.
  destruct X as [|r0 rest]; [done|]. intros [Hz _].
  change (set_instruction (r0 :: rest) 0 ?t) with (with_instruction t r0 :: rest).
  rewrite !switch_left_and_right_cons.
  change (set_instruction (?r :: ?l) 0 ?t) with (with_instruction t r :: l).
  by rewrite !mirror_zero.
Qed.

Section MirroredStores.
Context `{K : Constants} `{B : IntersectionHandler} {Hblind : Blind} {Hsym : Symmetric}.

Lemma read_mirrored (X : Intersection) p q :
  (1 ≤ q < length X)%nat → p = (length X - q)%nat →
  switch_left_and_right X !!! p = mirror (X !!! q).
Proof. intros Hq ->. by apply lookup_mirrored. Qed.

Lemma findBasicTurnType_set via (X : Intersection) i t k :
  findBasicTurnType via (set_instruction X i t !!! k) = findBasicTurnType via (X !!! k).
Proof. apply findBasicTurnType_erase, erase_lookup_set_instruction. Qed.

Lemma angle_set_instruction (X : Intersection) i t k :
  angle (set_instruction X i t !!! k) = angle (X !!! k).
Proof. by destruct (erase_reads _ _ (erase_lookup_set_instruction X i t k)) as (_ & -> & _). Qed.

Lemma eid_set_instruction (X : Intersection) i t k :
  eid (set_instruction X i t !!! k) = eid (X !!! k).
Proof. by destruct (erase_reads _ _ (erase_lookup_set_instruction X i t k)) as (-> & _). Qed.

Lemma getInstructionForObvious_set n via through (X : Intersection) i t k :
  getInstructionForObvious n via through (set_instruction X i t !!! k) =
  getInstructionForObvious n via through (X !!! k).
Proof. apply getInstructionForObvious_erase, erase_lookup_set_instruction. Qed.

Lemma findBasicTurnType_mirrored via (X : Intersection) p q :
  (1 ≤ q < length X)%nat → p = (length X - q)%nat →
  findBasicTurnType via (switch_left_and_right X !!! p) = findBasicTurnType via (X !!! q).
Proof.
  intros Hq Hp. rewrite (read_mirrored X p q) by done. apply findBasicTurnType_mirror.
Qed.

Lemma getTurnDirection_mirrored (X : Intersection) p q :
  standard X → (1 ≤ q < length X)%nat → p = (length X - q)%nat →
  getTurnDirection (angle (switch_left_and_right X !!! p)) =
  mirror_modifier (getTurnDirection (angle (X !!! q))).
Proof.
  intros HX Hq Hp. rewrite (read_mirrored X p q) by done.
  rewrite mirror_inside by by apply standard_lookup_inside.
  cbn [angle]. apply getTurnDirection_mirror.
Qed.

Lemma getInstructionForObvious_mirrored n via through (X : Intersection) p q :
  standard X → (1 ≤ q < length X)%nat → p = (length X - q)%nat →
  getInstructionForObvious n via through (switch_left_and_right X !!! p) =
  mirror_instruction (getInstructionForObvious n via through (X !!! q)).
Proof.
  intros HX Hq Hp. rewrite (read_mirrored X p q) by done.
  apply getInstructionForObvious_mirror. by apply standard_lookup_inside.
Qed.

Lemma handleTwoWayTurn_mirrored via X :
  standard X → length X = 2%nat →
  handleTwoWayTurn via (switch_left_and_right X) =
  switch_left_and_right (handleTwoWayTurn via X).
Proof.
  intros HX Hlen. unfold handleTwoWayTurn.
  rewrite (switch_set_instruction X 1) by (done || lia).
  rewrite length_switch_left_and_right, Hlen. cbn [Nat.sub].
  by rewrite (getInstructionForObvious_mirrored _ _ _ X 1 1) by (done || lia).
Qed.

Lemma assignForkAt_mirrored via X l r :
  standard X → (1 ≤ r)%nat → (r < l)%nat → (l < length X)%nat →
  assignForkAt via (switch_left_and_right X) (length X - r) (length X - l) =
  switch_left_and_right (assignForkAt via X l r).
Proof.
  intros HX Hr Hrl Hl. unfold assignForkAt.
  rewrite (read_mirrored X (length X - r) r), (read_mirrored X (length X - l) l)
    by (done || lia).
  rewrite assignFork_mirror by (apply standard_lookup_inside; done || lia).
  destruct (assignFork via (X !!! l) (X !!! r)) as [li ri]. cbn [fst snd].
  rewrite (switch_set_instruction (set_instruction X l li) r);
    [|by apply standard_set_instruction|rewrite length_set_instruction; lia].
  rewrite (switch_set_instruction X l) by (done || lia).
  rewrite length_set_instruction. apply set_instruction_comm. lia.
Qed.

Lemma assignFork3At_mirrored via X l c r :
  standard X → (1 ≤ r)%nat → (r < c)%nat → (c < l)%nat → (l < length X)%nat →
  assignFork3At via (switch_left_and_right X) (length X - r) (length X - c) (length X - l) =
  switch_left_and_right (assignFork3At via X l c r).
Proof.
  intros HX Hr Hrc Hcl Hl. unfold assignFork3At.
  rewrite (read_mirrored X (length X - r) r), (read_mirrored X (length X - l) l),
    (read_mirrored X (length X - c) c) by (done || lia).
  rewrite assignFork3_mirror by (apply standard_lookup_inside; done || lia).
  destruct (assignFork3 via (X !!! l) (X !!! c) (X !!! r)) as [[li ci] ri]. cbn [fst snd].
  rewrite (switch_set_instruction (set_instruction (set_instruction X l li) c ci) r);
    [|by repeat apply standard_set_instruction|rewrite !length_set_instruction; lia].
  rewrite (switch_set_instruction (set_instruction X l li) c);
    [|by apply standard_set_instruction|rewrite length_set_instruction; lia].
  rewrite (switch_set_instruction X l) by (done || lia).
  rewrite !length_set_instruction.
  rewrite (set_instruction_comm _ (length X - c) (length X - l)) by lia.
  rewrite (set_instruction_comm _ (length X - r) (length X - l)) by lia.
  rewrite (set_instruction_comm _ (length X - r) (length X - c)) by lia.
  done.
Qed.

End MirroredStores.

Section MirroredTrivialTurns.
Context `{K : Constants} `{B : IntersectionHandler} {Hblind : Blind} {Hsym : Symmetric}.

Lemma assignTrivialTurns_step via (X : Intersection) b e :
  (b < e)%nat →
  assignTrivialTurns via X b e =
  assignTrivialTurns via
    (set_instruction X b
       (mkTurnInstruction (findBasicTurnType via (X !!! b))
                          (getTurnDirection (angle (X !!! b)))))
    (S b) e.
Proof.
  intros Hbe. unfold assignTrivialTurns.
  replace (e - b)%nat with (S (e - S b)) by lia. reflexivity.
Qed.

Lemma ins_assignTrivialTurns via (X : Intersection) b e k :
  (b ≤ k < e)%nat → (k < length X)%nat →
  ins (assignTrivialTurns via X b e) k =
  mkTurnInstruction (findBasicTurnType via (X !!! k)) (getTurnDirection (angle (X !!! k))).
Proof.
  remember (e - b)%nat as m eqn:Hm. revert X b Hm.
  induction m as [|m IH]; intros X b Hm Hk Hlen; [lia|].
  rewrite assignTrivialTurns_step by lia.
  destruct (decide (k = b)) as [->|Hne].
  - rewrite ins_assignTrivialTurns_outside by lia.
    rewrite ins_set_instruction. by rewrite decide_True.
  - rewrite IH; [|lia|lia|by rewrite length_set_instruction].
    by rewrite findBasicTurnType_set, angle_set_instruction.
Qed.

Lemma assignTrivialTurns_mirrored via X :
  standard X →
  assignTrivialTurns via (switch_left_and_right X) 1 (length X) =
  switch_left_and_right (assignTrivialTurns via X 1 (length X)).
Proof.
  intros HX. apply intersection_eq.
  { by rewrite erase_assignTrivialTurns, !erase_switch_left_and_right,
      erase_assignTrivialTurns. }
  intros j.
  assert (Hlen : length (assignTrivialTurns via X 1 (length X)) = length X)
    by apply erase_eq_length, erase_assignTrivialTurns.
  assert (Ha : ∀ k, angle (assignTrivialTurns via X 1 (length X) !!! k) = angle (X !!! k)).
  { intros k.
    by destruct (erase_reads _ _ (erase_eq_lookup _ _ k
                   (erase_assignTrivialTurns via X 1 (length X)))) as (_ & -> & _). }
  destruct (decide (j < length X)%nat) as [Hj|Hj].
  - rewrite (ins_switch_left_and_right (assignTrivialTurns via X 1 (length X)))
      by by rewrite Hlen.
    rewrite Hlen, Ha.
    destruct (decide (j = 0%nat)) as [->|Hne].
    + rewrite (ins_assignTrivialTurns_outside via (switch_left_and_right X)) by lia.
      rewrite ins_switch_left_and_right by done.
      unfold mirror_index. cbn [Nat.eqb].
      by rewrite !ins_assignTrivialTurns_outside by lia.
    + rewrite !ins_assignTrivialTurns;
        [|by apply mirror_index_range; lia|by apply mirror_index_lt
         |lia|by rewrite length_switch_left_and_right].
      assert (Hpi : mirror_index (length X) j = (length X - j)%nat).
      { unfold mirror_index. destruct (Nat.eqb_spec j 0); lia. }
      rewrite Hpi.
      rewrite (findBasicTurnType_mirrored via X j (length X - j)),
        (getTurnDirection_mirrored X j (length X - j)) by (done || lia).
      rewrite mirror_instruction_at_inside by (apply standard_lookup_inside; [done|lia]).
      reflexivity.
  - rewrite !ins_out_of_range; [done|..].
    + rewrite length_switch_left_and_right, Hlen. lia.
    + rewrite (erase_eq_length _ _ (erase_assignTrivialTurns via _ _ _)).
      rewrite length_switch_left_and_right. lia.
Qed.

(** Where no road allows entry, nothing is assigned. *)
Lemma assignRightTurns_closed via (X : Intersection) up_to :
  (∀ i, (1 ≤ i)%nat → entry_allowed (X !!! i) = false) →
  assignRightTurns via X up_to = X.
Proof.
  intros Hclosed. unfold assignRightTurns.
  assert (Hcount : filter (λ i, entry_allowed (X !!! i) = true) (seq 1 (up_to - 1)) = []).
  { assert (Hl : Forall (λ i, 1 ≤ i)%nat (seq 1 (up_to - 1))).
    { apply Forall_forall. intros i Hi%in_seq. lia. }
    induction Hl as [|i l Hi _ IH]; [done|].
    rewrite filter_cons_False; [done|]. by rewrite Hclosed. }
  rewrite Hcount. cbn [length Nat.eqb]. by rewrite orb_true_r.
Qed.

End MirroredTrivialTurns.

(** The constants are such that no road is within [FUZZY_ANGLE_DIFFERENCE] of
    straight when it is 180 degrees away from it. *)
Definition fuzzy_fits `{K : Constants} : Prop := FUZZY_ANGLE_DIFFERENCE ≤ deg 180.

Section MirroredComplexTurn.
Context `{K : Constants} `{B : IntersectionHandler} {Hblind : Blind} {Hsym : Symmetric}.

Lemma length_assignForkAt via (X : Intersection) l r :
  length (assignForkAt via X l r) = length X.
Proof. apply erase_eq_length, erase_assignForkAt. Qed.

Lemma length_assignFork3At via (X : Intersection) l c r :
  length (assignFork3At via X l c r) = length X.
Proof. apply erase_eq_length, erase_assignFork3At. Qed.

Lemma standard_assignForkAt via X l r : standard X → standard (assignForkAt via X l r).
Proof. apply standard_erase_eq. by rewrite erase_assignForkAt. Qed.

Lemma standard_assignFork3At via X l c r :
  standard X → standard (assignFork3At via X l c r).
Proof. apply standard_erase_eq. by rewrite erase_assignFork3At. Qed.

Lemma assignLeftTurns_closed via (X : Intersection) starting_at :
  in_range X → (∀ i, (1 ≤ i)%nat → entry_allowed (X !!! i) = false) →
  assignLeftTurns via X starting_at = X.
Proof.
  intros HX Hclosed. unfold assignLeftTurns.
  rewrite assignRightTurns_closed; [by apply switch_left_and_right_involutive|].
  intros i Hi. destruct (decide (i < length X)%nat) as [Hlt|Hge].
  - rewrite allowed_mirrored by done. apply Hclosed.
    unfold mirror_index. destruct (Nat.eqb_spec i 0); lia.
  - rewrite list_lookup_total_alt, lookup_ge_None_2; [done|].
    rewrite length_switch_left_and_right. lia.
Qed.

(** The straightest road allows entry, or there is none. *)
Lemma straightmost_allowed (X : Intersection) :
  fuzzy_fits →
  (deviation_from_straight (findClosestToStraight X) <? FUZZY_ANGLE_DIFFERENCE) &&
  negb (entry_allowed (X !!! id (findClosestToStraight X))) = false.
Proof.
  intros Hfuzzy. unfold fuzzy_fits in Hfuzzy.
  destruct (findClosestToStraight_spec X) as [(_ & Hd & _)|(_ & Ha & _)].
  - rewrite Hd. apply andb_false_iff. left. apply Qcltb_ge. done.
  - rewrite Ha. apply andb_false_r.
Qed.

Lemma no_straightmost_closed (X : Intersection) :
  standard X → id (findClosestToStraight X) = 0%nat →
  ∀ i, (1 ≤ i)%nat → entry_allowed (X !!! i) = false.
Proof.
  intros HX H0 i Hi. destruct (decide (i < length X)%nat) as [Hlt|Hge].
  - destruct (findClosestToStraight_spec X) as [(_ & _ & Hno)|(Hs & _)]; [|lia].
    destruct (entry_allowed (X !!! i)) eqn:Ha; [|done].
    exfalso. apply (Hno i); [lia|done|]. by apply straightness_inside.
  - by rewrite list_lookup_total_alt, lookup_ge_None_2 by lia.
Qed.

End MirroredComplexTurn.

Ltac standard_stores :=
  repeat first [apply standard_set_instruction | apply standard_assignForkAt
               | apply standard_assignFork3At]; done.

Ltac finish_sides via :=
  match goal with
  | |- assignRightTurns via (assignLeftTurns via (switch_left_and_right ?W) ?a') ?b' =
       switch_left_and_right (assignRightTurns via (assignLeftTurns via ?W ?b) ?a) =>
      replace a' with (length W + 1 - a)%nat;
      [replace b' with (length W + 1 - b)%nat; [apply sides_mirrored|]|];
      rewrite ?length_set_instruction, ?length_assignForkAt, ?length_assignFork3At;
      first [lia | standard_stores]
  end.

Section MirroredComplexHandler.
Context `{K : Constants} `{B : IntersectionHandler} {Hblind : Blind} {Hsym : Symmetric}.

Lemma handleComplexTurn_mirrored via X :
  narrow_and_group_fit → fuzzy_fits → standard X → unique_straightest X →
  handleComplexTurn via (switch_left_and_right X) =
  switch_left_and_right (handleComplexTurn via X).
Proof.
  intros Hfit Hfuzzy HX Hdistinct. unfold handleComplexTurn. cbn zeta.
  rewrite !straightmost_allowed by done.
  rewrite findObviousTurn_mirror, findFork_mirrored, findClosestToStraight_mirrored,
    length_switch_left_and_right by done.
  cbn [id deviation_from_straight].
  destruct (Nat.eqb_spec (findObviousTurn via X) 0) as [Ho|Ho].
  - rewrite Ho. unfold mirror_index at 1. cbn [Nat.eqb negb].
    destruct (findFork via X) as [[r l sz]|] eqn:Hfork; cbn [fmap option_fmap option_map].
    + destruct (findLeftAndRightmostForkCandidates_bounds X _ Hfit
                  (standard_first X HX) (standard_in_range X HX)
                  (findFork_candidates via X _ Hfork)) as (Hr & Hrl & Hl & Hsz & Hsize).
      unfold mirror_fork. cbn [Fork.make Fork.left Fork.right Fork.size] in *.
      replace (length X - r - (length X - l) + 1)%nat with sz by lia.
      rewrite !(read_mirrored X (length X - r) r), !(read_mirrored X (length X - l) l)
        by (done || lia).
      destruct (mirror_reads (X !!! r)) as (-> & _).
      destruct (mirror_reads (X !!! l)) as (-> & _).
      rewrite (canBeSeenAsFork_sym
                 (road_classification (GetEdgeData (eid (X !!! r))))).
      rewrite !findBasicTurnType_set.
      rewrite (findBasicTurnType_mirrored via X (length X - r) r),
        (findBasicTurnType_mirrored via X (length X - l) l) by lia.
      rewrite !getInstructionForObvious_mirror by (apply standard_lookup_inside; done || lia).
      match goal with
      | |- assignRightTurns via (assignLeftTurns via ?P' _) _ =
           switch_left_and_right (assignRightTurns via (assignLeftTurns via ?P _) _) =>
          assert (E : P' = switch_left_and_right P)
      end.
      { destruct Hsize as [-> | ->]; cbn [Nat.eqb].
        - destruct (canBeSeenAsFork _ _) eqn:Hcf; [by apply assignForkAt_mirrored|].
          apply canBeSeenAsFork_priority in Hcf.
          destruct (Nat.ltb_spec
                      (GetPriority (road_classification (GetEdgeData (eid (X !!! l)))))
                      (GetPriority (road_classification (GetEdgeData (eid (X !!! r))))));
            destruct (Nat.ltb_spec
                      (GetPriority (road_classification (GetEdgeData (eid (X !!! r)))))
                      (GetPriority (road_classification (GetEdgeData (eid (X !!! l))))));
            try lia.
          + rewrite (switch_set_instruction (set_instruction X l _) r);
              [|standard_stores|rewrite length_set_instruction; lia].
            rewrite (switch_set_instruction X l) by (done || lia).
            by rewrite length_set_instruction.
          + rewrite (switch_set_instruction (set_instruction X r _) l);
              [|standard_stores|rewrite length_set_instruction; lia].
            rewrite (switch_set_instruction X r) by (done || lia).
            by rewrite length_set_instruction.
        - replace (length X - l + 1)%nat with (length X - (r + 1))%nat by lia.
          apply assignFork3At_mirrored; done || lia. }
      rewrite E. clear E.
      match goal with
      | |- _ = switch_left_and_right (assignRightTurns via (assignLeftTurns via ?P _) _) =>
          assert (EP : erase <$> P = erase <$> X);
          [|set (W := P) in *]
      end.
      { repeat match goal with
        | |- context [if ?c then _ else _] => destruct c
        end;
        by rewrite ?erase_assignForkAt, ?erase_assignFork3At, ?erase_set_instruction. }
      replace (length X - r + 1)%nat with (length W + 1 - r)%nat
        by (rewrite (erase_eq_length _ _ EP); lia).
      replace (length X - l)%nat with (length W + 1 - (l + 1))%nat
        by (rewrite (erase_eq_length _ _ EP); lia).
      apply sides_mirrored; [|lia|rewrite (erase_eq_length _ _ EP); lia].
      by apply (standard_erase_eq X); [symmetry|].
    + destruct (findClosestToStraight_id X) as [[H0 _]|Hs].
      * pose proof (no_straightmost_closed X HX H0) as Hclosed.
        rewrite H0. unfold mirror_index. cbn [Nat.eqb Nat.add].
        rewrite lookup_mirrored_zero, standard_lookup_zero by done.
        assert (Hgt : (deg 180 <? 0) = false) by by vm_compute.
        assert (Hlt : (0 <? deg 180) = true) by by vm_compute.
        rewrite Hgt, Hlt.
        rewrite (assignLeftTurns_closed via X), (assignRightTurns_closed via X)
          by (done || by apply standard_in_range).
        assert (Hclosed' : ∀ i, (1 ≤ i)%nat →
                  entry_allowed (switch_left_and_right X !!! i) = false).
        { intros i Hi. destruct (decide (i < length X)%nat) as [Hlti|Hge].
          - rewrite allowed_mirrored by done. apply Hclosed.
            unfold mirror_index. destruct (Nat.eqb_spec i 0); lia.
          - rewrite list_lookup_total_alt, lookup_ge_None_2; [done|].
            rewrite length_switch_left_and_right. lia. }
        rewrite (assignLeftTurns_closed via (switch_left_and_right X)),
          (assignRightTurns_closed via (switch_left_and_right X));
          [done..|by apply standard_in_range, standard_switch_left_and_right|done].
      * set (s := id (findClosestToStraight X)) in *.
        assert (Hpi : mirror_index (length X) s = (length X - s)%nat).
        { unfold mirror_index. destruct (Nat.eqb_spec s 0); lia. }
        rewrite Hpi, (read_mirrored X (length X - s) s) by lia.
        destruct (standard_lookup_inside X s HX Hs) as [Hlo Hhi].
        rewrite mirror_inside by done. cbn [angle].
        destruct (deg 180 <? angle (X !!! s)) eqn:Hgt;
          [|destruct (angle (X !!! s) <? deg 180) eqn:Hlt].
        -- apply Qcltb_lt in Hgt.
           assert (H1 : (deg 180 <? deg 360 - angle (X !!! s)) = false)
             by (apply Qcltb_ge; qc_lra).
           assert (H2 : (deg 360 - angle (X !!! s) <? deg 180) = true)
             by (apply Qcltb_lt; qc_lra).
           rewrite H1, H2. finish_sides via.
        -- apply Qcltb_lt in Hlt.
           assert (H1 : (deg 180 <? deg 360 - angle (X !!! s)) = true)
             by (apply Qcltb_lt; qc_lra).
           rewrite H1. finish_sides via.
        -- apply Qcltb_ge in Hgt, Hlt.
           assert (H1 : (deg 180 <? deg 360 - angle (X !!! s)) = false)
             by (apply Qcltb_ge; qc_lra).
           assert (H2 : (deg 360 - angle (X !!! s) <? deg 180) = false)
             by (apply Qcltb_ge; qc_lra).
           rewrite H1, H2. by apply assignTrivialTurns_mirrored.
  - destruct (findObviousTurn_lt via X) as [H0|Hlt]; [done|].
    set (o := findObviousTurn via X) in *.
    assert (Hpi : mirror_index (length X) o = (length X - o)%nat).
    { unfold mirror_index. destruct (Nat.eqb_spec o 0); lia. }
    assert (Hpi0 : (mirror_index (length X) o =? 0)%nat = false).
    { rewrite Hpi. apply Nat.eqb_neq. lia. }
    rewrite Hpi0. cbn [negb]. rewrite isThroughStreet_mirror by done. rewrite Hpi.
    rewrite (getInstructionForObvious_mirrored _ _ _ X (length X - o) o) by (done || lia).
    rewrite <- switch_set_instruction by (done || lia).
    finish_sides via.
Qed.

End MirroredComplexHandler.

(** *** Three roads *)

Lemma second_direction_mirror d1 d2 :
  (if DirectionModifier.eqb (mirror_modifier d2) (mirror_modifier d1) &&
      DirectionModifier.eqb (mirror_modifier d2) DirectionModifier.Straight
   then DirectionModifier.SlightRight else mirror_modifier d2) =
  mirror_modifier
    (if DirectionModifier.eqb d1 d2 && DirectionModifier.eqb d2 DirectionModifier.Straight
     then DirectionModifier.SlightLeft else d2).
Proof. by destruct d1, d2. Qed.

Lemma first_direction_mirror d1 d2 :
  (if DirectionModifier.eqb (mirror_modifier d2) (mirror_modifier d1) &&
      DirectionModifier.eqb (mirror_modifier d1) DirectionModifier.Straight
   then DirectionModifier.SlightLeft else mirror_modifier d1) =
  mirror_modifier
    (if DirectionModifier.eqb d1 d2 && DirectionModifier.eqb d1 DirectionModifier.Straight
     then DirectionModifier.SlightRight else d1).
Proof. by destruct d1, d2. Qed.

Lemma allowed_mirror r : entry_allowed (mirror r) = entry_allowed r.
Proof. by destruct (mirror_reads r) as (_ & -> & _). Qed.

Section MirroredThreeWayTurn.
Context `{K : Constants} `{B : IntersectionHandler} {Hblind : Blind} {Hsym : Symmetric}.

Lemma isEndOfRoad_mirrored (X : Intersection) :
  standard X → length X = 3%nat →
  isEndOfRoad (switch_left_and_right X !!! 0%nat) (switch_left_and_right X !!! 1%nat)
              (switch_left_and_right X !!! 2%nat) =
  isEndOfRoad (X !!! 0%nat) (X !!! 1%nat) (X !!! 2%nat).
Proof.
  intros HX Hlen. unfold isEndOfRoad.
  rewrite (read_mirrored X 1 2), (read_mirrored X 2 1) by lia.
  rewrite !mirror_inside by (apply standard_lookup_inside; done || lia). cbn [angle].
  replace (deg 90) with (deg 360 - deg 270) at 1 by by apply Qc_is_canon.
  replace (deg 270) with (deg 360 - deg 90) at 2 by by apply Qc_is_canon.
  rewrite !angularDeviation_mirror.
  rewrite (angularDeviation_sym (angle (X !!! 2%nat)) (angle (X !!! 1%nat))).
  f_equal. apply andb_comm.
Qed.

Lemma getTurnDirection_inside r :
  strictly_inside r →
  getTurnDirection (angle (mirror r)) = mirror_modifier (getTurnDirection (angle r)).
Proof. intros Hr. rewrite mirror_inside by done. apply getTurnDirection_mirror. Qed.

Ltac three_way_stores Hlen :=
  repeat (rewrite switch_set_instruction;
          [|standard_stores|rewrite ?length_set_instruction; lia]);
  rewrite ?length_set_instruction, ?Hlen; cbn [Nat.sub];
  first [reflexivity | apply set_instruction_comm; lia].

Lemma handleThreeWayTurn_mirrored via X :
  narrow_and_group_fit → standard X → unique_straightest X → length X = 3%nat →
  handleThreeWayTurn via (switch_left_and_right X) =
  switch_left_and_right (handleThreeWayTurn via X).
Proof.
  intros Hfit HX Hdistinct Hlen. unfold handleThreeWayTurn. cbn zeta.
  rewrite findObviousTurn_mirror, findFork_mirrored, isEndOfRoad_mirrored by done.
  pose proof (isThroughStreet_mirror 1 X HX ltac:(lia)) as Ht1.
  pose proof (isThroughStreet_mirror 2 X HX ltac:(lia)) as Ht2.
  rewrite Hlen in *. cbn in Ht1, Ht2. rewrite Ht1, Ht2. clear Ht1 Ht2.
  assert (Hfork : ∀ fork, findFork via X = Some fork → fork = Fork.mk 1 2 2).
  { intros [r l sz] Hf.
    destruct (findLeftAndRightmostForkCandidates_bounds X _ Hfit
                (standard_first X HX) (standard_in_range X HX)
                (findFork_candidates via X _ Hf)) as (Hr & Hrl & Hl & Hsz & _).
    cbn [Fork.left Fork.right Fork.size] in *. f_equal; lia. }
  assert (Hin1 : strictly_inside (X !!! 1%nat)) by (apply standard_lookup_inside; done || lia).
  assert (Hin2 : strictly_inside (X !!! 2%nat)) by (apply standard_lookup_inside; done || lia).
  pose proof (findObviousTurn_lt via X) as Ho. rewrite Hlen in Ho.
  destruct (findObviousTurn via X) as [|[|[|o]]]; [| | |lia];
    unfold mirror_index; cbn [Nat.eqb Nat.sub negb];
    rewrite ?andb_true_r, ?andb_false_r;
    (destruct (findFork via X) as [fork|] eqn:Ef;
     [rewrite (Hfork fork eq_refl); cbn [fmap option_fmap option_map mirror_fork Fork.make
        Fork.left Fork.right Nat.sub Nat.add]|cbn [fmap option_fmap option_map]]).
  all: rewrite ?allowed_set_instruction, ?findBasicTurnType_set, ?angle_set_instruction,
         ?getInstructionForObvious_set.
  all: rewrite ?(read_mirrored X 1 2), ?(read_mirrored X 2 1) by lia.
  all: rewrite ?allowed_mirror, ?findBasicTurnType_mirror,
         ?getInstructionForObvious_mirror, ?(getTurnDirection_inside (X !!! 1%nat)),
         ?(getTurnDirection_inside (X !!! 2%nat)) by done.
  all: rewrite ?second_direction_mirror, ?first_direction_mirror.
  - pose proof (assignForkAt_mirrored via X 2 1 HX) as E. rewrite Hlen in E.
    apply E; lia.
  - repeat (rewrite ?allowed_set_instruction, ?findBasicTurnType_set,
              ?(read_mirrored X 1 2), ?(read_mirrored X 2 1),
              ?allowed_mirror, ?findBasicTurnType_mirror by lia;
            match goal with
            | |- context [if ?c then _ else _] =>
                lazymatch c with
                | context [if _ then _ else _] => fail
                | _ => destruct c eqn:?
                end
            end);
      try congruence; three_way_stores Hlen.
  - three_way_stores Hlen.
  - three_way_stores Hlen.
  - three_way_stores Hlen.
  - three_way_stores Hlen.
Qed.
End MirroredThreeWayTurn.

(** *** The classifier *)

(** Mirror symmetry on the rationals: classifying the mirrored intersection
    gives the mirror of the classification,
    [classify v (M i) = M (classify v i)], where [M] mirrors every road and
    reverses the roads behind the road back.  This holds
    when one road that allows entry is straighter than every other (of two
    equally straight ones the first in the order of the intersection is taken,
    on either side of the mirror), for an intersection whose road back is at
    angle 0 and whose other roads are strictly inside the circle, for oracles
    that treat left and right alike and do not read instructions, and for
    constants with [NARROW_TURN_ANGLE + GROUP_ANGLE < 180] and
    [FUZZY_ANGLE_DIFFERENCE <= 180]. *)
Lemma classify_mirror_exact `{K : Constants} `{B : IntersectionHandler}
    {Hblind : Blind} {Hsym : Symmetric} (via : EdgeID) (X : Intersection) :
  narrow_and_group_fit → fuzzy_fits → standard X → unique_straightest X →
  classify via (switch_left_and_right X) = switch_left_and_right (classify via X).
Proof.
  intros Hfit Hfuzzy HX Hdistinct. unfold classify, handleOneWayTurn.
  rewrite length_switch_left_and_right.
  destruct (Nat.eqb_spec (length X) 1) as [H1|H1]; [done|].
  rewrite lookup_mirrored_zero by done.
  set (X0 := if entry_allowed (X !!! 0%nat)
             then set_instruction X 0
                    (mkTurnInstruction (findBasicTurnType via (X !!! 0%nat))
                                       DirectionModifier.UTurn)
             else X).
  assert (E0 : erase <$> X0 = erase <$> X).
  { unfold X0. destruct (entry_allowed _); [apply erase_set_instruction|done]. }
  assert (HX0 : standard X0) by (by apply (standard_erase_eq X); [symmetry|]).
  assert (Hd0 : unique_straightest X0)
    by (by apply (unique_straightest_erase_eq X); [symmetry|]).
  assert (Hlen0 : length X0 = length X) by by apply erase_eq_length.
  assert (EM : (if entry_allowed (X !!! 0%nat)
                then set_instruction (switch_left_and_right X) 0
                       (mkTurnInstruction (findBasicTurnType via (X !!! 0%nat))
                                          DirectionModifier.UTurn)
                else switch_left_and_right X) = switch_left_and_right X0).
  { unfold X0. destruct (entry_allowed _); [|done].
    by rewrite switch_set_instruction_zero. }
  rewrite EM, length_switch_left_and_right, Hlen0.
  destruct (Nat.eqb_spec (length X) 2) as [H2|H2].
  { apply handleTwoWayTurn_mirrored; [done|lia]. }
  destruct (Nat.eqb_spec (length X) 3) as [H3|H3].
  { apply handleThreeWayTurn_mirrored; [done..|lia]. }
  by apply handleComplexTurn_mirrored.
Qed.

(** *** The example handler treats left and right alike *)

Ltac decide_comparisons :=
  repeat match goal with
  | |- context [Qcltb ?x ?y] =>
      first [ replace (Qcltb x y) with true by (symmetry; apply Qcltb_lt; qc_lra)
            | replace (Qcltb x y) with false by (symmetry; apply Qcltb_ge; qc_lra) ]
  | |- context [Qcleb ?x ?y] =>
      first [ replace (Qcleb x y) with true by (symmetry; apply Qcleb_le; qc_lra)
            | replace (Qcleb x y) with false by (symmetry; apply Qcleb_gt; qc_lra) ]
  end.

Lemma example_getTurnDirection_mirror (a : Qc) :
  example_getTurnDirection (deg 360 - a) = mirror_modifier (example_getTurnDirection a).
Proof.
  unfold example_getTurnDirection.
  destruct (a <=? 0) eqn:H0; [apply Qcleb_le in H0|apply Qcleb_gt in H0].
  { decide_comparisons. reflexivity. }
  destruct (a <? deg 60) eqn:H1; [apply Qcltb_lt in H1|apply Qcltb_ge in H1].
  { decide_comparisons. reflexivity. }
  destruct (a <? deg 140) eqn:H2; [apply Qcltb_lt in H2|apply Qcltb_ge in H2].
  { decide_comparisons. reflexivity. }
  destruct (a <? deg 160) eqn:H3; [apply Qcltb_lt in H3|apply Qcltb_ge in H3].
  { decide_comparisons. reflexivity. }
  destruct (a <=? deg 200) eqn:H4; [apply Qcleb_le in H4|apply Qcleb_gt in H4].
  { decide_comparisons. reflexivity. }
  destruct (a <=? deg 220) eqn:H5; [apply Qcleb_le in H5|apply Qcleb_gt in H5].
  { decide_comparisons. reflexivity. }
  destruct (a <=? deg 300) eqn:H6; [apply Qcleb_le in H6|apply Qcleb_gt in H6].
  { decide_comparisons. reflexivity. }
  destruct (a <? deg 360) eqn:H7; [apply Qcltb_lt in H7|apply Qcltb_ge in H7].
  { decide_comparisons. reflexivity. }
  decide_comparisons. reflexivity.
Qed.

Lemma example_handler_symmetric edge_data obvious :
  (∀ X : Intersection, obvious X = 0%nat) →
  @Symmetric (example_handler edge_data obvious).
Proof.
  intros Hobvious. split; cbn.
  - apply example_getTurnDirection_mirror.
  - done.
  - intros _ X _. by rewrite !Hobvious.
  - intros _ X. left. apply Hobvious.
  - intros _ _ _ r Hr. rewrite mirror_inside by done. cbn [angle].
    by rewrite example_getTurnDirection_mirror.
  - done.
  - done.
  - done.
  - intros a b. unfold example_canBeSeenAsFork. apply andb_comm.
  - intros a b. unfold example_canBeSeenAsFork. intros Hf E. rewrite E in Hf.
    rewrite Nat.sub_diag in Hf. done.
Qed.

Lemma plain_handler_symmetric : @Symmetric plain_handler.
Proof. by apply example_handler_symmetric. Qed.

(** A crossing whose roads are all open and of which the road at 170 degrees
    is the straightest. *)
Definition skew_crossing : Intersection :=
  [road 0 0 true; road 1 80 true; road 2 170 true; road 3 260 true].

Lemma example_constants_fuzzy : @fuzzy_fits example_constants.
Proof. by vm_compute. Qed.

Lemma skew_crossing_standard : standard skew_crossing.
Proof.
  split; [by apply Qc_is_canon|].
  repeat (apply List.Forall_cons; [split; by vm_compute|]). apply List.Forall_nil.
Qed.

Lemma skew_crossing_unique_straightest : unique_straightest skew_crossing.
Proof.
  intros i j Hi Hj _ _ _ Hdev. cbn [length skew_crossing] in Hi, Hj.
  destruct i as [|[|[|[|i]]]]; try lia;
    destruct j as [|[|[|[|j]]]]; try lia; try reflexivity;
    apply (f_equal this) in Hdev; vm_compute in Hdev; discriminate.
Qed.

(** * More of the code

    ** The intersection (intersection.cpp) *)

(** [std::min_element] with the comparison [less]: the position of the first
    of the smallest elements, and the end of the range (its length) when the
    range is empty. *)
Definition min_element {A} `{Inhabited A} (less : A → A → bool) (l : list A) : nat :=
  fold_left
    (λ (smallest i : nat), if less (l !!! i) (l !!! smallest) then i else smallest)
    (seq 1 (length l - 1))
    0%nat.

(** [Intersection::findClosestTurn] (the two overloads return the same
    position). *)
Definition findClosestTurn (intersection : Intersection) (angle' : Qc) : nat :=
  min_element
    (λ lhs rhs, angularDeviation (angle lhs) angle' <? angularDeviation (angle rhs) angle')
    intersection.

(** [Intersection::getHighestConnectedLaneCount], over the lane counts
    [GetNumberOfLanes] of the road classes: [find_if] with a predicate that is
    never true visits every road. *)
Definition getHighestConnectedLaneCount `{B : IntersectionHandler}
    (GetNumberOfLanes : RoadClassification → nat) (intersection : Intersection) : nat :=
  fold_left
    (λ (max_lanes : nat) (road : ConnectedRoad),
       Nat.max max_lanes
         (GetNumberOfLanes (road_classification (GetEdgeData (eid road)))))
    intersection
    0%nat.

(** X1. [compareByAngle] is a strict weak ordering, as [std::is_sorted] and
    [std::sort] require of their comparison: no road is before itself, the
    order is transitive, and so is being at the same angle. *)
Theorem compareByAngle_strict_weak_order :
  (∀ r, compareByAngle r r = false) ∧
  (∀ a b c, compareByAngle a b = true → compareByAngle b c = true →
            compareByAngle a c = true) ∧
  (∀ a b c, compareByAngle a b = false → compareByAngle b a = false →
            compareByAngle b c = false → compareByAngle c b = false →
            compareByAngle a c = false ∧ compareByAngle c a = false).
Proof.
  unfold compareByAngle. split; [|split].
  - intros r. apply Qcltb_ge, Qcle_refl.
  - intros a b c Hab%Qcltb_lt Hbc%Qcltb_lt. apply Qcltb_lt. by eapply Qclt_trans.
  - intros a b c Hab%Qcltb_ge Hba%Qcltb_ge Hbc%Qcltb_ge Hcb%Qcltb_ge.
    split; apply Qcltb_ge; qc_lra.
Qed.

Lemma is_sorted_compareByAngle (l : list ConnectedRoad) :
  is_sorted compareByAngle l = true ↔
  ∀ i j x y, (i ≤ j)%nat → l !! i = Some x → l !! j = Some y → angle x ≤ angle y.
Proof.
  induction l as [|x [|y l] IH].
  - split; [|done]. intros _ i j x y _ Hx. done.
  - split; [|done]. intros _ [|i] [|j] x' y' _ Hx Hy; try done.
    cbn in Hx, Hy. injection Hx as <-. injection Hy as <-. apply Qcle_refl.
  - change (is_sorted compareByAngle (x :: y :: l)) with
      (negb (compareByAngle y x) && is_sorted compareByAngle (y :: l)).
    rewrite andb_true_iff, negb_true_iff, IH. unfold compareByAngle. rewrite Qcltb_ge.
    split.
    + intros [Hxy Hrest] i j x' y' Hij Hx Hy.
      destruct i as [|i].
      * cbn in Hx. injection Hx as <-. destruct j as [|j].
        -- cbn in Hy. injection Hy as <-. apply Qcle_refl.
        -- cbn in Hy. eapply Qcle_trans; [exact Hxy|].
           apply (Hrest 0%nat j y y'); [lia|done|done].
      * destruct j as [|j]; [lia|]. cbn in Hx, Hy.
        apply (Hrest i j x' y'); [lia|done|done].
    + intros H. split.
      * apply (H 0%nat 1%nat x y); [lia|done|done].
      * intros i j x' y' Hij Hx Hy. apply (H (S i) (S j) x' y'); [lia|done|done].
Qed.

(** X2. What [valid] says of an intersection: it has a road, the angles do
    not decrease along it, and the first road is less than [epsilon] away from
    angle 0. *)
Theorem valid_sorted (X : Intersection) :
  valid X = true ↔
  X ≠ [] ∧
  (∀ i j, (i ≤ j < length X)%nat → angle (X !!! i) ≤ angle (X !!! j)) ∧
  angle (X !!! 0%nat) < epsilon.
Proof.
  unfold valid.
  rewrite !andb_true_iff, negb_true_iff, bool_decide_eq_false, Qcltb_lt,
    is_sorted_compareByAngle.
  split.
  - intros [[Hne Hs] H0]. split; [done|]. split; [|done].
    intros i j Hij.
    destruct (lookup_lt_is_Some_2 X i) as [x Hx]; [lia|].
    destruct (lookup_lt_is_Some_2 X j) as [y Hy]; [lia|].
    rewrite (list_lookup_total_correct _ _ _ Hx), (list_lookup_total_correct _ _ _ Hy).
    apply (Hs i j); [lia|done|done].
  - intros (Hne & Hs & H0). split; [split; [done|]|done].
    intros i j x y Hij Hx Hy.
    pose proof (lookup_lt_Some _ _ _ Hy) as Hj.
    rewrite <- (list_lookup_total_correct _ _ _ Hx), <- (list_lookup_total_correct _ _ _ Hy).
    apply Hs. lia.
Qed.

(** X3. [hasValidEntries(first, last)], for [last] a position of the
    intersection: it holds exactly when every road from [first] to [last], both
    included, allows entry; so it holds of an empty range ([last < first]), and a
    range can be checked in two parts. *)
Theorem hasValidEntries_range (X : Intersection) (first last : nat) :
  (last < length X)%nat →
  (hasValidEntries X first last = true ↔
   ∀ i, (first ≤ i ≤ last)%nat → entry_allowed (X !!! i) = true) ∧
  ((last < first)%nat → hasValidEntries X first last = true) ∧
  (∀ middle, (first ≤ middle ≤ last)%nat →
     hasValidEntries X first last =
     hasValidEntries X first middle && hasValidEntries X (S middle) last).
Proof.
  intros _. unfold hasValidEntries. split; [|split].
  - rewrite forallb_seq_iff. split; intros H i Hi; apply H; lia.
  - intros Hlt. by replace (S last - first)%nat with 0%nat by lia.
  - intros middle Hm. apply eq_true_iff_eq.
    rewrite andb_true_iff, !forallb_seq_iff. split.
    + intros H. split; intros i Hi; apply H; lia.
    + intros [H1 H2] i Hi. destruct (decide (i ≤ middle)%nat); [apply H1|apply H2]; lia.
Qed.

Lemma hasValidEntries_range_witness :
  (hasValidEntries closed_straight_crossing 1 2 = true ↔
   ∀ i, (1 ≤ i ≤ 2)%nat → entry_allowed (closed_straight_crossing !!! i) = true) ∧
  ((2 < 1)%nat → hasValidEntries closed_straight_crossing 1 2 = true) ∧
  (∀ middle, (1 ≤ middle ≤ 2)%nat →
     hasValidEntries closed_straight_crossing 1 2 =
     hasValidEntries closed_straight_crossing 1 middle &&
     hasValidEntries closed_straight_crossing (S middle) 2).
Proof. apply (hasValidEntries_range closed_straight_crossing 1 2). cbn. lia. Defined.

(** X5. Which roads [mirror] turns over.  A road whose angle is within
    [epsilon] of the way back, from either side (at most [epsilon], or at least
    [360 - epsilon]), is returned as it is, modifier included; every other road
    of the data model gets the angle [360 - angle] and the mirrored
    modifier. *)
Theorem mirror_near_road_back (r : ConnectedRoad) :
  0 ≤ angle r → angle r ≤ deg 360 →
  (angle r ≤ epsilon ∨ deg 360 - epsilon ≤ angle r → mirror r = r) ∧
  (epsilon < angle r ∧ angle r < deg 360 - epsilon →
   angle (mirror r) = deg 360 - angle r ∧
   direction_modifier (instruction (mirror r)) =
   mirror_modifier (direction_modifier (instruction r))).
Proof.
  intros Hlo Hhi. split.
  - intros Hnear. unfold mirror.
    assert (Hdev : (angularDeviation (angle r) 0 >? epsilon) = false).
    { apply Qcltb_ge. rewrite angularDeviation_zero by done.
      destruct Hnear; qc_split; qc_lra. }
    by rewrite Hdev.
  - intros Hin. by rewrite (mirror_inside r Hin).
Qed.

Lemma mirror_near_road_back_witness :
  (angle (road 1 100 true) ≤ epsilon ∨ deg 360 - epsilon ≤ angle (road 1 100 true) →
   mirror (road 1 100 true) = road 1 100 true) ∧
  (epsilon < angle (road 1 100 true) ∧ angle (road 1 100 true) < deg 360 - epsilon →
   angle (mirror (road 1 100 true)) = deg 360 - angle (road 1 100 true) ∧
   direction_modifier (instruction (mirror (road 1 100 true))) =
   mirror_modifier (direction_modifier (instruction (road 1 100 true)))).
Proof. apply (mirror_near_road_back (road 1 100 true)); by vm_compute. Defined.

Lemma findClosestTurn_scan (X : Intersection) (a : Qc) (m : nat) :
  let dev (i : nat) := angularDeviation (angle (X !!! i)) a in
  let k :=
    fold_left
      (λ (smallest i : nat),
         if angularDeviation (angle (X !!! i)) a <?
            angularDeviation (angle (X !!! smallest)) a
         then i else smallest)
      (seq 1 m) 0%nat in
  (k < 1 + m)%nat ∧
  (∀ j, (j < 1 + m)%nat → dev k ≤ dev j) ∧
  (∀ j, (j < k)%nat → dev k < dev j).
Proof.
  cbn zeta. induction m as [|m IH].
  - cbn. split; [lia|]. split; [|intros j Hj; lia].
    intros j Hj. replace j with 0%nat by lia. apply Qcle_refl.
  - rewrite seq_S, fold_left_app. cbn [fold_left].
    set (k := fold_left _ (seq 1 m) 0%nat) in *.
    destruct IH as (Hk & Hmin & Hfirst).
    destruct (_ <? _) eqn:Hlt.
    + apply Qcltb_lt in Hlt. split; [lia|]. split.
      * intros j Hj. destruct (decide (j = (1 + m)%nat)) as [->|Hne]; [apply Qcle_refl|].
        specialize (Hmin j ltac:(lia)). qc_lra.
      * intros j Hj. specialize (Hmin j ltac:(lia)). qc_lra.
    + apply Qcltb_ge in Hlt. split; [lia|]. split; [|done].
      intros j Hj. destruct (decide (j = (1 + m)%nat)) as [->|Hne]; [done|].
      apply Hmin. lia.
Qed.

(** X6. [findClosestTurn(angle)] returns the end of an empty intersection;
    otherwise a road of the intersection such that no road deviates less from
    [angle], and the first such road: every road before it deviates more. *)
Theorem findClosestTurn_closest (X : Intersection) (a : Qc) :
  (X = [] → findClosestTurn X a = length X) ∧
  (X ≠ [] →
   (findClosestTurn X a < length X)%nat ∧
   (∀ j, (j < length X)%nat →
      angularDeviation (angle (X !!! findClosestTurn X a)) a ≤
      angularDeviation (angle (X !!! j)) a) ∧
   (∀ j, (j < findClosestTurn X a)%nat →
      angularDeviation (angle (X !!! findClosestTurn X a)) a <
      angularDeviation (angle (X !!! j)) a)).
Proof.
  split; [by intros ->|]. intros Hne.
  pose proof (findClosestTurn_scan X a (length X - 1)) as H. cbn zeta in H.
  replace (1 + (length X - 1))%nat with (length X) in H by (destruct X; [done|cbn; lia]).
  exact H.
Qed.

Lemma straightest_scan (X : Intersection) (l : list nat) (s : nat)
    (st : StraightestTurnAtIntersection) :
  Forall (λ i, entry_allowed (X !!! i) = true) l →
  id st = s →
  deviation_from_straight st = angularDeviation (angle (X !!! s)) STRAIGHT_ANGLE →
  let st' :=
    fold_left
      (λ (st : StraightestTurnAtIntersection) (i : nat),
         let deviation := angularDeviation (angle (X !!! i)) STRAIGHT_ANGLE in
         if entry_allowed (X !!! i) && (deviation <? deviation_from_straight st)
         then mkStraightestTurnAtIntersection i deviation
         else st)
      l st in
  let k :=
    fold_left
      (λ (smallest i : nat),
         if angularDeviation (angle (X !!! i)) STRAIGHT_ANGLE <?
            angularDeviation (angle (X !!! smallest)) STRAIGHT_ANGLE
         then i else smallest)
      l s in
  id st' = k ∧
  deviation_from_straight st' = angularDeviation (angle (X !!! k)) STRAIGHT_ANGLE.
Proof.
  cbn zeta. intros Hl. revert s st.
  induction Hl as [|i l Hi _ IH]; intros s st Hid Hdev; cbn [fold_left]; [by split|].
  rewrite Hi, Hdev. cbn [andb]. destruct (_ <? _); by apply IH.
Qed.

(** X7. Where every road but the road back allows entry and the road back is
    180 degrees from straight, the straightest road of [findClosestToStraight]
    is the road that [findClosestTurn] finds for the angle 180. *)
Theorem findClosestTurn_straightest (X : Intersection) :
  angularDeviation (angle (X !!! 0%nat)) STRAIGHT_ANGLE = deg 180 →
  (∀ i, (1 ≤ i < length X)%nat → entry_allowed (X !!! i) = true) →
  id (findClosestToStraight X) = findClosestTurn X STRAIGHT_ANGLE ∧
  deviation_from_straight (findClosestToStraight X) =
  angularDeviation (angle (X !!! findClosestTurn X STRAIGHT_ANGLE)) STRAIGHT_ANGLE.
Proof.
  intros H0 Hall. unfold findClosestToStraight, findClosestTurn, min_element.
  apply straightest_scan; [|done|by rewrite H0].
  apply Forall_forall. intros i Hi%in_seq. apply Hall. lia.
Qed.

Lemma findClosestTurn_straightest_witness :
  id (findClosestToStraight skew_crossing) = findClosestTurn skew_crossing STRAIGHT_ANGLE ∧
  deviation_from_straight (findClosestToStraight skew_crossing) =
  angularDeviation (angle (skew_crossing !!! findClosestTurn skew_crossing STRAIGHT_ANGLE))
                   STRAIGHT_ANGLE.
Proof.
  apply (findClosestTurn_straightest skew_crossing).
  - by apply Qc_is_canon.
  - intros i Hi. cbn [length skew_crossing] in Hi.
    destruct i as [|[|[|[|i]]]]; try lia; reflexivity.
Defined.

Lemma highest_lane_count_scan (lanes : ConnectedRoad → nat) (l : list ConnectedRoad) (m : nat) :
  let result := fold_left (λ max_lanes road, Nat.max max_lanes (lanes road)) l m in
  (m ≤ result)%nat ∧
  (∀ r, r ∈ l → (lanes r ≤ result)%nat) ∧
  (result = m ∨ ∃ r, r ∈ l ∧ lanes r = result).
Proof.
  cbn zeta. revert m. induction l as [|x l IH]; intros m; cbn [fold_left].
  - split; [lia|]. split; [|by left]. intros r Hr. by apply elem_of_nil in Hr.
  - destruct (IH (Nat.max m (lanes x))) as (Hm & Hall & Hsome). split; [lia|]. split.
    + intros r [->|Hr]%elem_of_cons; [lia|by apply Hall].
    + destruct Hsome as [E|(r & Hr & E)].
      * destruct (Nat.max_spec m (lanes x)) as [[_ Hmax]|[_ Hmax]].
        -- right. exists x. split; [apply elem_of_cons; by left|]. by rewrite E, Hmax.
        -- left. by rewrite E, Hmax.
      * right. exists r. split; [apply elem_of_cons; by right|done].
Qed.

(** X8. [getHighestConnectedLaneCount]: no road of the intersection has more
    lanes than the count returned, and some road of a non-empty intersection
    has exactly that many. *)
Theorem getHighestConnectedLaneCount_max `{B : IntersectionHandler}
    (GetNumberOfLanes : RoadClassification → nat) (X : Intersection) :
  X ≠ [] →
  (∀ r, r ∈ X →
     (GetNumberOfLanes (road_classification (GetEdgeData (eid r))) ≤
      getHighestConnectedLaneCount GetNumberOfLanes X)%nat) ∧
  (∃ r, r ∈ X ∧
     GetNumberOfLanes (road_classification (GetEdgeData (eid r))) =
     getHighestConnectedLaneCount GetNumberOfLanes X).
Proof.
  intros Hne. unfold getHighestConnectedLaneCount.
  destruct (highest_lane_count_scan
              (λ r, GetNumberOfLanes (road_classification (GetEdgeData (eid r)))) X 0)
    as (_ & Hall & Hsome).
  split; [done|]. destruct Hsome as [E|Hsome]; [|done].
  destruct X as [|x X]; [done|]. exists x. split; [apply elem_of_cons; by left|].
  specialize (Hall x ltac:(apply elem_of_cons; by left)). cbn in *. lia.
Qed.

Lemma getHighestConnectedLaneCount_max_witness :
  (∀ r, r ∈ narrow_fork →
     (GetPriority (road_classification (@GetEdgeData plain_handler (eid r))) ≤
      getHighestConnectedLaneCount (B:=plain_handler) GetPriority narrow_fork)%nat) ∧
  (∃ r, r ∈ narrow_fork ∧
     GetPriority (road_classification (@GetEdgeData plain_handler (eid r))) =
     getHighestConnectedLaneCount (B:=plain_handler) GetPriority narrow_fork).
Proof. by apply (getHighestConnectedLaneCount_max (B:=plain_handler) GetPriority narrow_fork). Defined.

(** ** The turn handler (turn_handler.cpp) *)

(** X10. [switch_left_and_right] hands a valid intersection to
    [assignRightTurns]: where the road back is at angle 0 and the other roads
    lie strictly inside the circle, the mirrored and reversed intersection of a
    valid intersection is valid again. *)
Theorem switch_left_and_right_valid (X : Intersection) :
  valid X = true → standard X → valid (switch_left_and_right X) = true.
Proof.
  intros Hvalid HX. unfold valid in *.
  apply andb_true_iff in Hvalid as [[Hne Hsorted]%andb_true_iff H0].
  rewrite is_sorted_compareByAngle in Hsorted.
  pose proof (standard_nonempty X HX) as Hlen.
  apply andb_true_iff. split; [apply andb_true_iff; split|].
  - apply negb_true_iff, bool_decide_eq_false. intros E%(f_equal length).
    rewrite length_switch_left_and_right in E. cbn in E. lia.
  - apply is_sorted_compareByAngle. intros i j x y Hij Hx Hy.
    pose proof (lookup_lt_Some _ _ _ Hx) as Hi. pose proof (lookup_lt_Some _ _ _ Hy) as Hj.
    rewrite length_switch_left_and_right in Hi, Hj.
    rewrite <- (list_lookup_total_correct _ _ _ Hx), <- (list_lookup_total_correct _ _ _ Hy).
    rewrite !lookup_switch_left_and_right by done. unfold mirror_index.
    destruct (Nat.eqb_spec i 0) as [->|Hi0].
    + rewrite (mirror_zero (X !!! 0%nat)) by by apply standard_lookup_zero.
      rewrite standard_lookup_zero by done.
      apply (standard_road_range (mirror _)), standard_road_mirror, standard_lookup; [done|].
      destruct (Nat.eqb_spec j 0); lia.
    + destruct (Nat.eqb_spec j 0) as [->|Hj0]; [lia|].
      rewrite !mirror_inside by (apply standard_lookup_inside; [done|lia]). cbn [angle].
      assert (Hle : angle (X !!! (length X - j)%nat) ≤ angle (X !!! (length X - i)%nat)).
      { destruct (lookup_lt_is_Some_2 X (length X - j)) as [a Ha]; [lia|].
        destruct (lookup_lt_is_Some_2 X (length X - i)) as [b Hb]; [lia|].
        rewrite (list_lookup_total_correct _ _ _ Ha), (list_lookup_total_correct _ _ _ Hb).
        apply (Hsorted (length X - j)%nat (length X - i)%nat); [lia|done|done]. }
      qc_lra.
  - rewrite lookup_mirrored_zero by done. apply Qcltb_lt. by apply standard_first.
Qed.

Lemma switch_left_and_right_valid_witness :
  valid (switch_left_and_right skew_crossing) = true.
Proof.
  apply (switch_left_and_right_valid skew_crossing);
    [by vm_compute|exact skew_crossing_standard].
Defined.

(** A second road at the angle of the road back is not mirrored, and the
    reversal puts it behind the mirrored roads: the result is not sorted. *)
Lemma switch_left_and_right_unsorted :
  valid [road 0 0 true; road 1 0 true; road 2 100 true] = true ∧
  valid (switch_left_and_right [road 0 0 true; road 1 0 true; road 2 100 true]) = false.
Proof. split; by vm_compute. Qed.

Lemma findClosestToStraight_scan (X : Intersection) (m : nat) :
  let st :=
    fold_left
      (λ (st : StraightestTurnAtIntersection) (i : nat),
         let deviation := angularDeviation (angle (X !!! i)) STRAIGHT_ANGLE in
         if entry_allowed (X !!! i) && (deviation <? deviation_from_straight st)
         then mkStraightestTurnAtIntersection i deviation
         else st)
      (seq 1 m) (mkStraightestTurnAtIntersection 0 (deg 180)) in
  (id st = 0%nat ∧ deviation_from_straight st = deg 180 ∧
   ∀ i, (1 ≤ i < 1 + m)%nat → entry_allowed (X !!! i) = true →
        deg 180 ≤ straightness X i) ∨
  ((1 ≤ id st < 1 + m)%nat ∧ entry_allowed (X !!! id st) = true ∧
   deviation_from_straight st = straightness X (id st) ∧
   deviation_from_straight st < deg 180 ∧
   ∀ i, (1 ≤ i < 1 + m)%nat → entry_allowed (X !!! i) = true →
        deviation_from_straight st ≤ straightness X i ∧
        ((i < id st)%nat → deviation_from_straight st < straightness X i)).
Proof.
  cbn zeta. induction m as [|m IH].
  - left. cbn. split; [done|]. split; [done|]. intros i Hi. lia.
  - rewrite seq_S, fold_left_app. cbn [fold_left].
    set (st := fold_left _ (seq 1 m) _) in *.
    fold (straightness X (1 + m)).
    destruct (entry_allowed (X !!! (1 + m)%nat)) eqn:Ha; cbn [andb];
      [destruct (straightness X (1 + m) <? deviation_from_straight st) eqn:Hlt|].
    + apply Qcltb_lt in Hlt. right. cbn [id deviation_from_straight].
      split; [lia|]. split; [done|]. split; [done|].
      destruct IH as [(H0 & Hd & Hall)|(Hid & Hal & Hd & Hlt' & Hall)].
      * split; [by rewrite <- Hd|]. intros i Hi Hai.
        destruct (decide (i = (1 + m)%nat)) as [->|Hne]; [split; [apply Qcle_refl|lia]|].
        specialize (Hall i ltac:(lia) Hai). rewrite Hd in Hlt. split; [|intros _]; qc_lra.
      * split; [qc_lra|]. intros i Hi Hai.
        destruct (decide (i = (1 + m)%nat)) as [->|Hne]; [split; [apply Qcle_refl|lia]|].
        destruct (Hall i ltac:(lia) Hai) as [Hle _]. split; [|intros _]; qc_lra.
    + apply Qcltb_ge in Hlt.
      destruct IH as [(H0 & Hd & Hall)|(Hid & Hal & Hd & Hlt' & Hall)].
      * left. split; [done|]. split; [done|]. intros i Hi Hai.
        destruct (decide (i = (1 + m)%nat)) as [->|Hne]; [by rewrite <- Hd|].
        apply Hall; [lia|done].
      * right. split; [lia|]. split; [done|]. split; [done|]. split; [done|].
        intros i Hi Hai.
        destruct (decide (i = (1 + m)%nat)) as [->|Hne]; [split; [done|lia]|].
        apply Hall; [lia|done].
    + destruct IH as [(H0 & Hd & Hall)|(Hid & Hal & Hd & Hlt' & Hall)].
      * left. split; [done|]. split; [done|]. intros i Hi Hai.
        destruct (decide (i = (1 + m)%nat)) as [->|Hne]; [congruence|].
        apply Hall; [lia|done].
      * right. split; [lia|]. split; [done|]. split; [done|]. split; [done|].
        intros i Hi Hai.
        destruct (decide (i = (1 + m)%nat)) as [->|Hne]; [congruence|].
        apply Hall; [lia|done].
Qed.

(** X11. What [findClosestToStraight] returns.  Either no road behind the
    road back that allows entry is less than 180 degrees from straight, and the
    result is position 0 with the deviation 180; or the result is a road behind
    the road back that allows entry, with its deviation from straight, which is
    less than 180, at most the deviation of every road that allows entry, and
    less than the deviation of every such road before it (of equally straight
    roads the first is taken).  A road that does not allow entry is never
    returned, however straight. *)
Theorem findClosestToStraight_straightest (X : Intersection) :
  (id (findClosestToStraight X) = 0%nat ∧
   deviation_from_straight (findClosestToStraight X) = deg 180 ∧
   ∀ i, (1 ≤ i < length X)%nat → entry_allowed (X !!! i) = true →
        deg 180 ≤ angularDeviation (angle (X !!! i)) STRAIGHT_ANGLE) ∨
  ((1 ≤ id (findClosestToStraight X) < length X)%nat ∧
   entry_allowed (X !!! id (findClosestToStraight X)) = true ∧
   deviation_from_straight (findClosestToStraight X) =
     angularDeviation (angle (X !!! id (findClosestToStraight X))) STRAIGHT_ANGLE ∧
   deviation_from_straight (findClosestToStraight X) < deg 180 ∧
   ∀ i, (1 ≤ i < length X)%nat → entry_allowed (X !!! i) = true →
        deviation_from_straight (findClosestToStraight X) ≤
          angularDeviation (angle (X !!! i)) STRAIGHT_ANGLE ∧
        ((i < id (findClosestToStraight X))%nat →
         deviation_from_straight (findClosestToStraight X) <
           angularDeviation (angle (X !!! i)) STRAIGHT_ANGLE)).
Proof.
  pose proof (findClosestToStraight_scan X (length X - 1)) as H. cbn zeta in H.
  unfold findClosestToStraight. unfold straightness in H.
  destruct (decide (length X = 0)%nat) as [H0|H0].
  - rewrite H0 in *. cbn [Nat.sub seq fold_left] in *. left. cbn.
    split; [done|]. split; [done|]. intros i Hi. lia.
  - by replace (1 + (length X - 1))%nat with (length X) in H by lia.
Qed.

Lemma adjacent_find_first {A} (p : A → A → bool) (l : list A) (k : nat) :
  adjacent_find p l = Some k →
  (∃ x y, l !! k = Some x ∧ l !! S k = Some y ∧ p x y = true) ∧
  ∀ j x y, (j < k)%nat → l !! j = Some x → l !! S j = Some y → p x y = false.
Proof.
  revert k. induction l as [|a [|b l] IH]; intros k; [done..|].
  rewrite adjacent_find_cons. destruct (p a b) eqn:Hp.
  - intros [= <-]. split; [by exists a, b|]. intros j x y Hj. lia.
  - destruct (adjacent_find p (b :: l)) as [k'|] eqn:Hk; [|done].
    intros [= <-]. destruct (IH k' eq_refl) as [(x & y & Hx & Hy & Hxy) Hbefore].
    split; [by exists x, y|].
    intros [|j] x' y' Hj Hx' Hy'.
    + cbn in Hx', Hy'. by injection Hx' as <-; injection Hy' as <-.
    + apply (Hbefore j x' y'); [lia|done|done].
Qed.

(** X12. [findOutermostForkCandidate] on a range with a road returns a road
    of the range, the first whose successor [isOutermostForkCandidate] sets
    apart from it; where no road is set apart from its successor it returns the
    last road of the range. *)
Theorem findOutermostForkCandidate_first `{K : Constants} (range : list ConnectedRoad) :
  range ≠ [] →
  (findOutermostForkCandidate range < length range)%nat ∧
  (∀ j, (j < findOutermostForkCandidate range)%nat →
     isOutermostForkCandidate (range !!! j) (range !!! S j) = false) ∧
  ((S (findOutermostForkCandidate range) < length range)%nat →
   isOutermostForkCandidate (range !!! findOutermostForkCandidate range)
                            (range !!! S (findOutermostForkCandidate range)) = true).
Proof.
  intros Hne. assert (Hlen : (0 < length range)%nat) by (destruct range; [done|cbn; lia]).
  unfold findOutermostForkCandidate.
  destruct (adjacent_find isOutermostForkCandidate range) as [k|] eqn:Hk.
  - pose proof (adjacent_find_Some_lt _ _ _ Hk) as Hlt.
    destruct (adjacent_find_first _ _ _ Hk) as [(x & y & Hx & Hy & Hxy) Hbefore].
    split; [lia|]. split.
    + intros j Hj.
      destruct (lookup_lt_is_Some_2 range j) as [a Ha]; [lia|].
      destruct (lookup_lt_is_Some_2 range (S j)) as [b Hb]; [lia|].
      rewrite (list_lookup_total_correct _ _ _ Ha), (list_lookup_total_correct _ _ _ Hb).
      by apply (Hbefore j).
    + intros _.
      by rewrite (list_lookup_total_correct _ _ _ Hx), (list_lookup_total_correct _ _ _ Hy).
  - split; [lia|]. split; [|lia].
    intros j Hj.
    destruct (lookup_lt_is_Some_2 range j) as [a Ha]; [lia|].
    destruct (lookup_lt_is_Some_2 range (S j)) as [b Hb]; [lia|].
    rewrite (list_lookup_total_correct _ _ _ Ha), (list_lookup_total_correct _ _ _ Hb).
    by apply (adjacent_find_None _ _ j a b Hk).
Qed.

Lemma findOutermostForkCandidate_first_witness :
  (findOutermostForkCandidate (K:=example_constants) narrow_fork < length narrow_fork)%nat ∧
  (∀ j, (j < findOutermostForkCandidate (K:=example_constants) narrow_fork)%nat →
     isOutermostForkCandidate (K:=example_constants)
       (narrow_fork !!! j) (narrow_fork !!! S j) = false) ∧
  ((S (findOutermostForkCandidate (K:=example_constants) narrow_fork) <
    length narrow_fork)%nat →
   isOutermostForkCandidate (K:=example_constants)
     (narrow_fork !!! findOutermostForkCandidate (K:=example_constants) narrow_fork)
     (narrow_fork !!! S (findOutermostForkCandidate (K:=example_constants) narrow_fork)) =
   true).
Proof. by apply (findOutermostForkCandidate_first (K:=example_constants) narrow_fork). Defined.

(** X13. [handleDistinctConflict] never writes to a road that does not allow
    entry: such a road is returned as it is, and the other road, when it allows
    entry, gets its basic turn type and the direction of its angle. *)
Theorem handleDistinctConflict_closed_road `{K : Constants} `{B : IntersectionHandler}
    (via : EdgeID) (left' right' : ConnectedRoad) :
  (entry_allowed left' = false →
   (handleDistinctConflict via left' right').1 = left' ∧
   (entry_allowed right' = true →
    (handleDistinctConflict via left' right').2 =
    with_instruction
      (mkTurnInstruction (findBasicTurnType via right') (getTurnDirection (angle right')))
      right')) ∧
  (entry_allowed right' = false →
   (handleDistinctConflict via left' right').2 = right' ∧
   (entry_allowed left' = true →
    (handleDistinctConflict via left' right').1 =
    with_instruction
      (mkTurnInstruction (findBasicTurnType via left') (getTurnDirection (angle left')))
      left')).
Proof.
  unfold handleDistinctConflict, conflict_of_invalid_or_identical.
  split; intros Hclosed; rewrite Hclosed; cbn [negb orb].
  - split; [done|]. by intros ->.
  - rewrite orb_true_r. cbn [orb]. split; [done|]. by intros ->.
Qed.

(** X14. [handleDistinctConflict] tells two roads apart.  When both roads
    allow entry and their angles differ, whatever the class comparison stored,
    the roads come back with two neighbouring modifiers of one side: the left
    road's modifier is the next modifier to the left of the right road's, and
    neither is [Straight] or [UTurn]. *)
Theorem handleDistinctConflict_distinct `{K : Constants} `{B : IntersectionHandler}
    (via : EdgeID) (left' right' : ConnectedRoad) :
  entry_allowed left' = true → entry_allowed right' = true →
  angle left' ≠ angle right' →
  let left_modifier :=
    direction_modifier (instruction (handleDistinctConflict via left' right').1) in
  let right_modifier :=
    direction_modifier (instruction (handleDistinctConflict via left' right').2) in
  DirectionModifier.to_nat left_modifier = S (DirectionModifier.to_nat right_modifier) ∧
  left_modifier ≠ DirectionModifier.Straight ∧
  right_modifier ≠ DirectionModifier.Straight ∧
  right_modifier ≠ DirectionModifier.UTurn.
Proof.
  intros Hl Hr Hne. cbn zeta. unfold handleDistinctConflict. rewrite Hl, Hr. cbn [negb orb].
  assert (Heq : (angle left' =? angle right') = false).
  { unfold Qceqb. by apply bool_decide_eq_false. }
  rewrite Heq.
  destruct (conflict_by_road_class via left' right') as [l1 r1].
  unfold conflict_by_angle. cbn zeta.
  repeat match goal with
  | |- context [if ?c then _ else _] => destruct c
  end; cbn; done.
Qed.

Lemma handleDistinctConflict_distinct_witness :
  let left_modifier :=
    direction_modifier
      (instruction (handleDistinctConflict (K:=example_constants) (B:=plain_handler) 9%nat
                      slightly_right_155 slightly_right_145).1) in
  let right_modifier :=
    direction_modifier
      (instruction (handleDistinctConflict (K:=example_constants) (B:=plain_handler) 9%nat
                      slightly_right_155 slightly_right_145).2) in
  DirectionModifier.to_nat left_modifier = S (DirectionModifier.to_nat right_modifier) ∧
  left_modifier ≠ DirectionModifier.Straight ∧
  right_modifier ≠ DirectionModifier.Straight ∧
  right_modifier ≠ DirectionModifier.UTurn.
Proof.
  apply (handleDistinctConflict_distinct (K:=example_constants) (B:=plain_handler));
    [reflexivity|reflexivity|].
  intros E. apply (f_equal this) in E. vm_compute in E. discriminate.
Defined.

(** X15. Two roads at the same angle are not told apart: when both allow
    entry and their angles are equal, [handleDistinctConflict] gives each its
    basic turn type and the direction of the angle, which is the same modifier
    for both. *)
Theorem handleDistinctConflict_same_angle `{K : Constants} `{B : IntersectionHandler}
    (via : EdgeID) (left' right' : ConnectedRoad) :
  entry_allowed left' = true → entry_allowed right' = true →
  angle left' = angle right' →
  handleDistinctConflict via left' right' =
  (with_instruction
     (mkTurnInstruction (findBasicTurnType via left') (getTurnDirection (angle left')))
     left',
   with_instruction
     (mkTurnInstruction (findBasicTurnType via right') (getTurnDirection (angle left')))
     right').
Proof.
  intros Hl Hr Heq. unfold handleDistinctConflict, conflict_of_invalid_or_identical.
  assert (Hsame : (angle left' =? angle right') = true).
  { unfold Qceqb. by apply bool_decide_eq_true. }
  rewrite Hsame, Hl, Hr, Heq. reflexivity.
Qed.

Lemma handleDistinctConflict_same_angle_witness :
  handleDistinctConflict (K:=example_constants) (B:=plain_handler) 9%nat
    (road 2 120 true) (road 1 120 true) =
  (with_instruction
     (mkTurnInstruction
        (findBasicTurnType (IntersectionHandler:=plain_handler) 9%nat (road 2 120 true))
        (getTurnDirection (IntersectionHandler:=plain_handler) (angle (road 2 120 true))))
     (road 2 120 true),
   with_instruction
     (mkTurnInstruction
        (findBasicTurnType (IntersectionHandler:=plain_handler) 9%nat (road 1 120 true))
        (getTurnDirection (IntersectionHandler:=plain_handler) (angle (road 2 120 true))))
     (road 1 120 true)).
Proof.
  by apply (handleDistinctConflict_same_angle (K:=example_constants) (B:=plain_handler)).
Defined.

(** X16. What a fork of [findFork] is: every road of it allows entry, none
    of its roads is obvious over its neighbour, its roads are compatible by
    road class, and it is at least [GROUP_ANGLE] away from the road on its
    left and from the road on its right. *)
Theorem findFork_sound `{K : Constants} `{B : IntersectionHandler}
    (via : EdgeID) (X : Intersection) (fork : Fork.t) :
  findFork via X = Some fork →
  (∀ i, (Fork.right fork ≤ i ≤ Fork.left fork)%nat → entry_allowed (X !!! i) = true) ∧
  hasObvious via X fork = false ∧
  isCompatibleByRoadClass X fork = true ∧
  GROUP_ANGLE ≤
    angularDeviation
      (angle (X !!! Fork.left fork))
      (angle (X !!! (if Nat.eqb (S (Fork.left fork)) (length X) then 0
                     else S (Fork.left fork))%nat)) ∧
  GROUP_ANGLE ≤
    angularDeviation (angle (X !!! Fork.right fork))
                     (angle (X !!! (Fork.right fork - 1)%nat)).
Proof.
  unfold findFork.
  destruct (findLeftAndRightmostForkCandidates X) as [f|]; [|done].
  cbn zeta.
  destruct (_ && _ && _ && _ && _) eqn:Hall; [|done]. intros [= <-].
  apply andb_true_iff in Hall as [Hall Hvalid].
  apply andb_true_iff in Hall as [Hall Hclass].
  apply andb_true_iff in Hall as [Hall Hobvious%negb_true_iff].
  apply andb_true_iff in Hall as [Hleft%Qcleb_le Hright%Qcleb_le].
  split; [|done].
  unfold hasValidEntries in Hvalid. rewrite forallb_seq_iff in Hvalid.
  intros i Hi. apply Hvalid. lia.
Qed.

Lemma findFork_sound_witness :
  (∀ i, (Fork.right (Fork.make 1 2) ≤ i ≤ Fork.left (Fork.make 1 2))%nat →
        entry_allowed (narrow_fork !!! i) = true) ∧
  hasObvious (K:=example_constants) (B:=plain_handler) 9%nat narrow_fork (Fork.make 1 2) =
    false ∧
  isCompatibleByRoadClass (B:=plain_handler) narrow_fork (Fork.make 1 2) = true ∧
  @GROUP_ANGLE example_constants ≤
    angularDeviation
      (angle (narrow_fork !!! Fork.left (Fork.make 1 2)))
      (angle (narrow_fork !!!
                (if Nat.eqb (S (Fork.left (Fork.make 1 2))) (length narrow_fork) then 0
                 else S (Fork.left (Fork.make 1 2)))%nat)) ∧
  @GROUP_ANGLE example_constants ≤
    angularDeviation (angle (narrow_fork !!! Fork.right (Fork.make 1 2)))
                     (angle (narrow_fork !!! (Fork.right (Fork.make 1 2) - 1)%nat)).
Proof.
  apply (findFork_sound (K:=example_constants) (B:=plain_handler) 9%nat narrow_fork).
  vm_compute. reflexivity.
Defined.

Lemma lookup_total_eq (X Y : Intersection) k :
  erase <$> X = erase <$> Y → ins X k = ins Y k → X !!! k = Y !!! k.
Proof. intros E HI. apply road_eq; [by apply erase_eq_lookup|done]. Qed.

(** X17. [assignRightTurns] writes to the roads [1 .. up_to - 1] only: the
    intersection keeps its size, and the road back and every road from [up_to]
    on are returned as they are. *)
Theorem assignRightTurns_untouched `{K : Constants} `{B : IntersectionHandler}
    (via : EdgeID) (X : Intersection) (up_to : nat) :
  length (assignRightTurns via X up_to) = length X ∧
  ∀ k, k = 0%nat ∨ (up_to ≤ k)%nat → assignRightTurns via X up_to !!! k = X !!! k.
Proof.
  split; [apply length_assignRightTurns|].
  intros k Hk. apply lookup_total_eq; [apply erase_assignRightTurns|].
  by apply assignRightTurns_outside.
Qed.

(** A crossing all of whose roads but the road back are closed. *)
Definition closed_crossing : Intersection :=
  [road 0 0 true; road 1 90 false; road 2 180 false; road 3 270 false].

(** The road back carries [t], in an intersection of the data model. *)
Definition road_back_carries (t : TurnInstruction) (X : Intersection) : Prop :=
  in_range X ∧ ins X 0 = t.

Section RoadBackKept.
Context `{K : Constants} `{B : IntersectionHandler}.

Lemma road_back_set_instruction t X i u :
  i ≠ 0%nat → road_back_carries t X → road_back_carries t (set_instruction X i u).
Proof.
  intros Hi [HX H0]. split.
  - eapply in_range_erase; [|exact HX]. by rewrite erase_set_instruction.
  - by rewrite ins_set_instruction_ne.
Qed.

Lemma road_back_assignTrivialTurns t via X e :
  road_back_carries t X → road_back_carries t (assignTrivialTurns via X 1 e).
Proof.
  intros [HX H0]. split.
  - eapply in_range_erase; [|exact HX]. by rewrite erase_assignTrivialTurns.
  - rewrite ins_assignTrivialTurns_outside; [done|lia].
Qed.

Lemma road_back_assignForkAt t via X l r :
  l ≠ 0%nat → r ≠ 0%nat →
  road_back_carries t X → road_back_carries t (assignForkAt via X l r).
Proof.
  intros Hl Hr HX. unfold assignForkAt. destruct (assignFork _ _ _).
  by repeat (apply road_back_set_instruction; [done|]).
Qed.

Lemma road_back_assignFork3At t via X l c r :
  l ≠ 0%nat → c ≠ 0%nat → r ≠ 0%nat →
  road_back_carries t X → road_back_carries t (assignFork3At via X l c r).
Proof.
  intros Hl Hc Hr HX. unfold assignFork3At. destruct (assignFork3 _ _ _ _) as [[? ?] ?].
  by repeat (apply road_back_set_instruction; [done|]).
Qed.

Lemma road_back_assignRightTurns t via X up_to :
  road_back_carries t X → road_back_carries t (assignRightTurns via X up_to).
Proof.
  intros [HX H0]. split.
  - eapply in_range_erase; [|exact HX]. by rewrite erase_assignRightTurns.
  - rewrite assignRightTurns_outside; [done|by left].
Qed.

Lemma road_back_assignLeftTurns t via X starting_at :
  road_back_carries t X → road_back_carries t (assignLeftTurns via X starting_at).
Proof.
  intros [HX H0]. split.
  - eapply in_range_erase; [|exact HX]. by rewrite erase_assignLeftTurns.
  - destruct X as [|r0 rest].
    { unfold assignLeftTurns. by rewrite assignRightTurns_closed. }
    unfold assignLeftTurns. rewrite length_switch_left_and_right.
    set (W := assignRightTurns via (switch_left_and_right (r0 :: rest)) _).
    assert (EW : erase <$> W = erase <$> switch_left_and_right (r0 :: rest))
      by apply erase_assignRightTurns.
    assert (HlenW : length W = S (length rest)).
    { by rewrite (erase_eq_length _ _ EW), length_switch_left_and_right. }
    rewrite ins_switch_left_and_right by lia. rewrite HlenW.
    unfold mirror_index. cbn [Nat.eqb].
    destruct (erase_reads _ _ (erase_eq_lookup _ _ 0%nat EW)) as (_ & -> & _).
    unfold W. rewrite assignRightTurns_outside by by left.
    transitivity (ins (switch_left_and_right (switch_left_and_right (r0 :: rest))) 0).
    + by rewrite (ins_switch_left_and_right (switch_left_and_right (r0 :: rest)))
        by (rewrite length_switch_left_and_right; cbn; lia).
    + by rewrite switch_left_and_right_involutive.
Qed.

Lemma road_back_handleThreeWayTurn t via X :
  narrow_and_group_fit → angle (X !!! 0%nat) < epsilon →
  road_back_carries t X → road_back_carries t (handleThreeWayTurn via X).
Proof.
  intros Hfit Hfirst H0. pose proof (proj1 H0) as HX.
  unfold handleThreeWayTurn. cbn zeta.
  destruct (findFork via X) as [fork|] eqn:Hfork.
  - destruct (findLeftAndRightmostForkCandidates_bounds X fork Hfit Hfirst HX
                (findFork_candidates via X fork Hfork)) as (? & ? & _).
    repeat match goal with
    | |- context [if ?c then _ else _] => destruct c
    | |- context [match ?c with true => _ | false => _ end] => destruct c
    end;
    repeat first [ done | apply road_back_set_instruction; [lia|]
                 | apply road_back_assignForkAt; [lia..|] ].
  - repeat match goal with
    | |- context [if ?c then _ else _] => destruct c
    | |- context [match ?c with true => _ | false => _ end] => destruct c
    end;
    repeat first [ done | apply road_back_set_instruction; [lia|] ].
Qed.

Lemma road_back_handleComplexTurn t via X :
  narrow_and_group_fit → angle (X !!! 0%nat) < epsilon →
  road_back_carries t X → road_back_carries t (handleComplexTurn via X).
Proof.
  intros Hfit Hfirst H0. pose proof (proj1 H0) as HX.
  unfold handleComplexTurn. cbn zeta.
  destruct (negb (Nat.eqb (findObviousTurn via X) 0)) eqn:Hobvious.
  { apply negb_true_iff, Nat.eqb_neq in Hobvious.
    by apply road_back_assignRightTurns, road_back_assignLeftTurns,
      road_back_set_instruction. }
  destruct (findFork via X) as [fork|] eqn:Hfork.
  { destruct (findLeftAndRightmostForkCandidates_bounds X fork Hfit Hfirst HX
                (findFork_candidates via X fork Hfork)) as (? & ? & _).
    apply road_back_assignRightTurns, road_back_assignLeftTurns.
    repeat match goal with
    | |- context [if ?c then _ else _] => destruct c
    end;
    repeat first [ done | apply road_back_set_instruction; [lia|]
                 | apply road_back_assignForkAt; [lia..|]
                 | apply road_back_assignFork3At; [lia..|] ]. }
  repeat match goal with
  | |- context [if ?c then _ else _] => destruct c
  end;
  auto using road_back_assignRightTurns, road_back_assignLeftTurns,
    road_back_assignTrivialTurns.
Qed.

End RoadBackKept.

(** X23. What the classifier makes of the road back.  Nothing but the store
    at the start of [operator()] writes to the road at position 0: it is
    returned as it is when it is the only road or does not allow entry, and
    with its basic turn type and [UTurn] otherwise.  (For an intersection of
    the data model whose road back is less than [epsilon] from angle 0, and
    constants that keep the road back out of every fork.) *)
Theorem classify_road_back `{K : Constants} `{B : IntersectionHandler}
    (via : EdgeID) (X : Intersection) :
  narrow_and_group_fit → angle (X !!! 0%nat) < epsilon → in_range X →
  classify via X !!! 0%nat =
  if Nat.eqb (length X) 1 || negb (entry_allowed (X !!! 0%nat)) then X !!! 0%nat
  else with_instruction
         (mkTurnInstruction (findBasicTurnType via (X !!! 0%nat)) DirectionModifier.UTurn)
         (X !!! 0%nat).
Proof.
  intros Hfit Hfirst HX.
  set (X0 := if entry_allowed (X !!! 0%nat)
             then set_instruction X 0
                    (mkTurnInstruction (findBasicTurnType via (X !!! 0%nat))
                                       DirectionModifier.UTurn)
             else X).
  assert (E0 : erase <$> X0 = erase <$> X).
  { unfold X0. destruct (entry_allowed _); [apply erase_set_instruction|done]. }
  assert (H0 : road_back_carries (ins X0 0) X0).
  { split; [|done]. by eapply in_range_erase; [symmetry; exact E0|]. }
  assert (Hfirst0 : angle (X0 !!! 0%nat) < epsilon).
  { by destruct (erase_reads _ _ (erase_eq_lookup _ _ 0%nat E0)) as (_ & -> & _). }
  assert (Hresult : length X ≠ 1%nat → classify via X !!! 0%nat = X0 !!! 0%nat).
  { intros Hlen%Nat.eqb_neq.
    apply lookup_total_eq; [by rewrite erase_classify, E0|].
    unfold classify. rewrite Hlen. fold X0.
    repeat match goal with
    | |- context [if ?c then _ else _] => destruct c
    end.
    - unfold handleTwoWayTurn. by rewrite ins_set_instruction_ne.
    - by apply road_back_handleThreeWayTurn.
    - by apply road_back_handleComplexTurn. }
  destruct (Nat.eqb_spec (length X) 1) as [H1|H1]; cbn [orb].
  - unfold classify, handleOneWayTurn. apply Nat.eqb_eq in H1. by rewrite H1.
  - rewrite Hresult by done. unfold X0.
    destruct (entry_allowed (X !!! 0%nat)) eqn:Ha; cbn [negb]; [|done].
    by destruct X as [|r0 rest].
Qed.

Lemma classify_road_back_witness :
  classify (K:=example_constants) (B:=plain_handler) 9%nat closed_straight_crossing !!! 0%nat =
  if Nat.eqb (length closed_straight_crossing) 1 ||
     negb (entry_allowed (closed_straight_crossing !!! 0%nat))
  then closed_straight_crossing !!! 0%nat
  else with_instruction
         (mkTurnInstruction
            (findBasicTurnType (IntersectionHandler:=plain_handler) 9%nat
               (closed_straight_crossing !!! 0%nat))
            DirectionModifier.UTurn)
         (closed_straight_crossing !!! 0%nat).
Proof.
  apply (classify_road_back (K:=example_constants) (B:=plain_handler)).
  - exact example_constants_fit.
  - by vm_compute.
  - unfold closed_straight_crossing. in_range_concrete.
Defined.

Lemma quotient_gt_one_way (x y c : Qc) :
  0 ≤ x → 0 ≤ y → 1 ≤ c →
  quotient_gt (fdiv x y) c = true → quotient_gt (fdiv y x) c = false.
Proof.
  intros Hx Hy Hc H. apply not_true_is_false. intros H'.
  apply quotient_gt_fdiv in H, H'.
  assert (Hscale : ∀ a b : Qc, b ≠ 0 → 0 ≤ b → c < a / b → c * b < a).
  { intros a b Hb0 Hb Hlt.
    assert (Hpos : 0 < b).
    { destruct (Qcle_lt_or_eq _ _ Hb) as [?|E]; [done|]. by symmetry in E. }
    assert (E : a / b * b = a) by (rewrite Qcmult_comm; by apply Qcmult_div_r).
    rewrite <- E. by apply Qcmult_lt_compat_r. }
  destruct H as [[Hy0 H]|[-> H]]; destruct H' as [[Hx0 H']|[-> H']].
  - apply Hscale in H, H'; try done.
    assert (Hy1 : y ≤ c * y).
    { rewrite <- (Qcmult_1_l y) at 1. apply Qcmult_le_compat_r; done. }
    assert (Hx1 : x ≤ c * x).
    { rewrite <- (Qcmult_1_l x) at 1. apply Qcmult_le_compat_r; done. }
    assert (Hxy : x < x).
    { eapply Qcle_lt_trans; [exact Hx1|]. eapply Qclt_le_trans; [exact H'|].
      eapply Qcle_trans; [exact Hy1|]. by apply Qclt_le_weak. }
    by apply Qclt_not_eq in Hxy.
  - apply Hscale in H; try done.
    assert (Hy1 : 0 ≤ c * y).
    { assert (Hc0 : 0 ≤ c) by (eapply Qcle_trans; [|exact Hc]; done).
      pose proof (Qcmult_le_compat_r 0 c _ Hc0 Hy) as Hm. by rewrite Qcmult_0_l in Hm. }
    assert (Hxy : (0 : Qc) < 0) by (eapply Qcle_lt_trans; [exact Hy1|done]).
    by apply Qclt_not_eq in Hxy.
  - apply Hscale in H'; try done.
    assert (Hx1 : 0 ≤ c * x).
    { assert (Hc0 : 0 ≤ c) by (eapply Qcle_trans; [|exact Hc]; done).
      pose proof (Qcmult_le_compat_r 0 c _ Hc0 Hx) as Hm. by rewrite Qcmult_0_l in Hm. }
    assert (Hxy : (0 : Qc) < 0) by (eapply Qcle_lt_trans; [exact Hx1|done]).
    by apply Qclt_not_eq in Hxy.
  - by apply Qclt_not_eq in H.
Qed.

(** X21. Past the tests on road classes and names, [isObviousOfTwo] is one
    way: when the narrowness test is what decides for [road] against [other]
    and for [other] against [road], and [road] is obvious over [other], then
    [other] is not obvious over [road].  This includes the division by zero for
    a perfectly straight road. *)
Theorem isObviousOfTwo_one_way `{K : Constants} `{B : IntersectionHandler}
    (via : EdgeID) (road' other : ConnectedRoad) :
  0 ≤ angle road' → angle road' ≤ deg 360 →
  0 ≤ angle other → angle other ≤ deg 360 →
  reaches_narrowness_test via road' other = true →
  reaches_narrowness_test via other road' = true →
  isObviousOfTwo via road' other = true →
  isObviousOfTwo via other road' = false.
Proof.
  intros Hr0 Hr1 Ho0 Ho1 Hreach Hreach'.
  rewrite (isObviousOfTwo_reached via road' other Hreach),
    (isObviousOfTwo_reached via other road' Hreach').
  intros [H _]%andb_true_iff. apply andb_false_iff. left.
  destruct (angularDeviation_straight_range (angle road')) as [? _]; [done..|].
  destruct (angularDeviation_straight_range (angle other)) as [? _]; [done..|].
  eapply quotient_gt_one_way; [done|done| |exact H].
  by vm_compute.
Qed.

Lemma isObviousOfTwo_one_way_witness :
  isObviousOfTwo (K:=example_constants) (B:=plain_handler) 9%nat
    (road 2 60 true) (road 1 120 true) = false.
Proof.
  apply (isObviousOfTwo_one_way (K:=example_constants) (B:=plain_handler) 9%nat
           (road 1 120 true) (road 2 60 true)); by vm_compute.
Defined.

Section EndOfRoadMirror.
Context `{K : Constants}.

(** On the rationals [isEndOfRoad] treats left and right alike: for two
    roads strictly inside the circle, the mirrored left road and the mirrored right road, in
    this order, are the two sides of an end of the road exactly when the right
    road and the left road are.  (The road back is not looked at.) *)
Lemma isEndOfRoad_mirror_exact (back back' possible_right_turn possible_left_turn : ConnectedRoad) :
  strictly_inside possible_right_turn → strictly_inside possible_left_turn →
  isEndOfRoad back' (mirror possible_left_turn) (mirror possible_right_turn) =
  isEndOfRoad back possible_right_turn possible_left_turn.
Proof.
  intros Hr Hl. unfold isEndOfRoad.
  rewrite !mirror_inside by done. cbn [angle].
  replace (deg 90) with (deg 360 - deg 270) at 1 by by apply Qc_is_canon.
  replace (deg 270) with (deg 360 - deg 90) at 2 by by apply Qc_is_canon.
  rewrite !angularDeviation_mirror.
  rewrite (angularDeviation_sym (angle possible_left_turn) (angle possible_right_turn)).
  f_equal. apply andb_comm.
Qed.

End EndOfRoadMirror.

Lemma narrow_fork_standard : standard narrow_fork.
Proof.
  split; [by apply Qc_is_canon|].
  repeat (apply List.Forall_cons; [split; by vm_compute|]). apply List.Forall_nil.
Qed.

Lemma narrow_fork_unique_straightest : unique_straightest narrow_fork.
Proof.
  intros i j Hi Hj _ _ _ Hdev. cbn [length narrow_fork] in Hi, Hj.
  destruct i as [|[|[|i]]]; try lia;
    destruct j as [|[|[|j]]]; try lia; try reflexivity;
    apply (f_equal this) in Hdev; vm_compute in Hdev; discriminate.
Qed.

(** On the rationals the instruction of the obvious turn is final.  When
    [findObviousTurn] names a road behind the road back, [handleComplexTurn]
    (and [handleThreeWayTurn] at three roads) leaves this road with the
    instruction of [getInstructionForObvious] for it: the assignment of the
    turns on its two sides does not write to it. *)
Lemma obvious_turn_kept_exact `{K : Constants} `{B : IntersectionHandler}
    (via : EdgeID) (X : Intersection) :
  in_range X →
  (0 < findObviousTurn via X < length X)%nat →
  ins (handleComplexTurn via X) (findObviousTurn via X) =
    getInstructionForObvious (length X) via
      (isThroughStreet (findObviousTurn via X) X) (X !!! findObviousTurn via X) ∧
  (length X = 3%nat →
   ins (handleThreeWayTurn via X) (findObviousTurn via X) =
     getInstructionForObvious 3 via
       (isThroughStreet (findObviousTurn via X) X) (X !!! findObviousTurn via X)).
Proof.
  intros HX Ho. split.
  - unfold handleComplexTurn. cbn zeta.
    destruct (Nat.eqb_spec (findObviousTurn via X) 0) as [?|_]; [lia|]. cbn [negb].
    set (o := findObviousTurn via X) in *.
    rewrite assignRightTurns_outside by (right; lia).
    rewrite assignLeftTurns_outside;
      [|by eapply in_range_erase; [|exact HX]; rewrite erase_set_instruction|lia].
    rewrite ins_set_instruction. by rewrite decide_True by (split; [done|lia]).
  - intros Hlen. unfold handleThreeWayTurn. cbn zeta. rewrite Hlen in Ho.
    destruct (findObviousTurn via X) as [|[|[|o]]]; [lia| | |lia];
      cbn [Nat.eqb negb]; rewrite ?andb_false_r; destruct (findFork via X);
      rewrite !ins_set_instruction, !length_set_instruction, Hlen;
      repeat match goal with
      | |- context [decide ?P] => destruct (decide P)
      end; try done; lia.
Qed.

(** The handler of the examples for which the road at position 3 is the
    obvious turn. *)
Definition third_road_handler : IntersectionHandler :=
  example_handler uniform_edge_data (λ _, 3%nat).

(** X27. The candidates of a fork are around the straightest road: when
    [findLeftAndRightmostForkCandidates] returns a fork, the straightest road
    of [findClosestToStraight] is one of its roads and deviates at most
    [NARROW_TURN_ANGLE] from straight, the intersection has three roads or
    more, and the fork has at most three. *)
Theorem fork_candidates_around_straightest `{K : Constants}
    (X : Intersection) (fork : Fork.t) :
  findLeftAndRightmostForkCandidates X = Some fork →
  (Fork.right fork ≤ id (findClosestToStraight X) ≤ Fork.left fork)%nat ∧
  deviation_from_straight (findClosestToStraight X) ≤ NARROW_TURN_ANGLE ∧
  (3 ≤ length X)%nat ∧
  (Fork.right fork < Fork.left fork)%nat ∧
  Fork.size fork = (Fork.left fork - Fork.right fork + 1)%nat ∧
  (Fork.size fork ≤ 3)%nat.
Proof.
  unfold findLeftAndRightmostForkCandidates.
  destruct (bool_decide (3 ≤ length X)%nat) eqn:Hlen; [|done].
  apply bool_decide_eq_true in Hlen.
  destruct (_ <=? _) eqn:Hdev; [|done]. apply Qcleb_le in Hdev.
  cbn zeta.
  destruct (bool_decide _ && bool_decide _) eqn:Hfork; [|done].
  apply andb_true_iff in Hfork as [H1%bool_decide_eq_true H2%bool_decide_eq_true].
  intros [= <-]. unfold Fork.make. cbn [Fork.right Fork.left Fork.size].
  repeat split; try done; lia.
Qed.

Lemma fork_candidates_around_straightest_witness :
  (Fork.right (Fork.make 1 2) ≤
     id (findClosestToStraight narrow_fork) ≤ Fork.left (Fork.make 1 2))%nat ∧
  deviation_from_straight (findClosestToStraight narrow_fork) ≤
    @NARROW_TURN_ANGLE example_constants ∧
  (3 ≤ length narrow_fork)%nat ∧
  (Fork.right (Fork.make 1 2) < Fork.left (Fork.make 1 2))%nat ∧
  Fork.size (Fork.make 1 2) =
    (Fork.left (Fork.make 1 2) - Fork.right (Fork.make 1 2) + 1)%nat ∧
  (Fork.size (Fork.make 1 2) ≤ 3)%nat.
Proof.
  apply (fork_candidates_around_straightest (K:=example_constants) narrow_fork).
  vm_compute. reflexivity.
Defined.

(** X28. At two roads the classifier does not ask whether the second road
    allows entry: the road at position 1 is returned with the instruction of
    [getInstructionForObvious] for an intersection of two roads that is not a
    through street, also when it is closed. *)
Theorem classify_two_roads `{K : Constants} `{B : IntersectionHandler}
    (via : EdgeID) (X : Intersection) :
  length X = 2%nat →
  classify via X !!! 1%nat =
  with_instruction (getInstructionForObvious 2 via false (X !!! 1%nat)) (X !!! 1%nat).
Proof.
  intros Hlen. destruct X as [|r0 [|r1 [|r2 rest]]]; try done.
  unfold classify. cbn [length Nat.eqb].
  change ([r0; r1] !!! 0%nat) with r0.
  by destruct (entry_allowed r0).
Qed.

(** A dead end with a closed road ahead. *)
Definition closed_ahead : Intersection := [road 0 0 true; road 1 180 false].

Lemma classify_two_roads_witness :
  classify (K:=example_constants) (B:=plain_handler) 9%nat closed_ahead !!! 1%nat =
  with_instruction
    (getInstructionForObvious (IntersectionHandler:=plain_handler) 2 9%nat false
       (closed_ahead !!! 1%nat))
    (closed_ahead !!! 1%nat).
Proof. by apply (classify_two_roads (K:=example_constants) (B:=plain_handler)). Defined.

(** With two equally straight roads the mirror does not carry over: in the
    crossing with open roads at 170 and 190 degrees the straightest road is at
    position 2, and in the mirrored crossing at position 1, not at 5 - 2. *)
Lemma findClosestToStraight_tie :
  id (findClosestToStraight closed_straight_crossing) = 2%nat ∧
  id (findClosestToStraight (switch_left_and_right closed_straight_crossing)) = 1%nat.
Proof. split; by vm_compute. Qed.

(** * The handler on [double]: what it keeps *)

(** A road without its instruction. *)
Definition double_erase (r : Double.ConnectedRoad) : Double.ConnectedRoad :=
  Double.with_instruction default_instruction r.

(** The instruction of the road at position [k]. *)
Definition double_ins (X : Double.Intersection) (k : nat) : TurnInstruction :=
  Double.instruction (X !!! k).

(** The test of [ConnectedRoad::mirror]: the road is not the way back. *)
Definition mirrors (r : Double.ConnectedRoad) : bool :=
  (Double.epsilon <? Double.angularDeviation (Double.angle r) 0)%float.

(** A road comes back from two mirrors: it is not mirrored at all, or it is
    mirrored both times and [360 - (360 - angle)] is [angle] again. *)
Definition round_trip (r : Double.ConnectedRoad) : Prop :=
  mirrors r = false ∨
  (mirrors (Double.mirror r) = true ∧
   (360 - (360 - Double.angle r))%float = Double.angle r).

Lemma double_road_eq r r' :
  double_erase r = double_erase r' → Double.instruction r = Double.instruction r' → r = r'.
Proof.
  destruct r, r'. unfold double_erase, Double.with_instruction. cbn.
  intros [= -> -> -> -> ->] ->. reflexivity.
Qed.

Lemma double_erase_reads r r' :
  double_erase r = double_erase r' →
  Double.eid r = Double.eid r' ∧ Double.angle r = Double.angle r' ∧
  Double.bearing r = Double.bearing r' ∧
  Double.entry_allowed r = Double.entry_allowed r' ∧
  Double.lane_data_id r = Double.lane_data_id r'.
Proof.
  destruct r, r'. unfold double_erase, Double.with_instruction. cbn.
  by intros [= -> -> -> -> ->].
Qed.

Lemma double_erase_with_instruction t r :
  double_erase (Double.with_instruction t r) = double_erase r.
Proof. reflexivity. Qed.

Lemma double_lookup_total_erase (X : Double.Intersection) k :
  (double_erase <$> X) !!! k = double_erase (X !!! k).
Proof. rewrite !list_lookup_total_alt, list_lookup_fmap. by destruct (X !! k). Qed.

Lemma double_erase_eq_lookup (X Y : Double.Intersection) k :
  double_erase <$> X = double_erase <$> Y → double_erase (X !!! k) = double_erase (Y !!! k).
Proof. intros E. by rewrite <- !double_lookup_total_erase, E. Qed.

Lemma double_erase_eq_length (X Y : Double.Intersection) :
  double_erase <$> X = double_erase <$> Y → length X = length Y.
Proof. intros E. by rewrite <- (length_fmap double_erase X), E, length_fmap. Qed.

Lemma double_erase_set_instruction X i t :
  double_erase <$> Double.set_instruction X i t = double_erase <$> X.
Proof.
  unfold Double.set_instruction. apply list_eq. intros k.
  rewrite !list_lookup_fmap. destruct (decide (i = k)) as [->|Hne].
  - rewrite list_lookup_alter_eq. by destruct (X !! k).
  - by rewrite list_lookup_alter_ne.
Qed.

Lemma double_erase_insert (X : Double.Intersection) i r :
  double_erase r = double_erase (X !!! i) →
  double_erase <$> <[i:=r]> X = double_erase <$> X.
Proof.
  intros E. apply list_eq. intros k. rewrite !list_lookup_fmap.
  destruct (decide (i = k)) as [->|Hne].
  - destruct (decide (k < length X)%nat) as [Hk|Hk].
    + rewrite list_lookup_insert_eq by done.
      destruct (lookup_lt_is_Some_2 X k Hk) as [x Hx].
      rewrite Hx. rewrite (list_lookup_total_correct _ _ _ Hx) in E. cbn. by rewrite E.
    + by rewrite list_insert_ge by lia.
  - by rewrite list_lookup_insert_ne.
Qed.

Lemma double_intersection_eq (X Y : Double.Intersection) :
  double_erase <$> X = double_erase <$> Y → (∀ k, double_ins X k = double_ins Y k) → X = Y.
Proof.
  intros E HI. apply list_eq. intros k.
  pose proof (double_erase_eq_length _ _ E) as Hlen.
  destruct (decide (k < length X)%nat) as [Hk|Hk].
  - destruct (lookup_lt_is_Some_2 X k Hk) as [x Hx].
    destruct (lookup_lt_is_Some_2 Y k) as [y Hy]; [lia|].
    rewrite Hx, Hy. f_equal.
    pose proof (double_erase_eq_lookup _ _ k E) as Ek. specialize (HI k).
    unfold double_ins in HI.
    rewrite (list_lookup_total_correct _ _ _ Hx), (list_lookup_total_correct _ _ _ Hy) in Ek, HI.
    by apply double_road_eq.
  - rewrite !lookup_ge_None_2; [done|lia..].
Qed.

(** ** Mirroring twice *)

Lemma mirror_modifier_nth m :
  nth (DirectionModifier.to_nat m) mirrored_modifiers DirectionModifier.UTurn =
  mirror_modifier m.
Proof. by destruct m. Qed.

Lemma double_mirror_unfold r :
  Double.mirror r =
  if mirrors r then
    Double.mkConnectedRoad (Double.eid r) (360 - Double.angle r) (Double.bearing r)
      (Double.entry_allowed r)
      (mkTurnInstruction (type (Double.instruction r))
         (mirror_modifier (direction_modifier (Double.instruction r))))
      (Double.lane_data_id r)
  else r.
Proof. unfold Double.mirror, mirrors. by rewrite mirror_modifier_nth. Qed.

Lemma double_erase_mirror r : double_erase (Double.mirror r) = Double.mirror (double_erase r).
Proof. unfold Double.mirror. cbn. by destruct (_ <? _)%float. Qed.

Lemma double_switch_left_and_right_cons r0 tl :
  Double.switch_left_and_right (r0 :: tl) = Double.mirror r0 :: reverse (Double.mirror <$> tl).
Proof. reflexivity. Qed.

Lemma double_length_switch_left_and_right X :
  length (Double.switch_left_and_right X) = length X.
Proof.
  destruct X as [|r0 tl]; [done|].
  rewrite double_switch_left_and_right_cons. cbn. by rewrite length_reverse, length_fmap.
Qed.

Lemma double_erase_switch_left_and_right X :
  double_erase <$> Double.switch_left_and_right X =
  Double.switch_left_and_right (double_erase <$> X).
Proof.
  destruct X as [|r0 tl]; [done|].
  cbn [fmap list_fmap]. rewrite !double_switch_left_and_right_cons. cbn [fmap list_fmap].
  rewrite double_erase_mirror. f_equal.
  rewrite fmap_reverse. f_equal.
  rewrite <- !list_fmap_compose. apply list_fmap_ext. intros _ r _. apply double_erase_mirror.
Qed.

(** Switching left and right twice puts every road back at its position,
    mirrored twice. *)
Lemma double_switch_left_and_right_twice X :
  Double.switch_left_and_right (Double.switch_left_and_right X) =
  (λ r, Double.mirror (Double.mirror r)) <$> X.
Proof.
  destruct X as [|r0 tl]; [done|].
  rewrite !double_switch_left_and_right_cons. cbn [fmap list_fmap]. f_equal.
  rewrite fmap_reverse, reverse_involutive, <- list_fmap_compose. done.
Qed.

Lemma double_erase_mirror_twice (X : Double.Intersection) :
  double_erase <$> ((λ r, Double.mirror (Double.mirror r)) <$> X) =
  (λ r, Double.mirror (Double.mirror r)) <$> (double_erase <$> X).
Proof.
  rewrite <- !list_fmap_compose. apply list_fmap_ext. intros _ r _. cbn.
  by rewrite !double_erase_mirror.
Qed.

Section DoubleFrame.
Context `{K : Double.Constants} `{B : Double.IntersectionHandler}.

Ltac split_branches :=
  repeat match goal with
  | |- context [if ?c then _ else _] => destruct c
  | |- context [match ?c with Some _ => _ | None => _ end] => destruct c
  | |- context [let '(_, _) := ?p in _] => destruct p
  end.

Lemma double_erase_assignTrivialTurns via X b e :
  double_erase <$> Double.assignTrivialTurns via X b e = double_erase <$> X.
Proof.
  unfold Double.assignTrivialTurns. generalize (seq b (e - b)). intros l. revert X.
  induction l as [|i l IH]; intros X; cbn [fold_left]; [done|].
  by rewrite IH, double_erase_set_instruction.
Qed.

Lemma double_conflict_by_road_class_erase via l r :
  double_erase (Double.conflict_by_road_class via l r).1 = double_erase l ∧
  double_erase (Double.conflict_by_road_class via l r).2 = double_erase r.
Proof. unfold Double.conflict_by_road_class. split_branches; done. Qed.

Lemma double_erase_handleDistinctConflict via l r :
  double_erase (Double.handleDistinctConflict via l r).1 = double_erase l ∧
  double_erase (Double.handleDistinctConflict via l r).2 = double_erase r.
Proof.
  unfold Double.handleDistinctConflict.
  destruct (double_conflict_by_road_class_erase via l r) as [E1 E2].
  destruct (Double.conflict_by_road_class via l r) as [l1 r1]. cbn [fst snd] in *.
  unfold Double.conflict_of_invalid_or_identical, Double.conflict_by_angle.
  split_branches; cbn [fst snd]; rewrite ?double_erase_with_instruction; done.
Qed.

Lemma double_erase_handleDistinctConflictAt via X l r :
  l ≠ r → double_erase <$> Double.handleDistinctConflictAt via X l r = double_erase <$> X.
Proof.
  intros Hne. unfold Double.handleDistinctConflictAt.
  destruct (double_erase_handleDistinctConflict via (X !!! l) (X !!! r)) as [E1 E2].
  destruct (Double.handleDistinctConflict via (X !!! l) (X !!! r)) as [l1 r1].
  cbn [fst snd] in *.
  rewrite double_erase_insert; [by rewrite double_erase_insert|].
  by rewrite list_lookup_total_insert_ne.
Qed.

Lemma double_erase_assignRightTurns via X up_to :
  double_erase <$> Double.assignRightTurns via X up_to = double_erase <$> X.
Proof.
  unfold Double.assignRightTurns.
  split_branches;
    rewrite ?double_erase_set_instruction, ?double_erase_assignTrivialTurns,
      ?double_erase_handleDistinctConflictAt, ?double_erase_set_instruction by done;
    done.
Qed.

(** [assignLeftTurns] gives the roads back mirrored twice. *)
Lemma double_erase_assignLeftTurns via X starting_at :
  double_erase <$> Double.assignLeftTurns via X starting_at =
  double_erase <$> ((λ r, Double.mirror (Double.mirror r)) <$> X).
Proof.
  unfold Double.assignLeftTurns.
  rewrite double_erase_switch_left_and_right, double_erase_assignRightTurns,
    double_erase_switch_left_and_right, double_switch_left_and_right_twice.
  by rewrite double_erase_mirror_twice.
Qed.

Lemma double_erase_assignForkAt via X l r :
  double_erase <$> Double.assignForkAt via X l r = double_erase <$> X.
Proof.
  unfold Double.assignForkAt. destruct (Double.assignFork _ _ _).
  by rewrite !double_erase_set_instruction.
Qed.

Lemma double_erase_assignFork3At via X l c r :
  double_erase <$> Double.assignFork3At via X l c r = double_erase <$> X.
Proof.
  unfold Double.assignFork3At. destruct (Double.assignFork3 _ _ _ _) as [[? ?] ?].
  by rewrite !double_erase_set_instruction.
Qed.

Lemma double_erase_handleTwoWayTurn via X :
  double_erase <$> Double.handleTwoWayTurn via X = double_erase <$> X.
Proof. apply double_erase_set_instruction. Qed.

Lemma double_erase_handleThreeWayTurn via X :
  double_erase <$> Double.handleThreeWayTurn via X = double_erase <$> X.
Proof.
  unfold Double.handleThreeWayTurn. cbn zeta.
  split_branches; rewrite ?double_erase_assignForkAt, ?double_erase_set_instruction; done.
Qed.

Lemma double_erase_sides via X Y l r :
  double_erase <$> Y = double_erase <$> X →
  double_erase <$> Double.assignRightTurns via (Double.assignLeftTurns via Y l) r =
  double_erase <$> ((λ r, Double.mirror (Double.mirror r)) <$> X).
Proof.
  intros E. rewrite double_erase_assignRightTurns, double_erase_assignLeftTurns.
  by rewrite !double_erase_mirror_twice, E.
Qed.

Lemma double_erase_handleComplexTurn via X :
  double_erase <$> Double.handleComplexTurn via X = double_erase <$> X ∨
  double_erase <$> Double.handleComplexTurn via X =
  double_erase <$> ((λ r, Double.mirror (Double.mirror r)) <$> X).
Proof.
  unfold Double.handleComplexTurn. cbn zeta.
  split_branches;
    first [ left; apply double_erase_assignTrivialTurns
          | right; apply double_erase_sides;
            rewrite ?double_erase_set_instruction, ?double_erase_assignForkAt,
              ?double_erase_assignFork3At, ?double_erase_set_instruction; done ].
Qed.

Lemma double_erase_classify via X :
  double_erase <$> Double.classify via X = double_erase <$> X ∨
  double_erase <$> Double.classify via X =
  double_erase <$> ((λ r, Double.mirror (Double.mirror r)) <$> X).
Proof.
  unfold Double.classify, Double.handleOneWayTurn.
  destruct (Nat.eqb _ 1); [by left|].
  set (X0 := if Double.entry_allowed (X !!! 0%nat) then _ else X).
  assert (E0 : double_erase <$> X0 = double_erase <$> X).
  { unfold X0. destruct (Double.entry_allowed _); [apply double_erase_set_instruction|done]. }
  destruct (Nat.eqb _ 2); [left; by rewrite double_erase_handleTwoWayTurn|].
  destruct (Nat.eqb _ 3); [left; by rewrite double_erase_handleThreeWayTurn|].
  destruct (double_erase_handleComplexTurn via X0) as [E|E]; rewrite E; [by left|right].
  by rewrite !double_erase_mirror_twice, E0.
Qed.

End DoubleFrame.

Lemma mirrors_mirror_false r : mirrors r = false → Double.mirror r = r.
Proof. intros H. by rewrite double_mirror_unfold, H. Qed.

Lemma double_mirror_fields r :
  Double.eid (Double.mirror r) = Double.eid r ∧
  Double.bearing (Double.mirror r) = Double.bearing r ∧
  Double.entry_allowed (Double.mirror r) = Double.entry_allowed r ∧
  Double.lane_data_id (Double.mirror r) = Double.lane_data_id r ∧
  type (Double.instruction (Double.mirror r)) = type (Double.instruction r).
Proof. unfold Double.mirror. destruct (_ <? _)%float; repeat split. Qed.

Lemma double_mirror_twice_fields r :
  let r' := Double.mirror (Double.mirror r) in
  Double.eid r' = Double.eid r ∧ Double.bearing r' = Double.bearing r ∧
  Double.entry_allowed r' = Double.entry_allowed r ∧
  Double.lane_data_id r' = Double.lane_data_id r ∧
  type (Double.instruction r') = type (Double.instruction r).
Proof.
  cbn zeta.
  destruct (double_mirror_fields (Double.mirror r)) as (-> & -> & -> & -> & ->).
  apply double_mirror_fields.
Qed.

Lemma double_mirror_round_trip r : Double.mirror (Double.mirror r) = r ↔ round_trip r.
Proof.
  unfold round_trip. split.
  - intros H. destruct (mirrors r) eqn:H1; [right|by left].
    destruct (mirrors (Double.mirror r)) eqn:H2.
    + split; [done|]. apply (f_equal Double.angle) in H. revert H.
      rewrite (double_mirror_unfold (Double.mirror r)), H2. cbn [Double.angle].
      by rewrite (double_mirror_unfold r), H1.
    + rewrite (mirrors_mirror_false _ H2) in H. congruence.
  - intros [H1|[H2 Ha]]; [by rewrite !(mirrors_mirror_false r H1)|].
    destruct (mirrors r) eqn:H1; [|rewrite (mirrors_mirror_false r) in H2; congruence].
    rewrite (double_mirror_unfold (Double.mirror r)), H2.
    rewrite (double_mirror_unfold r), H1.
    cbn [Double.eid Double.angle Double.bearing Double.entry_allowed Double.instruction
         Double.lane_data_id type direction_modifier].
    rewrite Ha, mirror_modifier_involutive.
    by destruct r as [? ? ? ? [] ?].
Qed.

(** * Whole degrees

    On angles that are whole numbers of degrees the arithmetic of the handler
    is exact in [double]: every difference, absolute value and minimum it
    takes is a whole number below 2^53, and the one quotient it takes is
    compared with 1.4, from which a quotient of two whole numbers up to 360 is
    either equal or further than a rounding error away. *)

(** The number a [double] stands for (0 for an infinity or a NaN). *)
Definition value (x : float) : Qc :=
  match Prim2SF x with
  | S754_finite s m e =>
      Q2Qc ((if s then - inject_Z (Z.pos m) else inject_Z (Z.pos m)) * Qpower 2 e)
  | _ => 0
  end.

(** The [double] of a whole number of degrees. *)
Definition of_deg (z : Z) : float := PrimFloat.of_uint63 (Uint63.of_Z z).

(** The angular deviation of whole degrees. *)
Definition deviation (a b : Z) : Z :=
  let d := Z.abs (a - b) in Z.min (360 - d) d.

(** The whole degrees from 0 to 360. *)
Definition degrees : list Z := Z.of_nat <$> seq 0 361.

(** What the handler computes from one whole degree: [360 - a], the
    comparisons with epsilon and the value are those of the whole number. *)
Definition check_one (a : Z) : bool :=
  PrimFloat.Leibniz.eqb (360 - of_deg a)%float (of_deg (360 - a)) &&
  Bool.eqb (Double.epsilon <? of_deg a)%float (0 <? a)%Z &&
  Bool.eqb (of_deg a <? Double.epsilon)%float (a =? 0)%Z &&
  bool_decide (value (of_deg a) = deg a).

(** What the handler computes from two whole degrees: the angular deviation,
    the comparisons, the comparison with the double and the comparison of the
    quotient with 1.4 are those of the whole numbers. *)
Definition check_two (a b : Z) : bool :=
  PrimFloat.Leibniz.eqb (Double.angularDeviation (of_deg a) (of_deg b))
                        (of_deg (deviation a b)) &&
  Bool.eqb (of_deg a <? of_deg b)%float (a <? b)%Z &&
  Bool.eqb (of_deg a <=? of_deg b)%float (a <=? b)%Z &&
  Bool.eqb (of_deg a =? of_deg b)%float (a =? b)%Z &&
  Bool.eqb (2 * of_deg a <? of_deg b)%float (2 * a <? b)%Z &&
  Bool.eqb (Double.INCREASES_BY_FOURTY_PERCENT <? of_deg a / of_deg b)%float
           (7 * b <? 5 * a)%Z.

Lemma check_one_all : forallb check_one degrees = true.
Proof. vm_compute. reflexivity. Qed.

Lemma check_two_all : forallb (λ a, forallb (check_two a) degrees) degrees = true.
Proof. vm_compute. reflexivity. Qed.

Lemma degrees_elem (z : Z) : (0 ≤ z ≤ 360)%Z → In z degrees.
Proof.
  intros Hz. unfold degrees. apply in_map_iff. exists (Z.to_nat z).
  split; [lia|]. apply in_seq. lia.
Qed.

Lemma check_one_at a : (0 ≤ a ≤ 360)%Z → check_one a = true.
Proof.
  intros Ha. exact (proj1 (forallb_forall _ _) check_one_all a (degrees_elem a Ha)).
Qed.

Lemma check_two_at a b : (0 ≤ a ≤ 360)%Z → (0 ≤ b ≤ 360)%Z → check_two a b = true.
Proof.
  intros Ha Hb.
  pose proof (proj1 (forallb_forall _ _) check_two_all a (degrees_elem a Ha)) as H.
  exact (proj1 (forallb_forall _ _) H b (degrees_elem b Hb)).
Qed.

(** ** Whole degrees in the rationals *)

Lemma deg_this (z : Z) : (this (deg z) == inject_Z z)%Q.
Proof. reflexivity. Qed.

Lemma deg_lt (a b : Z) : deg a < deg b ↔ (a < b)%Z.
Proof. unfold Qclt. rewrite !deg_this. by rewrite <- Zlt_Qlt. Qed.

Lemma deg_le (a b : Z) : deg a ≤ deg b ↔ (a ≤ b)%Z.
Proof. unfold Qcle. rewrite !deg_this. by rewrite <- Zle_Qle. Qed.

Lemma deg_inj (a b : Z) : deg a = deg b ↔ a = b.
Proof.
  split; [|by intros ->]. intros H. apply Qc_eq_this in H.
  exact (proj1 (inject_Z_injective a b) H).
Qed.

Lemma deg_minus (a b : Z) : deg a - deg b = deg (a - b).
Proof.
  apply Qc_is_canon. rewrite this_minus, !deg_this.
  unfold Z.sub. by rewrite inject_Z_plus, inject_Z_opp.
Qed.

Lemma deg_zero : 0 = deg 0.
Proof. by apply Qc_is_canon. Qed.

Lemma deg_abs (a : Z) : Qcabs (deg a) = deg (Z.abs a).
Proof.
  apply (Qcabs_case (deg a)); intros Ha.
  - rewrite deg_zero in Ha. apply (proj1 (deg_le _ _)) in Ha. by rewrite Z.abs_eq.
  - rewrite deg_zero in Ha. apply (proj1 (deg_le _ _)) in Ha. rewrite Z.abs_neq by done.
    apply Qc_is_canon. rewrite this_opp, !deg_this. by rewrite inject_Z_opp.
Qed.

Lemma deg_min (a b : Z) : Qcmin (deg a) (deg b) = deg (Z.min a b).
Proof.
  unfold Qcmin. destruct (decide (deg b < deg a)) as [H|H].
  - apply (proj1 (deg_lt _ _)) in H. by rewrite Z.min_r by lia.
  - rewrite deg_lt in H. by rewrite Z.min_l by lia.
Qed.

Lemma angularDeviation_deg (a b : Z) :
  angularDeviation (deg a) (deg b) = deg (deviation a b).
Proof.
  unfold angularDeviation, deviation. cbn zeta.
  by rewrite !deg_minus, deg_abs, deg_minus, deg_min.
Qed.

Lemma deviation_range (a b : Z) :
  (0 ≤ a ≤ 360)%Z → (0 ≤ b ≤ 360)%Z → (0 ≤ deviation a b ≤ 180)%Z.
Proof. unfold deviation. lia. Qed.

Lemma Qcltb_deg (a b : Z) : (deg a <? deg b) = (a <? b)%Z.
Proof.
  destruct (Z.ltb_spec a b) as [H|H].
  - by apply Qcltb_lt, deg_lt.
  - by apply Qcltb_ge, deg_le.
Qed.

Lemma Qcleb_deg (a b : Z) : (deg a <=? deg b) = (a <=? b)%Z.
Proof.
  destruct (Z.leb_spec a b) as [H|H].
  - by apply Qcleb_le, deg_le.
  - by apply Qcleb_gt, deg_lt.
Qed.

Lemma Qceqb_deg (a b : Z) : (deg a =? deg b) = (a =? b)%Z.
Proof.
  destruct (Z.eqb_spec a b) as [H|H].
  - by apply Qceqb_eq, deg_inj.
  - unfold Qceqb. apply bool_decide_eq_false. by rewrite deg_inj.
Qed.

Lemma deg_twice (a : Z) : 2 * deg a = deg (2 * a).
Proof.
  apply Qc_is_canon. rewrite this_mult, !deg_this.
  change (this 2) with (inject_Z 2). by rewrite inject_Z_mult.
Qed.

Lemma Qcltb_epsilon_deg (a : Z) : (epsilon <? deg a) = (0 <? a)%Z.
Proof.
  destruct (Z.ltb_spec 0 a) as [H|H].
  - apply Qcltb_lt. apply Qclt_le_trans with (deg 1); [by vm_compute|].
    apply (proj2 (deg_le _ _)). lia.
  - apply Qcltb_ge. apply Qcle_trans with (deg 0); [by apply (proj2 (deg_le _ _))|by vm_compute].
Qed.

Lemma Qcltb_deg_epsilon (a : Z) : (deg a <? epsilon) = (a <=? 0)%Z.
Proof.
  destruct (Z.leb_spec a 0) as [H|H].
  - apply Qcltb_lt. apply Qcle_lt_trans with (deg 0); [by apply (proj2 (deg_le _ _))|by vm_compute].
  - apply Qcltb_ge. apply Qcle_trans with (deg 1); [by vm_compute|].
    apply (proj2 (deg_le _ _)). lia.
Qed.

Lemma Qclt_div (c x y : Qc) : 0 < y → c < x / y ↔ c * y < x.
Proof.
  intros Hy. assert (Hne : y ≠ 0) by (intros ->; by apply Qclt_not_eq in Hy).
  assert (E : x / y * y = x) by (field; done).
  split; intros H.
  - rewrite <- E. by apply Qcmult_lt_compat_r.
  - assert (Hinv : 0 < / y).
    { destruct (Qclt_le_dec 0 (/ y)) as [|Hle]; [done|]. exfalso.
      assert (H1 : / y * y ≤ 0 * y) by by apply Qcmult_le_compat_r; [|apply Qclt_le_weak].
      rewrite Qcmult_0_l, Qcmult_comm, Qcmult_inv_r in H1 by done. by vm_compute in H1. }
    replace c with (c * y * / y) by (field; done).
    by apply Qcmult_lt_compat_r.
Qed.

(** The quotient of two whole numbers exceeds 1.4 when five times the one
    exceeds seven times the other, also for the divisor 0. *)
Lemma quotient_gt_deg (a b : Z) :
  (0 ≤ a)%Z → (0 ≤ b)%Z →
  quotient_gt (fdiv (deg a) (deg b)) INCREASES_BY_FOURTY_PERCENT = (7 * b <? 5 * a)%Z.
Proof.
  intros Ha Hb. apply eq_true_iff_eq. rewrite quotient_gt_fdiv, Z.ltb_lt.
  rewrite deg_zero, !deg_inj, deg_lt.
  destruct (decide (b = 0%Z)) as [->|Hb0].
  - split; [intros [[? _]|[_ ?]]; [done|lia]|]. intros H. right. split; [done|lia].
  - assert (Hpos : deg 0 < deg b) by (apply (proj2 (deg_lt _ _)); lia).
    assert (E : INCREASES_BY_FOURTY_PERCENT * deg b < deg a ↔ (7 * b < 5 * a)%Z).
    { rewrite <- deg_lt. unfold Qclt. rewrite this_mult, !deg_this, !inject_Z_mult.
      change (this INCREASES_BY_FOURTY_PERCENT) with (7 # 5)%Q.
      change (inject_Z 7) with 7%Q. change (inject_Z 5) with 5%Q.
      split; intros H; lra. }
    rewrite <- E, <- (Qclt_div _ _ _ Hpos).
    split; [by intros [[_ H]|[? _]]|]. intros H. by left.
Qed.

(** ** Whole degrees in [double] *)

(** A [double] that is a whole number of degrees between 0 and 360. *)
Definition whole (x : float) : Prop := ∃ z : Z, (0 ≤ z ≤ 360)%Z ∧ x = of_deg z.

Lemma whole_of_deg z : (0 ≤ z ≤ 360)%Z → whole (of_deg z).
Proof. intros Hz. by exists z. Qed.

Lemma value_of_deg z : (0 ≤ z ≤ 360)%Z → value (of_deg z) = deg z.
Proof.
  intros Hz. pose proof (check_one_at z Hz) as H. unfold check_one in H.
  apply andb_true_iff in H as [_ H]. by apply bool_decide_eq_true in H.
Qed.

Lemma of_deg_mirror z : (0 ≤ z ≤ 360)%Z → (360 - of_deg z)%float = of_deg (360 - z).
Proof.
  intros Hz. pose proof (check_one_at z Hz) as H. unfold check_one in H.
  rewrite !andb_true_iff in H. destruct H as [[[H _] _] _].
  by apply FloatAxioms.Leibniz.eqb_spec.
Qed.

Lemma of_deg_epsilon z :
  (0 ≤ z ≤ 360)%Z →
  (Double.epsilon <? of_deg z)%float = (0 <? z)%Z ∧
  (of_deg z <? Double.epsilon)%float = (z =? 0)%Z.
Proof.
  intros Hz. pose proof (check_one_at z Hz) as H. unfold check_one in H.
  rewrite !andb_true_iff in H. destruct H as [[[_ H1] H2] _].
  split; by apply Bool.eqb_prop.
Qed.

Lemma of_deg_two a b :
  (0 ≤ a ≤ 360)%Z → (0 ≤ b ≤ 360)%Z →
  Double.angularDeviation (of_deg a) (of_deg b) = of_deg (deviation a b) ∧
  (of_deg a <? of_deg b)%float = (a <? b)%Z ∧
  (of_deg a <=? of_deg b)%float = (a <=? b)%Z ∧
  (of_deg a =? of_deg b)%float = (a =? b)%Z ∧
  (2 * of_deg a <? of_deg b)%float = (2 * a <? b)%Z ∧
  (Double.INCREASES_BY_FOURTY_PERCENT <? of_deg a / of_deg b)%float = (7 * b <? 5 * a)%Z.
Proof.
  intros Ha Hb. pose proof (check_two_at a b Ha Hb) as H. unfold check_two in H.
  rewrite !andb_true_iff in H. destruct H as [[[[[H1 H2] H3] H4] H5] H6].
  apply FloatAxioms.Leibniz.eqb_spec in H1.
  repeat split; [done|by apply Bool.eqb_prop..].
Qed.

(** On whole degrees the operations of the handler on [double] are those on
    the rationals. *)
Lemma whole_angularDeviation x y :
  whole x → whole y →
  whole (Double.angularDeviation x y) ∧
  value (Double.angularDeviation x y) = angularDeviation (value x) (value y).
Proof.
  intros (a & Ha & ->) (b & Hb & ->).
  destruct (of_deg_two a b Ha Hb) as (-> & _).
  pose proof (deviation_range a b Ha Hb) as Hd.
  split; [apply whole_of_deg; lia|].
  rewrite !value_of_deg by lia. by rewrite angularDeviation_deg.
Qed.

Lemma whole_ltb x y : whole x → whole y → (x <? y)%float = (value x <? value y).
Proof.
  intros (a & Ha & ->) (b & Hb & ->).
  destruct (of_deg_two a b Ha Hb) as (_ & -> & _).
  by rewrite !value_of_deg, Qcltb_deg by lia.
Qed.

Lemma whole_leb x y : whole x → whole y → (x <=? y)%float = (value x <=? value y).
Proof.
  intros (a & Ha & ->) (b & Hb & ->).
  destruct (of_deg_two a b Ha Hb) as (_ & _ & -> & _).
  by rewrite !value_of_deg, Qcleb_deg by lia.
Qed.

Lemma whole_eqb x y : whole x → whole y → (x =? y)%float = (value x =? value y).
Proof.
  intros (a & Ha & ->) (b & Hb & ->).
  destruct (of_deg_two a b Ha Hb) as (_ & _ & _ & -> & _).
  by rewrite !value_of_deg, Qceqb_deg by lia.
Qed.

Lemma whole_twice_ltb x y :
  whole x → whole y → (2 * x <? y)%float = (2 * value x <? value y).
Proof.
  intros (a & Ha & ->) (b & Hb & ->).
  destruct (of_deg_two a b Ha Hb) as (_ & _ & _ & _ & -> & _).
  by rewrite !value_of_deg, deg_twice, Qcltb_deg by lia.
Qed.

Lemma whole_quotient_gt x y :
  whole x → whole y →
  (Double.INCREASES_BY_FOURTY_PERCENT <? x / y)%float =
  quotient_gt (fdiv (value x) (value y)) INCREASES_BY_FOURTY_PERCENT.
Proof.
  intros (a & Ha & ->) (b & Hb & ->).
  destruct (of_deg_two a b Ha Hb) as (_ & _ & _ & _ & _ & ->).
  by rewrite !value_of_deg, quotient_gt_deg by lia.
Qed.

Lemma whole_epsilon_ltb x : whole x → (Double.epsilon <? x)%float = (epsilon <? value x).
Proof.
  intros (a & Ha & ->). destruct (of_deg_epsilon a Ha) as [-> _].
  by rewrite value_of_deg, Qcltb_epsilon_deg.
Qed.

Lemma whole_ltb_epsilon x : whole x → (x <? Double.epsilon)%float = (value x <? epsilon).
Proof.
  intros (a & Ha & ->). destruct (of_deg_epsilon a Ha) as [_ ->].
  rewrite value_of_deg, Qcltb_deg_epsilon by done.
  destruct (Z.eqb_spec a 0), (Z.leb_spec a 0); lia || done.
Qed.

Lemma whole_mirror x :
  whole x → whole (360 - x)%float ∧ value (360 - x)%float = deg 360 - value x.
Proof.
  intros (a & Ha & ->). rewrite of_deg_mirror by done.
  split; [apply whole_of_deg; lia|].
  by rewrite !value_of_deg, deg_minus by lia.
Qed.

Lemma value_inj x y : whole x → whole y → value x = value y → x = y.
Proof.
  intros (a & Ha & ->) (b & Hb & ->). rewrite !value_of_deg by done.
  by intros ->%deg_inj.
Qed.

(** * The handler on [double] and the handler on the rationals

    The road, the constants and the oracles of the handler on [double], seen
    through the numbers the [double]s stand for. *)

Definition rational (r : Double.ConnectedRoad) : ConnectedRoad :=
  mkConnectedRoad (Double.eid r) (value (Double.angle r)) (value (Double.bearing r))
    (Double.entry_allowed r) (Double.instruction r) (Double.lane_data_id r).

Definition rational_constants (K : Double.Constants) : Constants :=
  mkConstants (value Double.NARROW_TURN_ANGLE) (value Double.GROUP_ANGLE)
    (value Double.FUZZY_ANGLE_DIFFERENCE) (value Double.MAXIMAL_ALLOWED_NO_TURN_DEVIATION).

(** Oracles that answer from the numbers: the handler on [double] whose
    oracles are those of [B], asked about the values of the [double]s. *)
Definition on_doubles (B : IntersectionHandler) : Double.IntersectionHandler :=
  Double.mkIntersectionHandler
    GetEdgeData EMPTY_NAMEID requiresNameAnnounced obviousByRoadClass canBeSeenAsFork
    (λ a, getTurnDirection (value a))
    (λ via r, findBasicTurnType via (rational r))
    (λ via X, findObviousTurn via (rational <$> X))
    (λ n via through r, getInstructionForObvious n via through (rational r))
    (λ k X, isThroughStreet k (rational <$> X))
    (λ via l r, assignFork via (rational l) (rational r))
    (λ via l c r, assignFork3 via (rational l) (rational c) (rational r)).

(** A road at a whole number of degrees; constants that are whole numbers. *)
Definition whole_road (r : Double.ConnectedRoad) : Prop := whole (Double.angle r).

Definition whole_constants (K : Double.Constants) : Prop :=
  whole Double.NARROW_TURN_ANGLE ∧ whole Double.GROUP_ANGLE ∧
  whole Double.FUZZY_ANGLE_DIFFERENCE ∧ whole Double.MAXIMAL_ALLOWED_NO_TURN_DEVIATION.

Lemma whole_literal z : (0 ≤ z ≤ 360)%Z → ∀ x, x = of_deg z → whole x.
Proof. intros Hz x ->. by apply whole_of_deg. Qed.

Lemma value_literal z : (0 ≤ z ≤ 360)%Z → ∀ x, x = of_deg z → value x = deg z.
Proof. intros Hz x ->. by apply value_of_deg. Qed.

Lemma whole_0 : whole 0%float. Proof. by apply (whole_literal 0). Qed.
Lemma whole_85 : whole 85%float. Proof. by apply (whole_literal 85). Qed.
Lemma whole_90 : whole 90%float. Proof. by apply (whole_literal 90). Qed.
Lemma whole_180 : whole 180%float. Proof. by apply (whole_literal 180). Qed.
Lemma whole_265 : whole 265%float. Proof. by apply (whole_literal 265). Qed.
Lemma whole_270 : whole 270%float. Proof. by apply (whole_literal 270). Qed.
Lemma whole_straight : whole Double.STRAIGHT_ANGLE. Proof. apply whole_180. Qed.

Lemma value_0 : value 0%float = 0.
Proof. rewrite (value_literal 0) by done. symmetry. apply deg_zero. Qed.
Lemma value_85 : value 85%float = deg 85. Proof. by apply value_literal. Qed.
Lemma value_90 : value 90%float = deg 90. Proof. by apply value_literal. Qed.
Lemma value_180 : value 180%float = deg 180. Proof. by apply value_literal. Qed.
Lemma value_265 : value 265%float = deg 265. Proof. by apply value_literal. Qed.
Lemma value_270 : value 270%float = deg 270. Proof. by apply value_literal. Qed.
Lemma value_straight : value Double.STRAIGHT_ANGLE = STRAIGHT_ANGLE.
Proof. apply value_180. Qed.

Lemma whole_deviation x y : whole x → whole y → whole (Double.angularDeviation x y).
Proof. intros Hx Hy. by apply whole_angularDeviation. Qed.

Lemma value_angularDeviation x y :
  whole x → whole y →
  value (Double.angularDeviation x y) = angularDeviation (value x) (value y).
Proof. intros Hx Hy. by apply whole_angularDeviation. Qed.

Lemma whole_mirrored x : whole x → whole (360 - x)%float.
Proof. intros Hx. by apply whole_mirror. Qed.

Lemma value_mirrored x : whole x → value (360 - x)%float = deg 360 - value x.
Proof. intros Hx. by apply whole_mirror. Qed.

Create HintDb whole discriminated.
#[export] Hint Resolve whole_0 whole_85 whole_90 whole_180 whole_265 whole_270 whole_straight
  whole_deviation whole_mirrored : whole.

Lemma whole_road_angle r : whole_road r → whole (Double.angle r).
Proof. done. Qed.
#[export] Hint Resolve whole_road_angle : whole.

Lemma whole_road_inhabitant : whole_road inhabitant.
Proof. apply whole_0. Qed.

Lemma whole_road_lookup (X : Double.Intersection) i :
  Forall whole_road X → whole_road (X !!! i).
Proof.
  intros HX. rewrite list_lookup_total_alt. destruct (X !! i) as [r|] eqn:Hr.
  - exact (proj1 (Forall_lookup _ X) HX i r Hr).
  - apply whole_road_inhabitant.
Qed.
#[export] Hint Resolve whole_road_lookup : whole.

Lemma whole_road_with_instruction t r : whole_road r → whole_road (Double.with_instruction t r).
Proof. done. Qed.
#[export] Hint Resolve whole_road_with_instruction : whole.

Lemma rational_inhabitant : rational inhabitant = inhabitant.
Proof.
  change (rational inhabitant)
    with (mkConnectedRoad 0%nat (value 0%float) (value 0%float) false default_instruction 0%nat).
  rewrite value_0. reflexivity.
Qed.

Lemma rational_lookup (X : Double.Intersection) i : (rational <$> X) !!! i = rational (X !!! i).
Proof.
  rewrite !list_lookup_total_alt, list_lookup_fmap.
  destruct (X !! i); [done|]. cbn. symmetry. apply rational_inhabitant.
Qed.

Lemma rational_with_instruction t r :
  rational (Double.with_instruction t r) = with_instruction t (rational r).
Proof. reflexivity. Qed.

Lemma rational_set_instruction (X : Double.Intersection) i t :
  rational <$> Double.set_instruction X i t = set_instruction (rational <$> X) i t.
Proof.
  unfold Double.set_instruction, set_instruction.
  apply list_eq. intros k. rewrite list_lookup_fmap.
  destruct (decide (i = k)) as [->|Hne].
  - rewrite !list_lookup_alter_eq, list_lookup_fmap. by destruct (X !! k).
  - by rewrite !list_lookup_alter_ne, list_lookup_fmap.
Qed.

Lemma whole_set_instruction (X : Double.Intersection) i t :
  Forall whole_road X → Forall whole_road (Double.set_instruction X i t).
Proof.
  intros HX. unfold Double.set_instruction. apply Forall_lookup. intros k r.
  destruct (decide (i = k)) as [->|Hne].
  - rewrite list_lookup_alter_eq. destruct (X !! k) as [r'|] eqn:Hr'; [|done].
    intros [= <-]. apply whole_road_with_instruction.
    exact (proj1 (Forall_lookup _ X) HX k r' Hr').
  - rewrite list_lookup_alter_ne by done. apply (proj1 (Forall_lookup _ X) HX).
Qed.
#[export] Hint Resolve whole_set_instruction : whole.

(** Whole-degree roads are the same when they stand for the same road and
    carry the same bearing. *)
Lemma rational_inj r r' :
  whole_road r → whole_road r' → rational r = rational r' →
  Double.bearing r = Double.bearing r' → r = r'.
Proof.
  intros Hr Hr'. destruct r, r'. unfold rational, whole_road in *. cbn in *.
  intros [= -> Ha _ -> -> ->] ->. by rewrite (value_inj _ _ Hr Hr' Ha).
Qed.

Section Simulation.
Context (Kd : Double.Constants) (HK : whole_constants Kd) (B : IntersectionHandler).

#[local] Instance simulation_constants : Constants := rational_constants Kd.
#[local] Instance simulation_handler : Double.IntersectionHandler := on_doubles B.

Lemma whole_narrow : whole Double.NARROW_TURN_ANGLE. Proof. apply HK. Qed.
Lemma whole_group : whole Double.GROUP_ANGLE. Proof. apply HK. Qed.
Lemma whole_fuzzy : whole Double.FUZZY_ANGLE_DIFFERENCE. Proof. apply HK. Qed.
Lemma whole_maximal : whole Double.MAXIMAL_ALLOWED_NO_TURN_DEVIATION. Proof. apply HK. Qed.
#[local] Hint Resolve whole_narrow whole_group whole_fuzzy whole_maximal : whole.

Ltac whole_tac := by eauto 8 with whole.

(** Every comparison of [double]s becomes the comparison of their values. *)
Ltac to_rationals :=
  repeat first
    [ rewrite whole_epsilon_ltb by whole_tac
    | rewrite whole_ltb_epsilon by whole_tac
    | rewrite whole_twice_ltb by whole_tac
    | rewrite whole_quotient_gt by whole_tac
    | rewrite whole_ltb by whole_tac
    | rewrite whole_leb by whole_tac
    | rewrite whole_eqb by whole_tac
    | rewrite value_angularDeviation by whole_tac
    | rewrite value_mirrored by whole_tac
    | rewrite value_straight
    | rewrite value_0 | rewrite value_85 | rewrite value_90 | rewrite value_180
    | rewrite value_265 | rewrite value_270 ].

Lemma rational_mirror r : whole_road r → rational (Double.mirror r) = mirror (rational r).
Proof.
  intros Hr. unfold Double.mirror, mirror. to_rationals. cbn [angle rational].
  destruct (_ <? _); [|done]. unfold rational.
  cbn [Double.eid Double.angle Double.bearing Double.entry_allowed Double.instruction
       Double.lane_data_id].
  by rewrite value_mirrored by whole_tac.
Qed.

Lemma whole_road_mirror r : whole_road r → whole_road (Double.mirror r).
Proof.
  intros Hr. unfold Double.mirror. destruct (_ <? _)%float; [|done].
  unfold whole_road. cbn. whole_tac.
Qed.

Lemma sim_isOutermostForkCandidate r1 r2 :
  whole_road r1 → whole_road r2 →
  Double.isOutermostForkCandidate r1 r2 = isOutermostForkCandidate (rational r1) (rational r2).
Proof.
  intros H1 H2. unfold Double.isOutermostForkCandidate. cbn zeta. to_rationals. reflexivity.
Qed.

Lemma sim_isEndOfRoad r0 r1 r2 :
  whole_road r1 → whole_road r2 →
  Double.isEndOfRoad r0 r1 r2 = isEndOfRoad (rational r0) (rational r1) (rational r2).
Proof.
  intros H1 H2. unfold Double.isEndOfRoad. to_rationals. reflexivity.
Qed.

Lemma sim_findOutermostForkCandidate (l : list Double.ConnectedRoad) :
  Forall whole_road l →
  Double.findOutermostForkCandidate l = findOutermostForkCandidate (rational <$> l).
Proof.
  intros Hl. unfold Double.findOutermostForkCandidate, findOutermostForkCandidate.
  rewrite (adjacent_find_fmap_on whole_road rational Double.isOutermostForkCandidate
             isOutermostForkCandidate l Hl), length_fmap; [done|].
  intros x y Hx Hy. symmetry. by apply sim_isOutermostForkCandidate.
Qed.

Lemma whole_take (X : Double.Intersection) n : Forall whole_road X → Forall whole_road (take n X).
Proof. apply Forall_take. Qed.

Lemma whole_drop (X : Double.Intersection) n : Forall whole_road X → Forall whole_road (drop n X).
Proof. apply Forall_drop. Qed.

Lemma whole_reverse (X : Double.Intersection) :
  Forall whole_road X → Forall whole_road (reverse X).
Proof. intros HX. by apply Forall_reverse. Qed.

(** The straightest road found on [double] and on the rationals. *)
Definition same_straightest (st : Double.StraightestTurnAtIntersection)
    (st' : StraightestTurnAtIntersection) : Prop :=
  Double.id st = id st' ∧ whole (Double.deviation_from_straight st) ∧
  value (Double.deviation_from_straight st) = deviation_from_straight st'.

Lemma sim_findClosestToStraight (X : Double.Intersection) :
  Forall whole_road X →
  same_straightest (Double.findClosestToStraight X) (findClosestToStraight (rational <$> X)).
Proof.
  intros HX. unfold Double.findClosestToStraight, findClosestToStraight.
  rewrite length_fmap.
  assert (H0 : same_straightest (Double.mkStraightestTurnAtIntersection 0 180)
                 (mkStraightestTurnAtIntersection 0 (deg 180))).
  { split; [done|]. split; [apply whole_180|apply value_180]. }
  revert H0. generalize (Double.mkStraightestTurnAtIntersection 0 180)
    (mkStraightestTurnAtIntersection 0 (deg 180)) (seq 1 (length X - 1)).
  intros st st' l. revert st st'.
  induction l as [|i l IH]; intros st st' Hst; cbn [fold_left]; [done|].
  apply IH. destruct Hst as (Hid & Hw & Hv).
  rewrite rational_lookup. to_rationals. rewrite Hv.
  change (entry_allowed (rational (X !!! i))) with (Double.entry_allowed (X !!! i)).
  change (angle (rational (X !!! i))) with (value (Double.angle (X !!! i))).
  destruct (_ && _); [|done].
  split; [done|]. split; cbn; [whole_tac|by to_rationals].
Qed.

Lemma sim_handleTwoWayTurn via (X : Double.Intersection) :
  rational <$> Double.handleTwoWayTurn via X = handleTwoWayTurn via (rational <$> X).
Proof.
  unfold Double.handleTwoWayTurn, handleTwoWayTurn.
  by rewrite rational_set_instruction, length_fmap, rational_lookup.
Qed.

Lemma sim_isObviousOfTwo via road other :
  whole_road road → whole_road other →
  Double.isObviousOfTwo via road other = isObviousOfTwo via (rational road) (rational other).
Proof.
  intros H1 H2. unfold Double.isObviousOfTwo. cbn zeta. to_rationals. reflexivity.
Qed.

Lemma existsb_eq {A} (f g : A → bool) l : (∀ x, f x = g x) → existsb f l = existsb g l.
Proof. intros H. induction l as [|x l IH]; cbn; [done|]. by rewrite H, IH. Qed.

Lemma forallb_eq {A} (f g : A → bool) l : (∀ x, f x = g x) → forallb f l = forallb g l.
Proof. intros H. induction l as [|x l IH]; cbn; [done|]. by rewrite H, IH. Qed.

Lemma sim_hasObvious via (X : Double.Intersection) fork :
  Forall whole_road X →
  Double.hasObvious via X fork = hasObvious via (rational <$> X) fork.
Proof.
  intros HX. unfold Double.hasObvious, hasObvious. apply existsb_eq. intros i.
  rewrite !rational_lookup. by rewrite !sim_isObviousOfTwo by whole_tac.
Qed.

Lemma sim_findLeftAndRightmostForkCandidates (X : Double.Intersection) :
  Forall whole_road X →
  Double.findLeftAndRightmostForkCandidates X =
  findLeftAndRightmostForkCandidates (rational <$> X).
Proof.
  intros HX.
  unfold Double.findLeftAndRightmostForkCandidates, findLeftAndRightmostForkCandidates.
  rewrite length_fmap. cbn zeta.
  destruct (sim_findClosestToStraight X HX) as (Hid & Hw & Hv).
  rewrite <- Hid, <- Hv.
  rewrite !sim_findOutermostForkCandidate
    by (try apply whole_reverse; first [by apply whole_take|by apply whole_drop]).
  rewrite fmap_reverse, fmap_take, fmap_drop.
  to_rationals. reflexivity.
Qed.

Lemma sim_isCompatibleByRoadClass (X : Double.Intersection) fork :
  Double.isCompatibleByRoadClass X fork = isCompatibleByRoadClass (rational <$> X) fork.
Proof.
  unfold Double.isCompatibleByRoadClass, isCompatibleByRoadClass. cbn zeta.
  rewrite !rational_lookup.
  match goal with
  | |- (if negb ?a then _ else ?b) = (if negb ?a' then _ else ?b') =>
      assert (a = a') as ->; [|assert (b = b') as ->; [|done]]
  end.
  - apply forallb_eq. intros i. by rewrite rational_lookup.
  - apply forallb_eq. intros i. apply forallb_eq. intros j. by rewrite !rational_lookup.
Qed.

Lemma sim_hasValidEntries (X : Double.Intersection) first last :
  Double.hasValidEntries X first last = hasValidEntries (rational <$> X) first last.
Proof.
  unfold Double.hasValidEntries, hasValidEntries. apply forallb_eq. intros i.
  by rewrite rational_lookup.
Qed.

Lemma sim_findFork via (X : Double.Intersection) :
  Forall whole_road X → Double.findFork via X = findFork via (rational <$> X).
Proof.
  intros HX. unfold Double.findFork, findFork.
  rewrite <- sim_findLeftAndRightmostForkCandidates by done.
  destruct (Double.findLeftAndRightmostForkCandidates X) as [fork|]; [|done]. cbn zeta.
  rewrite <- sim_hasObvious, <- sim_isCompatibleByRoadClass, <- sim_hasValidEntries by done.
  rewrite length_fmap, !rational_lookup. to_rationals. reflexivity.
Qed.

(** *** The stores *)

Lemma whole_erase_eq (X Y : Double.Intersection) :
  double_erase <$> Y = double_erase <$> X → Forall whole_road X → Forall whole_road Y.
Proof.
  intros E HX. apply Forall_lookup. intros k r Hr.
  assert (Hk : (k < length X)%nat).
  { rewrite <- (double_erase_eq_length _ _ E). by eapply lookup_lt_Some. }
  destruct (lookup_lt_is_Some_2 X k Hk) as [r' Hr'].
  pose proof (double_erase_eq_lookup _ _ k E) as Ek.
  rewrite (list_lookup_total_correct _ _ _ Hr), (list_lookup_total_correct _ _ _ Hr') in Ek.
  destruct (double_erase_reads _ _ Ek) as (_ & Ha & _).
  unfold whole_road. rewrite Ha. exact (proj1 (Forall_lookup _ X) HX k r' Hr').
Qed.

Lemma whole_round_trip r : whole_road r → round_trip r.
Proof.
  intros Hr. apply double_mirror_round_trip.
  apply rational_inj; [by do 2 apply whole_road_mirror|done| |].
  - rewrite !rational_mirror by (try apply whole_road_mirror; done).
    apply mirror_involutive_road.
    + destruct Hr as (z & Hz & Hr). cbn [angle rational]. rewrite Hr, value_of_deg by done.
      rewrite deg_zero. apply deg_le. lia.
    + destruct Hr as (z & Hz & Hr). cbn [angle rational]. rewrite Hr, value_of_deg by done.
      apply deg_le. lia.
  - by destruct (double_mirror_twice_fields r) as (_ & -> & _).
Qed.

Lemma whole_mirror_twice (X : Double.Intersection) :
  Forall whole_road X → (λ r, Double.mirror (Double.mirror r)) <$> X = X.
Proof.
  intros HX. rewrite <- (list_fmap_id X) at 2. apply list_fmap_ext.
  intros i r Hr. apply double_mirror_round_trip, whole_round_trip.
  exact (proj1 (Forall_lookup _ X) HX i r Hr).
Qed.

Lemma rational_insert (X : Double.Intersection) i r :
  rational <$> <[i:=r]> X = <[i:=rational r]> (rational <$> X).
Proof. apply list_fmap_insert. Qed.

Lemma sim_assignTrivialTurns via (X : Double.Intersection) b e :
  rational <$> Double.assignTrivialTurns via X b e = assignTrivialTurns via (rational <$> X) b e.
Proof.
  unfold Double.assignTrivialTurns, assignTrivialTurns.
  generalize (seq b (e - b)). intros l. revert X.
  induction l as [|i l IH]; intros X; cbn [fold_left]; [done|].
  by rewrite IH, rational_set_instruction, rational_lookup.
Qed.

Lemma whole_assignTrivialTurns via (X : Double.Intersection) b e :
  Forall whole_road X → Forall whole_road (Double.assignTrivialTurns via X b e).
Proof. apply whole_erase_eq, double_erase_assignTrivialTurns. Qed.

Lemma whole_assignRightTurns via (X : Double.Intersection) up_to :
  Forall whole_road X → Forall whole_road (Double.assignRightTurns via X up_to).
Proof. apply whole_erase_eq, double_erase_assignRightTurns. Qed.

Lemma whole_assignLeftTurns via (X : Double.Intersection) starting_at :
  Forall whole_road X → Forall whole_road (Double.assignLeftTurns via X starting_at).
Proof.
  intros HX. eapply whole_erase_eq; [|exact HX].
  by rewrite double_erase_assignLeftTurns, whole_mirror_twice.
Qed.

Lemma whole_assignForkAt via (X : Double.Intersection) l r :
  Forall whole_road X → Forall whole_road (Double.assignForkAt via X l r).
Proof. apply whole_erase_eq, double_erase_assignForkAt. Qed.

Lemma whole_assignFork3At via (X : Double.Intersection) l c r :
  Forall whole_road X → Forall whole_road (Double.assignFork3At via X l c r).
Proof. apply whole_erase_eq, double_erase_assignFork3At. Qed.

#[local] Hint Resolve whole_assignTrivialTurns whole_assignRightTurns whole_assignLeftTurns
  whole_assignForkAt whole_assignFork3At : whole.

(** Two tests, one on [double] and one on the rationals, are the same test. *)
Ltac same_test :=
  rewrite ?length_fmap, ?rational_lookup, ?sim_isEndOfRoad by whole_tac; to_rationals; reflexivity.

(** The two handlers branch alike: at every [if] the tests are the same. *)
Ltac same_branches leaf :=
  lazymatch goal with
  | |- _ <$> (if ?c then _ else _) = (if ?c' then _ else _) =>
      first [ replace c' with c by same_test; destruct c; same_branches leaf | leaf ]
  | |- _ => leaf
  end.

Lemma sim_conflict_of_invalid_or_identical via l r :
  let '(l', r') := Double.conflict_of_invalid_or_identical via l r in
  (rational l', rational r') = conflict_of_invalid_or_identical via (rational l) (rational r).
Proof.
  unfold Double.conflict_of_invalid_or_identical, conflict_of_invalid_or_identical.
  cbn [entry_allowed rational]. by do 2 destruct (Double.entry_allowed _).
Qed.

Lemma sim_conflict_by_road_class via l r :
  let '(l', r') := Double.conflict_by_road_class via l r in
  (rational l', rational r') = conflict_by_road_class via (rational l) (rational r).
Proof.
  unfold Double.conflict_by_road_class, conflict_by_road_class.
  change (getTurnDirection (angle (rational l))) with (Double.getTurnDirection (Double.angle l)).
  change (getTurnDirection (angle (rational r))) with (Double.getTurnDirection (Double.angle r)).
  destruct (_ || _); [|done]. cbn zeta.
  change (eid (rational l)) with (Double.eid l). change (eid (rational r)) with (Double.eid r).
  change (@GetEdgeData B) with (@Double.GetEdgeData simulation_handler).
  change (@canBeSeenAsFork B) with (@Double.canBeSeenAsFork simulation_handler).
  destruct (Double.canBeSeenAsFork _ _).
  - change (assignFork via (rational l) (rational r)) with (Double.assignFork via l r).
    by destruct (Double.assignFork via l r).
  - by destruct (Nat.ltb _ _).
Qed.

Lemma whole_conflict_by_road_class via l r :
  whole_road l → whole_road r →
  whole_road (Double.conflict_by_road_class via l r).1 ∧
  whole_road (Double.conflict_by_road_class via l r).2.
Proof.
  intros Hl Hr. destruct (double_conflict_by_road_class_erase via l r) as [E1 E2].
  destruct (double_erase_reads _ _ E1) as (_ & H1 & _).
  destruct (double_erase_reads _ _ E2) as (_ & H2 & _).
  unfold whole_road. by rewrite H1, H2.
Qed.

Lemma sim_conflict_by_angle via l r :
  whole_road l → whole_road r →
  let '(l', r') := Double.conflict_by_angle via l r in
  (rational l', rational r') = conflict_by_angle via (rational l) (rational r).
Proof.
  intros Hl Hr. unfold Double.conflict_by_angle, conflict_by_angle. cbn zeta.
  to_rationals.
  change (getTurnDirection (angle (rational l))) with (Double.getTurnDirection (Double.angle l)).
  change (getTurnDirection (angle (rational r))) with (Double.getTurnDirection (Double.angle r)).
  change (angle (rational l)) with (value (Double.angle l)).
  change (angle (rational r)) with (value (Double.angle r)).
  change (@MAXIMAL_ALLOWED_NO_TURN_DEVIATION simulation_constants)
    with (value Double.MAXIMAL_ALLOWED_NO_TURN_DEVIATION).
  repeat match goal with
  | |- context [if ?c then _ else _] => destruct c
  end; reflexivity.
Qed.

Lemma sim_handleDistinctConflict via l r :
  whole_road l → whole_road r →
  let '(l', r') := Double.handleDistinctConflict via l r in
  (rational l', rational r') = handleDistinctConflict via (rational l) (rational r).
Proof.
  intros Hl Hr. unfold Double.handleDistinctConflict, handleDistinctConflict.
  to_rationals.
  change (angle (rational l)) with (value (Double.angle l)).
  change (angle (rational r)) with (value (Double.angle r)).
  change (entry_allowed (rational l)) with (Double.entry_allowed l).
  change (entry_allowed (rational r)) with (Double.entry_allowed r).
  destruct (_ || _); [apply sim_conflict_of_invalid_or_identical|].
  pose proof (sim_conflict_by_road_class via l r) as H.
  destruct (whole_conflict_by_road_class via l r Hl Hr) as [Hl1 Hr1].
  destruct (Double.conflict_by_road_class via l r) as [l1 r1]. rewrite <- H.
  by apply sim_conflict_by_angle.
Qed.

Lemma sim_handleDistinctConflictAt via (X : Double.Intersection) l r :
  Forall whole_road X →
  rational <$> Double.handleDistinctConflictAt via X l r =
  handleDistinctConflictAt via (rational <$> X) l r.
Proof.
  intros HX. unfold Double.handleDistinctConflictAt, handleDistinctConflictAt.
  rewrite !rational_lookup.
  pose proof (sim_handleDistinctConflict via (X !!! l) (X !!! r)) as H.
  destruct (Double.handleDistinctConflict via (X !!! l) (X !!! r)) as [l1 r1].
  rewrite <- H by whole_tac. by rewrite !rational_insert.
Qed.

Lemma whole_handleDistinctConflictAt via (X : Double.Intersection) l r :
  l ≠ r → Forall whole_road X → Forall whole_road (Double.handleDistinctConflictAt via X l r).
Proof. intros Hne. by apply whole_erase_eq, double_erase_handleDistinctConflictAt. Qed.

(** What is left of a handler once the branch is known: stores and calls of
    handlers whose simulation is proved. *)
Ltac expose :=
  repeat match goal with
  | |- context [@Double.findBasicTurnType simulation_handler ?via ?r] =>
      change (@Double.findBasicTurnType simulation_handler via r)
        with (findBasicTurnType via (rational r))
  | |- context [@Double.getTurnDirection simulation_handler (Double.angle ?r)] =>
      change (@Double.getTurnDirection simulation_handler (Double.angle r))
        with (getTurnDirection (angle (rational r)))
  | |- context [@Double.getInstructionForObvious simulation_handler ?n ?via ?t ?r] =>
      change (@Double.getInstructionForObvious simulation_handler n via t r)
        with (getInstructionForObvious n via t (rational r))
  | |- context [@Double.isThroughStreet simulation_handler ?k ?Z] =>
      change (@Double.isThroughStreet simulation_handler k Z)
        with (isThroughStreet k (rational <$> Z))
  | |- context [@Double.findObviousTurn simulation_handler ?via ?Z] =>
      change (@Double.findObviousTurn simulation_handler via Z)
        with (findObviousTurn via (rational <$> Z))
  | |- context [@Double.assignFork simulation_handler ?via ?l ?r] =>
      change (@Double.assignFork simulation_handler via l r)
        with (assignFork via (rational l) (rational r))
  | |- context [@Double.assignFork3 simulation_handler ?via ?l ?c ?r] =>
      change (@Double.assignFork3 simulation_handler via l c r)
        with (assignFork3 via (rational l) (rational c) (rational r))
  end.

Ltac same_stores :=
  repeat (progress
    (expose; rewrite <- ?rational_lookup;
     rewrite ?sim_assignTrivialTurns, ?sim_handleDistinctConflictAt,
       ?rational_set_instruction, ?length_fmap by whole_tac));
  try reflexivity.

Lemma sim_assignRightTurns via (X : Double.Intersection) up_to :
  Forall whole_road X →
  rational <$> Double.assignRightTurns via X up_to = assignRightTurns via (rational <$> X) up_to.
Proof.
  intros HX. unfold Double.assignRightTurns, assignRightTurns. cbn zeta.
  assert (Hcount :
    length (filter (λ i, entry_allowed ((rational <$> X) !!! i) = true) (seq 1 (up_to - 1))) =
    length (filter (λ i, Double.entry_allowed (X !!! i) = true) (seq 1 (up_to - 1)))).
  { f_equal. apply list_filter_iff. intros i. by rewrite rational_lookup. }
  rewrite Hcount.
  same_branches ltac:(same_stores).
Qed.

Lemma sim_switch_left_and_right (X : Double.Intersection) :
  Forall whole_road X →
  rational <$> Double.switch_left_and_right X = switch_left_and_right (rational <$> X).
Proof.
  intros HX. unfold Double.switch_left_and_right, switch_left_and_right. cbn zeta.
  assert (E : rational <$> (Double.mirror <$> X) = mirror <$> (rational <$> X)).
  { rewrite <- !list_fmap_compose. apply Forall_fmap_ext_1.
    eapply Forall_impl; [|exact HX]. intros r Hr. cbn. by apply rational_mirror. }
  by rewrite fmap_app, fmap_reverse, fmap_take, fmap_drop, E.
Qed.

Lemma whole_switch_left_and_right (X : Double.Intersection) :
  Forall whole_road X → Forall whole_road (Double.switch_left_and_right X).
Proof.
  intros HX. unfold Double.switch_left_and_right. cbn zeta.
  assert (HM : Forall whole_road (Double.mirror <$> X)).
  { apply Forall_fmap. eapply Forall_impl; [|exact HX]. intros r Hr. cbn.
    by apply whole_road_mirror. }
  apply Forall_app. split; [by apply Forall_take|]. by apply Forall_reverse, Forall_drop.
Qed.
#[local] Hint Resolve whole_switch_left_and_right : whole.

Lemma sim_assignLeftTurns via (X : Double.Intersection) starting_at :
  Forall whole_road X →
  rational <$> Double.assignLeftTurns via X starting_at =
  assignLeftTurns via (rational <$> X) starting_at.
Proof.
  intros HX. unfold Double.assignLeftTurns, assignLeftTurns. cbn zeta.
  rewrite sim_switch_left_and_right, sim_assignRightTurns, sim_switch_left_and_right
    by whole_tac.
  by rewrite double_length_switch_left_and_right, length_switch_left_and_right, length_fmap.
Qed.

Lemma sim_assignForkAt via (X : Double.Intersection) l r :
  rational <$> Double.assignForkAt via X l r = assignForkAt via (rational <$> X) l r.
Proof.
  unfold Double.assignForkAt, assignForkAt. rewrite !rational_lookup.
  change (Double.assignFork via (X !!! l) (X !!! r))
    with (assignFork via (rational (X !!! l)) (rational (X !!! r))).
  destruct (assignFork _ _ _). by rewrite !rational_set_instruction.
Qed.

Lemma sim_assignFork3At via (X : Double.Intersection) l c r :
  rational <$> Double.assignFork3At via X l c r = assignFork3At via (rational <$> X) l c r.
Proof.
  unfold Double.assignFork3At, assignFork3At. rewrite !rational_lookup.
  change (Double.assignFork3 via (X !!! l) (X !!! c) (X !!! r))
    with (assignFork3 via (rational (X !!! l)) (rational (X !!! c)) (rational (X !!! r))).
  destruct (assignFork3 _ _ _ _) as [[? ?] ?]. by rewrite !rational_set_instruction.
Qed.

(** The store of [handleThreeWayTurn] at the end of a road. *)
Lemma sim_end_of_road via (Z : Double.Intersection) i m :
  rational <$>
    (if Double.entry_allowed (Z !!! i) then
       if negb (TurnType.eqb TurnType.OnRamp (Double.findBasicTurnType via (Z !!! i)))
       then Double.set_instruction Z i (mkTurnInstruction TurnType.EndOfRoad m)
       else Double.set_instruction Z i (mkTurnInstruction TurnType.OnRamp m)
     else Z) =
  (if entry_allowed ((rational <$> Z) !!! i) then
     if negb (TurnType.eqb TurnType.OnRamp (findBasicTurnType via ((rational <$> Z) !!! i)))
     then set_instruction (rational <$> Z) i (mkTurnInstruction TurnType.EndOfRoad m)
     else set_instruction (rational <$> Z) i (mkTurnInstruction TurnType.OnRamp m)
   else rational <$> Z).
Proof.
  rewrite rational_lookup.
  change (entry_allowed (rational (Z !!! i))) with (Double.entry_allowed (Z !!! i)).
  change (findBasicTurnType via (rational (Z !!! i)))
    with (Double.findBasicTurnType via (Z !!! i)).
  destruct (Double.entry_allowed _); [|done].
  destruct (negb _); by rewrite rational_set_instruction.
Qed.

Ltac same_handlers :=
  repeat (progress
    (rewrite ?sim_end_of_road;
     expose; rewrite <- ?rational_lookup;
     rewrite ?sim_assignRightTurns, ?sim_assignLeftTurns, ?sim_assignTrivialTurns,
       ?sim_assignForkAt, ?sim_assignFork3At, ?rational_set_instruction, ?length_fmap
       by whole_tac));
  try reflexivity.

Lemma sim_handleThreeWayTurn via (X : Double.Intersection) :
  Forall whole_road X →
  rational <$> Double.handleThreeWayTurn via X = handleThreeWayTurn via (rational <$> X).
Proof.
  intros HX. unfold Double.handleThreeWayTurn, handleThreeWayTurn. cbn zeta.
  rewrite <- sim_findFork by done.
  change (findObviousTurn via (rational <$> X)) with (Double.findObviousTurn via X).
  destruct (Double.findFork via X) as [fork|], (Nat.eqb (Double.findObviousTurn via X) 0);
    try apply sim_assignForkAt;
    same_branches ltac:(same_handlers).
Qed.

Lemma sim_handleComplexTurn via (X : Double.Intersection) :
  Forall whole_road X →
  rational <$> Double.handleComplexTurn via X = handleComplexTurn via (rational <$> X).
Proof.
  intros HX. unfold Double.handleComplexTurn, handleComplexTurn. cbn zeta.
  rewrite <- sim_findFork by done.
  destruct (sim_findClosestToStraight X HX) as (Hid & Hw & Hv).
  rewrite <- Hid, <- Hv.
  change (findObviousTurn via (rational <$> X)) with (Double.findObviousTurn via X).
  destruct (negb _); [same_handlers|].
  destruct (Double.findFork via X) as [fork|].
  - match goal with
    | |- rational <$> Double.assignRightTurns via (Double.assignLeftTurns via ?X1 _) _ =
         assignRightTurns via (assignLeftTurns via ?Y1 _) _ =>
        assert (E1 : rational <$> X1 = Y1) by same_branches ltac:(same_handlers);
        assert (H1 : Forall whole_road X1)
          by (repeat match goal with
                     | |- context [if ?c then _ else _] => destruct c
                     end; whole_tac);
        rewrite <- E1; clear E1;
        let Z := fresh "Z" in set (Z := X1) in *; clearbody Z
    end.
    same_handlers.
  - same_branches ltac:(same_handlers).
Qed.

Lemma sim_classify via (X : Double.Intersection) :
  Forall whole_road X →
  rational <$> Double.classify via X = classify via (rational <$> X).
Proof.
  intros HX. unfold Double.classify, classify, Double.handleOneWayTurn, handleOneWayTurn.
  rewrite length_fmap. destruct (Nat.eqb (length X) 1); [done|].
  rewrite rational_lookup. change (entry_allowed (rational (X !!! 0%nat)))
    with (Double.entry_allowed (X !!! 0%nat)).
  set (X0 := if Double.entry_allowed (X !!! 0%nat) then _ else X).
  set (Y0 := if Double.entry_allowed (X !!! 0%nat) then _ else rational <$> X).
  assert (E0 : Y0 = rational <$> X0).
  { unfold X0, Y0. destruct (Double.entry_allowed _); [|done].
    by rewrite rational_set_instruction. }
  assert (H0 : Forall whole_road X0).
  { unfold X0. destruct (Double.entry_allowed _); [|done]. by apply whole_set_instruction. }
  rewrite E0, length_fmap.
  destruct (Nat.eqb _ 2); [apply sim_handleTwoWayTurn|].
  destruct (Nat.eqb _ 3); [by apply sim_handleThreeWayTurn|].
  by apply sim_handleComplexTurn.
Qed.

Lemma whole_classify via (X : Double.Intersection) :
  Forall whole_road X → Forall whole_road (Double.classify via X).
Proof.
  intros HX. eapply whole_erase_eq; [|exact HX].
  destruct (double_erase_classify via X) as [E|E]; [done|].
  by rewrite E, whole_mirror_twice.
Qed.

End Simulation.

(** ** Two mirrors, and what the classifier keeps *)

(** C8. Mirroring a road twice on [double].  The table of the direction
    modifiers is an involution (UTurn and Straight stay, the sharp, plain and
    slight pairs swap), and two mirrors give back the [eid], the [bearing],
    [entry_allowed], the lane data and the turn type of every road.  The road
    itself comes back exactly when it is not mirrored at all (it is within
    epsilon of the road back) or is mirrored both times and
    [360 - (360 - angle)] is [angle] again in [double].  Every road at a whole
    number of degrees between 0 and 360 comes back; a road at 80.1 degrees
    comes back at 80.10000000000002, and a road at 2^-51 degrees is mirrored
    once, to 360 degrees, and not back. *)
Theorem mirror_involutive (r : Double.ConnectedRoad) :
  (Double.mirror (Double.mirror r) = r ↔ round_trip r) ∧
  (whole_road r → Double.mirror (Double.mirror r) = r) ∧
  (let r' := Double.mirror (Double.mirror r) in
   Double.eid r' = Double.eid r ∧ Double.bearing r' = Double.bearing r ∧
   Double.entry_allowed r' = Double.entry_allowed r ∧
   Double.lane_data_id r' = Double.lane_data_id r ∧
   type (Double.instruction r') = type (Double.instruction r)) ∧
  ∀ m,
    nth (DirectionModifier.to_nat
           (nth (DirectionModifier.to_nat m) mirrored_modifiers DirectionModifier.UTurn))
        mirrored_modifiers DirectionModifier.UTurn = m.
Proof.
  split; [apply double_mirror_round_trip|].
  split; [intros Hr; by apply double_mirror_round_trip, whole_round_trip|].
  split; [apply double_mirror_twice_fields|]. by intros [].
Qed.

(** A road at 80.1 degrees comes back at 80.10000000000002. *)
Lemma mirror_involutive_counterexample :
  Double.mirror (Double.mirror (Double.road 1 80.1 true)) ≠ Double.road 1 80.1 true.
Proof.
  intros H. apply (f_equal (λ r, PrimFloat.Leibniz.eqb (Double.angle r) 80.1)) in H.
  vm_compute in H. discriminate.
Qed.

(** A road at 2^-51 degrees is mirrored to 360 degrees, and a road at 360
    degrees is not mirrored: its modifier stays mirrored. *)
Lemma mirror_once_near_road_back :
  Double.mirror (Double.mirror
    (Double.mkConnectedRoad 1%nat 0x1p-51%float 0%float true
       (mkTurnInstruction TurnType.Turn DirectionModifier.SharpRight) 0%nat)) =
  Double.mkConnectedRoad 1%nat 360%float 0%float true
    (mkTurnInstruction TurnType.Turn DirectionModifier.SharpLeft) 0%nat.
Proof. reflexivity. Qed.

(** C9. What the classifier on [double] keeps.  The result has as many
    roads as the intersection, and either every road of the result is the road
    of the intersection at its position with another instruction, or every
    road of the result is the road of the intersection at its position
    mirrored twice, with another instruction (the runs through
    [assignLeftTurns]): [eid], [bearing], [entry_allowed] and the lane data are
    those of the road in both cases, the angle is [360 - (360 - angle)] in the
    second.  Where every road comes back from two mirrors, as every road at a
    whole number of degrees between 0 and 360 does, the roads differ from the
    roads of the intersection in the instruction only. *)
Theorem classify_frame `{K : Double.Constants} `{B : Double.IntersectionHandler}
    (via : EdgeID) (X : Double.Intersection) :
  length (Double.classify via X) = length X ∧
  ((∀ i, Double.classify via X !!! i =
         Double.with_instruction (double_ins (Double.classify via X) i) (X !!! i)) ∨
   (∀ i, Double.classify via X !!! i =
         Double.with_instruction (double_ins (Double.classify via X) i)
           (Double.mirror (Double.mirror (X !!! i))))) ∧
  (Forall round_trip X →
   ∀ i, Double.classify via X !!! i =
        Double.with_instruction (double_ins (Double.classify via X) i) (X !!! i)) ∧
  (Forall whole_road X →
   ∀ i, Double.classify via X !!! i =
        Double.with_instruction (double_ins (Double.classify via X) i) (X !!! i)).
Proof.
  assert (Hroad : ∀ Y : Double.Intersection,
            double_erase <$> Double.classify via X = double_erase <$> Y →
            ∀ i, Double.classify via X !!! i =
                 Double.with_instruction (double_ins (Double.classify via X) i) (Y !!! i)).
  { intros Y E i. apply double_road_eq; [|done].
    rewrite double_erase_with_instruction. by apply double_erase_eq_lookup. }
  assert (Htwice : ∀ i, ((λ r, Double.mirror (Double.mirror r)) <$> X) !!! i =
                        Double.mirror (Double.mirror (X !!! i))).
  { intros i. rewrite !list_lookup_total_alt, list_lookup_fmap. by destruct (X !! i). }
  destruct (double_erase_classify via X) as [E|E].
  - split; [by apply double_erase_eq_length|].
    split; [left; by apply Hroad|]. split; intros _; by apply Hroad.
  - assert (Hback : Forall round_trip X →
              ∀ i, Double.classify via X !!! i =
                   Double.with_instruction (double_ins (Double.classify via X) i) (X !!! i)).
    { intros HX. apply Hroad. rewrite E. f_equal.
      rewrite <- (list_fmap_id X) at 2. apply list_fmap_ext.
      intros i r Hr. apply double_mirror_round_trip.
      exact (proj1 (Forall_lookup _ X) HX i r Hr). }
    split; [by rewrite (double_erase_eq_length _ _ E), length_fmap|].
    split; [right; intros i; rewrite <- Htwice; by apply Hroad|].
    split; [exact Hback|]. intros HX. apply Hback.
    eapply Forall_impl; [|exact HX]. apply whole_round_trip.
Qed.

(** A crossing with a road off the whole degrees. *)
Definition off_degree_crossing : Double.Intersection :=
  [Double.road 0 0 true; Double.road 1 80.1 true; Double.road 2 170 true;
   Double.road 3 260 true].

(** The road at 80.1 degrees of a valid crossing comes back from the classifier
    at 80.10000000000002 degrees. *)
Lemma classify_frame_counterexample :
  Double.valid off_degree_crossing = true ∧
  Double.angle (Double.classify (K:=Double.example_constants)
                  (B:=Double.example_handler uniform_edge_data (λ _, 0%nat)) 9%nat
                  off_degree_crossing !!! 1%nat) ≠
  Double.angle (off_degree_crossing !!! 1%nat).
Proof.
  split; [reflexivity|]. intros H.
  apply (f_equal (λ a, PrimFloat.Leibniz.eqb a 80.1)) in H.
  vm_compute in H. discriminate.
Qed.

(** ** From the rationals back to [double] *)

Lemma double_bearing_erase (X Y : Double.Intersection) :
  double_erase <$> X = double_erase <$> Y → Double.bearing <$> X = Double.bearing <$> Y.
Proof.
  intros E. apply (f_equal (fmap Double.bearing)) in E.
  by rewrite <- !list_fmap_compose in E.
Qed.

Lemma double_bearing_mirror_twice (X : Double.Intersection) :
  Double.bearing <$> ((λ r, Double.mirror (Double.mirror r)) <$> X) = Double.bearing <$> X.
Proof.
  rewrite <- list_fmap_compose. apply list_fmap_ext. intros _ r _. cbn.
  by destruct (double_mirror_twice_fields r) as (_ & -> & _).
Qed.

Lemma double_bearing_classify `{K : Double.Constants} `{B : Double.IntersectionHandler}
    via (X : Double.Intersection) :
  Double.bearing <$> Double.classify via X = Double.bearing <$> X.
Proof.
  destruct (double_erase_classify via X) as [E|E]; apply double_bearing_erase in E;
    rewrite E; [done|]. apply double_bearing_mirror_twice.
Qed.

Lemma double_bearing_switch_left_and_right (X : Double.Intersection) :
  Double.bearing <$> Double.switch_left_and_right X =
  take 1 (Double.bearing <$> X) ++ reverse (drop 1 (Double.bearing <$> X)).
Proof.
  unfold Double.switch_left_and_right. cbn zeta.
  assert (E : Double.bearing <$> (Double.mirror <$> X) = Double.bearing <$> X).
  { rewrite <- list_fmap_compose. apply list_fmap_ext. intros _ r _. cbn.
    by destruct (double_mirror_fields r) as (_ & -> & _). }
  by rewrite fmap_app, fmap_reverse, fmap_take, fmap_drop, E.
Qed.

Lemma rational_intersection_eq (X Y : Double.Intersection) :
  Forall whole_road X → Forall whole_road Y →
  rational <$> X = rational <$> Y → Double.bearing <$> X = Double.bearing <$> Y → X = Y.
Proof.
  intros HX HY E Eb. apply list_eq. intros k.
  assert (Ek : (rational <$> X) !! k = (rational <$> Y) !! k) by by rewrite E.
  assert (Ebk : (Double.bearing <$> X) !! k = (Double.bearing <$> Y) !! k) by by rewrite Eb.
  rewrite !list_lookup_fmap in Ek. rewrite !list_lookup_fmap in Ebk.
  destruct (X !! k) as [x|] eqn:Hx, (Y !! k) as [y|] eqn:Hy; try done.
  cbn in Ek, Ebk. f_equal. apply rational_inj.
  - exact (proj1 (Forall_lookup _ X) HX k x Hx).
  - exact (proj1 (Forall_lookup _ Y) HY k y Hy).
  - congruence.
  - congruence.
Qed.

(** Constants that are whole numbers of degrees. *)
Definition whole_degree_constants (narrow group fuzzy maximal : Z) : Double.Constants :=
  Double.mkConstants (of_deg narrow) (of_deg group) (of_deg fuzzy) (of_deg maximal).

Lemma whole_degree_constants_whole n g f m :
  (0 ≤ n ≤ 360)%Z → (0 ≤ g ≤ 360)%Z → (0 ≤ f ≤ 360)%Z → (0 ≤ m ≤ 360)%Z →
  whole_constants (whole_degree_constants n g f m).
Proof. intros. repeat split; by apply whole_of_deg. Qed.

Lemma in_range_rational (X : Double.Intersection) :
  Forall whole_road X → in_range (rational <$> X).
Proof.
  intros HX. unfold in_range. apply Forall_fmap. eapply Forall_impl; [|exact HX].
  intros r (z & Hz & Hr). unfold compose. cbn [angle rational].
  rewrite Hr, value_of_deg by done.
  split; [rewrite deg_zero|]; apply deg_le; lia.
Qed.


(** ** Mirror symmetry on whole degrees *)

(** A road at a whole number of degrees from 1 to 359. *)
Definition whole_inside (r : Double.ConnectedRoad) : Prop :=
  ∃ z : Z, (1 ≤ z ≤ 359)%Z ∧ Double.angle r = of_deg z.

(** The road at position 0 is the way back, at 0 degrees, and every other road
    is at a whole number of degrees from 1 to 359. *)
Definition whole_standard (X : Double.Intersection) : Prop :=
  match X with
  | [] => False
  | r0 :: rest => Double.angle r0 = 0%float ∧ Forall whole_inside rest
  end.

Lemma whole_inside_whole r : whole_inside r → whole_road r.
Proof. intros (z & Hz & Hr). exists z. split; [lia|done]. Qed.

Lemma whole_inside_strictly r : whole_inside r → strictly_inside (rational r).
Proof.
  intros (z & Hz & Hr). unfold strictly_inside. cbn [angle rational].
  rewrite Hr, value_of_deg by lia. split.
  - apply Qclt_le_trans with (deg 1); [by vm_compute|]. apply deg_le. lia.
  - apply Qcle_lt_trans with (deg 359); [apply deg_le; lia|by vm_compute].
Qed.

(** The deviation of road [i] from straight ahead. *)
Definition double_straightness (X : Double.Intersection) (i : nat) : float :=
  Double.angularDeviation (Double.angle (X !!! i)) Double.STRAIGHT_ANGLE.

(** Of the roads that allow entry, one is straighter than every other. *)
Definition one_straightest (X : Double.Intersection) : Prop :=
  ∀ i j, (1 ≤ i < length X)%nat → (1 ≤ j < length X)%nat →
    Double.entry_allowed (X !!! i) = true → Double.entry_allowed (X !!! j) = true →
    (∀ k, (1 ≤ k < length X)%nat → Double.entry_allowed (X !!! k) = true →
          (double_straightness X i <=? double_straightness X k)%float = true) →
    (double_straightness X i =? double_straightness X j)%float = true →
    i = j.

Lemma whole_standard_whole X : whole_standard X → Forall whole_road X.
Proof.
  destruct X as [|r0 rest]; [done|]. intros [H0 Hrest]. constructor.
  - unfold whole_road. rewrite H0. apply whole_0.
  - eapply Forall_impl; [|exact Hrest]. apply whole_inside_whole.
Qed.

Lemma whole_standard_standard X : whole_standard X → standard (rational <$> X).
Proof.
  destruct X as [|r0 rest]; [done|]. intros [H0 Hrest]. split.
  - cbn [angle rational]. by rewrite H0, value_0.
  - apply Forall_fmap. eapply Forall_impl; [|exact Hrest].
    intros r Hr. by apply whole_inside_strictly.
Qed.

Lemma one_straightest_unique X :
  Forall whole_road X → one_straightest X → unique_straightest (rational <$> X).
Proof.
  intros HX H i j. rewrite length_fmap, !rational_lookup. intros Hi Hj Hai Haj Hmin E.
  assert (Hdev : ∀ k, angularDeviation (angle (rational (X !!! k))) STRAIGHT_ANGLE =
                       value (double_straightness X k)).
  { intros k. unfold double_straightness.
    rewrite value_angularDeviation, value_straight;
      [done|by apply whole_road_lookup|apply whole_straight]. }
  assert (Hw : ∀ k, whole (double_straightness X k)).
  { intros k. apply whole_deviation; [by apply whole_road_lookup|apply whole_straight]. }
  rewrite !Hdev in E. apply (H i j); try done.
  - intros k Hk Hak. rewrite whole_leb by done. apply Qcleb_le.
    rewrite <- !Hdev. specialize (Hmin k). rewrite rational_lookup in Hmin. by apply Hmin.
  - rewrite whole_eqb by done. by apply Qceqb_eq.
Qed.

Lemma whole_degree_constants_fit n g f m :
  (0 ≤ n ≤ 360)%Z → (0 ≤ g ≤ 360)%Z → (n + g < 180)%Z →
  narrow_and_group_fit (K:=rational_constants (whole_degree_constants n g f m)).
Proof.
  intros Hn Hg Hng. unfold narrow_and_group_fit.
  cbn [GROUP_ANGLE NARROW_TURN_ANGLE rational_constants Double.GROUP_ANGLE
       Double.NARROW_TURN_ANGLE whole_degree_constants].
  rewrite !value_of_deg by done.
  split; [rewrite deg_zero; apply deg_le; lia|].
  apply Qcle_trans with (deg n + deg g + deg 1).
  - apply Qcplus_le_compat; [apply Qcle_refl|by vm_compute].
  - replace (deg n + deg g + deg 1) with (deg (n + g + 1)); [apply deg_le; lia|].
    apply Qc_is_canon. rewrite !this_plus. cbn [this deg Qc_of_Z].
    by rewrite !inject_Z_plus.
Qed.

Lemma whole_degree_constants_fuzzy n g f m :
  (0 ≤ f ≤ 180)%Z → fuzzy_fits (K:=rational_constants (whole_degree_constants n g f m)).
Proof.
  intros Hf. unfold fuzzy_fits.
  cbn [FUZZY_ANGLE_DIFFERENCE rational_constants Double.FUZZY_ANGLE_DIFFERENCE
       whole_degree_constants].
  rewrite value_of_deg by lia. apply deg_le. lia.
Qed.


(** ** The narrowness test on [double] *)

(** The tests of [isObviousOfTwo] that come before the narrowness test. *)
Definition double_reaches_narrowness_test `{B : Double.IntersectionHandler}
    (via_edge : EdgeID) (road other : Double.ConnectedRoad) : bool :=
  let via_data := Double.GetEdgeData via_edge in
  let road_data := Double.GetEdgeData (Double.eid road) in
  let other_data := Double.GetEdgeData (Double.eid other) in
  negb (Double.obviousByRoadClass (road_classification via_data)
          (road_classification road_data) (road_classification other_data)) &&
  negb (Double.obviousByRoadClass (road_classification via_data)
          (road_classification other_data) (road_classification road_data)) &&
  negb ((Double.angularDeviation (Double.angle road) Double.STRAIGHT_ANGLE <?
           Double.epsilon)%float &&
        negb (Nat.eqb (name_id via_data) Double.EMPTY_NAMEID) &&
        negb (Double.requiresNameAnnounced (name_id via_data) (name_id road_data))).

Lemma double_isObviousOfTwo_reached `{K : Double.Constants} `{B : Double.IntersectionHandler}
    via road other :
  double_reaches_narrowness_test via road other = true →
  Double.isObviousOfTwo via road other =
  (Double.INCREASES_BY_FOURTY_PERCENT <?
     Double.angularDeviation (Double.angle other) Double.STRAIGHT_ANGLE /
     Double.angularDeviation (Double.angle road) Double.STRAIGHT_ANGLE)%float &&
  (Double.FUZZY_ANGLE_DIFFERENCE <?
     Double.angularDeviation
       (Double.angularDeviation (Double.angle other) Double.STRAIGHT_ANGLE)
       (Double.angularDeviation (Double.angle road) Double.STRAIGHT_ANGLE))%float.
Proof.
  unfold double_reaches_narrowness_test, Double.isObviousOfTwo. cbn zeta.
  rewrite !andb_true_iff, !negb_true_iff. intros [[-> ->] ->]. reflexivity.
Qed.

(** The narrowness test on whole degrees, in whole numbers. *)
Lemma narrowness_whole_degrees (a b f : Z) :
  (0 ≤ a ≤ 360)%Z → (0 ≤ b ≤ 360)%Z → (0 ≤ f ≤ 360)%Z →
  (Double.INCREASES_BY_FOURTY_PERCENT <?
     Double.angularDeviation (of_deg b) Double.STRAIGHT_ANGLE /
     Double.angularDeviation (of_deg a) Double.STRAIGHT_ANGLE)%float &&
  (of_deg f <?
     Double.angularDeviation
       (Double.angularDeviation (of_deg b) Double.STRAIGHT_ANGLE)
       (Double.angularDeviation (of_deg a) Double.STRAIGHT_ANGLE))%float = true ↔
  (7 * deviation a 180 < 5 * deviation b 180)%Z ∧
  (f < Z.abs (deviation b 180 - deviation a 180))%Z.
Proof.
  intros Ha Hb Hf. change Double.STRAIGHT_ANGLE with (of_deg 180).
  destruct (of_deg_two a 180 Ha) as (-> & _); [lia|].
  destruct (of_deg_two b 180 Hb) as (-> & _); [lia|].
  pose proof (deviation_range a 180 Ha) as Hda.
  pose proof (deviation_range b 180 Hb) as Hdb.
  destruct (of_deg_two (deviation b 180) (deviation a 180)) as (-> & _ & _ & _ & _ & ->);
    [lia..|].
  destruct (of_deg_two f (deviation (deviation b 180) (deviation a 180))) as (_ & -> & _);
    [lia|unfold deviation; lia|].
  rewrite andb_true_iff, !Z.ltb_lt.
  replace (deviation (deviation b 180) (deviation a 180))
    with (Z.abs (deviation b 180 - deviation a 180)); [done|].
  unfold deviation at 3. lia.
Qed.

(** C7. The narrowness test of [isObviousOfTwo] on [double].  Where neither
    road is obvious over the other by its road class and the test for a
    straight road of the same name fails, [isObviousOfTwo] is true exactly
    when the quotient of the deviation of [other] by the deviation of [road]
    is greater than 1.4 and the two deviations differ by more than
    [FUZZY_ANGLE_DIFFERENCE]; the difference, the quotient and the two
    comparisons are those of [double] (a quotient by zero is infinite or not a
    number, and no number is greater than the latter).  On whole degrees
    rounding plays no part: with [a] and [b] the angles, [f] the constant and
    [deviation] the deviation in whole numbers, the answer is true exactly
    when [7 * deviation a 180 < 5 * deviation b 180] and
    [f < |deviation b 180 - deviation a 180|]. *)
Theorem isObviousOfTwo_narrowness `{K : Double.Constants} `{B : Double.IntersectionHandler}
    (via : EdgeID) (road other : Double.ConnectedRoad) :
  double_reaches_narrowness_test via road other = true →
  Double.isObviousOfTwo via road other =
    (Double.INCREASES_BY_FOURTY_PERCENT <?
       Double.angularDeviation (Double.angle other) Double.STRAIGHT_ANGLE /
       Double.angularDeviation (Double.angle road) Double.STRAIGHT_ANGLE)%float &&
    (Double.FUZZY_ANGLE_DIFFERENCE <?
       Double.angularDeviation
         (Double.angularDeviation (Double.angle other) Double.STRAIGHT_ANGLE)
         (Double.angularDeviation (Double.angle road) Double.STRAIGHT_ANGLE))%float ∧
  ∀ a b f : Z,
    (0 ≤ a ≤ 360)%Z → (0 ≤ b ≤ 360)%Z → (0 ≤ f ≤ 360)%Z →
    Double.angle road = of_deg a → Double.angle other = of_deg b →
    Double.FUZZY_ANGLE_DIFFERENCE = of_deg f →
    (Double.isObviousOfTwo via road other = true ↔
     (7 * deviation a 180 < 5 * deviation b 180)%Z ∧
     (f < Z.abs (deviation b 180 - deviation a 180))%Z).
Proof.
  intros Hreach. split; [by apply double_isObviousOfTwo_reached|].
  intros a b f Ha Hb Hf Hra Hob HF.
  rewrite (double_isObviousOfTwo_reached via road other Hreach), Hra, Hob, HF.
  by apply narrowness_whole_degrees.
Qed.

(** A road ahead at 120 degrees against one at 60 degrees. *)
Lemma isObviousOfTwo_narrowness_witness :
  let H := Double.example_handler uniform_edge_data (λ _, 0%nat) in
  Double.isObviousOfTwo (K:=Double.example_constants) (B:=H) 9%nat
    (Double.road 1 120 true) (Double.road 2 60 true) = true ∧
  ∀ a b f : Z,
    (0 ≤ a ≤ 360)%Z → (0 ≤ b ≤ 360)%Z → (0 ≤ f ≤ 360)%Z →
    120%float = of_deg a → 60%float = of_deg b → 25%float = of_deg f →
    (Double.isObviousOfTwo (K:=Double.example_constants) (B:=H) 9%nat
       (Double.road 1 120 true) (Double.road 2 60 true) = true ↔
     (7 * deviation a 180 < 5 * deviation b 180)%Z ∧
     (f < Z.abs (deviation b 180 - deviation a 180))%Z).
Proof.
  cbn zeta.
  destruct (isObviousOfTwo_narrowness
              (K:=Double.example_constants)
              (B:=Double.example_handler uniform_edge_data (λ _, 0%nat))
              9%nat (Double.road 1 120 true) (Double.road 2 60 true) eq_refl) as [E H].
  split; [rewrite E; reflexivity|exact H].
Defined.


(** Off whole degrees the two embeddings part.  The road at
    0.7999999999999999 degrees deviates from straight by a little more than
    179.2 degrees, which [double] rounds to 179.2: against a road that deviates
    by 128 degrees the quotient is 1.4 in [double], not more, and the road at
    52 degrees is not obvious, while on the rationals it is. *)
Lemma narrowness_off_whole_degrees :
  let road' := Double.road 1 52 true in
  let other := Double.road 2 0.7999999999999999 true in
  double_reaches_narrowness_test (B:=Double.example_handler uniform_edge_data (λ _, 0%nat))
    9%nat road' other = true ∧
  Double.isObviousOfTwo (K:=Double.example_constants)
    (B:=Double.example_handler uniform_edge_data (λ _, 0%nat)) 9%nat road' other = false ∧
  isObviousOfTwo (K:=example_constants) (B:=plain_handler) 9%nat
    (rational road') (rational other) = true.
Proof. cbn zeta. repeat split; by vm_compute. Qed.

(** ** Examples on [double] *)

(** The example handler on the rationals, asked about [double]s. *)
Definition plain_handler_on_doubles : Double.IntersectionHandler := on_doubles plain_handler.

(** The constants of the examples: 40, 60, 25 and 3 degrees. *)
Definition example_whole_constants : Double.Constants := whole_degree_constants 40 60 25 3.

(** A crossing of four roads, none of them straight ahead. *)
Definition skew_crossing_on_doubles : Double.Intersection :=
  [Double.road 0 0 true; Double.road 1 80 true; Double.road 2 170 true;
   Double.road 3 260 true].

(** A crossing of five roads, the one straight ahead closed. *)
Definition closed_straight_crossing_on_doubles : Double.Intersection :=
  [Double.road 0 0 true; Double.road 1 100 true; Double.road 2 170 true;
   Double.road 3 180 false; Double.road 4 190 true].

(** Two roads next to each other, the first of them off the whole degrees. *)
Definition near_right_angle_crossing : Double.Intersection :=
  [Double.road 0 0 true; Double.road 1 61 true; Double.road 2 94.99999999999997 true;
   Double.road 3 95 true].

Lemma whole_road_at e z allowed x :
  (0 ≤ z ≤ 360)%Z → x = of_deg z → whole_road (Double.road e x allowed).
Proof. intros Hz ->. by exists z. Qed.

Lemma skew_crossing_whole_standard : whole_standard skew_crossing_on_doubles.
Proof.
  split; [reflexivity|].
  repeat constructor; [by exists 80%Z|by exists 170%Z|by exists 260%Z].
Qed.

Lemma skew_crossing_one_straightest : one_straightest skew_crossing_on_doubles.
Proof.
  intros i j Hi Hj _ _ _ Hdev. cbn [length skew_crossing_on_doubles] in Hi, Hj.
  destruct i as [|[|[|[|i]]]]; try lia;
    destruct j as [|[|[|[|j]]]]; try lia; try reflexivity;
    vm_compute in Hdev; discriminate.
Qed.





(** The example handler with no two road classes that can be seen as a fork. *)
Definition no_fork_handler : IntersectionHandler :=
  mkIntersectionHandler
    uniform_edge_data
    0%nat
    (λ a b, negb (Nat.eqb a b))
    example_obviousByRoadClass
    (λ _ _, false)
    example_getTurnDirection
    (λ _ _, TurnType.Turn)
    (λ _ _, 0%nat)
    (λ _ _ _ road,
       mkTurnInstruction TurnType.Continue (example_getTurnDirection (angle road)))
    (λ _ _, false)
    (λ _ _ _,
       (mkTurnInstruction TurnType.Fork DirectionModifier.SlightLeft,
        mkTurnInstruction TurnType.Fork DirectionModifier.SlightRight))
    (λ _ _ _ _,
       (mkTurnInstruction TurnType.Fork DirectionModifier.SlightLeft,
        mkTurnInstruction TurnType.Fork DirectionModifier.Straight,
        mkTurnInstruction TurnType.Fork DirectionModifier.SlightRight)).

(** A fork of two roads of the same class between a road to the right and a
    road to the left. *)
Definition equal_class_fork_on_doubles : Double.Intersection :=
  [Double.road 0 0 true; Double.road 1 80 true; Double.road 2 170 true;
   Double.road 3 195 true; Double.road 4 280 true].

(** Why [Symmetric] asks for different priorities.  Where the two road classes
    of a fork cannot be seen as a fork and have the same priority,
    [handleComplexTurn] gives the instruction of the obvious turn to the left
    road (the right road gets it only where the class of the left road has the
    greater priority): the left road of the fork is the obvious one on both
    sides of the mirror. *)
Lemma classify_mirror_equal_priority :
  whole_standard equal_class_fork_on_doubles ∧
  Double.findFork (K:=example_whole_constants) (B:=on_doubles no_fork_handler) 9%nat
    equal_class_fork_on_doubles = Some (Fork.make 2 3) ∧
  Double.modifiers
    (Double.classify (K:=example_whole_constants) (B:=on_doubles no_fork_handler) 9%nat
       (Double.switch_left_and_right equal_class_fork_on_doubles)) =
    [DirectionModifier.UTurn; DirectionModifier.Right; DirectionModifier.SlightRight;
     DirectionModifier.Straight; DirectionModifier.Left] ∧
  Double.modifiers
    (Double.switch_left_and_right
       (Double.classify (K:=example_whole_constants) (B:=on_doubles no_fork_handler) 9%nat
          equal_class_fork_on_doubles)) =
    [DirectionModifier.UTurn; DirectionModifier.Right; DirectionModifier.Straight;
     DirectionModifier.SlightLeft; DirectionModifier.Left].
Proof.
  split.
  { split; [reflexivity|].
    repeat constructor; [by exists 80%Z|by exists 170%Z|by exists 195%Z|by exists 280%Z]. }
  repeat split; by vm_compute.
Qed.

(** ** More of the handler on [double] *)

(** X4. [ConnectedRoad::mirror] on [double] changes only the angle and the
    direction modifier: [eid], [bearing], [entry_allowed], the lane data and
    the turn type of a road are those of its mirror. *)
Theorem mirror_keeps_road (r : Double.ConnectedRoad) :
  Double.eid (Double.mirror r) = Double.eid r ∧
  Double.bearing (Double.mirror r) = Double.bearing r ∧
  Double.entry_allowed (Double.mirror r) = Double.entry_allowed r ∧
  Double.lane_data_id (Double.mirror r) = Double.lane_data_id r ∧
  type (Double.instruction (Double.mirror r)) = type (Double.instruction r).
Proof. apply double_mirror_fields. Qed.

Lemma double_lookup_switch_left_and_right (X : Double.Intersection) k :
  (k < length X)%nat →
  Double.switch_left_and_right X !!! k = Double.mirror (X !!! mirror_index (length X) k).
Proof.
  intros Hk. destruct X as [|r0 tl]; [cbn in Hk; lia|].
  rewrite double_switch_left_and_right_cons. unfold mirror_index.
  destruct k as [|j]; [done|]. cbn [Nat.eqb length] in *.
  replace (S (length tl) - S j)%nat with (S (length tl - S j)) by lia.
  rewrite !lookup_total_cons_ne_0 by done. cbn [Nat.pred].
  destruct (lookup_lt_is_Some_2 tl (length tl - S j)) as [x Hx]; [lia|].
  rewrite (list_lookup_total_correct tl _ x Hx).
  apply list_lookup_total_correct.
  rewrite reverse_lookup by (rewrite length_fmap; lia).
  by rewrite length_fmap, list_lookup_fmap, Hx.
Qed.

(** X9. The lambda [switch_left_and_right] of [assignLeftTurns] on [double]
    keeps the number of roads, leaves the road back at position 0 and moves
    the road at position [k] to position [size - k], every road mirrored;
    applied twice it puts every road back at its position, mirrored twice
    (which is the road itself where the road comes back from two mirrors,
    [mirror_involutive]). *)
Theorem switch_left_and_right_twice (X : Double.Intersection) :
  Double.switch_left_and_right (Double.switch_left_and_right X) =
    (λ r, Double.mirror (Double.mirror r)) <$> X ∧
  length (Double.switch_left_and_right X) = length X ∧
  ∀ k, (k < length X)%nat →
    Double.switch_left_and_right X !!! k =
    Double.mirror (X !!! (if Nat.eqb k 0 then 0 else length X - k)%nat).
Proof.
  split; [apply double_switch_left_and_right_twice|].
  split; [apply double_length_switch_left_and_right|].
  intros k Hk. by apply double_lookup_switch_left_and_right.
Qed.

Section WholeDegrees.
Context (Kd : Double.Constants) (HK : whole_constants Kd) (B : IntersectionHandler).

#[local] Instance whole_degrees_constants : Constants := rational_constants Kd.
#[local] Instance whole_degrees_handler : Double.IntersectionHandler := on_doubles B.

Lemma double_bearing_assignRightTurns via (X : Double.Intersection) up_to :
  Double.bearing <$> Double.assignRightTurns via X up_to = Double.bearing <$> X.
Proof. apply double_bearing_erase, double_erase_assignRightTurns. Qed.

Lemma double_bearing_assignLeftTurns via (X : Double.Intersection) starting_at :
  Double.bearing <$> Double.assignLeftTurns via X starting_at = Double.bearing <$> X.
Proof.
  rewrite (double_bearing_erase _ _ (double_erase_assignLeftTurns via X starting_at)).
  apply double_bearing_mirror_twice.
Qed.

Lemma whole_sides_right via (X : Double.Intersection) up_to :
  Forall whole_road X → Forall whole_road (Double.assignRightTurns via X up_to).
Proof. apply whole_erase_eq, double_erase_assignRightTurns. Qed.

Lemma double_erase_assignLeftTurns_whole via (X : Double.Intersection) starting_at :
  Forall whole_road X →
  double_erase <$> Double.assignLeftTurns via X starting_at = double_erase <$> X.
Proof. intros HX. by rewrite double_erase_assignLeftTurns, whole_mirror_twice. Qed.

Lemma whole_sides_left via (X : Double.Intersection) starting_at :
  Forall whole_road X → Forall whole_road (Double.assignLeftTurns via X starting_at).
Proof.
  intros HX. eapply whole_erase_eq; [|exact HX]. by apply double_erase_assignLeftTurns_whole.
Qed.

Lemma sides_commute_whole_degrees `{Hblind : !Blind} via (X : Double.Intersection)
    starting_at up_to :
  Forall whole_road X → (up_to ≤ starting_at)%nat →
  Double.assignRightTurns via (Double.assignLeftTurns via X starting_at) up_to =
  Double.assignLeftTurns via (Double.assignRightTurns via X up_to) starting_at.
Proof.
  intros HX Hle. apply rational_intersection_eq.
  - by apply whole_sides_right, whole_sides_left.
  - by apply whole_sides_left, whole_sides_right.
  - rewrite (sim_assignRightTurns Kd HK B) by by apply whole_sides_left.
    rewrite !(sim_assignLeftTurns Kd HK B) by (try apply whole_sides_right; done).
    rewrite (sim_assignRightTurns Kd HK B) by done.
    apply sides_commute; [by apply in_range_rational|done].
  - by rewrite double_bearing_assignRightTurns, !double_bearing_assignLeftTurns,
      double_bearing_assignRightTurns.
Qed.

Lemma assignLeftTurns_untouched_whole_degrees via (X : Double.Intersection) starting_at k :
  Forall whole_road X → (k < starting_at)%nat →
  Double.assignLeftTurns via X starting_at !!! k = X !!! k.
Proof.
  intros HX Hk.
  pose proof (double_erase_assignLeftTurns_whole via X starting_at HX) as E.
  apply double_road_eq; [by apply double_erase_eq_lookup|].
  change (Double.instruction (Double.assignLeftTurns via X starting_at !!! k))
    with (instruction (rational (Double.assignLeftTurns via X starting_at !!! k))).
  rewrite <- rational_lookup, (sim_assignLeftTurns Kd HK B) by done.
  change (instruction (assignLeftTurns via (rational <$> X) starting_at !!! k))
    with (ins (assignLeftTurns via (rational <$> X) starting_at) k).
  rewrite assignLeftTurns_outside by (try apply in_range_rational; done).
  unfold ins. by rewrite rational_lookup.
Qed.

Lemma assign_turns_closed_whole_degrees via (X : Double.Intersection) position :
  Forall whole_road X →
  (∀ i, (1 ≤ i < length X)%nat → Double.entry_allowed (X !!! i) = false) →
  Double.assignRightTurns via X position = X ∧ Double.assignLeftTurns via X position = X.
Proof.
  intros HX Hclosed.
  assert (Hall : ∀ i, (1 ≤ i)%nat → entry_allowed ((rational <$> X) !!! i) = false).
  { intros i Hi. rewrite rational_lookup.
    destruct (decide (i < length X)%nat) as [Hlt|Hge]; [by apply Hclosed|].
    by rewrite list_lookup_total_alt, lookup_ge_None_2 by lia. }
  split; apply rational_intersection_eq; try done.
  - by apply whole_sides_right.
  - rewrite (sim_assignRightTurns Kd HK B) by done. by apply assignRightTurns_closed.
  - apply double_bearing_assignRightTurns.
  - by apply whole_sides_left.
  - rewrite (sim_assignLeftTurns Kd HK B) by done.
    apply assignLeftTurns_closed; [by apply in_range_rational|done].
  - apply double_bearing_assignLeftTurns.
Qed.

Lemma findFork_mirror_whole_degrees via (X : Double.Intersection) :
  narrow_and_group_fit → whole_standard X → one_straightest X →
  Double.findFork via (Double.switch_left_and_right X) =
  match Double.findFork via X with
  | Some fork => Some (Fork.make (length X - Fork.left fork) (length X - Fork.right fork))
  | None => None
  end.
Proof.
  intros Hfit HX Hone. pose proof (whole_standard_whole X HX) as Hw.
  rewrite !(sim_findFork Kd HK B) by (try apply whole_switch_left_and_right; done).
  rewrite sim_switch_left_and_right by done.
  rewrite findFork_mirrored, length_fmap;
    [|done|by apply whole_standard_standard|by apply one_straightest_unique].
  by destruct (findFork via (rational <$> X)).
Qed.

Lemma sim_is_sorted (X : Double.Intersection) :
  Forall whole_road X →
  is_sorted Double.compareByAngle X = is_sorted compareByAngle (rational <$> X).
Proof.
  intros HX. induction X as [|x X IH]; [done|].
  apply Forall_cons_1 in HX as [Hx HX]. specialize (IH HX).
  destruct X as [|y X]; [done|]. apply Forall_cons_1 in HX as [Hy _].
  change (is_sorted Double.compareByAngle (x :: y :: X))
    with (negb (Double.compareByAngle y x) && is_sorted Double.compareByAngle (y :: X)).
  change (is_sorted compareByAngle (rational <$> x :: y :: X))
    with (negb (compareByAngle (rational y) (rational x)) &&
          is_sorted compareByAngle (rational <$> y :: X)).
  rewrite IH. f_equal. f_equal.
  unfold Double.compareByAngle, compareByAngle. cbn [angle rational].
  by apply whole_ltb.
Qed.

Lemma sim_valid (X : Double.Intersection) :
  Forall whole_road X → Double.valid X = valid (rational <$> X).
Proof.
  intros HX. unfold Double.valid, valid.
  rewrite sim_is_sorted, rational_lookup by done. cbn [angle rational].
  rewrite whole_ltb_epsilon by by apply whole_road_lookup.
  by destruct X.
Qed.

Lemma classify_valid_whole_degrees via (X : Double.Intersection) :
  Forall whole_road X → Double.valid (Double.classify via X) = Double.valid X.
Proof.
  intros HX. rewrite (sim_valid X) by done.
  rewrite (sim_valid (Double.classify via X)) by by apply whole_classify.
  rewrite (sim_classify Kd HK B) by done.
  apply valid_erase_eq, erase_classify. by apply in_range_rational.
Qed.

Lemma obvious_turn_kept_whole_degrees via (X : Double.Intersection) :
  Forall whole_road X →
  (0 < Double.findObviousTurn via X < length X)%nat →
  double_ins (Double.handleComplexTurn via X) (Double.findObviousTurn via X) =
    Double.getInstructionForObvious (length X) via
      (Double.isThroughStreet (Double.findObviousTurn via X) X)
      (X !!! Double.findObviousTurn via X) ∧
  (length X = 3%nat →
   double_ins (Double.handleThreeWayTurn via X) (Double.findObviousTurn via X) =
     Double.getInstructionForObvious 3 via
       (Double.isThroughStreet (Double.findObviousTurn via X) X)
       (X !!! Double.findObviousTurn via X)).
Proof.
  intros HX Ho.
  change (Double.findObviousTurn via X) with (findObviousTurn via (rational <$> X)) in *.
  rewrite <- (length_fmap rational X) in Ho.
  destruct (obvious_turn_kept_exact via (rational <$> X) (in_range_rational X HX) Ho)
    as [Hc H3].
  rewrite length_fmap, rational_lookup in Hc. rewrite length_fmap, rational_lookup in H3.
  rewrite <- (sim_handleComplexTurn Kd HK B) in Hc by done.
  rewrite <- (sim_handleThreeWayTurn Kd HK B) in H3 by done.
  unfold ins in Hc, H3. rewrite rational_lookup in Hc. rewrite rational_lookup in H3.
  split; [exact Hc|exact H3].
Qed.

Lemma isEndOfRoad_mirror_whole_degrees back back' right left :
  whole_inside right → whole_inside left →
  Double.isEndOfRoad back' (Double.mirror left) (Double.mirror right) =
  Double.isEndOfRoad back right left.
Proof.
  intros Hr Hl.
  pose proof (whole_inside_whole _ Hr) as Hwr. pose proof (whole_inside_whole _ Hl) as Hwl.
  rewrite !(sim_isEndOfRoad Kd HK) by (try apply whole_road_mirror; done).
  rewrite !rational_mirror by done.
  by apply isEndOfRoad_mirror_exact; apply whole_inside_strictly.
Qed.

Lemma findClosestToStraight_mirror_whole_degrees (X : Double.Intersection) :
  whole_standard X → one_straightest X →
  Double.id (Double.findClosestToStraight (Double.switch_left_and_right X)) =
    (if Nat.eqb (Double.id (Double.findClosestToStraight X)) 0 then 0
     else length X - Double.id (Double.findClosestToStraight X))%nat ∧
  Double.deviation_from_straight
    (Double.findClosestToStraight (Double.switch_left_and_right X)) =
    Double.deviation_from_straight (Double.findClosestToStraight X).
Proof.
  intros HX Hone. pose proof (whole_standard_whole X HX) as Hw.
  destruct (sim_findClosestToStraight X Hw) as (Hid & Hwd & Hv).
  destruct (sim_findClosestToStraight (Double.switch_left_and_right X)
              (whole_switch_left_and_right X Hw)) as (Hid' & Hwd' & Hv').
  rewrite sim_switch_left_and_right in Hid', Hv' by done.
  rewrite findClosestToStraight_mirrored in Hid', Hv'
    by (first [by apply whole_standard_standard|by apply one_straightest_unique]).
  rewrite length_fmap in Hid'. cbn [id deviation_from_straight] in Hid', Hv'.
  rewrite Hid', Hid. split; [done|].
  apply value_inj; [done..|]. by rewrite Hv', Hv.
Qed.

End WholeDegrees.

Lemma example_whole_constants_whole : whole_constants example_whole_constants.
Proof. apply whole_degree_constants_whole; lia. Qed.

Lemma skew_crossing_whole : Forall whole_road skew_crossing_on_doubles.
Proof. apply whole_standard_whole, skew_crossing_whole_standard. Qed.

Lemma closed_straight_crossing_whole : Forall whole_road closed_straight_crossing_on_doubles.
Proof.
  repeat constructor;
    [by exists 0%Z|by exists 100%Z|by exists 170%Z|by exists 180%Z|by exists 190%Z].
Qed.

(** X30. On whole degrees the classifier on [double] is the classifier on the
    rationals: for angles and constants that are whole numbers of degrees
    between 0 and 360, the roads the handler on [double] returns stand for the
    roads the handler on the rationals returns for the roads the input stands
    for. *)
Theorem classify_on_whole_degrees (Kd : Double.Constants) (B : IntersectionHandler)
    (via : EdgeID) (X : Double.Intersection) :
  whole_constants Kd → Forall whole_road X →
  rational <$> Double.classify (K:=Kd) (B:=on_doubles B) via X =
  classify (K:=rational_constants Kd) (B:=B) via (rational <$> X).
Proof. intros HK HX. by apply (sim_classify Kd HK B). Qed.

Lemma classify_on_whole_degrees_witness :
  rational <$> Double.classify (K:=example_whole_constants) (B:=on_doubles plain_handler)
                 9%nat closed_straight_crossing_on_doubles =
  classify (K:=rational_constants example_whole_constants) (B:=plain_handler) 9%nat
    (rational <$> closed_straight_crossing_on_doubles).
Proof.
  apply classify_on_whole_degrees;
    [exact example_whole_constants_whole|exact closed_straight_crossing_whole].
Defined.

(** X18. On whole degrees [assignLeftTurns] returns every road before
    [starting_at] as it is, the road back included, and keeps the number of
    roads, although it mirrors and reverses the intersection on the way. *)
Theorem assignLeftTurns_untouched (Kd : Double.Constants) (B : IntersectionHandler)
    (via : EdgeID) (X : Double.Intersection) (starting_at : nat) :
  whole_constants Kd → Forall whole_road X →
  length (Double.assignLeftTurns (K:=Kd) (B:=on_doubles B) via X starting_at) = length X ∧
  ∀ k, (k < starting_at)%nat →
    Double.assignLeftTurns (K:=Kd) (B:=on_doubles B) via X starting_at !!! k = X !!! k.
Proof.
  intros HK HX. split.
  - by apply double_erase_eq_length, double_erase_assignLeftTurns_whole.
  - intros k Hk. by apply (assignLeftTurns_untouched_whole_degrees Kd HK B).
Qed.

Lemma assignLeftTurns_untouched_witness :
  length (Double.assignLeftTurns (K:=example_whole_constants) (B:=on_doubles plain_handler)
            9%nat skew_crossing_on_doubles 2) = length skew_crossing_on_doubles ∧
  ∀ k, (k < 2)%nat →
    Double.assignLeftTurns (K:=example_whole_constants) (B:=on_doubles plain_handler)
      9%nat skew_crossing_on_doubles 2 !!! k = skew_crossing_on_doubles !!! k.
Proof.
  apply assignLeftTurns_untouched;
    [exact example_whole_constants_whole|exact skew_crossing_whole].
Defined.

(** X19. On whole degrees the two side assigners can be run in either order:
    for oracles that do not read instructions and [up_to <= starting_at],
    assigning the left turns and then the right turns gives the same
    intersection as assigning the right turns and then the left turns. *)
Theorem assignRightTurns_assignLeftTurns_commute (Kd : Double.Constants)
    (B : IntersectionHandler) {Hblind : Blind} (via : EdgeID) (X : Double.Intersection)
    (starting_at up_to : nat) :
  whole_constants Kd → Forall whole_road X → (up_to ≤ starting_at)%nat →
  Double.assignRightTurns (K:=Kd) (B:=on_doubles B) via
    (Double.assignLeftTurns (K:=Kd) (B:=on_doubles B) via X starting_at) up_to =
  Double.assignLeftTurns (K:=Kd) (B:=on_doubles B) via
    (Double.assignRightTurns (K:=Kd) (B:=on_doubles B) via X up_to) starting_at.
Proof. intros HK HX Hle. by apply (sides_commute_whole_degrees Kd HK B). Qed.

Lemma assignRightTurns_assignLeftTurns_commute_witness :
  Double.assignRightTurns (K:=example_whole_constants) (B:=on_doubles plain_handler) 9%nat
    (Double.assignLeftTurns (K:=example_whole_constants) (B:=on_doubles plain_handler)
       9%nat closed_straight_crossing_on_doubles 3) 3 =
  Double.assignLeftTurns (K:=example_whole_constants) (B:=on_doubles plain_handler) 9%nat
    (Double.assignRightTurns (K:=example_whole_constants) (B:=on_doubles plain_handler)
       9%nat closed_straight_crossing_on_doubles 3) 3.
Proof.
  apply (assignRightTurns_assignLeftTurns_commute _ _ (Hblind:=plain_handler_blind));
    [exact example_whole_constants_whole|exact closed_straight_crossing_whole|lia].
Defined.

(** A crossing all of whose roads but the road back are closed. *)
Definition closed_crossing_on_doubles : Double.Intersection :=
  [Double.road 0 0 true; Double.road 1 90 false; Double.road 2 180 false;
   Double.road 3 270 false].

(** X20. On whole degrees, where no road behind the road back allows entry,
    neither side assigner writes anything: [assignRightTurns] and
    [assignLeftTurns] return the intersection as it is, for every [up_to] and
    [starting_at]. *)
Theorem assign_turns_closed (Kd : Double.Constants) (B : IntersectionHandler)
    (via : EdgeID) (X : Double.Intersection) (position : nat) :
  whole_constants Kd → Forall whole_road X →
  (∀ i, (1 ≤ i < length X)%nat → Double.entry_allowed (X !!! i) = false) →
  Double.assignRightTurns (K:=Kd) (B:=on_doubles B) via X position = X ∧
  Double.assignLeftTurns (K:=Kd) (B:=on_doubles B) via X position = X.
Proof. intros HK HX Hclosed. by apply (assign_turns_closed_whole_degrees Kd HK B). Qed.

Lemma assign_turns_closed_witness :
  Double.assignRightTurns (K:=example_whole_constants) (B:=on_doubles plain_handler) 9%nat
    closed_crossing_on_doubles 3 = closed_crossing_on_doubles ∧
  Double.assignLeftTurns (K:=example_whole_constants) (B:=on_doubles plain_handler) 9%nat
    closed_crossing_on_doubles 3 = closed_crossing_on_doubles.
Proof.
  apply assign_turns_closed.
  - exact example_whole_constants_whole.
  - repeat constructor; [by exists 0%Z|by exists 90%Z|by exists 180%Z|by exists 270%Z].
  - intros i Hi. cbn [length closed_crossing_on_doubles] in Hi.
    destruct i as [|[|[|[|i]]]]; try lia; reflexivity.
Defined.

(** A fork of two roads, at 170 and at 195 degrees. *)
Definition narrow_fork_on_doubles : Double.Intersection :=
  [Double.road 0 0 true; Double.road 1 170 true; Double.road 2 195 true].

Lemma narrow_fork_whole_standard : whole_standard narrow_fork_on_doubles.
Proof. split; [reflexivity|]. repeat constructor; [by exists 170%Z|by exists 195%Z]. Qed.

Lemma narrow_fork_one_straightest : one_straightest narrow_fork_on_doubles.
Proof.
  intros i j Hi Hj _ _ _ Hdev. cbn [length narrow_fork_on_doubles] in Hi, Hj.
  destruct i as [|[|[|i]]]; try lia;
    destruct j as [|[|[|j]]]; try lia; try reflexivity;
    vm_compute in Hdev; discriminate.
Qed.

(** X22. On whole degrees [findFork] treats left and right alike: on the
    mirrored and reversed intersection it returns the mirror of the fork it
    finds in the intersection, from [size - left] to [size - right], and no
    fork where it finds none, when one road that allows entry is straighter
    than every other, for constants with [NARROW_TURN_ANGLE + GROUP_ANGLE <
    180]. *)
Theorem findFork_mirror (narrow group fuzzy maximal : Z) (B : IntersectionHandler)
    (via : EdgeID) (X : Double.Intersection) :
  (0 ≤ narrow ≤ 360)%Z → (0 ≤ group ≤ 360)%Z → (0 ≤ fuzzy ≤ 360)%Z →
  (0 ≤ maximal ≤ 360)%Z → (narrow + group < 180)%Z →
  whole_standard X → one_straightest X →
  Double.findFork (K:=whole_degree_constants narrow group fuzzy maximal) (B:=on_doubles B)
    via (Double.switch_left_and_right X) =
  match Double.findFork (K:=whole_degree_constants narrow group fuzzy maximal)
          (B:=on_doubles B) via X with
  | Some fork => Some (Fork.make (length X - Fork.left fork) (length X - Fork.right fork))
  | None => None
  end.
Proof.
  intros Hn Hg Hf Hm Hng HX Hone.
  apply (findFork_mirror_whole_degrees (whole_degree_constants narrow group fuzzy maximal));
    [by apply whole_degree_constants_whole|by apply whole_degree_constants_fit|done..].
Qed.

Lemma findFork_mirror_witness :
  Double.findFork (K:=whole_degree_constants 40 60 25 3) (B:=on_doubles plain_handler)
    9%nat (Double.switch_left_and_right narrow_fork_on_doubles) =
  match Double.findFork (K:=whole_degree_constants 40 60 25 3) (B:=on_doubles plain_handler)
          9%nat narrow_fork_on_doubles with
  | Some fork =>
      Some (Fork.make (length narrow_fork_on_doubles - Fork.left fork)
                      (length narrow_fork_on_doubles - Fork.right fork))
  | None => None
  end.
Proof.
  apply findFork_mirror;
    [lia..|exact narrow_fork_whole_standard|exact narrow_fork_one_straightest].
Defined.

(** X24. On whole degrees the classifier returns a valid intersection for a
    valid one and an invalid one for an invalid one.  (Off whole degrees a
    road can come back from [assignLeftTurns] at another angle, and at 360
    degrees when it was within 2^-51 of the road back.) *)
Theorem classify_valid (Kd : Double.Constants) (B : IntersectionHandler)
    (via : EdgeID) (X : Double.Intersection) :
  whole_constants Kd → Forall whole_road X →
  Double.valid (Double.classify (K:=Kd) (B:=on_doubles B) via X) = Double.valid X.
Proof. intros HK HX. by apply (classify_valid_whole_degrees Kd HK B). Qed.

Lemma classify_valid_witness :
  Double.valid (Double.classify (K:=example_whole_constants) (B:=on_doubles plain_handler)
                  9%nat closed_straight_crossing_on_doubles) =
  Double.valid closed_straight_crossing_on_doubles.
Proof.
  apply classify_valid;
    [exact example_whole_constants_whole|exact closed_straight_crossing_whole].
Defined.

(** A crossing with two roads to the right of the road straight ahead. *)
Definition right_pair_crossing_on_doubles : Double.Intersection :=
  [Double.road 0 0 true; Double.road 1 145 true; Double.road 2 155 true;
   Double.road 3 180 true; Double.road 4 270 true].

(** X25. On whole degrees the instruction of the obvious turn is final.  When
    [findObviousTurn] names a road behind the road back, [handleComplexTurn]
    (and [handleThreeWayTurn] at three roads) leaves this road with the
    instruction of [getInstructionForObvious] for it: the assignment of the
    turns on its two sides does not write to it. *)
Theorem obvious_turn_kept (Kd : Double.Constants) (B : IntersectionHandler)
    (via : EdgeID) (X : Double.Intersection) :
  whole_constants Kd → Forall whole_road X →
  (0 < Double.findObviousTurn (IntersectionHandler:=on_doubles B) via X < length X)%nat →
  double_ins (Double.handleComplexTurn (K:=Kd) (B:=on_doubles B) via X)
    (Double.findObviousTurn (IntersectionHandler:=on_doubles B) via X) =
    Double.getInstructionForObvious (IntersectionHandler:=on_doubles B) (length X) via
      (Double.isThroughStreet (IntersectionHandler:=on_doubles B)
         (Double.findObviousTurn (IntersectionHandler:=on_doubles B) via X) X)
      (X !!! Double.findObviousTurn (IntersectionHandler:=on_doubles B) via X) ∧
  (length X = 3%nat →
   double_ins (Double.handleThreeWayTurn (K:=Kd) (B:=on_doubles B) via X)
     (Double.findObviousTurn (IntersectionHandler:=on_doubles B) via X) =
     Double.getInstructionForObvious (IntersectionHandler:=on_doubles B) 3 via
       (Double.isThroughStreet (IntersectionHandler:=on_doubles B)
          (Double.findObviousTurn (IntersectionHandler:=on_doubles B) via X) X)
       (X !!! Double.findObviousTurn (IntersectionHandler:=on_doubles B) via X)).
Proof. intros HK HX Ho. by apply (obvious_turn_kept_whole_degrees Kd HK B). Qed.

Lemma obvious_turn_kept_witness :
  double_ins (Double.handleComplexTurn (K:=example_whole_constants)
                (B:=on_doubles third_road_handler) 9%nat right_pair_crossing_on_doubles) 3 =
    Double.getInstructionForObvious (IntersectionHandler:=on_doubles third_road_handler)
      5 9%nat false (right_pair_crossing_on_doubles !!! 3%nat) ∧
  (length right_pair_crossing_on_doubles = 3%nat →
   double_ins (Double.handleThreeWayTurn (K:=example_whole_constants)
                 (B:=on_doubles third_road_handler) 9%nat right_pair_crossing_on_doubles)
     3 =
     Double.getInstructionForObvious (IntersectionHandler:=on_doubles third_road_handler)
       3 9%nat false (right_pair_crossing_on_doubles !!! 3%nat)).
Proof.
  apply (obvious_turn_kept example_whole_constants third_road_handler 9%nat
           right_pair_crossing_on_doubles).
  - exact example_whole_constants_whole.
  - repeat constructor;
      [by exists 0%Z|by exists 145%Z|by exists 155%Z|by exists 180%Z|by exists 270%Z].
  - cbn. lia.
Defined.

(** X26. On whole degrees [isEndOfRoad] treats left and right alike: for two
    roads at whole degrees from 1 to 359, the mirrored left road and the
    mirrored right road, in this order, are the two sides of an end of the
    road exactly when the right road and the left road are.  (The road back
    is not looked at.) *)
Theorem isEndOfRoad_mirror (Kd : Double.Constants)
    (back back' possible_right_turn possible_left_turn : Double.ConnectedRoad) :
  whole_constants Kd → whole_inside possible_right_turn → whole_inside possible_left_turn →
  Double.isEndOfRoad (K:=Kd) back' (Double.mirror possible_left_turn)
    (Double.mirror possible_right_turn) =
  Double.isEndOfRoad (K:=Kd) back possible_right_turn possible_left_turn.
Proof. intros HK Hr Hl. by apply (isEndOfRoad_mirror_whole_degrees Kd HK). Qed.

Lemma isEndOfRoad_mirror_witness :
  Double.isEndOfRoad (K:=example_whole_constants) (Double.road 0 0 true)
    (Double.mirror (Double.road 2 270 true)) (Double.mirror (Double.road 1 90 true)) =
  Double.isEndOfRoad (K:=example_whole_constants) (Double.road 0 0 true)
    (Double.road 1 90 true) (Double.road 2 270 true).
Proof.
  apply isEndOfRoad_mirror;
    [exact example_whole_constants_whole|by exists 90%Z|by exists 270%Z].
Defined.

(** X29. On whole degrees [findClosestToStraight] treats left and right
    alike when one road that allows entry is straighter than every other: on
    the mirrored and reversed intersection it finds the mirror position of the
    straightest road (0 stays 0, [i] becomes [size - i]) and the same
    deviation. *)
Theorem findClosestToStraight_mirror (X : Double.Intersection) :
  whole_standard X → one_straightest X →
  Double.id (Double.findClosestToStraight (Double.switch_left_and_right X)) =
    (if Nat.eqb (Double.id (Double.findClosestToStraight X)) 0 then 0
     else length X - Double.id (Double.findClosestToStraight X))%nat ∧
  Double.deviation_from_straight
    (Double.findClosestToStraight (Double.switch_left_and_right X)) =
    Double.deviation_from_straight (Double.findClosestToStraight X).
Proof. apply findClosestToStraight_mirror_whole_degrees. Qed.

Lemma findClosestToStraight_mirror_witness :
  Double.id (Double.findClosestToStraight
               (Double.switch_left_and_right skew_crossing_on_doubles)) =
    (if Nat.eqb (Double.id (Double.findClosestToStraight skew_crossing_on_doubles)) 0 then 0
     else length skew_crossing_on_doubles -
          Double.id (Double.findClosestToStraight skew_crossing_on_doubles))%nat ∧
  Double.deviation_from_straight
    (Double.findClosestToStraight (Double.switch_left_and_right skew_crossing_on_doubles)) =
    Double.deviation_from_straight (Double.findClosestToStraight skew_crossing_on_doubles).
Proof.
  apply findClosestToStraight_mirror;
    [exact skew_crossing_whole_standard|exact skew_crossing_one_straightest].
Defined.
